(** * Acrophobia (toady-acrophobia): a shallow embedding of the game engine

    The development follows the JavaScript sources function by function:
    - [JS]            the builtins the game leans on (numbers with NaN,
                      truthiness, [Array.prototype.sort], [parseInt], the
                      string methods used by the phrase normaliser);
    - [oUtil]         lib/util/Object.js ([forEach]);
    - [Round]         lib/Round.js (phase machine, countdown, vote tally);
    - [NormalRound]   lib/NormalRound.js ([_getPoints]);
    - [FaceOffRound]  lib/FaceOffRound.js ([startVote]);
    - [FaceOff]       lib/FaceOff.js (final resolution);
    - [AcroGame]      lib/AcroGame.js (user table, stop, message gates).

    Modelling conventions.
    - A user id is a [nat]: AcroGame hands out [_userNames.length].  Used as a
      property name it is a canonical array index, so every object keyed by
      user ids enumerates its keys in ascending numeric order; such objects
      are [gmap nat V] and [JS.Object_keys] sorts the keys.
    - The table [_userIds] of AcroGame is keyed by user names, which are
      whatever the users call themselves: it is a plain object, so that the
      names "__proto__" and "hasOwnProperty" do not behave as the others
      ([AcroGame.hasOwnProperty], [AcroGame.assign], [AcroGame.read]).
    - A JavaScript number is an integer [Z], or [JS.NaN] where the code can
      produce it; [undefined] read from an object is [None].
    - A string is a [string] of code units in the Latin-1 range.
    - Effects are explicit: a method takes the object state and returns the
      new state with the events it emitted; the clock read by
      [new Date().getTime()] is an argument; a timer is the list of delays
      it schedules. *)

From stdpp Require Import gmap strings list fin_maps sorting pretty.
From Stdlib Require Import ZArith Ascii.

(* ===================================================================== *)
(** * JavaScript builtins *)
(* ===================================================================== *)

Module JS.

(** Numbers: the integers the game computes with, and NaN. *)
Inductive num : Type :=
| Num (z : Z)
| NaN.

Global Instance num_eq_dec : EqDecision num.
Proof. solve_decision. Defined.

(** [ToNumber] of a property read: [undefined] becomes NaN. *)
Definition of_read (o : option Z) : num :=
  match o with Some z => Num z | None => NaN end.

(** [x + y] and [x - y] on numbers. *)
Definition add (x y : num) : num :=
  match x, y with Num a, Num b => Num (a + b) | _, _ => NaN end.

Definition sub (x y : num) : num :=
  match x, y with Num a, Num b => Num (a - b) | _, _ => NaN end.

(** A property read used as a number: [undefined] becomes NaN. *)
Definition to_num (o : option num) : num := default NaN o.

(** [x != y] between two property reads holding numbers: [undefined]
    equals only itself, NaN differs from everything. *)
Definition loose_neq (x y : option num) : bool :=
  match x, y with
  | None, None => false
  | Some (Num a), Some (Num b) => negb (a =? b)%Z
  | _, _ => true
  end.

(** Truthiness of a number: neither 0 nor NaN. *)
Definition truthy (x : num) : bool :=
  match x with Num z => negb (z =? 0)%Z | NaN => false end.

(** Truthiness of a property read holding a number. *)
Definition truthy_read (o : option num) : bool :=
  match o with Some x => truthy x | None => false end.

(** [x || 0] for a property read holding a number. *)
Definition or0 (o : option num) : num :=
  if truthy_read o then to_num o else Num 0.

(** Truthiness of a property read holding a string: defined and not
    the empty string. *)
Definition truthy_str (o : option string) : bool :=
  match o with Some EmptyString => false | Some _ => true | None => false end.

(** [Object.keys(o)] for an object whose property names are array
    indices: ascending numeric order.  [for (key in o)] visits the own
    properties in the same order. *)
Definition Object_keys {V} (o : gmap nat V) : list nat :=
  merge_sort Nat.le (map fst (map_to_list o)).

(** [Object.keys(o)] for an object that may hold, besides user ids, one
    property whose name is not an array index (key [None]): the indices
    come first, in ascending order. *)
Definition Object_keys_x {V} (o : gmap (option nat) V) : list (option nat) :=
  map Some (merge_sort Nat.le (omap id (map fst (map_to_list o))))
  ++ match o !! None with Some _ => [None] | None => [] end.

(** ** Array.prototype.sort

    The comparator answers with a number; the sort moves an element
    only when the answer is greater than zero (NaN counts as "not
    greater").  The arrays sorted by the game hold a handful of user
    ids; for these V8 runs a straight insertion sort, each element
    being walked leftwards from the end of the sorted prefix.  The
    sorted prefix is kept here with its last element first. *)
Definition gt0 (x : num) : bool :=
  match x with Num z => (0 <? z)%Z | NaN => false end.

Fixpoint insert_back {A} (cmp : A → A → num) (x : A) (prefix_rev : list A)
  : list A :=
  match prefix_rev with
  | [] => [x]
  | tmp :: rest =>
      if gt0 (cmp tmp x) then tmp :: insert_back cmp x rest
      else x :: tmp :: rest
  end.

Definition sort {A} (cmp : A → A → num) (l : list A) : list A :=
  rev (foldl (λ acc x, insert_back cmp x acc) [] l).

(** ** Arrays with holes: [a[i] = x] grows the array when [i] is past
    the end, leaving holes (read as [undefined]). *)
Definition array_set {A} (i : nat) (x : A) (a : list (option A))
  : list (option A) :=
  if decide (i < length a)%nat then <[i := Some x]> a
  else a ++ replicate (i - length a) None ++ [Some x].

(** [a[i]] on such an array. *)
Definition array_get {A} (a : list (option A)) (i : nat) : option A :=
  mjoin (a !! i).

(** ** Comparisons on numbers: false whenever NaN is involved. *)
Definition geb (x y : num) : bool :=
  match x, y with Num a, Num b => (b <=? a)%Z | _, _ => false end.

Definition ltb (x y : num) : bool :=
  match x, y with Num a, Num b => (a <? b)%Z | _, _ => false end.

(** ** Characters *)
Definition code (c : ascii) : nat := nat_of_ascii c.

Definition between (lo hi : nat) (c : ascii) : bool :=
  (lo <=? code c)%nat && (code c <=? hi)%nat.

(** The class [\s] (and the white space skipped by [parseInt]) within
    Latin-1: TAB, LF, VT, FF, CR, space and the no-break space. *)
Definition is_space (c : ascii) : bool :=
  between 9 13 c || (code c =? 32)%nat || (code c =? 160)%nat.

(** ** String.prototype.toUpperCase

    ASCII letters are folded; sharp s becomes "SS".  The other
    non-ASCII code units are left as they are: neither they nor their
    upper-case forms belong to the class that the phrase normaliser
    keeps. *)
Fixpoint toUpperCase (s : string) : string :=
  match s with
  | EmptyString => EmptyString
  | String c s' =>
      if between 97 122 c
      then String (ascii_of_nat (code c - 32)) (toUpperCase s')
      else if (code c =? 223)%nat
           then String "S" (String "S" (toUpperCase s'))
           else String c (toUpperCase s')
  end.

(** [s.replace(/[^A-Z0-9'\-]/g, ' ')] *)
Definition kept (c : ascii) : bool :=
  between 65 90 c || between 48 57 c || (code c =? 39)%nat
  || (code c =? 45)%nat.

Fixpoint replace_unkept (s : string) : string :=
  match s with
  | EmptyString => EmptyString
  | String c s' =>
      String (if kept c then c else " "%char) (replace_unkept s')
  end.

(** [s.replace(/\s+/g, ' ')]: every maximal run of white space becomes
    one space. *)
Fixpoint collapse_spaces (s : string) : string :=
  match s with
  | EmptyString => EmptyString
  | String c s' =>
      if is_space c then
        match s' with
        | String c' _ =>
            if is_space c' then collapse_spaces s'
            else String " " (collapse_spaces s')
        | EmptyString => String " " EmptyString
        end
      else String c (collapse_spaces s')
  end.

(** [s.replace(/(?:^\s|\s$)/g, '')]: one white-space character is
    removed at the start, then one at the end. *)
Definition strip_first (s : string) : string :=
  match s with
  | String c s' => if is_space c then s' else s
  | EmptyString => s
  end.

Fixpoint strip_last (s : string) : string :=
  match s with
  | EmptyString => EmptyString
  | String c EmptyString => if is_space c then EmptyString else s
  | String c s' => String c (strip_last s')
  end.

Definition strip_ends (s : string) : string := strip_last (strip_first s).

(** [s.split(' ')]: the pieces between single spaces; never empty as a
    list, and [''.split(' ')] is [['']]. *)
Fixpoint split_space (s : string) : list string :=
  match s with
  | EmptyString => [EmptyString]
  | String c s' =>
      if (code c =? 32)%nat then EmptyString :: split_space s'
      else match split_space s' with
           | w :: ws => String c w :: ws
           | [] => [String c EmptyString]
           end
  end.

(** [acro += word[0]]: [word[0]] of the empty string is [undefined],
    and a string plus [undefined] appends the text "undefined". *)
Definition append_first (acro word : string) : string :=
  match word with
  | String c _ => acro +:+ String c EmptyString
  | EmptyString => acro +:+ "undefined"
  end.

(** ** parseInt(s) with no radix argument

    White space is skipped, one sign is read, a "0x"/"0X" prefix
    selects radix 16 (otherwise radix 10), then the longest run of
    digits is read; no digit at all gives NaN.  Whatever follows the
    digits is ignored.  The value is kept exact: the game only compares
    it with the length of an array, far below the integers that a
    double cannot hold. *)
Definition digit_val (radix : Z) (c : ascii) : option Z :=
  let n := Z.of_nat (code c) in
  let v := if between 48 57 c then Some (n - 48)%Z
           else if between 97 122 c then Some (n - 87)%Z
           else if between 65 90 c then Some (n - 55)%Z
           else None in
  match v with
  | Some d => if (d <? radix)%Z then Some d else None
  | None => None
  end.

Fixpoint parse_digits (radix : Z) (s : string) (acc : option Z) : option Z :=
  match s with
  | String c s' =>
      match digit_val radix c with
      | Some d => parse_digits radix s' (Some (radix * default 0%Z acc + d)%Z)
      | None => acc
      end
  | EmptyString => acc
  end.

Fixpoint skip_spaces (s : string) : string :=
  match s with
  | String c s' => if is_space c then skip_spaces s' else s
  | EmptyString => s
  end.

Definition parseInt (s : string) : num :=
  let s := skip_spaces s in
  let '(sign, s) :=
    match s with
    | String "-" s' => ((-1)%Z, s')
    | String "+" s' => (1%Z, s')
    | _ => (1%Z, s)
    end in
  let '(radix, s) :=
    match s with
    | String "0" (String "x" s') => (16%Z, s')
    | String "0" (String "X" s') => (16%Z, s')
    | _ => (10%Z, s)
    end in
  match parse_digits radix s None with
  | Some n => Num (sign * n)
  | None => NaN
  end.

(** ** Math.random

    A value of [Math.random()] is the rational [p / (p + d + 1)]: every
    rational of [0, 1) is of this form.  The rounding of doubles is not
    modelled. *)
Record random : Type := mkRandom { rnd_p : nat; rnd_d : nat }.

(** [Math.floor(x * n)] for such an [x] and an integer [n]. *)
Definition floor_times (x : random) (n : Z) : Z :=
  (Z.of_nat (rnd_p x) * n / Z.of_nat (rnd_p x + rnd_d x + 1))%Z.

(** [s[i]] for a string and an integer index: a character, or
    [undefined] outside the string. *)
Definition char_at (s : string) (i : Z) : option ascii :=
  if (0 <=? i)%Z then String.get (Z.to_nat i) s else None.

(** [str += s[i]] *)
Definition append_read (str : string) (o : option ascii) : string :=
  match o with
  | Some c => str +:+ String c EmptyString
  | None => str +:+ "undefined"
  end.

(** [temp = a[i]; a[i] = a[j]; a[j] = temp] on an array without holes,
    both indices inside. *)
Definition swap {A} (i j : nat) (a : list A) : list A :=
  match a !! i, a !! j with
  | Some x, Some y => <[j := x]> (<[i := y]> a)
  | _, _ => a
  end.

(** ** Texts

    A number in a concatenation: its decimal notation (the numbers of
    the game are integers). *)
Definition numToString (z : Z) : string := pretty z.

(** A property read in a concatenation: [undefined] gives the text
    "undefined". *)
Definition str (o : option string) : string := default "undefined" o.

(** [a.join(sep)]: an [undefined] element gives the empty text. *)
Fixpoint join (sep : string) (a : list (option string)) : string :=
  match a with
  | [] => EmptyString
  | [x] => default EmptyString x
  | x :: rest => default EmptyString x +:+ sep +:+ join sep rest
  end.

(** [a.pop()]: the last element and the array without it. *)
Definition pop {A} (a : list A) : option (A * list A) :=
  match rev a with
  | [] => None
  | x :: rest => Some (x, rev rest)
  end.

End JS.

(* ===================================================================== *)
(** * lib/util/Object.js *)
(* ===================================================================== *)

Module oUtil.

(** [forEach(obj, cb)]: [cb(key, obj[key])] for every own property, in
    enumeration order.  The callback's effect on the variables it closes
    over is the accumulator. *)
Definition forEach {V A} (obj : gmap nat V) (cb : A → nat → V → A) (acc : A)
  : A :=
  foldl (λ acc key,
           match obj !! key with
           | Some val => cb acc key val
           | None => acc
           end) acc (JS.Object_keys obj).

(** [merge(a1, ..., an)]: the own properties of every argument that is an
    object are copied, in turn, into a fresh object.  An argument that is
    not an object is [None]. *)
Definition merge {V} (args : list (option (gmap string V))) : gmap string V :=
  foldl (λ obj elem,
           match elem with
           | Some e => map_fold (λ i x obj, <[i := x]> obj) obj e
           | None => obj
           end) ∅ args.

End oUtil.

(* ===================================================================== *)
(** * lib/Round.js *)
(* ===================================================================== *)

Module Round.

Inductive phase : Type := PHASE_STOPPED | PHASE_ACRO | PHASE_VOTE.

Global Instance phase_eq_dec : EqDecision phase.
Proof. solve_decision. Defined.

(** The fields set up by the constructor.  [_phrases], [_submitTimes]
    and [_votes] are objects keyed by user id; a vote maps the voter to
    the user voted for. *)
Record t : Type := mk {
  _acro : string;
  _phase : phase;
  _phrases : gmap nat string;
  _submitTimes : gmap nat Z;
  _userOrder : list nat;
  _votes : gmap nat nat
}.

(** The events emitted by the two input handlers. *)
Inductive event : Type :=
| phraseAccepted (userId : nat) (first : bool)
| phraseRejected (userId : nat) (acro : string)
| voteAccepted (userId : nat) (first : bool)
| voteRejected (userId : nat) (reason : string).

Global Instance event_eq_dec : EqDecision event.
Proof. solve_decision. Defined.

(** ** submitPhrase *)

(** The chain of string methods applied to the phrase. *)
Definition words (phrase : string) : list string :=
  JS.split_space
    (JS.strip_ends
       (JS.collapse_spaces
          (JS.replace_unkept
             (JS.toUpperCase phrase)))).

(** [words.forEach(function(word) { acro += word[0]; })] from [''] *)
Definition acroOf (phrase : string) : string :=
  foldl JS.append_first EmptyString (words phrase).

Definition submitPhrase (now : Z) (r : t) (userId : nat) (phrase : string)
  : t * list event :=
  match _phase r with
  | PHASE_ACRO =>
      let acro := acroOf phrase in
      if decide (acro = _acro r) then
        let first := negb (JS.truthy_str (_phrases r !! userId)) in
        (mk (_acro r) (_phase r)
            (<[userId := JS.strip_ends phrase]> (_phrases r))
            (<[userId := now]> (_submitTimes r))
            (_userOrder r) (_votes r),
         [phraseAccepted userId first])
      else (r, [phraseRejected userId acro])
  | _ => (r, [])
  end.

(** ** submitVote *)

(** [this._userOrder[vote]] for a numeric [vote]. *)
Definition at_index (order : list nat) (vote : JS.num) : option nat :=
  match vote with
  | JS.Num z => if (0 <=? z)%Z then order !! Z.to_nat z else None
  | JS.NaN => None
  end.

Definition submitVote (r : t) (userId : nat) (voteStr : string)
  : t * list event :=
  match _phase r with
  | PHASE_VOTE =>
      let vote := JS.sub (JS.parseInt voteStr) (JS.Num 1) in
      if JS.geb vote (JS.Num 0)
         && JS.ltb vote (JS.Num (Z.of_nat (length (_userOrder r))))
      then
        match at_index (_userOrder r) vote with
        | Some votedFor =>
            if decide (userId = votedFor)
            then (r, [voteRejected userId "self"])
            else
              (* a stored vote is a user id taken from [_userOrder], a
                 non-empty string, so [!this._votes[userId]] tests
                 whether the voter has an entry *)
              let first := bool_decide (_votes r !! userId = None) in
              (mk (_acro r) (_phase r) (_phrases r) (_submitTimes r)
                  (_userOrder r) (<[userId := votedFor]> (_votes r)),
               [voteAccepted userId first])
        | None => (r, []) (* not reached: the test above puts [vote]
                             inside the array *)
        end
      else (r, [voteRejected userId "invalid"])
  | _ => (r, [])
  end.

(** ** _countdown and _emitMilestones

    A countdown is the chain of [setTimeout] calls it makes: each entry
    is the delay asked for, in milliseconds, counted from the firing of
    the previous entry, with what happens when it fires. *)
Inductive timeout : Type :=
| emitMilestone (delay : Z) (secsLeft : Z)
| callback (delay : Z).

Global Instance timeout_eq_dec : EqDecision timeout.
Proof. solve_decision. Defined.

(** [milestones.pop()] takes from the end of the array: [stack] is the
    array read from its end. *)
Fixpoint emitFrom (last : Z) (stack : list Z) : list timeout :=
  match stack with
  | [] => [callback (last * 1000)]
  | cur :: rest =>
      let diff := (last - cur)%Z in
      emitMilestone (diff * 1000) cur :: emitFrom cur rest
  end.

Definition _emitMilestones (last : Z) (milestones : list Z) : list timeout :=
  emitFrom last (rev milestones).

Definition _countdown (secs : Z) : list timeout :=
  let half := (secs / 2)%Z in
  let milestones := [1; 2; 3]%Z in
  let milestones :=
    if (15 <? half)%Z then milestones ++ [10%Z] else milestones in
  let milestones := milestones ++ [half] in
  _emitMilestones secs milestones.

(** The seconds announced, in the order of announcement, and the delays
    asked for. *)
Definition announced (ts : list timeout) : list Z :=
  omap (λ t, match t with
             | emitMilestone _ s => Some s
             | callback _ => None
             end) ts.

Definition delay_of (t : timeout) : Z :=
  match t with emitMilestone d _ => d | callback d => d end.

Definition delays (ts : list timeout) : list Z := map delay_of ts.

(** ** _getResults *)

Record results : Type := mkResults {
  winner : option nat;
  tie : option (list nat);
  fastest : option nat;
  fastestWithVote : option nat;
  topVoters : list nat;
  nonVoters : list nat;
  acroVotes : gmap nat Z
}.

(** The body of the loop over [_votes]: [usersToVoteCount] and
    [usersToVoters] are the two components of the accumulator. *)
Definition countVote (acc : gmap nat Z * gmap nat (list nat))
    (userId votedFor : nat) : gmap nat Z * gmap nat (list nat) :=
  let '(usersToVoteCount, usersToVoters) := acc in
  let '(usersToVoteCount, usersToVoters) :=
    match usersToVoteCount !! votedFor with
    | None => (<[votedFor := 0%Z]> usersToVoteCount,
               <[votedFor := []]> usersToVoters)
    | Some _ => (usersToVoteCount, usersToVoters)
    end in
  let usersToVoteCount := alter (λ n, n + 1)%Z votedFor usersToVoteCount in
  let usersToVoters :=
    match usersToVoters !! votedFor with
    | None => <[votedFor := []]> usersToVoters
    | Some _ => usersToVoters
    end in
  let usersToVoters := alter (λ l, l ++ [userId]) votedFor usersToVoters in
  (usersToVoteCount, usersToVoters).

(** [Infinity] or a time already met. *)
Inductive bound : Type := Infinity | Finite (z : Z).

(** [time < bound], false for an [undefined] time. *)
Definition before (time : option Z) (b : bound) : bool :=
  match time, b with
  | None, _ => false
  | Some _, Infinity => true
  | Some x, Finite y => (x <? y)%Z
  end.

Record scan : Type := mkScan {
  s_nonVoters : list nat;
  s_firstSubmitTime : bound;
  s_fastest : option nat;
  s_firstSubmitTimeWithVote : bound;
  s_fastestWithVote : option nat
}.

(** The body of the loop over [Object.keys(this._phrases)]. *)
Definition scanPhrase (r : t) (usersToVoteCount : gmap nat Z)
    (s : scan) (userId : nat) : scan :=
  let nonVoters :=
    match _votes r !! userId with
    | None => s_nonVoters s ++ [userId]
    | Some _ => s_nonVoters s
    end in
  let time := _submitTimes r !! userId in
  let '(firstSubmitTime, fastest) :=
    match time with
    | Some x =>
        if before time (s_firstSubmitTime s) then (Finite x, Some userId)
        else (s_firstSubmitTime s, s_fastest s)
    | None => (s_firstSubmitTime s, s_fastest s)
    end in
  let '(firstSubmitTimeWithVote, fastestWithVote) :=
    match time with
    | Some x =>
        if before time (s_firstSubmitTimeWithVote s)
           && JS.truthy (JS.of_read (usersToVoteCount !! userId))
        then (Finite x, Some userId)
        else (s_firstSubmitTimeWithVote s, s_fastestWithVote s)
    | None => (s_firstSubmitTimeWithVote s, s_fastestWithVote s)
    end in
  mkScan nonVoters firstSubmitTime fastest
         firstSubmitTimeWithVote fastestWithVote.

(** The comparator handed to [sort]. *)
Definition voteCmp (r : t) (usersToVoteCount : gmap nat Z) (a b : nat)
  : JS.num :=
  if decide (usersToVoteCount !! b = usersToVoteCount !! a)
  then JS.sub (JS.of_read (_submitTimes r !! a))
              (JS.of_read (_submitTimes r !! b))
  else JS.sub (JS.of_read (usersToVoteCount !! b))
              (JS.of_read (usersToVoteCount !! a)).

(** [while (voteOrder.length && usersToVoteCount[voteOrder[i]] == curScore)
    tie.push(voteOrder[i++])]: past the end [voteOrder[i]] is
    [undefined], whose count is [undefined] and differs from the
    winner's. *)
Fixpoint tieLoop (usersToVoteCount : gmap nat Z) (curScore : option Z)
    (rest : list nat) : list nat :=
  match rest with
  | u :: rest' =>
      if decide (usersToVoteCount !! u = curScore)
      then u :: tieLoop usersToVoteCount curScore rest'
      else []
  | [] => []
  end.

Definition tally (r : t) : gmap nat Z * gmap nat (list nat) :=
  oUtil.forEach (_votes r) countVote (∅, ∅).

(** [Object.keys(usersToVoteCount).sort(...)] *)
Definition voteOrder (r : t) (usersToVoteCount : gmap nat Z) : list nat :=
  JS.sort (voteCmp r usersToVoteCount) (JS.Object_keys usersToVoteCount).

Definition _getResults (r : t) : results :=
  let '(usersToVoteCount, usersToVoters) := tally r in
  let s := foldl (scanPhrase r usersToVoteCount)
                 (mkScan [] Infinity None Infinity None)
                 (JS.Object_keys (_phrases r)) in
  let voteOrder := voteOrder r usersToVoteCount in
  let winner := head voteOrder in
  let curScore := winner ≫= (usersToVoteCount !!.) in
  let tie := tieLoop usersToVoteCount curScore voteOrder in
  mkResults
    winner
    (if decide (1 < length tie)%nat then Some tie else None)
    (s_fastest s)
    (s_fastestWithVote s)
    (match winner with
     | Some w => default [] (usersToVoters !! w)
     | None => []
     end)
    (s_nonVoters s)
    usersToVoteCount.

(** ** rand, shuffle, _makeAcro *)

(** [rand(min, max)], on the value drawn by [Math.random()]. *)
Definition rand (x : JS.random) (min max : Z) : Z :=
  (JS.floor_times x (max - min + 1) + min)%Z.

(** The loop [while (--i) { ... }] of [shuffle], entered with [i]; the
    [calls]-th value of [Math.random()] is [draws calls]. *)
Fixpoint shuffleWhile {A} (draws : nat → JS.random) (calls : nat) (i : nat)
    (ary : list A) : list A :=
  match i with
  | S (S _ as i') =>
      let rnd := Z.to_nat (JS.floor_times (draws calls) (Z.of_nat i' + 1)) in
      shuffleWhile draws (S calls) i' (JS.swap i' rnd ary)
  | _ => ary
  end.

Definition shuffle {A} (draws : nat → JS.random) (ary : list A) : list A :=
  if decide (1 < length ary)%nat
  then shuffleWhile draws 0 (length ary) ary
  else ary.

(** The options read by the constructor. *)
Record opts : Type := mkOpts {
  numLetters : Z;
  charPool : string
}.

(** The loop of [_makeAcro].  Every turn makes the string longer, so
    [numLetters] turns are enough; [None] stands for a loop cut short. *)
Fixpoint makeAcroWhile (turns : nat) (o : opts) (draws : nat → JS.random)
    (calls : nat) (str : string) : option string :=
  if (Z.of_nat (String.length str) <? numLetters o)%Z then
    match turns with
    | 0 => None
    | S turns' =>
        let i := rand (draws calls) 0
                      (Z.of_nat (String.length (charPool o)) - 1) in
        makeAcroWhile turns' o draws (S calls)
          (JS.append_read str (JS.char_at (charPool o) i))
    end
  else Some str.

Definition _makeAcro (o : opts) (draws : nat → JS.random) : option string :=
  makeAcroWhile (Z.to_nat (numLetters o)) o draws 0 EmptyString.

(** The constructor, given the acronym made by [_makeAcro]. *)
Definition new (acro : string) : t := mk acro PHASE_STOPPED ∅ ∅ [] ∅.

(** ** startAcro, startVote and the countdowns under way *)

(** The events of the two phases. *)
Inductive signal : Type :=
| acroStart (acro : string)
| acroCountdown (secsLeft : Z)
| acroEnd (userOrder : list nat) (phrases : gmap nat string)
| voteStart (userOrder : list nat) (phrases : gmap nat string)
| voteCountdown (secsLeft : Z)
| voteEnd (res : results).

(** A countdown under way: the name of its event (true for
    'acroCountdown', false for 'voteCountdown', which also tells the
    callback it ends with) and the timeouts it has still to fire. *)
Definition countdown : Type := bool * list timeout.

(** A round with its countdowns under way. *)
Definition live : Type := t * list countdown.

Definition startAcro (timeLimit : Z) (s : live) : live * list signal :=
  let '(r, pending) := s in
  match _phase r with
  | PHASE_STOPPED =>
      ((mk (_acro r) PHASE_ACRO (_phrases r) (_submitTimes r)
           (_userOrder r) (_votes r),
        pending ++ [(true, _countdown timeLimit)]),
       [acroStart (_acro r)])
  | _ => (s, [])
  end.

Definition startVote (timeLimit : Z) (s : live) : live * list signal :=
  let '(r, pending) := s in
  match _phase r with
  | PHASE_STOPPED =>
      ((mk (_acro r) PHASE_VOTE (_phrases r) (_submitTimes r)
           (_userOrder r) (_votes r),
        pending ++ [(false, _countdown timeLimit)]),
       [voteStart (_userOrder r) (_phrases r)])
  | _ => (s, [])
  end.

(** The callback given to [_countdown] by [startAcro]. *)
Definition acroTimeUp (draws : nat → JS.random) (r : t) : t * list signal :=
  let userOrder := shuffle draws (JS.Object_keys (_phrases r)) in
  (mk (_acro r) PHASE_STOPPED (_phrases r) (_submitTimes r)
      userOrder (_votes r),
   [acroEnd userOrder (_phrases r)]).

(** The callback given to [_countdown] by [startVote].  It is called by
    the timer, so its [this] is not the round: the assignment
    [this._phase = PHASE_STOPPED] leaves the round as it is. *)
Definition voteTimeUp (r : t) : t * list signal :=
  (r, [voteEnd (_getResults r)]).

(** [self.emit(eventName, cur)] *)
Definition emitTick (isAcro : bool) (secsLeft : Z) : signal :=
  if isAcro then acroCountdown secsLeft else voteCountdown secsLeft.

(** The completion callback of a countdown. *)
Definition timeUp (isAcro : bool) (draws : nat → JS.random) (r : t)
  : t * list signal :=
  if isAcro then acroTimeUp draws r else voteTimeUp r.

(** The next timeout of the [k]-th countdown under way fires. *)
Definition fire (draws : nat → JS.random) (k : nat) (s : live)
  : live * list signal :=
  let r : t := s.1 in
  let pending : list (bool * list timeout) := s.2 in
  match pending !! k with
  | Some (isAcro, emitMilestone _ secsLeft :: rest) =>
      ((r, <[k := (isAcro, rest)]> pending), [emitTick isAcro secsLeft])
  | Some (isAcro, callback _ :: _) =>
      let '(r', out) := timeUp isAcro draws r in
      ((r', delete k pending), out)
  | Some (_, []) => ((r, delete k pending), [])
  | None => (s, [])
  end.

(** What can happen to a round: the four methods and a timeout. *)
Inductive op : Type :=
| opStartAcro (timeLimit : Z)
| opStartVote (timeLimit : Z)
| opSubmitPhrase (now : Z) (userId : nat) (phrase : string)
| opSubmitVote (userId : nat) (voteStr : string)
| opFire (draws : nat → JS.random) (k : nat).

Definition step (s : live) (o : op) : live * list signal * list event :=
  match o with
  | opStartAcro timeLimit =>
      let '(s', out) := startAcro timeLimit s in (s', out, [])
  | opStartVote timeLimit =>
      let '(s', out) := startVote timeLimit s in (s', out, [])
  | opSubmitPhrase now userId phrase =>
      let '(r', ev) := submitPhrase now s.1 userId phrase in
      ((r', s.2), [], ev)
  | opSubmitVote userId voteStr =>
      let '(r', ev) := submitVote s.1 userId voteStr in
      ((r', s.2), [], ev)
  | opFire draws k => let '(s', out) := fire draws k s in (s', out, [])
  end.

Definition run (s : live) (ops : list op) : live * list signal * list event :=
  foldl (λ acc o,
           let '(s, out, ev) := acc in
           let '(s', out', ev') := step s o in
           (s', out ++ out', ev ++ ev'))
        (s, [], []) ops.

End Round.

(* ===================================================================== *)
(** * lib/NormalRound.js *)
(* ===================================================================== *)

Module NormalRound.

(** The options read by [_getPoints]. *)
Record opts : Type := mkOpts {
  numLetters : Z;
  pointsFastestWithVote : Z;
  pointsVoteForWinner : Z
}.

(** The [points] object is indexed by tally fields, which are user ids
    or [null]; indexing with [null] hits the property named "null",
    key [None] here. *)

(** [points[k] += n] *)
Definition addTo (k : option nat) (n : Z) (points : gmap (option nat) JS.num)
  : gmap (option nat) JS.num :=
  <[k := JS.add (JS.to_num (points !! k)) (JS.Num n)]> points.

(** [_getPoints] up to and including the loop over [topVoters]. *)
Definition accumulated (o : opts) (res : Round.results)
  : gmap (option nat) JS.num :=
  let points :=
    oUtil.forEach (Round.acroVotes res)
      (λ points userId votes, <[Some userId := JS.Num votes]> points) ∅ in
  let points := addTo (Round.fastestWithVote res) (pointsFastestWithVote o)
                      points in
  let points := addTo (Round.winner res) (numLetters o) points in
  foldl (λ points voter,
           <[Some voter := JS.add (JS.or0 (points !! Some voter))
                                  (JS.Num (pointsVoteForWinner o))]> points)
        points (Round.topVoters res).

(** The closing loop over [nonVoters]. *)
Definition forfeit (points : gmap (option nat) JS.num) (nonVoters : list nat)
  : gmap (option nat) JS.num :=
  foldl (λ points nonVoter,
           if JS.truthy_read (points !! Some nonVoter)
           then <[Some nonVoter := JS.Num 0]> points
           else points)
        points nonVoters.

Definition _getPoints (o : opts) (res : Round.results)
  : gmap (option nat) JS.num :=
  forfeit (accumulated o res) (Round.nonVoters res).

(** ** start, userInput and the presentation of the results

    The steps chained with Seq run in turn, each when the step before
    it calls [this()]; nothing else of the game runs in between. *)

Inductive inputMode : Type :=
| INPUTMODE_OFF
| INPUTMODE_ACRO
| INPUTMODE_VOTE.

(** The further options read by a round. *)
Record settings : Type := mkSettings {
  secsPerAcroRound : Z;
  secsPerVoteRound : Z;
  secsBetweenMessages : Z;
  secsAfterResults : Z;
  inputPrefix : string
}.

Definition ERR_NUM_SUBMISSIONS : Z := 1.
Definition ERR_NO_VOTES : Z := 2.

(** A call of the callback given to [start]: with an error, its message
    and its code, or with the points. *)
Inductive outcome : Type :=
| failed (message : string) (code : Z)
| scored (points : gmap (option nat) JS.num).

(** A call of [opts.sayPublic] or [opts.sayPrivate]. *)
Inductive said : Type :=
| pub (message : string)
| priv (userId : nat) (message : string).

(** The entries of [resTypes]. *)
Inductive resType : Type :=
| type_tie
| type_winner
| type_fastest
| type_topVoters
| type_nonVoters.

(** The timers set by the round itself, each with its delay in
    milliseconds: by the handler of 'acroEnd', by [resultPause] in
    [_showResults], and by [_showPoints]. *)
Inductive timer : Type :=
| openVote (delay : Z) (userOrder : list nat)
| pointResults (delay : Z) (resTypes : list resType) (res : Round.results)
| morePoints (delay : Z) (types : list resType) (res : Round.results).

(** The round with its timers and the calls of the callback so far.
    [_phrases] is either the empty object of the constructor or, once
    the handler of 'acroEnd' has run, the object of the inner round
    itself: [_phrasesSet] tells which. *)
Record t : Type := mk {
  _opts : opts;
  _settings : settings;
  _inputMode : inputMode;
  _round : Round.live;
  _acro : string;
  _phrasesSet : bool;
  _timers : list timer;
  _called : list outcome
}.

Definition _phrases (s : t) : gmap nat string :=
  if _phrasesSet s then Round._phrases (_round s).1 else ∅.

(** The constructor, given the acronym made for the inner round. *)
Definition new (o : opts) (st : settings) (acro : string) : t :=
  mk o st INPUTMODE_OFF (Round.new acro, []) EmptyString false [] [].

Definition plural (num : Z) (word : string) : string :=
  word +:+ (if (num =? 1)%Z then EmptyString else "s").

(** [this._opts.userNames[id]] in a concatenation. *)
Definition nameOf (userNames : list (option string)) (id : option nat)
  : string :=
  JS.str (id ≫= JS.array_get userNames).

Definition _announceMilestone (secs : Z) : list said :=
  [pub (JS.numToString secs
        +:+ (if (9 <? secs)%Z then " seconds left!" else "!"))].

(** [_showPoints(types, res, cb)] up to the timer it sets. *)
Definition _showPoints (userNames : list (option string))
    (types : list resType) (res : Round.results) (s : t) : t * list said :=
  match JS.pop types with
  | None =>
      (mk (_opts s) (_settings s) (_inputMode s) (_round s) (_acro s)
          (_phrasesSet s) (_timers s)
          (_called s ++ [scored (_getPoints (_opts s) res)]),
       [])
  | Some (type, types) =>
      let names (ids : list nat) :=
        map (λ uid, JS.array_get userNames uid) ids in
      let message :=
        match type with
        | type_tie =>
            "We have a tie! The winner will be chosen by which of these players answered the fastest: "
            +:+ JS.join ", " (names (default [] (Round.tie res)))
        | type_winner =>
            nameOf userNames (Round.winner res) +:+ " wins the round! A "
            +:+ JS.numToString (numLetters (_opts s))
            +:+ " point bonus will be awarded to this player."
        | type_fastest =>
            nameOf userNames (Round.fastestWithVote res)
            +:+ " submitted the fastest answer to receive a vote, and earns "
            +:+ JS.numToString (pointsFastestWithVote (_opts s)) +:+ " "
            +:+ plural (pointsFastestWithVote (_opts s)) "point" +:+ "."
        | type_topVoters =>
            "The following users voted for the winning answer, and will each receive "
            +:+ JS.numToString (pointsVoteForWinner (_opts s)) +:+ " "
            +:+ plural (pointsVoteForWinner (_opts s)) "point" +:+ ": "
            +:+ JS.join ", " (names (Round.topVoters res))
        | type_nonVoters =>
            "The following users did not vote, and forfeit their points for this round: "
            +:+ JS.join ", "
                  (map (λ id, Some (JS.numToString (Z.of_nat id)))
                       (Round.nonVoters res))
        end in
      (mk (_opts s) (_settings s) (_inputMode s) (_round s) (_acro s)
          (_phrasesSet s)
          (_timers s
           ++ [morePoints (secsBetweenMessages (_settings s) * 1000) types
                          res])
          (_called s),
       [pub message])
  end.

(** [_showResults(res, cb)] up to the timer of [resultPause]. *)
Definition _showResults (userNames : list (option string))
    (res : Round.results) (s : t) : t * list said :=
  let resTypes :=
    (match Round.tie res with Some _ => [type_tie] | None => [] end)
    ++ [type_winner]
    ++ (if JS.truthy (JS.Num (pointsFastestWithVote (_opts s)))
        then [type_fastest] else [])
    ++ (if JS.truthy (JS.Num (pointsVoteForWinner (_opts s)))
        then [type_topVoters] else [])
    ++ (match Round.nonVoters res with [] => [] | _ => [type_nonVoters] end) in
  let resTypes := rev resTypes in
  let votesOf (id : nat) : Z := default 0%Z (Round.acroVotes res !! id) in
  let phraseOrder :=
    JS.sort (λ a b, JS.sub (JS.Num (votesOf b)) (JS.Num (votesOf a)))
            (JS.Object_keys (_phrases s)) in
  let voteResults (id : nat) :=
    let votes := votesOf id in
    let voteStr := JS.numToString votes +:+ " " +:+ plural votes "vote" in
    pub ("[" +:+ nameOf userNames (Some id) +:+ " | " +:+ voteStr +:+ "] "
         +:+ JS.str (_phrases s !! id)) in
  (mk (_opts s) (_settings s) (_inputMode s) (_round s) (_acro s)
      (_phrasesSet s)
      (_timers s
       ++ [pointResults (secsAfterResults (_settings s) * 1000) resTypes res])
      (_called s),
   pub "Here's who submitted the answers, and how many votes they got!"
   :: map voteResults phraseOrder).

(** The handlers registered by [start] on the events of the inner
    round. *)
Definition onSignal (userNames : list (option string)) (s : t)
    (sig : Round.signal) : t * list said :=
  match sig with
  | Round.acroStart acro =>
      (mk (_opts s) (_settings s) INPUTMODE_ACRO (_round s) acro
          (_phrasesSet s) (_timers s) (_called s),
       [pub ("This round's acro is [ " +:+ acro
             +:+ " ]. Submissions are open for "
             +:+ JS.numToString (secsPerAcroRound (_settings s))
             +:+ " seconds!");
        pub ("Submit a phrase to match this acro by typing: "
             +:+ inputPrefix (_settings s) +:+ "YOUR PHRASE HERE")])
  | Round.acroEnd userOrder userPhrases =>
      if decide (1 < length userOrder)%nat then
        (mk (_opts s) (_settings s) INPUTMODE_OFF (_round s) (_acro s) true
            (_timers s
             ++ [openVote (secsBetweenMessages (_settings s) * 1000)
                          userOrder])
            (_called s),
         [pub "Submissions are now closed!"])
      else
        (mk (_opts s) (_settings s) INPUTMODE_OFF (_round s) (_acro s) true
            (_timers s)
            (_called s ++ [failed "Not enough players!" ERR_NUM_SUBMISSIONS]),
         [pub "Submissions are now closed!"])
  | Round.voteEnd results =>
      let s := mk (_opts s) (_settings s) INPUTMODE_OFF (_round s) (_acro s)
                  (_phrasesSet s) (_timers s) (_called s) in
      match Round.winner results with
      | Some _ => _showResults userNames results s
      | None =>
          (mk (_opts s) (_settings s) (_inputMode s) (_round s) (_acro s)
              (_phrasesSet s) (_timers s)
              (_called s ++ [failed "No one voted!" ERR_NO_VOTES]),
           [])
      end
  | Round.acroCountdown secs => (s, _announceMilestone secs)
  | Round.voteCountdown secs => (s, _announceMilestone secs)
  | Round.voteStart _ _ => (s, [])
  end.

Definition onEvent (userNames : list (option string)) (s : t)
    (e : Round.event) : list said :=
  match e with
  | Round.phraseAccepted userId first =>
      [pub (nameOf userNames (Some userId) +:+ " "
            +:+ (if first then EmptyString else "re-") +:+ "submitted.");
       priv userId "Phrase accepted!"]
  | Round.phraseRejected userId acro =>
      [priv userId
         ("Your phrase has the acronym [" +:+ acro
          +:+ "] which does not match this round's acro: [" +:+ _acro s
          +:+ "].")]
  | Round.voteAccepted userId first =>
      [pub (nameOf userNames (Some userId) +:+ " "
            +:+ (if first then EmptyString else "re-") +:+ "voted.");
       priv userId "Vote accepted!"]
  | Round.voteRejected userId reason =>
      if decide (reason = "self")
      then [priv userId "You can't vote for yourself. That's lame."]
      else [priv userId
              ("That's an invalid vote! Vote using the format: "
               +:+ inputPrefix (_settings s)
               +:+ "NUMBER (where NUMBER is the number of the phrase you're voting for).")]
  end.

(** The events emitted by a call into the inner round reach their
    handlers in the order of emission. *)
Definition dispatch (userNames : list (option string)) (s : t)
    (sigs : list Round.signal) : t * list said :=
  foldl (λ acc sig,
           let '(s, out) := acc in
           let '(s', out') := onSignal userNames s sig in
           (s', out ++ out'))
        (s, []) sigs.

Definition withRound (s : t) (round : Round.live) : t :=
  mk (_opts s) (_settings s) (_inputMode s) round (_acro s) (_phrasesSet s)
     (_timers s) (_called s).

Definition start (userNames : list (option string)) (s : t) : t * list said :=
  let '(round, sigs) :=
    Round.startAcro (secsPerAcroRound (_settings s)) (_round s) in
  dispatch userNames (withRound s round) sigs.

Definition userInput (userNames : list (option string)) (now : Z) (s : t)
    (userId : nat) (msg : string) : t * list said :=
  match _inputMode s with
  | INPUTMODE_ACRO =>
      let '(r, events) := Round.submitPhrase now (_round s).1 userId msg in
      let s := withRound s (r, (_round s).2) in
      (s, flat_map (onEvent userNames s) events)
  | INPUTMODE_VOTE =>
      let '(r, events) := Round.submitVote (_round s).1 userId msg in
      let s := withRound s (r, (_round s).2) in
      (s, flat_map (onEvent userNames s) events)
  | INPUTMODE_OFF => (s, [])
  end.

(** The timer set by the handler of 'acroEnd' fires. *)
Definition fireOpenVote (userOrder : list nat) (s : t) : t * list said :=
  let userPhrases := Round._phrases (_round s).1 in
  let lines :=
    imap (λ idx user,
            pub (JS.numToString (Z.of_nat idx + 1)
                 +:+ (if (idx <? 10)%nat then " " else EmptyString) +:+ " | "
                 +:+ JS.str (userPhrases !! user)))
         userOrder in
  let '(round, _) :=
    Round.startVote (secsPerVoteRound (_settings s)) (_round s) in
  (mk (_opts s) (_settings s) INPUTMODE_VOTE round (_acro s) (_phrasesSet s)
      (_timers s) (_called s),
   [pub "Here are this round's submissions:"]
   ++ lines
   ++ [pub ("Voting is open for "
            +:+ JS.numToString (secsPerVoteRound (_settings s))
            +:+ " seconds. YOU MUST VOTE TO RECEIVE POINTS! Submit votes by typing: "
            +:+ inputPrefix (_settings s) +:+ "NUMBER")]).

(** What happens to a started round: an input, a timeout of the inner
    round, a timer of the round itself. *)
Inductive op : Type :=
| opUserInput (now : Z) (userId : nat) (msg : string)
| opRoundTimeout (draws : nat → JS.random) (k : nat)
| opTimer (k : nat).

Definition step (userNames : list (option string)) (s : t) (o : op)
  : t * list said :=
  match o with
  | opUserInput now userId msg => userInput userNames now s userId msg
  | opRoundTimeout draws k =>
      let '(round, sigs) := Round.fire draws k (_round s) in
      dispatch userNames (withRound s round) sigs
  | opTimer k =>
      match _timers s !! k with
      | Some tm =>
          let s := mk (_opts s) (_settings s) (_inputMode s) (_round s)
                      (_acro s) (_phrasesSet s) (delete k (_timers s))
                      (_called s) in
          match tm with
          | openVote _ userOrder => fireOpenVote userOrder s
          | pointResults _ types res => _showPoints userNames types res s
          | morePoints _ types res => _showPoints userNames types res s
          end
      | None => (s, [])
      end
  end.

(** A round played: [start], then what happens, the table of names
    being read as it stands at each moment. *)
Definition play (s : t) (userNames : list (option string))
    (ops : list (list (option string) * op)) : t * list said :=
  foldl (λ acc o,
           let '(s, out) := acc in
           let '(s', out') := step o.1 s o.2 in
           (s', out ++ out'))
        (start userNames s) ops.

(** What happens to a round from a given state on. *)
Definition resume (s : t) (ops : list (list (option string) * op))
  : t * list said :=
  foldl (λ acc o,
           let '(s, out) := acc in
           let '(s', out') := step o.1 s o.2 in
           (s', out ++ out'))
        (s, []) ops.

(** A timeout of the inner round or a timer of the round fires. *)
Definition isFiring (o : op) : bool :=
  match o with
  | opRoundTimeout _ _ | opTimer _ => true
  | opUserInput _ _ _ => false
  end.

End NormalRound.

(* ===================================================================== *)
(** * lib/FaceOffRound.js *)
(* ===================================================================== *)

Module FaceOffRound.

(** What [startVote] reads: [opts.numLetters] and the order of the
    submitters recorded when the submissions closed. *)
Record t : Type := mk {
  numLetters : Z;
  _userOrder : list nat
}.

(** The values handed to the completion callback. *)
Inductive value : Type :=
| undefined
| null
| object (o : gmap nat Z)
| user (userId : nat).

Global Instance value_eq_dec : EqDecision value.
Proof. solve_decision. Defined.

(** What [startVote] leads to: the callback called with a list of
    arguments, or the voting phase run by [_runVote]. *)
Inductive started : Type :=
| cbCalled (args : list value)
| runVote.

Definition _showSingleResult (fr : t) (userId : nat) : started :=
  let scores := {[ userId := numLetters fr ]} in
  cbCalled [null; object scores; user userId].

Definition startVote (fr : t) : started :=
  match _userOrder fr with
  | [] => cbCalled [object ∅; null]
  | [u] => _showSingleResult fr u
  | _ => runVote
  end.

(** Binding of the arguments to the parameters of
    [function(err, points, fastest)]: a parameter without argument is
    [undefined]. *)
Definition param (i : nat) (args : list value) : value :=
  default undefined (args !! i).

End FaceOffRound.

(** ** The face-off round with its messages and timers

    The same class seen in full: the inner round, the input mode, the
    timers the round sets and the calls of the two callbacks.  The steps
    chained with Seq run in turn, as for a normal round. *)

Module FaceOffRoundFull.

Inductive inputMode : Type :=
| INPUTMODE_OFF
| INPUTMODE_ACRO
| INPUTMODE_VOTE.

(** The options read by the round.  [acroSecs] is read for a message
    only and may be missing ([None]). *)
Record opts : Type := mkOpts {
  numLetters : Z;
  acroSecs : option Z;
  secsPerFaceOffRound : Z;
  secsBetweenMessages : Z;
  secsAfterResults : Z;
  inputPrefix : string;
  players : list nat
}.

(** The timers set by the round, each with its delay: by [startVote]
    without any submission, by [_showSingleResult], and by the steps
    [preVoteResults] and [resultPause] of [_showResults]. *)
Inductive timer : Type :=
| noAnswer (delay : Z)
| singleResult (delay : Z) (name : string) (userId : nat)
| voteResults (delay : Z) (res : Round.results) (phraseOrder : list nat)
| resultPause (delay : Z) (res : Round.results).

(** [_phrasesSet] tells whether [_phrases] is the object of the inner
    round (set by the handler of 'acroEnd') or the empty object of the
    constructor; [_userOrder] is not set by the constructor ([None]);
    [_voteHandlers] tells whether [_runVote] has registered its
    handlers; [_acroCalls] counts the calls of the callback of
    [startAcro], [_voteCalls] lists the arguments of the calls of the
    callback of [startVote]. *)
Record t : Type := mk {
  _opts : opts;
  _inputMode : inputMode;
  _round : Round.live;
  _acro : string;
  _phrasesSet : bool;
  _userOrder : option (list nat);
  _voteHandlers : bool;
  _timers : list timer;
  _acroCalls : nat;
  _voteCalls : list (list FaceOffRound.value)
}.

Definition _phrases (s : t) : gmap nat string :=
  if _phrasesSet s then Round._phrases (_round s).1 else ∅.

(** The constructor, given the acronym made for the inner round. *)
Definition new (o : opts) (acro : string) : t :=
  mk o INPUTMODE_OFF (Round.new acro, []) EmptyString false None false [] 0
     [].

Definition plural (num : Z) (word : string) : string :=
  word +:+ (if (num =? 1)%Z then EmptyString else "s").

Definition _sayPlayers (s : t) (msg : string) : list NormalRound.said :=
  map (λ userId, NormalRound.priv userId msg) (players (_opts s)).

Definition _announceMilestone (s : t) (isPublic : bool) (secs : Z)
  : list NormalRound.said :=
  let msg := JS.numToString secs
             +:+ (if (9 <? secs)%Z then " seconds left!" else "!") in
  if isPublic then [NormalRound.pub msg] else _sayPlayers s msg.

(** The double quote. *)
Definition quote : string := String (ascii_of_nat 34) EmptyString.

(** [_showResults(res, cb)] up to the timer of [preVoteResults]. *)
Definition _showResults (res : Round.results) (s : t)
  : t * list NormalRound.said :=
  let votesOf (id : nat) : Z := default 0%Z (Round.acroVotes res !! id) in
  let phraseOrder :=
    JS.sort (λ a b, JS.sub (JS.Num (votesOf b)) (JS.Num (votesOf a)))
            (JS.Object_keys (_phrases s)) in
  (mk (_opts s) (_inputMode s) (_round s) (_acro s) (_phrasesSet s)
      (_userOrder s) (_voteHandlers s)
      (_timers s
       ++ [voteResults (secsBetweenMessages (_opts s) * 1000) res
                       phraseOrder])
      (_acroCalls s) (_voteCalls s),
   [NormalRound.pub
      "Here's who submitted the answers, and how many votes they got!"]).

(** The handlers registered by [startAcro] and by [_runVote] on the
    events of the inner round. *)
Definition onSignal (s : t) (sig : Round.signal)
  : t * list NormalRound.said :=
  match sig with
  | Round.acroStart acro =>
      let s1 := mk (_opts s) (_inputMode s) (_round s) acro (_phrasesSet s)
                   (_userOrder s) (_voteHandlers s) (_timers s)
                   (_acroCalls s) (_voteCalls s) in
      (mk (_opts s) INPUTMODE_ACRO (_round s) acro (_phrasesSet s)
          (_userOrder s) (_voteHandlers s) (_timers s) (_acroCalls s)
          (_voteCalls s),
       _sayPlayers s1
         ("This round's acro is [ " +:+ acro
          +:+ " ]. Submissions are open for "
          +:+ match acroSecs (_opts s) with
              | Some secs => JS.numToString secs
              | None => "undefined"
              end
          +:+ " seconds!")
       ++ _sayPlayers s1
            ("Submit a phrase to match this acro by typing: "
             +:+ inputPrefix (_opts s) +:+ "YOUR PHRASE HERE"))
  | Round.acroEnd userOrder userPhrases =>
      (mk (_opts s) INPUTMODE_OFF (_round s) (_acro s) true (Some userOrder)
          (_voteHandlers s) (_timers s) (_acroCalls s + 1) (_voteCalls s),
       _sayPlayers s "Submissions are now closed!")
  | Round.acroCountdown secs => (s, _announceMilestone s false secs)
  | Round.voteEnd results =>
      if _voteHandlers s then
        _showResults results
          (mk (_opts s) INPUTMODE_OFF (_round s) (_acro s) (_phrasesSet s)
              (_userOrder s) (_voteHandlers s) (_timers s) (_acroCalls s)
              (_voteCalls s))
      else (s, [])
  | Round.voteCountdown secs =>
      if _voteHandlers s then (s, _announceMilestone s true secs)
      else (s, [])
  | Round.voteStart _ _ => (s, [])
  end.

Definition onEvent (userNames : list (option string)) (s : t)
    (e : Round.event) : list NormalRound.said :=
  match e with
  | Round.phraseAccepted userId _ =>
      [NormalRound.priv userId "Phrase accepted!"]
  | Round.phraseRejected userId acro =>
      [NormalRound.priv userId
         ("Your phrase has the acronym [" +:+ acro
          +:+ "] which does not match this round's acro: [" +:+ _acro s
          +:+ "].")]
  | Round.voteAccepted userId first =>
      if _voteHandlers s then
        [NormalRound.pub
           (NormalRound.nameOf userNames (Some userId) +:+ " "
            +:+ (if first then EmptyString else "re-") +:+ "voted.");
         NormalRound.priv userId "Vote accepted!"]
      else []
  | Round.voteRejected userId _ =>
      if _voteHandlers s then
        [NormalRound.priv userId
           ("That's an invalid vote! Vote using the format: "
            +:+ inputPrefix (_opts s)
            +:+ "NUMBER (where NUMBER is the number of the phrase you're voting for).")]
      else []
  end.

Definition dispatch (s : t) (sigs : list Round.signal)
  : t * list NormalRound.said :=
  foldl (λ acc sig,
           let '(s, out) := acc in
           let '(s', out') := onSignal s sig in
           (s', out ++ out'))
        (s, []) sigs.

Definition withRound (s : t) (round : Round.live) : t :=
  mk (_opts s) (_inputMode s) round (_acro s) (_phrasesSet s) (_userOrder s)
     (_voteHandlers s) (_timers s) (_acroCalls s) (_voteCalls s).

Definition startAcro (s : t) : t * list NormalRound.said :=
  let '(round, sigs) :=
    Round.startAcro (secsPerFaceOffRound (_opts s)) (_round s) in
  dispatch (withRound s round) sigs.

Definition submitPhrase (userNames : list (option string)) (now : Z) (s : t)
    (userId : nat) (phrase : string) : t * list NormalRound.said :=
  match _inputMode s with
  | INPUTMODE_ACRO =>
      let '(r, events) := Round.submitPhrase now (_round s).1 userId phrase in
      let s := withRound s (r, (_round s).2) in
      (s, flat_map (onEvent userNames s) events)
  | _ => (s, [])
  end.

Definition submitVote (userNames : list (option string)) (s : t)
    (userId : nat) (voteStr : string) : t * list NormalRound.said :=
  match _inputMode s with
  | INPUTMODE_VOTE =>
      let '(r, events) := Round.submitVote (_round s).1 userId voteStr in
      let s := withRound s (r, (_round s).2) in
      (s, flat_map (onEvent userNames s) events)
  | _ => (s, [])
  end.

(** [_showSingleResult(userId, cb)] up to its timer; [first] is
    [this._userOrder[0]]. *)
Definition _showSingleResult (userNames : list (option string))
    (first : option nat) (userId : nat) (s : t)
  : t * list NormalRound.said :=
  let name := NormalRound.nameOf userNames first in
  (mk (_opts s) (_inputMode s) (_round s) (_acro s) (_phrasesSet s)
      (_userOrder s) (_voteHandlers s)
      (_timers s ++ [singleResult (secsBetweenMessages (_opts s)) name userId])
      (_acroCalls s) (_voteCalls s),
   [NormalRound.pub
      ("For the acro [ " +:+ _acro s +:+ " ], " +:+ name +:+ " answered: "
       +:+ quote +:+ JS.str (first ≫= (_phrases s !!.)) +:+ quote +:+ ".")]).

Definition _runVote (s : t) : t * list NormalRound.said :=
  let userOrder := default [] (_userOrder s) in
  let phraseAt (i : nat) := JS.str (userOrder !! i ≫= (_phrases s !!.)) in
  let '(round, _) :=
    Round.startVote (secsPerFaceOffRound (_opts s)) (_round s) in
  (mk (_opts s) INPUTMODE_VOTE round (_acro s) (_phrasesSet s) (_userOrder s)
      true (_timers s) (_acroCalls s) (_voteCalls s),
   [NormalRound.pub ("For the acro [ " +:+ _acro s
                     +:+ " ] our players submitted:");
    NormalRound.pub ("1  | " +:+ phraseAt 0);
    NormalRound.pub ("2  | " +:+ phraseAt 1);
    NormalRound.pub
      ("Voting is open for "
       +:+ JS.numToString (secsPerFaceOffRound (_opts s))
       +:+ " seconds. Submit votes by typing: " +:+ inputPrefix (_opts s)
       +:+ "NUMBER")]).

(** [startVote(cb)]; before 'acroEnd' there is no [_userOrder] and
    reading its length throws: [None]. *)
Definition startVote (userNames : list (option string)) (s : t)
  : option (t * list NormalRound.said) :=
  match _userOrder s with
  | None => None
  | Some [] =>
      Some (mk (_opts s) (_inputMode s) (_round s) (_acro s) (_phrasesSet s)
               (_userOrder s) (_voteHandlers s)
               (_timers s ++ [noAnswer (secsBetweenMessages (_opts s))])
               (_acroCalls s) (_voteCalls s),
            [NormalRound.pub
               ("For the acro [ " +:+ _acro s
                +:+ " ], neither player submitted an answer. No points will be awarded.")])
  | Some [userId] => Some (_showSingleResult userNames (Some userId) userId s)
  | Some _ => Some (_runVote s)
  end.

(** A timer of the round fires. *)
Definition fireTimer (userNames : list (option string)) (tm : timer) (s : t)
  : t * list NormalRound.said :=
  let called (args : list FaceOffRound.value) :=
    mk (_opts s) (_inputMode s) (_round s) (_acro s) (_phrasesSet s)
       (_userOrder s) (_voteHandlers s) (_timers s) (_acroCalls s)
       (_voteCalls s ++ [args]) in
  match tm with
  | noAnswer _ =>
      (called [FaceOffRound.object ∅; FaceOffRound.null], [])
  | singleResult _ name userId =>
      (called [FaceOffRound.null;
               FaceOffRound.object {[ userId := numLetters (_opts s) ]};
               FaceOffRound.user userId],
       [NormalRound.pub
          ("Since " +:+ name +:+ " was the only player to answer, "
           +:+ JS.numToString (numLetters (_opts s))
           +:+ " points will be awarded automatically.")])
  | voteResults _ res phraseOrder =>
      let line (id : nat) :=
        let votes := default 0%Z (Round.acroVotes res !! id) in
        let voteStr := JS.numToString votes +:+ " " +:+ plural votes "vote" in
        NormalRound.pub
          ("[" +:+ NormalRound.nameOf userNames (Some id) +:+ " | "
           +:+ voteStr +:+ "] " +:+ JS.str (_phrases s !! id)) in
      (mk (_opts s) (_inputMode s) (_round s) (_acro s) (_phrasesSet s)
          (_userOrder s) (_voteHandlers s)
          (_timers s ++ [resultPause (secsAfterResults (_opts s) * 1000) res])
          (_acroCalls s) (_voteCalls s),
       map line phraseOrder)
  | resultPause _ res =>
      (called [FaceOffRound.null; FaceOffRound.object (Round.acroVotes res);
               match Round.fastest res with
               | Some f => FaceOffRound.user f
               | None => FaceOffRound.null
               end],
       [])
  end.

(** What happens to a round besides [startAcro] and [startVote]. *)
Inductive op : Type :=
| opSubmitPhrase (now : Z) (userId : nat) (phrase : string)
| opSubmitVote (userId : nat) (voteStr : string)
| opRoundTimeout (draws : nat → JS.random) (k : nat)
| opTimer (k : nat).

Definition step (userNames : list (option string)) (s : t) (o : op)
  : t * list NormalRound.said :=
  match o with
  | opSubmitPhrase now userId phrase =>
      submitPhrase userNames now s userId phrase
  | opSubmitVote userId voteStr => submitVote userNames s userId voteStr
  | opRoundTimeout draws k =>
      let '(round, sigs) := Round.fire draws k (_round s) in
      dispatch (withRound s round) sigs
  | opTimer k =>
      match _timers s !! k with
      | Some tm =>
          fireTimer userNames tm
            (mk (_opts s) (_inputMode s) (_round s) (_acro s) (_phrasesSet s)
                (_userOrder s) (_voteHandlers s) (delete k (_timers s))
                (_acroCalls s) (_voteCalls s))
      | None => (s, [])
      end
  end.

Definition run (s : t) (ops : list (list (option string) * op))
  : t * list NormalRound.said :=
  foldl (λ acc o,
           let '(s, out) := acc in
           let '(s', out') := step o.1 s o.2 in
           (s', out ++ out'))
        (s, []) ops.

(** A round played as the face-off plays it: [startAcro], what happens
    up to [startVote], and what happens after. *)
Definition play (s : t) (userNames : list (option string))
    (before after : list (list (option string) * op))
  : option (t * list NormalRound.said) :=
  let '(s1, out1) := startAcro s in
  let '(s2, out2) := run s1 before in
  match startVote userNames s2 with
  | Some (s3, out3) =>
      let '(s4, out4) := run s3 after in
      Some (s4, out1 ++ out2 ++ out3 ++ out4)
  | None => None
  end.

End FaceOffRoundFull.

(* ===================================================================== *)
(** * lib/FaceOff.js *)
(* ===================================================================== *)

Module FaceOff.

Import FaceOffRound.

(** [_scores] is keyed by user id.  [_fastest] is indexed by whatever
    arrives as [fastest]: a user id, or [undefined], which hits the
    property named "undefined" (key [None]). *)
Record t : Type := mk {
  _scores : gmap nat JS.num;
  _fastest : gmap (option nat) JS.num;
  _fastestRounds : list value
}.

(** The constructor, for the players in [opts.players]. *)
Definition new (players : list nat) : t :=
  foldl (λ fo userId,
           mk (<[userId := JS.Num 0]> (_scores fo))
              (<[Some userId := JS.Num 0]> (_fastest fo))
              (_fastestRounds fo))
        (mk ∅ ∅ []) players.

(** The callback passed to [startVote] by [_startVoteRound], up to the
    bookkeeping of the vote queue. *)
Definition voteDone (fo : t) (args : list value) : t :=
  let points := param 1 args in
  let fastest := param 2 args in
  let scores :=
    match points with
    | object o =>
        oUtil.forEach o
          (λ scores userId score,
             <[userId := JS.add (JS.to_num (scores !! userId))
                                (JS.Num score)]> scores)
          (_scores fo)
    | _ => _scores fo (* [for (key in null)] runs no iteration *)
    end in
  let fastestRounds := _fastestRounds fo ++ [fastest] in
  let bump k tbl := <[k := JS.add (JS.to_num (tbl !! k)) (JS.Num 1)]> tbl in
  let fastestTbl :=
    match fastest with
    | null => _fastest fo
    | user userId => bump (Some userId) (_fastest fo)
    | undefined => bump None (_fastest fo)
    | object _ => _fastest fo (* no caller passes an object here *)
    end in
  mk scores fastestTbl fastestRounds.

Definition _getFastestPlayer (fo : t) : option (option nat) :=
  let fastOrder :=
    JS.sort (λ a b, JS.sub (JS.to_num (_fastest fo !! b))
                           (JS.to_num (_fastest fo !! a)))
            (JS.Object_keys_x (_fastest fo)) in
  if decide (fastOrder !! 0 = fastOrder !! 1) then None
  else fastOrder !! 0.

(** [_announceWinner]: what reaches the callback as the winner.  The
    outer [None] is [null] (or no argument at all): the unbreakable
    tie.  A winner is a property name, as for [_fastest]. *)
Definition _announceWinner (fo : t) : option (option nat) :=
  let players :=
    JS.sort (λ a b, JS.sub (JS.to_num (_scores fo !! b))
                           (JS.to_num (_scores fo !! a)))
            (JS.Object_keys (_scores fo)) in
  let score_at (p : option nat) := p ≫= (_scores fo !!.) in
  let winner :=
    if JS.loose_neq (score_at (players !! 0)) (score_at (players !! 1))
    then players !! 0 else None in
  match winner with
  | Some w => Some (Some w)
  | None => _getFastestPlayer fo
  end.

(** ** The vote queue

    The fields read and written by [_addVoteRound] and
    [_startVoteRound], next to the tables above; [R] stands for the
    rounds. *)
Record queue (R : Type) : Type := mkQueue {
  _tables : t;
  _curVoteRound : option R;
  _voteQueue : list R;
  _completedVotes : Z;
  _voteRunning : bool;
  _votingStarted : bool
}.

Arguments mkQueue {R}.
Arguments _tables {R}.
Arguments _curVoteRound {R}.
Arguments _voteQueue {R}.
Arguments _completedVotes {R}.
Arguments _voteRunning {R}.
Arguments _votingStarted {R}.

(** The constructor, for what concerns the queue. *)
Definition newQueue {R} (players : list nat) : queue R :=
  mkQueue (new players) None [] 0 false false.

(** What the queue does to the outside: [startVote] called on a round,
    'voteComplete' emitted. *)
Inductive did (R : Type) : Type :=
| startVoteCalled (round : R)
| voteComplete (completedVotes : Z).

Arguments startVoteCalled {R}.
Arguments voteComplete {R}.

(** [_startVoteRound] up to the call of [startVote].  On an empty queue
    [shift] returns [undefined] and the call of [startVote] on it
    throws: [None]. *)
Definition _startVoteRound {R} (q : queue R) : option (queue R * list (did R)) :=
  match _voteQueue q with
  | round :: rest =>
      Some (mkQueue (_tables q) (Some round) rest (_completedVotes q)
                    true true,
            [startVoteCalled round])
  | [] => None
  end.

Definition _addVoteRound {R} (round : R) (q : queue R)
  : option (queue R * list (did R)) :=
  let q := mkQueue (_tables q) (_curVoteRound q) (_voteQueue q ++ [round])
                   (_completedVotes q) (_voteRunning q) (_votingStarted q) in
  if negb (_voteRunning q) then _startVoteRound q else Some (q, []).

(** The callback handed to [startVote] by [_startVoteRound], called
    with [args]. *)
Definition voteCallback {R} (faceOffRounds : Z) (args : list value)
    (q : queue R) : option (queue R * list (did R)) :=
  let completedVotes := (_completedVotes q + 1)%Z in
  let q := mkQueue (voteDone (_tables q) args) (_curVoteRound q)
                   (_voteQueue q) completedVotes false (_votingStarted q) in
  if (completedVotes =? faceOffRounds)%Z
  then Some (q, [voteComplete completedVotes])
  else match _voteQueue q with
       | _ :: _ => _startVoteRound q
       | [] => Some (q, [])
       end.

(** What happens to the queue: a round closes its submissions and is
    added, or the round being voted on calls back.  The callback exists
    only while that round's vote is under way. *)
Inductive queueOp (R : Type) : Type :=
| opAddVoteRound (round : R)
| opVoteCallback (args : list value).

Arguments opAddVoteRound {R}.
Arguments opVoteCallback {R}.

Definition queueStep {R} (faceOffRounds : Z) (q : queue R) (o : queueOp R)
  : option (queue R * list (did R)) :=
  match o with
  | opAddVoteRound round => _addVoteRound round q
  | opVoteCallback args =>
      if _voteRunning q then voteCallback faceOffRounds args q
      else Some (q, [])
  end.

Fixpoint queueRun {R} (faceOffRounds : Z) (q : queue R) (ops : list (queueOp R))
  : option (queue R * list (did R)) :=
  match ops with
  | [] => Some (q, [])
  | o :: ops' =>
      match queueStep faceOffRounds q o with
      | Some (q', out) =>
          match queueRun faceOffRounds q' ops' with
          | Some (q'', out') => Some (q'', out ++ out')
          | None => None
          end
      | None => None
      end
  end.

End FaceOff.

(** ** The face-off with its rounds, its messages and its timers

    The face-off seen in full: its rounds, each a face-off round as
    above, the vote queue and the tables, the timers the face-off sets
    and the calls of the callback of [start].  A round is told by its
    place in [_rounds].  [opts.faceOffRounds] is taken to be a natural
    number. *)

Module FaceOffFull.

Record opts : Type := mkOpts {
  players : list nat;
  faceOffRounds : nat;
  faceOffMinLetters : Z;
  pointCap : Z;
  secsBetweenMessages : Z;
  secsBetweenFaceOffRounds : Z;
  secsPerFaceOffRound : Z;
  secsAfterResults : Z;
  inputPrefix : string;
  acroSecs : option Z
}.

(** The options of the [i]-th round: those of the face-off with
    [numLetters] set. *)
Definition roundOpts (o : opts) (i : nat) : FaceOffRoundFull.opts :=
  FaceOffRoundFull.mkOpts (faceOffMinLetters o + Z.of_nat i) (acroSecs o)
    (secsPerFaceOffRound o) (secsBetweenMessages o) (secsAfterResults o)
    (inputPrefix o) (players o).

(** The timers set by the face-off, each with its delay: by the steps
    [introduce] and [instruct] of [start], by [_sayGapFiller], by the
    callback given to [startAcro] in [playEachRound], by the steps
    [showScores], [showTie] and [showWinner] of [_announceWinner], and
    by [_showFastestRounds], of which the delay is half of
    [secsBetweenMessages]. *)
Inductive timer : Type :=
| introduced (delay : Z) (p1 p2 : string)
| instructed (delay : Z)
| gapFiller (delay : Z) (msgs : list string)
| roundPlayed (delay : Z) (i : nat)
| scoresShown (delay : Z) (winner : option nat)
| tieShown (delay : Z)
| fastestShown (secsBetweenMessages : Z) (roundIdx : nat)
| tieCalled (delay : Z).

(** [_called] lists the winners the callback of [start] was called
    with: as for [FaceOff._announceWinner], the outer [None] is no
    winner at all, and a winner is a property name. *)
Record t : Type := mk {
  _opts : opts;
  _rounds : list FaceOffRoundFull.t;
  _curAcroRound : option nat;
  _queue : FaceOff.queue nat;
  _timers : list timer;
  _called : list (option (option nat))
}.

(** The constructor, given the acronyms made for the rounds. *)
Definition new (o : opts) (acros : nat → string) : t :=
  mk o
     (map (λ i, FaceOffRoundFull.new (roundOpts o i) (acros i))
          (seq 0 (faceOffRounds o)))
     None (FaceOff.newQueue (players o)) [] [].

Definition withRound (s : t) (i : nat) (r : FaceOffRoundFull.t) : t :=
  mk (_opts s) (<[i := r]> (_rounds s)) (_curAcroRound s) (_queue s)
     (_timers s) (_called s).

Definition withQueue (s : t) (q : FaceOff.queue nat) : t :=
  mk (_opts s) (_rounds s) (_curAcroRound s) q (_timers s) (_called s).

Definition addTimer (s : t) (tm : timer) : t :=
  mk (_opts s) (_rounds s) (_curAcroRound s) (_queue s) (_timers s ++ [tm])
     (_called s).

Definition call (s : t) (winner : option (option nat)) : t :=
  mk (_opts s) (_rounds s) (_curAcroRound s) (_queue s) (_timers s)
     (_called s ++ [winner]).

Definition _sayPlayers (s : t) (msg : string) : list NormalRound.said :=
  map (λ userId, NormalRound.priv userId msg) (players (_opts s)).

Definition _sayGapFiller (msgs : list string) (s : t)
  : t * list NormalRound.said :=
  match msgs with
  | msg :: rest =>
      if negb (FaceOff._votingStarted (_queue s))
      then (addTimer s (gapFiller (secsBetweenMessages (_opts s) * 1000) rest),
            [NormalRound.pub msg])
      else (s, [])
  | [] => (s, [])
  end.

Definition _explainFaceOff (p1 p2 : string) (s : t)
  : t * list NormalRound.said :=
  _sayGapFiller
    ["At the end of each game, the top two players go head-to-head in "
     +:+ JS.numToString (Z.of_nat (faceOffRounds (_opts s)))
     +:+ " speed rounds.";
     p1 +:+ " and " +:+ p2 +:+ " will have "
     +:+ JS.numToString (secsPerFaceOffRound (_opts s))
     +:+ " seconds to answer each acro. Then everyone here will have the chance to vote for their favorites!";
     "Votes are the ONLY points that these players get in the face-off, so remember to get yours in!";
     "Once all the votes are tallied up, I'll announce our winner.  Get ready for the first round of voting!"]
    s.

(** [start(cb)] up to the timer of [introduce]. *)
Definition start (userNames : list (option string)) (s : t)
  : t * list NormalRound.said :=
  let p1 := NormalRound.nameOf userNames (players (_opts s) !! 0) in
  let p2 := NormalRound.nameOf userNames (players (_opts s) !! 1) in
  (addTimer s (introduced (secsBetweenMessages (_opts s) * 1000) p1 p2),
   [NormalRound.pub
      ("Our top player has reached the "
       +:+ JS.numToString (pointCap (_opts s))
       +:+ " point mark!  It's time for the face-off round. " +:+ p1
       +:+ " and " +:+ p2
       +:+ ", please switch to your private messages to continue.")]).

(** The step [instruct]. *)
Definition instruct (p1 p2 : string) (s : t) : t * list NormalRound.said :=
  let out :=
    _sayPlayers s
      ("Welcome to the face-off! I'll be running "
       +:+ JS.numToString (Z.of_nat (faceOffRounds (_opts s)))
       +:+ " speed-rounds sent directly to you. Answer by saying "
       +:+ inputPrefix (_opts s) +:+ "ANSWER HERE. Get ready!") in
  let '(s, out') := _explainFaceOff p1 p2 s in
  (addTimer s (instructed (secsBetweenMessages (_opts s) * 1000)),
   out ++ out').

(** [playEachRound] for the [i]-th round, or the step [finish] when
    the rounds are through. *)
Definition playRound (i : nat) (s : t) : t * list NormalRound.said :=
  match _rounds s !! i with
  | Some r =>
      let '(r', out) := FaceOffRoundFull.startAcro r in
      (mk (_opts s) (<[i := r']> (_rounds s)) (Some i) (_queue s)
          (_timers s) (_called s),
       out)
  | None =>
      (s, _sayPlayers s
            "That's a wrap! Head back to the main channel for the results.")
  end.

Definition numStr (x : JS.num) : string :=
  match x with
  | JS.Num z => JS.numToString z
  | JS.NaN => "NaN"
  end.

(** The step [showScores] of [_announceWinner]. *)
Definition showScores (userNames : list (option string)) (s : t)
  : t * list NormalRound.said :=
  let scores := FaceOff._scores (FaceOff._tables (_queue s)) in
  let players :=
    JS.sort (λ a b, JS.sub (JS.to_num (scores !! b)) (JS.to_num (scores !! a)))
            (JS.Object_keys scores) in
  let score_at (p : option nat) := p ≫= (scores !!.) in
  let winner :=
    if JS.loose_neq (score_at (players !! 0)) (score_at (players !! 1))
    then players !! 0 else None in
  let line :=
    foldl (λ line userId,
             line +:+ " [" +:+ NormalRound.nameOf userNames (Some userId)
             +:+ " " +:+ numStr (JS.to_num (scores !! userId)) +:+ "]")
          "Final results:" players in
  (addTimer s (scoresShown (secsBetweenMessages (_opts s)) winner),
   [NormalRound.pub line]).

(** [_showFastestRounds(roundIdx, cb)], with the step [showWinner] it
    calls back to. *)
Definition _showFastestRounds (userNames : list (option string))
    (roundIdx : nat) (s : t) : t * list NormalRound.said :=
  let fastestRounds := FaceOff._fastestRounds (FaceOff._tables (_queue s)) in
  match fastestRounds !! roundIdx with
  | None =>
      match FaceOff._getFastestPlayer (FaceOff._tables (_queue s)) with
      | None =>
          (addTimer s (tieCalled (secsBetweenMessages (_opts s))),
           [NormalRound.pub
              "Well, that didn't help much!  Let's just call it a tie."])
      | Some winner => (call s (Some winner), [])
      end
  | Some fastest =>
      (addTimer s (fastestShown (secsBetweenMessages (_opts s))
                                (roundIdx + 1)),
       [NormalRound.pub
          ("Round " +:+ JS.numToString (Z.of_nat roundIdx + 1) +:+ ": "
           +:+ match fastest with
               | FaceOffRound.null => "Neither player submitted."
               | FaceOffRound.user userId =>
                   NormalRound.nameOf userNames (Some userId)
                   +:+ " answered first."
               | _ => NormalRound.nameOf userNames None +:+ " answered first."
               end)])
  end.

(** What the vote queue asks for: [startVote] on a round, or the
    listener of 'voteComplete', which is [_announceWinner]. *)
Definition perform (userNames : list (option string)) (d : FaceOff.did nat)
    (s : t) : option (t * list NormalRound.said) :=
  match d with
  | FaceOff.startVoteCalled j =>
      match _rounds s !! j with
      | Some r =>
          match FaceOffRoundFull.startVote userNames r with
          | Some (r', out) => Some (withRound s j r', out)
          | None => None
          end
      | None => None
      end
  | FaceOff.voteComplete _ => Some (showScores userNames s)
  end.

Definition performAll (userNames : list (option string))
    (ds : list (FaceOff.did nat)) (s : t)
  : option (t * list NormalRound.said) :=
  foldl (λ acc d,
           match acc with
           | Some (s, out) =>
               match perform userNames d s with
               | Some (s', out') => Some (s', out ++ out')
               | None => None
               end
           | None => None
           end)
        (Some (s, [])) ds.

(** The callback given to [startAcro] of the [i]-th round. *)
Definition acroCallback (userNames : list (option string)) (i : nat) (s : t)
  : option (t * list NormalRound.said) :=
  match FaceOff._addVoteRound i (_queue s) with
  | Some (q, ds) =>
      match performAll userNames ds (withQueue s q) with
      | Some (s, out) =>
          Some (addTimer s
                  (roundPlayed (secsBetweenFaceOffRounds (_opts s) * 1000) i),
                out)
      | None => None
      end
  | None => None
  end.

(** The callback given to [startVote] by [_startVoteRound], called
    with [args]. *)
Definition voteCallback (userNames : list (option string))
    (args : list FaceOffRound.value) (s : t)
  : option (t * list NormalRound.said) :=
  match FaceOff.voteCallback (Z.of_nat (faceOffRounds (_opts s))) args
          (_queue s) with
  | Some (q, ds) => performAll userNames ds (withQueue s q)
  | None => None
  end.

(** Something happens to the [i]-th round; the calls of its callbacks
    reach the face-off. *)
Definition onRound (userNames : list (option string)) (i : nat)
    (o : FaceOffRoundFull.op) (s : t) : option (t * list NormalRound.said) :=
  match _rounds s !! i with
  | Some r =>
      let '(r', out) := FaceOffRoundFull.step userNames r o in
      let s := withRound s i r' in
      let acc :=
        if decide (FaceOffRoundFull._acroCalls r
                   < FaceOffRoundFull._acroCalls r')%nat
        then match acroCallback userNames i s with
             | Some (s, out') => Some (s, out ++ out')
             | None => None
             end
        else Some (s, out) in
      foldl (λ acc args,
               match acc with
               | Some (s, out) =>
                   match voteCallback userNames args s with
                   | Some (s', out') => Some (s', out ++ out')
                   | None => None
                   end
               | None => None
               end)
            acc
            (drop (length (FaceOffRoundFull._voteCalls r))
                  (FaceOffRoundFull._voteCalls r'))
  | None => Some (s, [])
  end.

Definition userInput (userNames : list (option string)) (now : Z)
    (userId : nat) (msg : string) (s : t)
  : option (t * list NormalRound.said) :=
  if bool_decide (userId ∈ players (_opts s)) then
    match _curAcroRound s with
    | Some i =>
        onRound userNames i (FaceOffRoundFull.opSubmitPhrase now userId msg) s
    | None => Some (s, [])
    end
  else
    match FaceOff._curVoteRound (_queue s) with
    | Some j => onRound userNames j (FaceOffRoundFull.opSubmitVote userId msg) s
    | None => Some (s, [])
    end.

(** A timer of the face-off fires. *)
Definition fireTimer (userNames : list (option string)) (tm : timer) (s : t)
  : t * list NormalRound.said :=
  match tm with
  | introduced _ p1 p2 => instruct p1 p2 s
  | instructed _ => playRound 0 s
  | gapFiller _ msgs => _sayGapFiller msgs s
  | roundPlayed _ i => playRound (i + 1) s
  | scoresShown _ (Some winner) => (call s (Some (Some winner)), [])
  | scoresShown _ None =>
      (addTimer s (tieShown (secsBetweenMessages (_opts s))),
       [NormalRound.pub
          "We have a tie! The winner will be decided by who answered the fastest."])
  | tieShown _ => _showFastestRounds userNames 0 s
  | fastestShown _ roundIdx => _showFastestRounds userNames roundIdx s
  | tieCalled _ => (call s None, [])
  end.

(** What happens to a started face-off: an input, a timeout or a timer
    of one of its rounds, a timer of its own. *)
Inductive op : Type :=
| opUserInput (now : Z) (userId : nat) (msg : string)
| opRoundTimeout (i : nat) (draws : nat → JS.random) (k : nat)
| opRoundTimer (i : nat) (k : nat)
| opTimer (k : nat).

(** A step; [None] when it throws. *)
Definition step (userNames : list (option string)) (s : t) (o : op)
  : option (t * list NormalRound.said) :=
  match o with
  | opUserInput now userId msg => userInput userNames now userId msg s
  | opRoundTimeout i draws k =>
      onRound userNames i (FaceOffRoundFull.opRoundTimeout draws k) s
  | opRoundTimer i k => onRound userNames i (FaceOffRoundFull.opTimer k) s
  | opTimer k =>
      match _timers s !! k with
      | Some tm =>
          Some (fireTimer userNames tm
                  (mk (_opts s) (_rounds s) (_curAcroRound s) (_queue s)
                      (delete k (_timers s)) (_called s)))
      | None => Some (s, [])
      end
  end.

Fixpoint run (s : t) (ops : list (list (option string) * op))
  : option (t * list NormalRound.said) :=
  match ops with
  | [] => Some (s, [])
  | o :: ops' =>
      match step o.1 s o.2 with
      | Some (s', out) =>
          match run s' ops' with
          | Some (s'', out') => Some (s'', out ++ out')
          | None => None
          end
      | None => None
      end
  end.

(** A face-off played: [start], then what happens. *)
Definition play (o : opts) (acros : nat → string)
    (userNames : list (option string))
    (ops : list (list (option string) * op))
  : option (t * list NormalRound.said) :=
  let '(s, out) := start userNames (new o acros) in
  match run s ops with
  | Some (s', out') => Some (s', out ++ out')
  | None => None
  end.

End FaceOffFull.

(* ===================================================================== *)
(** * lib/AcroGame.js *)
(* ===================================================================== *)

Module AcroGame.

(** A message that left the game through the raw senders given in the
    options. *)
Inductive delivery : Type :=
| rawSayPublic (message : string)
| rawSayPrivate (userName : string) (message : string).

(** What the game hands on as a user id: [_userIds[user]], which is the
    number the name is registered under or, for the name "__proto__",
    the prototype of the plain object [_userIds]. *)
Inductive userKey : Type :=
| idNum (id : nat)
| idProto.

(** A call of [opts.sayPublic] or [opts.sayPrivate], which the
    constructor binds to [_sayPublic] and [_sayPrivate]. *)
Inductive say : Type :=
| sayPublic (message : string)
| sayPrivate (userId : userKey) (message : string).

(** Events emitted on the game. *)
Inductive emitted : Type :=
| ev_start
| ev_win (winner : userKey)
| ev_end (natural : bool).

(** ** The plain object [_userIds]

    Its own properties are kept in a map from names to numbers.  The
    name "__proto__" is never among them: an assignment of a number
    under that name is ignored, and a read under it gives the prototype.
    The method [hasOwnProperty] is looked up on the object itself
    first: once a name "hasOwnProperty" is registered, what is found is
    a number, and the call throws. *)
Definition own (userIds : gmap string nat) (key : string) : option nat :=
  if decide (key = "__proto__") then None else userIds !! key.

(** [_userIds.hasOwnProperty(key)], with the value of the property
    when it is there. *)
Inductive owned : Type :=
| thrown
| absent
| present (id : nat).

Definition hasOwnProperty (userIds : gmap string nat) (key : string)
  : owned :=
  match userIds !! "hasOwnProperty" with
  | Some _ => thrown
  | None =>
      match own userIds key with
      | Some id => present id
      | None => absent
      end
  end.

(** [_userIds[key] = id] *)
Definition assign (userIds : gmap string nat) (key : string) (id : nat)
  : gmap string nat :=
  if decide (key = "__proto__") then userIds else <[key := id]> userIds.

(** [_userIds[key]]; [None] stands for what is read under a name that
    is no own property: [undefined], or a method of the prototype. *)
Definition read (userIds : gmap string nat) (key : string)
  : option userKey :=
  if decide (key = "__proto__") then Some idProto
  else idNum <$> (userIds !! key).

(** ** The options

    An options object maps names to values: numbers, strings, booleans,
    [null], arrays of user ids, and functions and other objects, which
    a name tells apart. *)
Inductive optVal : Type :=
| optNum (n : JS.num)
| optStr (s : string)
| optBool (b : bool)
| optNull
| optIds (ids : list (option nat))
| optRef (name : string).

Definition truthyVal (v : optVal) : bool :=
  match v with
  | optNum n => JS.truthy n
  | optStr s => JS.truthy_str (Some s)
  | optBool b => b
  | optNull => false
  | optIds _ | optRef _ => true
  end.

(** [x || val] for a property read [x]. *)
Definition orElse (x : option optVal) (val : optVal) : optVal :=
  match x with
  | Some v => if truthyVal v then v else val
  | None => val
  end.

(** The properties of [DEFAULT_OPTS], in the order they are written
    in, which is the order [forEach] visits them in. *)
Definition DEFAULT_OPTS : list (string * optVal) :=
  [("charPool",
    optStr "AAAABBBBCCCCDDDDEEEEEFFFFGGGGHHHHIIIIJJKKLLLLMMMMNNNNOOOPPPPQQRRRSSSSTTTTUVVWWXYZ");
   ("faceOffRounds", optNum (JS.Num 3));
   ("faceOffMinLetters", optNum (JS.Num 3));
   ("pointCap", optNum (JS.Num 30));
   ("sayPrivate", optRef "function() {}");
   ("sayPublic", optRef "function() {}");
   ("secsAfterResults", optNum (JS.Num 7));
   ("secsBetweenMessages", optNum (JS.Num 5));
   ("secsBetweenRounds", optNum (JS.Num 7));
   ("secsPerAcroRound", optNum (JS.Num 60));
   ("secsPerVoteRound", optNum (JS.Num 30));
   ("secsPerFaceOffRound", optNum (JS.Num 30));
   ("secsBetweenFaceOffRounds", optNum (JS.Num 2));
   ("minLetters", optNum (JS.Num 3));
   ("maxLetters", optNum (JS.Num 7));
   ("pointsVoteForWinner", optNum (JS.Num 1));
   ("pointsFastestWithVote", optNum (JS.Num 2));
   ("inputPrefix", optStr EmptyString)].

(** [_opts] as the constructor leaves it, given its argument. *)
Definition options (opts : gmap string optVal) : gmap string optVal :=
  let _opts :=
    foldl (λ (_opts : gmap string optVal) kv,
             <[kv.1 := orElse (opts !! kv.1) kv.2]> _opts)
          ∅ DEFAULT_OPTS in
  let _opts := <["sayPrivate" := optRef "this._sayPrivate.bind(this)"]> _opts in
  let _opts := <["sayPublic" := optRef "this._sayPublic.bind(this)"]> _opts in
  <["userNames" := optRef "this._userNames"]> _opts.

(** The options [_playToCap] hands to a normal round, [_playFaceOff] to
    the face-off, and the constructor of the face-off to each of its
    rounds. *)
Definition normalRoundOptions (_opts : gmap string optVal)
    (numLetters : optVal) : gmap string optVal :=
  oUtil.merge [Some _opts; Some {[ "numLetters" := numLetters ]}].

Definition faceOffOptions (_opts : gmap string optVal)
    (user1 user2 : option nat) : gmap string optVal :=
  oUtil.merge [Some _opts; Some {[ "players" := optIds [user1; user2] ]}].

Definition faceOffRoundOptions (opts : gmap string optVal)
    (numLetters : optVal) : gmap string optVal :=
  oUtil.merge [Some opts; Some {[ "numLetters" := numLetters ]}].

Section Game.

(** The state closed over by the current [_handleInput] (the round or
    face-off being played). *)
Context {H : Type}.

(** [_userNames] is an array; [_userNamesObject] is its property
    "[object Object]", which is where an access under the prototype of
    [_userIds] goes. *)
Record t : Type := mk {
  _handleInput : H → userKey → string → H * list say;
  _handlerState : H;
  _running : bool;
  _ended : bool;
  _scores : gmap nat Z;
  _userIds : gmap string nat;
  _userNames : list (option string);
  _userNamesObject : option string
}.

(** The constructor: [_handleInput] does nothing. *)
Definition new (h : H) : t :=
  mk (λ h _ _, (h, [])) h false false ∅ ∅ [] None.

(** [_userNames[userId]] *)
Definition nameAt (g : t) (userId : userKey) : option string :=
  match userId with
  | idNum id => JS.array_get (_userNames g) id
  | idProto => _userNamesObject g
  end.

Definition _sayPublic (g : t) (message : string) : list delivery :=
  if negb (_ended g) then [rawSayPublic message] else [].

Definition _sayPrivate (g : t) (userId : userKey) (message : string)
  : list delivery :=
  if negb (_ended g) && JS.truthy_str (nameAt g userId)
  then match nameAt g userId with
       | Some userName => [rawSayPrivate userName message]
       | None => []
       end
  else [].

Definition perform (g : t) (s : say) : list delivery :=
  match s with
  | sayPublic message => _sayPublic g message
  | sayPrivate userId message => _sayPrivate g userId message
  end.

(** [changeUser]; [None] when it throws.  The last assignment goes to
    [_userNames] under what [_userIds[newUser]] reads then: the id, or
    the prototype when the new name is "__proto__", or, the new name
    being the old one and deleted, something that names no element of
    the array and no property this model reads. *)
Definition changeUser (g : t) (oldUser newUser : string) : option t :=
  match hasOwnProperty (_userIds g) oldUser with
  | thrown => None
  | absent => Some g
  | present id =>
      let userIds := assign (_userIds g) newUser id in
      let userIds := delete oldUser userIds in
      let '(userNames, userNamesObject) :=
        match read userIds newUser with
        | Some (idNum i) =>
            (JS.array_set i newUser (_userNames g), _userNamesObject g)
        | Some idProto => (_userNames g, Some newUser)
        | None => (_userNames g, _userNamesObject g)
        end in
      Some (mk (_handleInput g) (_handlerState g) (_running g) (_ended g)
               (_scores g) userIds userNames userNamesObject)
  end.

(** [deleteUser]; [None] when it throws.  The property names of
    [_scores] are user ids, so that its [hasOwnProperty] is the
    inherited one. *)
Definition deleteUser (g : t) (userName : string) : option t :=
  match hasOwnProperty (_userIds g) userName with
  | thrown => None
  | absent => Some g
  | present id =>
      Some (mk (_handleInput g) (_handlerState g) (_running g) (_ended g)
               (delete id (_scores g)) (_userIds g) (_userNames g)
               (_userNamesObject g))
  end.

(** [start], with [_runGame] left to the caller: it is reached only
    when the game is neither running nor ended. *)
Definition start (runGame : t → t * list delivery) (g : t)
  : t * bool * list emitted * list delivery :=
  if negb (_running g) && negb (_ended g) then
    let g1 := mk (_handleInput g) (_handlerState g) true (_ended g)
                 (_scores g) (_userIds g) (_userNames g)
                 (_userNamesObject g) in
    let '(g2, out) := runGame g1 in
    (g2, true, [ev_start], out)
  else (g, false, [], []).

Definition stop (g : t) : t * bool * list emitted :=
  if negb (_ended g) then
    (mk (_handleInput g) (_handlerState g) (_running g) true
        (_scores g) (_userIds g) (_userNames g) (_userNamesObject g),
     true, [ev_end false])
  else (g, false, []).

(** The call of [_handleInput] that ends [userInput], the tables being
    [userIds] and [userNames] by then. *)
Definition handInput (g : t) (userIds : gmap string nat)
    (userNames : list (option string)) (id : userKey) (input : string)
  : t * list delivery :=
  let '(h, says) := _handleInput g (_handlerState g) id input in
  let g' := mk (_handleInput g) h (_running g) (_ended g)
               (_scores g) userIds userNames (_userNamesObject g) in
  (g', flat_map (perform g') says).

(** [userInput]; [None] when it throws.  A name that is no own
    property is given the next id and pushed on [_userNames]; for the
    name "__proto__" the assignment does nothing, the name is pushed all
    the same, and the handler is handed the prototype. *)
Definition userInput (g : t) (user input : string)
  : option (t * list delivery) :=
  match hasOwnProperty (_userIds g) user with
  | thrown => None
  | present id => Some (handInput g (_userIds g) (_userNames g) (idNum id)
                                  input)
  | absent =>
      let id := length (_userNames g) in
      let userNames := _userNames g ++ [Some user] in
      if decide (user = "__proto__")
      then Some (handInput g (_userIds g) userNames idProto input)
      else Some (handInput g (<[user := id]> (_userIds g)) userNames
                           (idNum id) input)
  end.

(** What can happen to a game from outside: the public methods, and
    any callback of a round or of the game asking for a message to be
    sent. *)
Inductive op : Type :=
| opStart
| opStop
| opUserInput (user input : string)
| opChangeUser (oldUser newUser : string)
| opDeleteUser (userName : string)
| opSay (s : say).

(** A step; [None] when the call throws. *)
Definition step (runGame : t → t * list delivery) (g : t) (o : op)
  : option (t * list delivery * list emitted) :=
  match o with
  | opStart =>
      let '(g', _, ev, out) := start runGame g in Some (g', out, ev)
  | opStop => let '(g', _, ev) := stop g in Some (g', [], ev)
  | opUserInput user input =>
      match userInput g user input with
      | Some (g', out) => Some (g', out, [])
      | None => None
      end
  | opChangeUser oldUser newUser =>
      match changeUser g oldUser newUser with
      | Some g' => Some (g', [], [])
      | None => None
      end
  | opDeleteUser userName =>
      match deleteUser g userName with
      | Some g' => Some (g', [], [])
      | None => None
      end
  | opSay s => Some (g, perform g s, [])
  end.

(** A sequence of calls.  A call that throws leaves the game as it
    was, each of them throwing, if at all, in its first test; the
    caller has the exception, and the calls after it are made all the
    same. *)
Definition run (runGame : t → t * list delivery) (g : t) (ops : list op)
  : t * list delivery * list emitted :=
  foldl (λ acc o,
           let '(g, out, ev) := acc in
           match step runGame g o with
           | Some (g', out', ev') => (g', out ++ out', ev ++ ev')
           | None => (g, out, ev)
           end)
        (g, [], []) ops.

(** ** _getTopScore, and the steps [nextRound] of [_playToCap] and
    [getTopTwo] of [_runGame] *)

Definition _getTopScore (g : t) : Z :=
  oUtil.forEach (_scores g)
    (λ maxScore userId score,
       if (maxScore <? score)%Z then score else maxScore)
    0%Z.

(** What [nextRound] decides: the normal rounds are over, or another
    round is played with that many letters. *)
Inductive next : Type :=
| capReached
| playToCap (numLetters : Z).

Definition nextRound (pointCap minLetters maxLetters : Z) (g : t)
    (numLetters : Z) : next :=
  if (pointCap <=? _getTopScore g)%Z then capReached
  else
    let numLetters := (numLetters + 1)%Z in
    playToCap (if (maxLetters <? numLetters)%Z then minLetters
               else numLetters).

(** The two users handed to [_playFaceOff]; [None] is [undefined]. *)
Definition getTopTwo (g : t) : option nat * option nat :=
  let users :=
    JS.sort (λ a b, JS.sub (JS.of_read (_scores g !! b))
                           (JS.of_read (_scores g !! a)))
            (JS.Object_keys (_scores g)) in
  (users !! 0, users !! 1).

(** ** The step [addPoints] of [_playToCap]

    The points of the round are added to the scores.  The object of
    points may hold a property that is no user id and values that are
    not numbers, so the scores are taken here as an object of that
    kind. *)
Definition addPoints (points scores : gmap (option nat) JS.num)
  : gmap (option nat) JS.num :=
  foldl (λ scores userId,
           match points !! userId with
           | Some val =>
               if JS.truthy val
               then <[userId := JS.add (JS.or0 (scores !! userId)) val]>
                      scores
               else scores
           | None => scores
           end)
        scores (JS.Object_keys_x points).

(** [_scores] as such an object. *)
Definition scoresObject (scores : gmap nat Z) : gmap (option nat) JS.num :=
  kmap Some (JS.Num <$> scores).

(** ** The last steps of [_runGame] and its error handler

    [complete] receives the winner of the face-off, the name of a
    property of its scores (a text that is not empty, so that the test
    holds) or nothing; with a winner it announces it, emits 'win', which
    no test of [_ended] guards, and sets the timer of [endGame]; without
    one [endGame] follows at once.  [endGame] closes a game played to
    its end; the handler given to [catch] receives the error of a round
    that could not be completed, of which the message is read (a trace
    printed on the console is left out). *)
Definition endGame (g : t) : t * list delivery * list emitted :=
  let out := _sayPublic g "Thanks for playing!" in
  if negb (_ended g) then
    (mk (_handleInput g) (_handlerState g) (_running g) true
        (_scores g) (_userIds g) (_userNames g) (_userNamesObject g),
     out, [ev_end true])
  else (g, out, []).

Definition complete (g : t) (winner : option userKey)
  : t * list delivery * list emitted :=
  match winner with
  | Some w =>
      (g,
       _sayPublic g (JS.str (nameAt g w)
                     +:+ " has won the game! Congratulations!"),
       [ev_win w])
  | None => endGame g
  end.

Definition catch (g : t) (message : string)
  : t * list delivery * list emitted :=
  if negb (_ended g) then
    (mk (_handleInput g) (_handlerState g) (_running g) true
        (_scores g) (_userIds g) (_userNames g) (_userNamesObject g),
     _sayPublic g ("Game aborted: " +:+ message), [ev_end false])
  else (g, [], []).

(** What happens to a game, from outside or from its own course. *)
Inductive course : Type :=
| fromOutside (o : op)
| opComplete (winner : option userKey)
| opEndGame
| opCatch (message : string).

(** A step of the course; [None] when a call from outside throws. *)
Definition courseStep (runGame : t → t * list delivery) (g : t) (c : course)
  : option (t * list delivery * list emitted) :=
  match c with
  | fromOutside o => step runGame g o
  | opComplete winner => Some (complete g winner)
  | opEndGame => Some (endGame g)
  | opCatch message => Some (catch g message)
  end.

(** The course of a game; as in [run], a call that throws leaves the
    game as it was. *)
Definition courseRun (runGame : t → t * list delivery) (g : t)
    (cs : list course) : t * list delivery * list emitted :=
  foldl (λ acc c,
           let '(g, out, ev) := acc in
           match courseStep runGame g c with
           | Some (g', out', ev') => (g', out ++ out', ev ++ ev')
           | None => (g, out, ev)
           end)
        (g, [], []) cs.

End Game.

Arguments t : clear implicits.

End AcroGame.

(* ===================================================================== *)
(** * index.js *)
(* ===================================================================== *)

Module Acrophobia.

Definition START_DELAY : Z := 15.

(** A call of [client.notice]. *)
Inductive notice : Type :=
| mkNotice (target : string) (message : string).

(** The senders given to a game created for [channel]. *)
Definition deliver (channel : string) (d : AcroGame.delivery) : notice :=
  match d with
  | AcroGame.rawSayPublic msg => mkNotice channel msg
  | AcroGame.rawSayPrivate user msg => mkNotice user msg
  end.

(** Whether 'end' is among the events emitted. *)
Definition endEmitted (ev : list AcroGame.emitted) : bool :=
  existsb (λ e, match e with
                | AcroGame.ev_end _ => true
                | AcroGame.ev_start | AcroGame.ev_win _ => false
                end) ev.

(** [games], an object keyed by channel, as the list of its properties
    in the order they were added in; a game is told by its place among
    the games created so far. *)
Fixpoint get (channel : string) (games : list (string * nat)) : option nat :=
  match games with
  | [] => None
  | (c, i) :: rest => if decide (c = channel) then Some i else get channel rest
  end.

Definition remove (channel : string) (games : list (string * nat))
  : list (string * nat) :=
  filter (λ e, e.1 ≠ channel) games.

Section Mod.

Context {H : Type}.

(** [client.nick], the course of a started game, and the state the
    input handler of a new game closes over. *)
Variable nick : string.
Variable runGame : AcroGame.t H → AcroGame.t H * list AcroGame.delivery.
Variable h : H.

(** The state of the module: [games]; the games created so far, each
    with the channel it was created for, which its senders and its
    'end' listener close over; the channels of the start timers under
    way; and whether the listeners on the client are in place. *)
Record t : Type := mk {
  games : list (string * nat);
  created : list (string * AcroGame.t H);
  timers : list string;
  listening : bool
}.

(** The module as loaded. *)
Definition init : t := mk [] [] [] true.

(** Something happens to the [i]-th game created; its messages go out
    as notices and its 'end' listener deletes [games[channel]].  [None]
    when the game throws. *)
Definition onGame (i : nat) (c : AcroGame.course) (s : t)
  : option (t * list notice) :=
  match created s !! i with
  | Some (channel, g) =>
      match AcroGame.courseStep runGame g c with
      | Some (g', out, ev) =>
          Some (mk (if endEmitted ev then remove channel (games s)
                    else games s)
                   (<[i := (channel, g')]> (created s)) (timers s)
                   (listening s),
                map (deliver channel) out)
      | None => None
      end
  | None => Some (s, [])
  end.

Definition acroInput (from channel input : string) (onChannel : bool) (s : t)
  : option (t * list notice) :=
  match get channel (games s) with
  | Some i =>
      if onChannel
      then onGame i (AcroGame.fromOutside (AcroGame.opUserInput from input)) s
      else Some (s, [])
  | None => Some (s, [])
  end.

Definition startGame (replyTo channel : string) (s : t) : t * list notice :=
  match get channel (games s) with
  | Some _ =>
      (s, [mkNotice replyTo
             ("An Acrophobia game is already running on " +:+ channel)])
  | None =>
      let inputPrefix := "/msg " +:+ nick +:+ " acro " +:+ channel +:+ " " in
      (mk (games s ++ [(channel, length (created s))])
          (created s ++ [(channel, AcroGame.new h)])
          (timers s ++ [channel]) (listening s),
       [mkNotice channel
          ("Acrophobia starts in " +:+ JS.numToString START_DELAY
           +:+ " seconds! /msg " +:+ nick +:+ " acrohelp for instructions.");
        mkNotice channel
          ("Copy this to your clipboard: [" +:+ inputPrefix +:+ "].")])
  end.

Definition stopGame (replyTo channel : string) (s : t)
  : option (t * list notice) :=
  match get channel (games s) with
  | None =>
      Some (s, [mkNotice replyTo
                  ("Acrophobia isn't running in " +:+ channel)])
  | Some i =>
      match onGame i (AcroGame.fromOutside AcroGame.opStop) s with
      | Some (s, out) =>
          Some (mk (remove channel (games s)) (created s) (timers s)
                   (listening s),
                out ++ [mkNotice replyTo
                          ("Acrophobia stopped for " +:+ channel)])
      | None => None
      end
  end.

(** A loop over [channels]; a pass that throws ends it. *)
Definition eachChannel (channels : list string)
    (pass : string → t → option (t * list notice)) (s : t)
  : option (t * list notice) :=
  foldl (λ acc channel,
           match acc with
           | Some (s, out) =>
               match pass channel s with
               | Some (s', out') => Some (s', out ++ out')
               | None => None
               end
           | None => None
           end)
        (Some (s, [])) channels.

(** [stopAll]: the loop visits the channels [games] holds when it
    starts; a pass deletes the channel it is at and no other. *)
Definition stopAll (s : t) : option (t * list notice) :=
  eachChannel (games s).*1 (λ channel, stopGame channel channel) s.

Definition nickHandler (oldNick newNick : string) (channels : list string)
    (s : t) : option (t * list notice) :=
  eachChannel channels
    (λ channel s,
       match get channel (games s) with
       | Some i =>
           onGame i (AcroGame.fromOutside
                       (AcroGame.opChangeUser oldNick newNick)) s
       | None => Some (s, [])
       end)
    s.

Definition partHandler (channel nick' : string) (s : t)
  : option (t * list notice) :=
  match get channel (games s) with
  | Some i =>
      onGame i (AcroGame.fromOutside (AcroGame.opDeleteUser nick')) s
  | None => Some (s, [])
  end.

Definition quitHandler (nick' : string) (channels : list string) (s : t)
  : option (t * list notice) :=
  eachChannel channels (λ channel, partHandler channel nick') s.

(** [to[0] == '#' || to[0] == '&'] *)
Definition inChan (to : string) : bool :=
  match to with
  | String c _ => bool_decide (c = "#"%char) || bool_decide (c = "&"%char)
  | EmptyString => false
  end.

(** What a game does on its own, in the course of its rounds. *)
Inductive inner : Type :=
| innerSay (m : AcroGame.say)
| innerComplete (winner : option AcroGame.userKey)
| innerEndGame
| innerCatch (message : string).

Definition courseOf (e : inner) : AcroGame.course :=
  match e with
  | innerSay m => AcroGame.fromOutside (AcroGame.opSay m)
  | innerComplete winner => AcroGame.opComplete winner
  | innerEndGame => AcroGame.opEndGame
  | innerCatch message => AcroGame.opCatch message
  end.

(** What happens to the module: the commands [acro] (with the first
    element of its arguments, and what the client answers on whether
    the sender is on the channel), [acrostart] and [acrostop]; the
    events 'nick', 'part' or 'kick', and 'quit' of the client; [unload];
    a start timer firing; a game going its course. *)
Inductive op : Type :=
| cmdAcro (from to target input : string) (onChannel : bool)
| cmdAcrostart (from to target : string)
| cmdAcrostop (from to target : string)
| evNick (oldNick newNick : string) (channels : list string)
| evPart (channel nick' : string)
| evQuit (nick' : string) (channels : list string)
| opUnload
| opStartTimer (k : nat)
| opInner (i : nat) (e : inner).

(** A step; [None] when it throws: a game does, or the start timer
    calls [start] on [games[channel]], which is [undefined] if no game
    is there. *)
Definition step (s : t) (o : op) : option (t * list notice) :=
  match o with
  | cmdAcro from to target input onChannel =>
      if decide (to ≠ nick)
      then Some (s, [mkNotice to
                       "The acro command must be sent as a private message"])
      else acroInput from target input onChannel s
  | cmdAcrostart from to target =>
      Some (startGame (if inChan to then to else from) target s)
  | cmdAcrostop from to target =>
      stopGame (if inChan to then to else from) target s
  | evNick oldNick newNick channels =>
      if listening s then nickHandler oldNick newNick channels s
      else Some (s, [])
  | evPart channel nick' =>
      if listening s then partHandler channel nick' s
      else Some (s, [])
  | evQuit nick' channels =>
      if listening s then quitHandler nick' channels s
      else Some (s, [])
  | opUnload =>
      match stopAll s with
      | Some (s, out) =>
          Some (mk (games s) (created s) (timers s) false, out)
      | None => None
      end
  | opStartTimer k =>
      match timers s !! k with
      | Some channel =>
          let s := mk (games s) (created s) (delete k (timers s))
                      (listening s) in
          match get channel (games s) with
          | Some i => onGame i (AcroGame.fromOutside AcroGame.opStart) s
          | None => None
          end
      | None => Some (s, [])
      end
  | opInner i e => onGame i (courseOf e) s
  end.

Fixpoint run (s : t) (ops : list op) : option (t * list notice) :=
  match ops with
  | [] => Some (s, [])
  | o :: ops' =>
      match step s o with
      | Some (s', out) =>
          match run s' ops' with
          | Some (s'', out') => Some (s'', out ++ out')
          | None => None
          end
      | None => None
      end
  end.

End Mod.

Arguments t : clear implicits.

End Acrophobia.

(* ===================================================================== *)
(** * Specification-side definitions and test data *)
(* ===================================================================== *)

(** The user voted for by an input, as the specification reads it: the
    input parsed as a 1-based index into the order of the submissions. *)
Definition votedIndex (order : list nat) (voteStr : string) : option nat :=
  match JS.parseInt voteStr with
  | JS.Num n =>
      if decide (1 ≤ n ≤ Z.of_nat (length order))%Z
      then order !! Z.to_nat (n - 1)
      else None
  | JS.NaN => None
  end.

(** The number of votes a user received. *)
Definition received (votes : gmap nat nat) (x : nat) : nat :=
  length (filter (λ kv, kv.2 = x) (map_to_list votes)).

(** [x] holds the maximum number of received votes, among the users who
    received any. *)
Definition topScorer (votes : gmap nat nat) (x : nat) : Prop :=
  (0 < received votes x)%nat ∧ ∀ y, (received votes y ≤ received votes x)%nat.

(** The sum of a list of numbers, and of the values of an object of
    numbers. *)
Definition sumZ (l : list Z) : Z := foldr Z.add 0%Z l.

Definition sumValues (o : gmap nat Z) : Z := sumZ (map snd (map_to_list o)).

(** The acronym of a phrase as the specification words it: the first
    character of each white-space separated token of the normalised text,
    concatenated. *)
Module PhraseSpec.

Definition normalise (phrase : string) : string :=
  JS.strip_ends
    (JS.collapse_spaces (JS.replace_unkept (JS.toUpperCase phrase))).

(** The tokens of a text: the maximal runs of characters other than
    white space. [cur] is the token being read, reversed. *)
Fixpoint tokensFrom (cur : list ascii) (s : string) : list string :=
  let flush := match cur with
               | [] => []
               | _ => [Stdlib.Strings.String.string_of_list_ascii (rev cur)]
               end in
  match s with
  | EmptyString => flush
  | String c s' =>
      if JS.is_space c then flush ++ tokensFrom [] s'
      else tokensFrom (c :: cur) s'
  end.

Definition tokens (s : string) : list string := tokensFrom [] s.

Definition firstChar (w : string) : string :=
  match w with String c _ => String c EmptyString | EmptyString => EmptyString end.

Definition acronym (phrase : string) : string :=
  foldr (λ w acc, firstChar w +:+ acc) EmptyString (tokens (normalise phrase)).

End PhraseSpec.

(** No white space directly after white space (nor at the start when
    [afterSpace]), and every white-space character is a space. *)
Fixpoint collapsedAfter (afterSpace : bool) (s : string) : bool :=
  match s with
  | EmptyString => true
  | String c s' =>
      if JS.is_space c
      then negb afterSpace && (JS.code c =? 32)%nat && collapsedAfter true s'
      else collapsedAfter false s'
  end.

(** Non-empty words separated by single spaces; with [afterSpace] a word
    has to start at once. *)
Fixpoint wordsAfter (afterSpace : bool) (s : string) : bool :=
  match s with
  | EmptyString => negb afterSpace
  | String c s' =>
      if JS.is_space c
      then negb afterSpace && (JS.code c =? 32)%nat && wordsAfter true s'
      else wordsAfter false s'
  end.

(** [x] put in front of the first piece. *)
Definition prepend (x : string) (pieces : list string) : list string :=
  match pieces with
  | w :: ws => (x +:+ w) :: ws
  | [] => []
  end.

Definition firsts (ws : list string) : string :=
  foldr (λ w acc, PhraseSpec.firstChar w +:+ acc) EmptyString ws.

(** The round set up by the test of [_getResults] (test/Round.js). *)
Definition testRound : Round.t :=
  Round.mk "" Round.PHASE_STOPPED
    (list_to_map [(0, "A phrase"); (1, "B phrase"); (2, "C phrase");
                  (3, "D phrase"); (4, "E phrase")])
    (list_to_map [(0, 2%Z); (1, 1%Z); (2, 3%Z); (3, 4%Z); (4, 5%Z)])
    []
    (list_to_map [(0, 3); (1, 3); (2, 4); (3, 4)]).

(** The default bonuses of AcroGame::DEFAULT_OPTS, for a three-letter
    acro. *)
Definition defaultOpts : NormalRound.opts := NormalRound.mkOpts 3 2 1.

(** A round in its voting phase, three phrases on display. *)
Definition votingRound : Round.t :=
  Round.mk "ABC" Round.PHASE_VOTE
    (list_to_map [(0, "A B C"); (1, "AB BA CA"); (2, "A BB C")])
    (list_to_map [(0, 10%Z); (1, 20%Z); (2, 30%Z)])
    [2; 0; 1]
    ∅.

(** A round in its submission phase. *)
Definition acroRound : Round.t :=
  Round.mk "ABC" Round.PHASE_ACRO ∅ ∅ [] ∅.

(** Two face-off rounds in which both players answered: the votes went
    2-3 then 3-2, and each player was once the first to answer. *)
Definition tiedFaceOff : FaceOff.t :=
  foldl FaceOff.voteDone (FaceOff.new [0; 1])
    [ [FaceOffRound.null;
       FaceOffRound.object (list_to_map [(0, 2%Z); (1, 3%Z)]);
       FaceOffRound.user 0];
      [FaceOffRound.null;
       FaceOffRound.object (list_to_map [(0, 3%Z); (1, 2%Z)]);
       FaceOffRound.user 1] ].

(** The same two rounds followed by a third one in which neither player
    answered (three rounds is the default): [startVote] then calls back
    with [{}] and [null]. *)
Definition tiedFaceOff3 : FaceOff.t :=
  FaceOff.voteDone tiedFaceOff [FaceOffRound.object ∅; FaceOffRound.null].

(** A fresh game in which "bob" has said something. *)
Definition bobGame : AcroGame.t unit :=
  (AcroGame.run (λ g, (g, [])) (AcroGame.new tt)
     [AcroGame.opUserInput "bob" "hello"]).1.1.

(** The voters among [ks] who voted for [x]. *)
Definition hits (votes : gmap nat nat) (ks : list nat) (x : nat) : nat :=
  length (filter (λ k, votes !! k = Some x) ks).

(** The loop of [_getResults] over the votes, cut after the voters
    [ks]. *)
Definition tallyOver (votes : gmap nat nat) (ks : list nat)
  : gmap nat Z * gmap nat (list nat) :=
  foldl (λ acc key,
           match votes !! key with
           | Some val => Round.countVote acc key val
           | None => acc
           end) (∅, ∅) ks.

(** A run of [submitVote] calls, each input with its voter. *)
Definition castVotes (r0 : Round.t) (inputs : list (nat * string)) : Round.t :=
  foldl (λ r i, (Round.submitVote r i.1 i.2).1) r0 inputs.

(** An entry after forfeiture, when its owner did not vote. *)
Definition zeroed (v : option JS.num) : option JS.num :=
  if JS.truthy_read v then Some (JS.Num 0) else v.

(** Every entry filed under a user id is a number (not NaN). *)
Definition numeric (points : gmap (option nat) JS.num) : Prop :=
  ∀ n v, points !! Some n = Some v → ∃ z, v = JS.Num z.

(** A round in which user 0 answered first, received both votes and did
    not vote. *)
Definition forfeitRound : Round.t :=
  Round.mk "ABC" Round.PHASE_STOPPED
    (list_to_map [(0, "A B C"); (1, "AB BA CA"); (2, "A BB C")])
    (list_to_map [(0, 10%Z); (1, 20%Z); (2, 30%Z)])
    [2; 0; 1]
    (list_to_map [(1, 0); (2, 0)]).

(* ===================================================================== *)
(** * Predicates on rounds and results *)
(* ===================================================================== *)

(** The characters of a string. *)
Fixpoint chars (s : string) : list ascii :=
  match s with
  | EmptyString => []
  | String c s' => c :: chars s'
  end.

(** Milestones, then the completion callback and nothing after it. *)
Fixpoint endsInCallback (ts : list Round.timeout) : bool :=
  match ts with
  | [Round.callback _] => true
  | Round.emitMilestone _ _ :: rest => endsInCallback rest
  | _ => false
  end.

(** What the phase says about the countdowns under way. *)
Definition phaseMatches (s : Round.live) : Prop :=
  match Round._phase s.1 with
  | Round.PHASE_STOPPED => s.2 = []
  | Round.PHASE_ACRO => ∃ ts, s.2 = [(true, ts)] ∧ endsInCallback ts = true
  | Round.PHASE_VOTE =>
      s.2 = [] ∨ ∃ ts, s.2 = [(false, ts)] ∧ endsInCallback ts = true
  end.

(** The data of a round hangs together: times go with phrases; the
    voting order lists submitters, once each, and all of them once the
    submissions are closed; votes are cast in the voting phase only, for
    a submitter other than the voter. *)
Definition consistent (r : Round.t) : Prop :=
  (∀ u, is_Some (Round._submitTimes r !! u) ↔ is_Some (Round._phrases r !! u))
  ∧ NoDup (Round._userOrder r)
  ∧ (∀ u, u ∈ Round._userOrder r → is_Some (Round._phrases r !! u))
  ∧ (Round._phase r ≠ Round.PHASE_ACRO →
     Round._userOrder r ≡ₚ JS.Object_keys (Round._phrases r))
  ∧ (∀ v t, Round._votes r !! v = Some t →
            is_Some (Round._phrases r !! t) ∧ t ≠ v)
  ∧ (Round._phase r ≠ Round.PHASE_VOTE → Round._votes r = ∅).

Definition isVoteEnd (e : Round.signal) : bool :=
  match e with Round.voteEnd _ => true | _ => false end.

(** The number of 'voteEnd' events among those emitted. *)
Definition voteEnds (out : list Round.signal) : nat :=
  length (filter (λ e, isVoteEnd e = true) out).

(** The life of a round, [n] being the number of 'voteEnd' events
    emitted so far. *)
Definition lifecycle (s : Round.live) (n : nat) : Prop :=
  match Round._phase s.1 with
  | Round.PHASE_STOPPED => s.2 = [] ∧ n = 0
  | Round.PHASE_ACRO =>
      (∃ ts, s.2 = [(true, ts)] ∧ endsInCallback ts = true) ∧ n = 0
  | Round.PHASE_VOTE =>
      (s.2 = [] ∧ n = 1)
      ∨ (∃ ts, s.2 = [(false, ts)] ∧ endsInCallback ts = true) ∧ n = 0
  end.

(** What the loop over the phrases keeps in a pair of variables such as
    [firstSubmitTime] and [fastest], after the keys [ks]: the least time
    among the users of [ks] that satisfy [ok], with the first user (in
    ascending order of the ids) holding it. *)
Definition tracks (times : gmap nat Z) (ok : nat → Prop) (ks : list nat)
    (b : Round.bound) (f : option nat) : Prop :=
  match b, f with
  | Round.Infinity, None => ∀ u, u ∈ ks → ok u → times !! u = None
  | Round.Finite tf, Some f =>
      f ∈ ks ∧ ok f ∧ times !! f = Some tf
      ∧ ∀ u tu, u ∈ ks → ok u → times !! u = Some tu →
                (tf < tu)%Z ∨ (tf = tu ∧ f ≤ u)
  | _, _ => False
  end.

(** Somebody voted for [u]. *)
Definition votedFor (r : Round.t) (u : nat) : Prop :=
  ∃ voter, Round._votes r !! voter = Some u.

(** The order the sort of [_getResults] puts its keys in: more votes
    first, then the earlier submission, then the lower id (the order of
    the keys before the sort, which moves no element past an equal
    one). *)
Definition ahead (cnt times : gmap nat Z) (a b : nat) : Prop :=
  let count u := default 0%Z (cnt !! u) in
  let time u := default 0%Z (times !! u) in
  (count b < count a)%Z
  ∨ (count a = count b
     ∧ ((time a < time b)%Z ∨ (time a = time b ∧ a ≤ b))).

(** Every user somebody voted for has a phrase and a submit time. *)
Definition answered (r : Round.t) : Prop :=
  ∀ u, votedFor r u →
       is_Some (Round._phrases r !! u) ∧ is_Some (Round._submitTimes r !! u).

(** [n] when [P] holds, nothing otherwise. *)
Definition bonus (P : Prop) `{Decision P} (n : Z) : Z :=
  if decide P then n else 0%Z.

(** The points of a round as the rules give them to user [u], the round
    being won by [w] with [f] the fastest to earn a vote: none for a
    user without a vote received who did not vote for the winner; zero
    for a user who did not vote; else the votes received and the
    bonuses. *)
Definition pointsOf (o : NormalRound.opts) (r : Round.t) (w f u : nat)
  : option JS.num :=
  if decide (received (Round._votes r) u = 0 ∧ Round._votes r !! u ≠ Some w)
  then None
  else if decide (Round._votes r !! u = None) then Some (JS.Num 0)
  else Some (JS.Num (Z.of_nat (received (Round._votes r) u)
                     + bonus (u = f) (NormalRound.pointsFastestWithVote o)
                     + bonus (u = w) (NormalRound.numLetters o)
                     + bonus (Round._votes r !! u = Some w)
                             (NormalRound.pointsVoteForWinner o))).

(** The times, in milliseconds from [start], at which the timeouts of a
    countdown fire when each fires its delay after the one before. *)
Fixpoint firings (start : Z) (ts : list Round.timeout)
  : list (Z * Round.timeout) :=
  match ts with
  | [] => []
  | t :: rest =>
      let at_ := (start + Round.delay_of t)%Z in
      (at_, t) :: firings at_ rest
  end.

(** A timeout fires when it is due in a countdown of [total] seconds
    begun at [start]: a milestone when the seconds it announces are
    left, the callback at the end. *)
Definition due (start total : Z) (f : Z * Round.timeout) : Prop :=
  match f.2 with
  | Round.emitMilestone _ secsLeft => f.1 = (start + (total - secsLeft) * 1000)%Z
  | Round.callback _ => f.1 = (start + total * 1000)%Z
  end.

(** The rounds added to the vote queue, the rounds whose vote was
    started, and the number of 'voteComplete' events. *)
Definition addedRounds {R} (ops : list (FaceOff.queueOp R)) : list R :=
  omap (λ o, match o with
             | FaceOff.opAddVoteRound round => Some round
             | FaceOff.opVoteCallback _ => None
             end) ops.

Definition startedRounds {R} (out : list (FaceOff.did R)) : list R :=
  omap (λ d, match d with
             | FaceOff.startVoteCalled round => Some round
             | FaceOff.voteComplete _ => None
             end) out.

Definition isVoteComplete {R} (d : FaceOff.did R) : bool :=
  match d with
  | FaceOff.voteComplete _ => true
  | FaceOff.startVoteCalled _ => false
  end.

Definition completions {R} (out : list (FaceOff.did R)) : nat :=
  length (filter (λ d, isVoteComplete d = true) out).

(** The state of the vote queue after the rounds [added] were added,
    the votes of [started] started, and [c] 'voteComplete' events. *)
Definition inTurn {R} (faceOffRounds : Z) (q : FaceOff.queue R)
    (added started : list R) (c : nat) : Prop :=
  added = started ++ FaceOff._voteQueue q
  ∧ FaceOff._curVoteRound q = last started
  ∧ Z.of_nat (length started)
    = (FaceOff._completedVotes q
       + (if FaceOff._voteRunning q then 1 else 0))%Z
  ∧ (FaceOff._voteRunning q = false →
     FaceOff._voteQueue q = [] ∨ FaceOff._completedVotes q = faceOffRounds)
  ∧ c = (if decide (1 ≤ faceOffRounds ≤ FaceOff._completedVotes q)%Z
         then 1 else 0)
  ∧ FaceOff._votingStarted q = bool_decide (started ≠ [])
  ∧ (0 ≤ FaceOff._completedVotes q)%Z.

(** What a face-off round between the players [a] and [b] hands to the
    callback of [startVote]: no submitter (FaceOffRound.startVote, case
    0), one submitter (_showSingleResult), or the votes and the fastest
    submitter of a vote between the two (_runVote). *)
Inductive roundOutcome (a b : nat) : list FaceOffRound.value → Prop :=
| nobodyAnswered :
    roundOutcome a b [FaceOffRound.object ∅; FaceOffRound.null]
| oneAnswered (u : nat) (n : Z) :
    u = a ∨ u = b →
    roundOutcome a b [FaceOffRound.null; FaceOffRound.object {[ u := n ]};
                      FaceOffRound.user u]
| bothAnswered (votes : gmap nat Z) (fastest : nat) :
    (∀ k, is_Some (votes !! k) → k = a ∨ k = b) →
    fastest = a ∨ fastest = b →
    roundOutcome a b [FaceOffRound.null; FaceOffRound.object votes;
                      FaceOffRound.user fastest].

(** The tables of a face-off between [lo] and [hi]: a number for each
    of the two in [_scores] and in [_fastest], and nothing else but,
    possibly, NaN under "undefined" in [_fastest]. *)
Definition twoPlayerTables (lo hi : nat) (fo : FaceOff.t) : Prop :=
  ∃ slo shi flo fhi,
    FaceOff._scores fo = <[lo := JS.Num slo]> {[hi := JS.Num shi]}
    ∧ (FaceOff._fastest fo
         = <[Some lo := JS.Num flo]> {[Some hi := JS.Num fhi]}
       ∨ FaceOff._fastest fo
         = <[None := JS.NaN]>
             (<[Some lo := JS.Num flo]> {[Some hi := JS.Num fhi]})).

(** Every registered name stands in the table of names at its id, and
    "__proto__" is no registered name. *)
Definition namesInStep {H} (g : AcroGame.t H) : Prop :=
  (∀ user id, AcroGame._userIds g !! user = Some id →
              JS.array_get (AcroGame._userNames g) id = Some user)
  ∧ AcroGame._userIds g !! "__proto__" = None.

(** The order [getTopTwo] puts the scoreboard in: the higher score
    first, and of two level scores the lower id. *)
Definition outranks (scores : gmap nat Z) (a b : nat) : Prop :=
  let score u := default 0%Z (scores !! u) in
  (score b < score a)%Z ∨ (score a = score b ∧ a ≤ b).

(** The numbers of letters of the rounds played by [_playToCap] from
    [numLetters] on, the game being in the states [gs] at the successive
    calls of [nextRound]. *)
Fixpoint lettersPlayed {H} (pointCap minLetters maxLetters : Z)
    (numLetters : Z) (gs : list (AcroGame.t H)) : list Z :=
  numLetters ::
  match gs with
  | [] => []
  | g :: gs' =>
      match AcroGame.nextRound pointCap minLetters maxLetters g numLetters with
      | AcroGame.capReached => []
      | AcroGame.playToCap n =>
          lettersPlayed pointCap minLetters maxLetters n gs'
      end
  end.

(** The stages of a normal round. *)
Inductive stage : Type :=
| submitting
| awaitingVote
| tooFew
| voting
| showing
| noVotes
| finished.

(** What holds of a round at each stage. *)
Definition inStage (n : stage) (s : NormalRound.t) : Prop :=
  let r := (NormalRound._round s).1 in
  let pending := (NormalRound._round s).2 in
  let res := Round._getResults r in
  match n with
  | submitting =>
      NormalRound._inputMode s = NormalRound.INPUTMODE_ACRO
      ∧ Round._phase r = Round.PHASE_ACRO
      ∧ (∃ ts, pending = [(true, ts)] ∧ endsInCallback ts = true)
      ∧ NormalRound._timers s = []
      ∧ NormalRound._called s = []
  | awaitingVote =>
      NormalRound._inputMode s = NormalRound.INPUTMODE_OFF
      ∧ Round._phase r = Round.PHASE_STOPPED
      ∧ pending = []
      ∧ (∃ d, NormalRound._timers s
              = [NormalRound.openVote d (Round._userOrder r)])
      ∧ NormalRound._called s = []
      ∧ 1 < length (Round._userOrder r)
  | tooFew =>
      NormalRound._inputMode s = NormalRound.INPUTMODE_OFF
      ∧ Round._phase r = Round.PHASE_STOPPED
      ∧ pending = []
      ∧ NormalRound._timers s = []
      ∧ NormalRound._called s
        = [NormalRound.failed "Not enough players!"
             NormalRound.ERR_NUM_SUBMISSIONS]
      ∧ length (Round._userOrder r) ≤ 1
  | voting =>
      NormalRound._inputMode s = NormalRound.INPUTMODE_VOTE
      ∧ Round._phase r = Round.PHASE_VOTE
      ∧ (∃ ts, pending = [(false, ts)] ∧ endsInCallback ts = true)
      ∧ NormalRound._timers s = []
      ∧ NormalRound._called s = []
      ∧ 1 < length (Round._userOrder r)
  | showing =>
      NormalRound._inputMode s = NormalRound.INPUTMODE_OFF
      ∧ Round._phase r = Round.PHASE_VOTE
      ∧ pending = []
      ∧ (∃ d types,
           NormalRound._timers s = [NormalRound.pointResults d types res]
           ∨ NormalRound._timers s = [NormalRound.morePoints d types res])
      ∧ NormalRound._called s = []
      ∧ 1 < length (Round._userOrder r)
      ∧ Round.winner res ≠ None
  | noVotes =>
      NormalRound._inputMode s = NormalRound.INPUTMODE_OFF
      ∧ Round._phase r = Round.PHASE_VOTE
      ∧ pending = []
      ∧ NormalRound._timers s = []
      ∧ NormalRound._called s
        = [NormalRound.failed "No one voted!" NormalRound.ERR_NO_VOTES]
      ∧ 1 < length (Round._userOrder r)
      ∧ Round.winner res = None
  | finished =>
      NormalRound._inputMode s = NormalRound.INPUTMODE_OFF
      ∧ Round._phase r = Round.PHASE_VOTE
      ∧ pending = []
      ∧ NormalRound._timers s = []
      ∧ NormalRound._called s
        = [NormalRound.scored
             (NormalRound._getPoints (NormalRound._opts s) res)]
      ∧ 1 < length (Round._userOrder r)
      ∧ Round.winner res ≠ None
  end.

(** A round at some stage, its data hanging together. *)
Definition staged (o : NormalRound.opts) (s : NormalRound.t) : Prop :=
  NormalRound._opts s = o
  ∧ consistent (NormalRound._round s).1
  ∧ ∃ n, inStage n s.

(** The numbers of 'end' and of 'start' events among those emitted. *)
Definition isEnd (e : AcroGame.emitted) : bool :=
  match e with AcroGame.ev_end _ => true | _ => false end.

Definition isStart (e : AcroGame.emitted) : bool :=
  match e with AcroGame.ev_start => true | _ => false end.

Definition ends (ev : list AcroGame.emitted) : nat :=
  length (filter (λ e, isEnd e = true) ev).

Definition starts (ev : list AcroGame.emitted) : nat :=
  length (filter (λ e, isStart e = true) ev).

(** The 'win' events of the steps [complete] among [cs], which are
    those handed a winner. *)
Definition winsOf (cs : list AcroGame.course) : list AcroGame.emitted :=
  omap (λ c, match c with
             | AcroGame.opComplete (Some w) => Some (AcroGame.ev_win w)
             | _ => None
             end) cs.

(** The stages of a face-off round. *)
Inductive faceOffStage : Type :=
| foSubmitting
| foClosed
| foNoAnswer
| foSingle
| foVoting
| foShowing
| foPausing
| foOver.

(** The stages after [startVote]. *)
Definition afterStartVote (n : faceOffStage) : bool :=
  match n with
  | foSubmitting | foClosed => false
  | _ => true
  end.

(** The arguments the callback of [startVote] gets, by the number of
    submissions of the round. *)
Definition voteArgs (o : FaceOffRoundFull.opts) (r : Round.t)
  : list FaceOffRound.value :=
  match Round._userOrder r with
  | [] => [FaceOffRound.object ∅; FaceOffRound.null]
  | [u] =>
      [FaceOffRound.null;
       FaceOffRound.object {[ u := FaceOffRoundFull.numLetters o ]};
       FaceOffRound.user u]
  | _ =>
      let res := Round._getResults r in
      [FaceOffRound.null; FaceOffRound.object (Round.acroVotes res);
       match Round.fastest res with
       | Some f => FaceOffRound.user f
       | None => FaceOffRound.null
       end]
  end.

(** What holds of a face-off round at each stage. *)
Definition inFaceOffStage (n : faceOffStage) (s : FaceOffRoundFull.t)
  : Prop :=
  let r := (FaceOffRoundFull._round s).1 in
  let pending := (FaceOffRoundFull._round s).2 in
  let res := Round._getResults r in
  match n with
  | foSubmitting =>
      FaceOffRoundFull._inputMode s = FaceOffRoundFull.INPUTMODE_ACRO
      ∧ Round._phase r = Round.PHASE_ACRO
      ∧ (∃ ts, pending = [(true, ts)] ∧ endsInCallback ts = true)
      ∧ FaceOffRoundFull._userOrder s = None
      ∧ FaceOffRoundFull._voteHandlers s = false
      ∧ FaceOffRoundFull._timers s = []
      ∧ FaceOffRoundFull._acroCalls s = 0
      ∧ FaceOffRoundFull._voteCalls s = []
  | foClosed =>
      FaceOffRoundFull._inputMode s = FaceOffRoundFull.INPUTMODE_OFF
      ∧ Round._phase r = Round.PHASE_STOPPED
      ∧ pending = []
      ∧ FaceOffRoundFull._userOrder s = Some (Round._userOrder r)
      ∧ FaceOffRoundFull._voteHandlers s = false
      ∧ FaceOffRoundFull._timers s = []
      ∧ FaceOffRoundFull._acroCalls s = 1
      ∧ FaceOffRoundFull._voteCalls s = []
  | foNoAnswer =>
      FaceOffRoundFull._inputMode s = FaceOffRoundFull.INPUTMODE_OFF
      ∧ Round._phase r = Round.PHASE_STOPPED
      ∧ pending = []
      ∧ (∃ d, FaceOffRoundFull._timers s = [FaceOffRoundFull.noAnswer d])
      ∧ FaceOffRoundFull._acroCalls s = 1
      ∧ FaceOffRoundFull._voteCalls s = []
      ∧ Round._userOrder r = []
  | foSingle =>
      FaceOffRoundFull._inputMode s = FaceOffRoundFull.INPUTMODE_OFF
      ∧ Round._phase r = Round.PHASE_STOPPED
      ∧ pending = []
      ∧ (∃ d name u,
           FaceOffRoundFull._timers s
           = [FaceOffRoundFull.singleResult d name u]
           ∧ Round._userOrder r = [u])
      ∧ FaceOffRoundFull._acroCalls s = 1
      ∧ FaceOffRoundFull._voteCalls s = []
  | foVoting =>
      FaceOffRoundFull._inputMode s = FaceOffRoundFull.INPUTMODE_VOTE
      ∧ Round._phase r = Round.PHASE_VOTE
      ∧ (∃ ts, pending = [(false, ts)] ∧ endsInCallback ts = true)
      ∧ FaceOffRoundFull._voteHandlers s = true
      ∧ FaceOffRoundFull._timers s = []
      ∧ FaceOffRoundFull._acroCalls s = 1
      ∧ FaceOffRoundFull._voteCalls s = []
      ∧ 1 < length (Round._userOrder r)
  | foShowing =>
      FaceOffRoundFull._inputMode s = FaceOffRoundFull.INPUTMODE_OFF
      ∧ Round._phase r = Round.PHASE_VOTE
      ∧ pending = []
      ∧ (∃ d phraseOrder,
           FaceOffRoundFull._timers s
           = [FaceOffRoundFull.voteResults d res phraseOrder])
      ∧ FaceOffRoundFull._acroCalls s = 1
      ∧ FaceOffRoundFull._voteCalls s = []
      ∧ 1 < length (Round._userOrder r)
  | foPausing =>
      FaceOffRoundFull._inputMode s = FaceOffRoundFull.INPUTMODE_OFF
      ∧ Round._phase r = Round.PHASE_VOTE
      ∧ pending = []
      ∧ (∃ d, FaceOffRoundFull._timers s
              = [FaceOffRoundFull.resultPause d res])
      ∧ FaceOffRoundFull._acroCalls s = 1
      ∧ FaceOffRoundFull._voteCalls s = []
      ∧ 1 < length (Round._userOrder r)
  | foOver =>
      FaceOffRoundFull._inputMode s = FaceOffRoundFull.INPUTMODE_OFF
      ∧ pending = []
      ∧ FaceOffRoundFull._timers s = []
      ∧ FaceOffRoundFull._acroCalls s = 1
      ∧ FaceOffRoundFull._voteCalls s
        = [voteArgs (FaceOffRoundFull._opts s) r]
  end.

(** A face-off round at some stage, before or after [startVote], its
    data hanging together and its phrases being those of users that
    satisfy [P]. *)
Definition faceOffStaged (P : nat → Prop) (o : FaceOffRoundFull.opts)
    (started : bool) (s : FaceOffRoundFull.t) : Prop :=
  FaceOffRoundFull._opts s = o
  ∧ consistent (FaceOffRoundFull._round s).1
  ∧ (∀ u, is_Some (Round._phrases (FaceOffRoundFull._round s).1 !! u) → P u)
  ∧ ∃ n, afterStartVote n = started ∧ inFaceOffStage n s.

(** A phrase, if that is what happens, comes from a user that satisfies
    [P]. *)
Definition fromPlayers (P : nat → Prop) (o : FaceOffRoundFull.op) : Prop :=
  match o with
  | FaceOffRoundFull.opSubmitPhrase _ userId _ => P userId
  | _ => True
  end.

(** One of the two players of a face-off. *)
Definition oneOf (a b : nat) (u : nat) : Prop := u = a ∨ u = b.

(** A timeout of the inner round or a timer of the round fires. *)
Definition isFiring (o : FaceOffRoundFull.op) : bool :=
  match o with
  | FaceOffRoundFull.opRoundTimeout _ _ | FaceOffRoundFull.opTimer _ => true
  | _ => false
  end.

(** Some firings of timeouts and timers lead a normal round to the call
    of its callback. *)
Definition callsBack (s : NormalRound.t) : Prop :=
  ∃ more,
    Forall (λ o, NormalRound.isFiring o.2 = true) more
    ∧ NormalRound._called (NormalRound.resume s more).1 ≠ [].

(** The games registered are the games created that have not ended,
    each under the channel it was created for, one to a channel. *)
Definition registered {H} (s : Acrophobia.t H) : Prop :=
  NoDup (Acrophobia.games s).*1
  ∧ ∀ channel i,
      (channel, i) ∈ Acrophobia.games s
      ↔ ∃ g, Acrophobia.created s !! i = Some (channel, g)
             ∧ AcroGame._ended g = false.

(** The winner by the scores, as the step [showScores] of
    [_announceWinner] finds it: none if the two highest scores are
    equal. *)
Definition scoreWinner (fo : FaceOff.t) : option nat :=
  let players :=
    JS.sort (λ a b, JS.sub (JS.to_num (FaceOff._scores fo !! b))
                           (JS.to_num (FaceOff._scores fo !! a)))
            (JS.Object_keys (FaceOff._scores fo)) in
  let score_at (p : option nat) := p ≫= (FaceOff._scores fo !!.) in
  if JS.loose_neq (score_at (players !! 0)) (score_at (players !! 1))
  then players !! 0 else None.

(** The timers of the face-off that play the rounds one after the
    other, and those that announce the winner. *)
Definition isChain (tm : FaceOffFull.timer) : bool :=
  match tm with
  | FaceOffFull.introduced _ _ _ | FaceOffFull.instructed _
  | FaceOffFull.roundPlayed _ _ => true
  | _ => false
  end.

Definition isAnnounce (tm : FaceOffFull.timer) : bool :=
  match tm with
  | FaceOffFull.scoresShown _ _ | FaceOffFull.tieShown _
  | FaceOffFull.fastestShown _ _ | FaceOffFull.tieCalled _ => true
  | _ => false
  end.

(** A round that does not react: no input mode, no countdown, no
    timer. *)
Definition idle (r : FaceOffRoundFull.t) : Prop :=
  FaceOffRoundFull._inputMode r = FaceOffRoundFull.INPUTMODE_OFF
  ∧ (FaceOffRoundFull._round r).2 = []
  ∧ FaceOffRoundFull._timers r = [].

(** How far the rounds got. *)
Inductive chain : Type :=
| chIntro
| chInstructed
| chPlaying
| chBetween
| chFinished.

Global Instance chain_eq_dec : EqDecision chain.
Proof. solve_decision. Defined.

(** How far the announcement of the winner got. *)
Inductive announce : Type :=
| anIdle
| anScores
| anTie
| anFastest
| anCalled.

Section FaceOffInvariant.

Variables a b : nat.
Variable o : FaceOffFull.opts.
Variable acros : nat → string.

(** The state of the [i]-th round: not started, taking phrases, closed
    and waiting for its vote, in its vote, done. *)
Definition isNew (i : nat) (r : FaceOffRoundFull.t) : Prop :=
  r = FaceOffRoundFull.new (FaceOffFull.roundOpts o i) (acros i).

Definition inAcro (i : nat) (r : FaceOffRoundFull.t) : Prop :=
  faceOffStaged (oneOf a b) (FaceOffFull.roundOpts o i) false r
  ∧ FaceOffRoundFull._acroCalls r = 0.

Definition isQueued (i : nat) (r : FaceOffRoundFull.t) : Prop :=
  faceOffStaged (oneOf a b) (FaceOffFull.roundOpts o i) false r
  ∧ FaceOffRoundFull._acroCalls r = 1.

Definition inVote (i : nat) (r : FaceOffRoundFull.t) : Prop :=
  faceOffStaged (oneOf a b) (FaceOffFull.roundOpts o i) true r
  ∧ FaceOffRoundFull._voteCalls r = [].

Definition isDone (i : nat) (r : FaceOffRoundFull.t) : Prop :=
  faceOffStaged (oneOf a b) (FaceOffFull.roundOpts o i) true r
  ∧ FaceOffRoundFull._voteCalls r ≠ [].

(** The state of the [i]-th round when [d] votes are done, [f] rounds
    have closed their submissions, and a round is or is not taking
    phrases. *)
Definition status (d f : nat) (c : chain) (i : nat)
    (r : FaceOffRoundFull.t) : Prop :=
  if decide (i < d) then isDone i r
  else if decide (i < f)
       then if decide (i = d) then inVote i r else isQueued i r
       else if decide (i = f ∧ c = chPlaying) then inAcro i r
            else isNew i r.

(** The face-off between [a] and [b] with [d] votes done and [f]
    rounds closed: the rounds, the vote queue and the tables. *)
Definition faceOffCore (lo hi : nat) (d f : nat) (c : chain)
    (s : FaceOffFull.t) : Prop :=
  let q := FaceOffFull._queue s in
  let n := FaceOffFull.faceOffRounds o in
  FaceOffFull._opts s = o
  ∧ length (FaceOffFull._rounds s) = n
  ∧ d ≤ f ≤ n
  ∧ FaceOff._completedVotes q = Z.of_nat d
  ∧ FaceOff._voteRunning q = bool_decide (d < f)
  ∧ FaceOff._voteQueue q = seq (S d) (f - S d)
  ∧ FaceOff._curVoteRound q
    = (if decide (d < f) then Some d
       else if decide (d = 0) then None else Some (d - 1))
  ∧ (∀ i r, FaceOffFull._rounds s !! i = Some r → status d f c i r)
  ∧ twoPlayerTables lo hi (FaceOff._tables q).

(** How far the rounds got, and the timer that plays the next. *)
Definition chainClause (f : nat) (c : chain) (s : FaceOffFull.t) : Prop :=
  let n := FaceOffFull.faceOffRounds o in
  let chainTimers :=
    filter (λ tm, isChain tm = true) (FaceOffFull._timers s) in
  match c with
  | chIntro =>
      f = 0 ∧ FaceOffFull._curAcroRound s = None
      ∧ ∃ delay p1 p2, chainTimers = [FaceOffFull.introduced delay p1 p2]
  | chInstructed =>
      f = 0 ∧ FaceOffFull._curAcroRound s = None
      ∧ ∃ delay, chainTimers = [FaceOffFull.instructed delay]
  | chPlaying =>
      f < n ∧ FaceOffFull._curAcroRound s = Some f ∧ chainTimers = []
  | chBetween =>
      0 < f ∧ FaceOffFull._curAcroRound s = Some (f - 1)
      ∧ ∃ delay, chainTimers = [FaceOffFull.roundPlayed delay (f - 1)]
  | chFinished =>
      f = n ∧ chainTimers = []
      ∧ FaceOffFull._curAcroRound s
        = (if decide (n = 0) then None else Some (n - 1))
  end.

(** How far the announcement of the winner got, and its timer. *)
Definition announceClause (d : nat) (an : announce) (s : FaceOffFull.t)
  : Prop :=
  let q := FaceOffFull._queue s in
  let n := FaceOffFull.faceOffRounds o in
  let announceTimers :=
    filter (λ tm, isAnnounce tm = true) (FaceOffFull._timers s) in
  match an with
  | anIdle =>
      (d < n ∨ n = 0) ∧ announceTimers = [] ∧ FaceOffFull._called s = []
  | anScores =>
      d = n ∧ FaceOffFull._called s = []
      ∧ ∃ delay,
          announceTimers
          = [FaceOffFull.scoresShown delay (scoreWinner (FaceOff._tables q))]
  | anTie =>
      d = n ∧ FaceOffFull._called s = []
      ∧ scoreWinner (FaceOff._tables q) = None
      ∧ ∃ delay, announceTimers = [FaceOffFull.tieShown delay]
  | anFastest =>
      d = n ∧ FaceOffFull._called s = []
      ∧ scoreWinner (FaceOff._tables q) = None
      ∧ ∃ delay roundIdx,
          announceTimers = [FaceOffFull.fastestShown delay roundIdx]
  | anCalled =>
      d = n ∧ announceTimers = []
      ∧ FaceOffFull._called s
        = [FaceOff._announceWinner (FaceOff._tables q)]
  end.

Definition faceOffInv (lo hi : nat) (d f : nat) (c : chain) (an : announce)
    (s : FaceOffFull.t) : Prop :=
  faceOffCore lo hi d f c s ∧ chainClause f c s ∧ announceClause d an s.

End FaceOffInvariant.

(* ===================================================================== *)
(** * Objects keyed by user id *)
(* ===================================================================== *)

Section ObjectKeys.

Context {V : Type}.
Implicit Types o : gmap nat V.

Lemma Object_keys_perm o : JS.Object_keys o ≡ₚ (map_to_list o).*1.
Proof. apply merge_sort_Permutation. Qed.

Lemma elem_of_Object_keys o (k : nat) :
  k ∈ JS.Object_keys o ↔ is_Some (o !! k).
Proof.
  rewrite Object_keys_perm, list_elem_of_fmap. split.
  - intros [[k' v] [-> Hin]]. apply elem_of_map_to_list in Hin. by exists v.
  - intros [v Hv]. exists (k, v). split; [done|].
    by apply elem_of_map_to_list.
Qed.

Lemma NoDup_Object_keys o : NoDup (JS.Object_keys o).
Proof. rewrite Object_keys_perm. apply NoDup_fst_map_to_list. Qed.

Lemma length_Object_keys o : length (JS.Object_keys o) = size o.
Proof.
  rewrite Object_keys_perm, length_fmap. apply length_map_to_list.
Qed.

Lemma Object_keys_nil o : JS.Object_keys o = [] ↔ o = ∅.
Proof.
  rewrite <- map_size_empty_iff, <- length_Object_keys.
  split; [by intros ->|apply nil_length_inv].
Qed.

End ObjectKeys.

(* ===================================================================== *)
(** * Round.submitVote *)
(* ===================================================================== *)

Section SubmitVote.

Variable r : Round.t.
Variable userId : nat.
Variable voteStr : string.

Lemma at_index_in_range (n : Z) :
  (1 ≤ n ≤ Z.of_nat (length (Round._userOrder r)))%Z →
  is_Some (Round._userOrder r !! Z.to_nat (n - 1)).
Proof. intros Hn. apply lookup_lt_is_Some. lia. Qed.

Lemma votedIndex_Some (votedFor : nat) :
  votedIndex (Round._userOrder r) voteStr = Some votedFor →
  ∃ n, JS.parseInt voteStr = JS.Num n
       ∧ (1 ≤ n ≤ Z.of_nat (length (Round._userOrder r)))%Z
       ∧ Round._userOrder r !! Z.to_nat (n - 1) = Some votedFor.
Proof.
  unfold votedIndex. destruct (JS.parseInt voteStr) as [n|]; [|done].
  case_decide; [|done]. intros Hl. by exists n.
Qed.

Lemma votedIndex_None :
  votedIndex (Round._userOrder r) voteStr = None →
  JS.parseInt voteStr = JS.NaN
  ∨ ∃ n, JS.parseInt voteStr = JS.Num n
         ∧ ¬ (1 ≤ n ≤ Z.of_nat (length (Round._userOrder r)))%Z.
Proof.
  unfold votedIndex. destruct (JS.parseInt voteStr) as [n|]; [|by left].
  case_decide as Hn; [|right; by exists n].
  intros Hl. destruct (at_index_in_range n Hn) as [x Hx]. congruence.
Qed.

End SubmitVote.

(** C5. In the voting phase an input is accepted exactly when it parses
    to a 1-based index inside the order of the submissions that does not
    point at the voter; an index outside is rejected as 'invalid', the
    voter's own entry as 'self', and both leave the round as it was; an
    accepted vote is stored under the voter, over any earlier one, and
    is flagged as first exactly when the voter had no vote stored. *)
Theorem submitVote_decides (r : Round.t) (userId : nat) (voteStr : string) :
  Round._phase r = Round.PHASE_VOTE →
  let '(r', events) := Round.submitVote r userId voteStr in
  match votedIndex (Round._userOrder r) voteStr with
  | None => r' = r ∧ events = [Round.voteRejected userId "invalid"]
  | Some votedFor =>
      if decide (votedFor = userId)
      then r' = r ∧ events = [Round.voteRejected userId "self"]
      else Round._votes r' = <[userId := votedFor]> (Round._votes r)
           ∧ Round._votes r' !! userId = Some votedFor
           ∧ (∀ other, other ≠ userId →
                       Round._votes r' !! other = Round._votes r !! other)
           ∧ Round._phrases r' = Round._phrases r
           ∧ Round._submitTimes r' = Round._submitTimes r
           ∧ Round._userOrder r' = Round._userOrder r
           ∧ Round._phase r' = Round._phase r
           ∧ Round._acro r' = Round._acro r
           ∧ events = [Round.voteAccepted userId
                         (bool_decide (Round._votes r !! userId = None))]
  end.
Proof.
  intros Hphase. unfold Round.submitVote. rewrite Hphase.
  destruct (votedIndex (Round._userOrder r) voteStr) as [votedFor|] eqn:Hidx.
  - apply votedIndex_Some in Hidx as (n & Hparse & Hn & Hlook).
    rewrite Hparse. simpl.
    assert ((0 <=? n - 1)%Z = true) as -> by lia.
    assert ((n - 1 <? Z.of_nat (length (Round._userOrder r)))%Z = true)
      as -> by lia.
    simpl. rewrite Hlook.
    destruct (decide (userId = votedFor)) as [->|Hne].
    + by rewrite decide_True.
    + rewrite decide_False by congruence. simpl.
      repeat split; try done.
      * apply lookup_insert_eq.
      * intros other Hother. by apply lookup_insert_ne.
  - apply votedIndex_None in Hidx as [Hnan|(n & Hparse & Hn)].
    + by rewrite Hnan.
    + rewrite Hparse. simpl.
      destruct (0 <=? n - 1)%Z eqn:H0; simpl; [|done].
      destruct (n - 1 <? Z.of_nat (length (Round._userOrder r)))%Z eqn:H1;
        [lia|done].
Qed.

Lemma submitVote_decides_witness :
  Round.submitVote votingRound 1 " 2nd" =
    (Round.mk "ABC" Round.PHASE_VOTE (Round._phrases votingRound)
              (Round._submitTimes votingRound) [2; 0; 1] {[ 1 := 0 ]},
     [Round.voteAccepted 1 true])
  ∧ Round._votes (Round.submitVote votingRound 1 " 2nd").1 !! 1 = Some 0.
Proof.
  pose proof (submitVote_decides votingRound 1 " 2nd" eq_refl) as H.
  split; [vm_compute; reflexivity|].
  destruct (Round.submitVote votingRound 1 " 2nd") as [r' events].
  change (votedIndex (Round._userOrder votingRound) " 2nd") with (Some 0) in H.
  simpl in H. apply H.
Defined.

(** Outside the voting phase the input is ignored, without any signal. *)
Lemma submitVote_other_phase (r : Round.t) (userId : nat) (voteStr : string) :
  Round._phase r ≠ Round.PHASE_VOTE →
  Round.submitVote r userId voteStr = (r, []).
Proof. unfold Round.submitVote. by destruct (Round._phase r). Qed.

(* ===================================================================== *)
(** * Round._getResults: the vote counts *)
(* ===================================================================== *)

Section CountVote.

Implicit Types cnt : gmap nat Z.
Implicit Types vtrs : gmap nat (list nat).

Lemma countVote_count cnt vtrs (userId votedFor x : nat) :
  (Round.countVote (cnt, vtrs) userId votedFor).1 !! x =
    if decide (x = votedFor) then Some (default 0 (cnt !! votedFor) + 1)%Z
    else cnt !! x.
Proof.
  unfold Round.countVote.
  destruct (cnt !! votedFor) as [c|] eqn:Hc; simpl.
  - destruct (vtrs !! votedFor); simpl;
      rewrite lookup_alter; case_decide; subst;
      rewrite ?decide_True, ?decide_False by done; try done;
      by rewrite Hc.
  - rewrite lookup_alter. case_decide; subst.
    + rewrite decide_True by done. by rewrite lookup_insert_eq.
    + rewrite decide_False by done. by rewrite lookup_insert_ne.
Qed.

Lemma countVote_voters cnt vtrs (userId votedFor x : nat) :
  (Round.countVote (cnt, vtrs) userId votedFor).2 !! x =
    if decide (x = votedFor)
    then Some (match cnt !! votedFor with
               | Some _ => default [] (vtrs !! votedFor)
               | None => []
               end ++ [userId])
    else vtrs !! x.
Proof.
  unfold Round.countVote.
  destruct (cnt !! votedFor) as [c|] eqn:Hc; simpl.
  - destruct (vtrs !! votedFor) as [l|] eqn:Hl; simpl.
    + rewrite lookup_alter. case_decide; subst.
      * rewrite decide_True by done. by rewrite Hl.
      * by rewrite decide_False by done.
    + rewrite lookup_alter. case_decide; subst.
      * rewrite decide_True by done. by rewrite lookup_insert_eq.
      * rewrite decide_False by done. by rewrite lookup_insert_ne.
  - rewrite lookup_insert_eq. simpl.
    rewrite lookup_alter. case_decide; subst.
    + rewrite decide_True by done. by rewrite lookup_insert_eq.
    + rewrite decide_False by done. by rewrite lookup_insert_ne.
Qed.

End CountVote.

Section Tally.

Variable votes : gmap nat nat.

Lemma hits_snoc (ks : list nat) (k x : nat) :
  hits votes (ks ++ [k]) x =
    (hits votes ks x + if decide (votes !! k = Some x) then 1 else 0)%nat.
Proof.
  unfold hits. rewrite filter_app, length_app. f_equal.
  rewrite filter_cons, filter_nil. simpl.
  destruct (decide (votes !! k = Some x)); done.
Qed.

(** After the loop has run over the voters [ks], a user has an entry
    exactly when one of them voted for that user, and the entry counts
    these voters. *)
Lemma tallyOver_count (ks : list nat) (x : nat) :
  (tallyOver votes ks).1 !! x =
    if decide (hits votes ks x = 0)%nat then None
    else Some (Z.of_nat (hits votes ks x)).
Proof.
  induction ks as [|k ks IH] using rev_ind; [done|].
  unfold tallyOver in *. rewrite foldl_snoc, hits_snoc.
  destruct (foldl _ _ ks) as [cnt vtrs] eqn:Hfold. simpl in IH.
  destruct (votes !! k) as [t|] eqn:Hk.
  - rewrite countVote_count.
    destruct (decide (x = t)) as [->|Hne].
    + rewrite (decide_True (P := Some t = Some t)) by done. rewrite IH.
      rewrite (decide_False (P := (_ + 1 = 0)%nat)) by lia.
      case_decide as Hz; simpl; f_equal; lia.
    + rewrite (decide_False (P := Some t = Some x)) by congruence.
      by rewrite IH, Nat.add_0_r.
  - simpl. by rewrite Nat.add_0_r, IH.
Qed.

Lemma tallyOver_voters (ks : list nat) (x : nat) :
  (tallyOver votes ks).2 !! x =
    if decide (hits votes ks x = 0)%nat then None
    else Some (filter (λ k, votes !! k = Some x) ks).
Proof.
  induction ks as [|k ks IH] using rev_ind; [done|].
  pose proof (tallyOver_count ks) as Hcnt.
  unfold tallyOver in *. rewrite foldl_snoc, hits_snoc.
  destruct (foldl _ _ ks) as [cnt vtrs] eqn:Hfold. simpl in IH, Hcnt.
  rewrite filter_app, filter_cons, filter_nil.
  destruct (votes !! k) as [t|] eqn:Hk.
  - rewrite countVote_voters.
    destruct (decide (x = t)) as [->|Hne].
    + rewrite !(decide_True (P := Some t = Some t)) by done.
      rewrite (Hcnt t), IH.
      rewrite (decide_False (P := (_ + 1 = 0)%nat)) by lia.
      case_decide as Hz; simpl; [|done].
      unfold hits in Hz. apply nil_length_inv in Hz. by rewrite Hz.
    + rewrite !(decide_False (P := Some t = Some x)) by congruence.
      by rewrite IH, Nat.add_0_r, app_nil_r.
  - simpl. by rewrite Nat.add_0_r, app_nil_r, IH.
Qed.

Lemma hits_pairs (l : list (nat * nat)) (x : nat) :
  Forall (λ kv, votes !! kv.1 = Some kv.2) l →
  length (filter (λ k, votes !! k = Some x) l.*1)
  = length (filter (λ kv, kv.2 = x) l).
Proof.
  induction 1 as [|[k v] l Hkv _ IH]; [done|].
  rewrite fmap_cons, !filter_cons. simpl in Hkv |- *.
  destruct (decide (v = x)) as [->|Hne].
  - rewrite decide_True by done. simpl. by f_equal.
  - by rewrite decide_False by congruence.
Qed.

Lemma hits_received (x : nat) :
  hits votes (JS.Object_keys votes) x = received votes x.
Proof.
  unfold hits, received.
  rewrite (Object_keys_perm votes).
  apply hits_pairs. apply Forall_forall. intros [k v] Hin.
  by apply elem_of_map_to_list in Hin.
Qed.

Lemma received_pos (x : nat) :
  (0 < received votes x)%nat ↔ ∃ voter, votes !! voter = Some x.
Proof.
  unfold received. split.
  - intros Hpos.
    destruct (filter (λ kv, kv.2 = x) (map_to_list votes)) as [|[k v] l] eqn:Hf;
      [simpl in Hpos; lia|].
    assert ((k, v) ∈ filter (λ kv, kv.2 = x) (map_to_list votes)) as Hin
      by (rewrite Hf; left).
    apply list_elem_of_filter in Hin as [Hv Hin]. simpl in Hv. subst v.
    exists k. by apply elem_of_map_to_list.
  - intros [voter Hv].
    assert ((voter, x) ∈ filter (λ kv, kv.2 = x) (map_to_list votes)) as Hin.
    { apply list_elem_of_filter. split; [done|]. by apply elem_of_map_to_list. }
    destruct (filter _ _); [by apply elem_of_nil in Hin|simpl; lia].
Qed.

End Tally.

(** The [usersToVoteCount] object of a round. *)
Lemma tally_count (r : Round.t) (x : nat) :
  (Round.tally r).1 !! x =
    if decide (received (Round._votes r) x = 0)%nat then None
    else Some (Z.of_nat (received (Round._votes r) x)).
Proof.
  rewrite <- hits_received. apply (tallyOver_count (Round._votes r)).
Qed.

Lemma tally_count_Some (r : Round.t) (x : nat) (c : Z) :
  (Round.tally r).1 !! x = Some c →
  c = Z.of_nat (received (Round._votes r) x) ∧ (0 < c)%Z.
Proof.
  rewrite tally_count. case_decide; [done|]. intros [= <-]. lia.
Qed.

Lemma tally_count_is_Some (r : Round.t) (x : nat) :
  is_Some ((Round.tally r).1 !! x) ↔ ∃ voter, Round._votes r !! voter = Some x.
Proof.
  rewrite <- received_pos, tally_count.
  case_decide as Hz; split; intros H; try lia; try done.
Qed.

(** ** The sum of the counts *)

Lemma sumZ_Permutation (l1 l2 : list Z) : l1 ≡ₚ l2 → sumZ l1 = sumZ l2.
Proof.
  unfold sumZ. induction 1; simpl; lia.
Qed.

Lemma sumValues_insert (o : gmap nat Z) (k : nat) (v : Z) :
  o !! k = None → sumValues (<[k := v]> o) = (v + sumValues o)%Z.
Proof.
  intros Hk. unfold sumValues.
  rewrite (sumZ_Permutation _ (map snd ((k, v) :: map_to_list o))); [done|].
  apply fmap_Permutation. by apply map_to_list_insert.
Qed.

Lemma sumValues_delete (o : gmap nat Z) (k : nat) (v : Z) :
  o !! k = Some v → sumValues o = (v + sumValues (delete k o))%Z.
Proof.
  intros Hk. unfold sumValues.
  rewrite (sumZ_Permutation _ (map snd ((k, v) :: map_to_list (delete k o))));
    [done|].
  apply fmap_Permutation. symmetry. by apply map_to_list_delete.
Qed.

Lemma sumValues_countVote (cnt : gmap nat Z) (vtrs : gmap nat (list nat))
    (userId votedFor : nat) :
  sumValues (Round.countVote (cnt, vtrs) userId votedFor).1
  = (sumValues cnt + 1)%Z.
Proof.
  set (cnt' := (Round.countVote (cnt, vtrs) userId votedFor).1).
  assert (cnt' !! votedFor = Some (default 0 (cnt !! votedFor) + 1)%Z) as Hnew.
  { unfold cnt'. rewrite countVote_count. by rewrite decide_True. }
  assert (delete votedFor cnt' = delete votedFor cnt) as Hdel.
  { apply map_eq. intros x. destruct (decide (x = votedFor)) as [->|Hne].
    - by rewrite !lookup_delete_eq.
    - rewrite !lookup_delete_ne by done. unfold cnt'.
      rewrite countVote_count. by rewrite decide_False. }
  rewrite (sumValues_delete cnt' votedFor _ Hnew), Hdel.
  destruct (cnt !! votedFor) as [c|] eqn:Hc; simpl.
  - rewrite (sumValues_delete cnt votedFor c Hc). lia.
  - rewrite delete_id by done. lia.
Qed.

Lemma sumValues_tallyOver (votes : gmap nat nat) (ks : list nat) :
  Forall (λ k, is_Some (votes !! k)) ks →
  sumValues (tallyOver votes ks).1 = Z.of_nat (length ks).
Proof.
  induction ks as [|k ks IH] using rev_ind; intros Hall.
  - reflexivity.
  - apply Forall_app in Hall as [Hall Hk].
    apply Forall_cons in Hk as [[t Ht] _].
    unfold tallyOver in *. rewrite foldl_snoc, Ht.
    destruct (foldl _ _ ks) as [cnt vtrs].
    rewrite sumValues_countVote. simpl in IH. rewrite IH by done.
    rewrite length_app. simpl. lia.
Qed.

Lemma sumValues_tally (r : Round.t) :
  sumValues (Round.tally r).1 = Z.of_nat (size (Round._votes r)).
Proof.
  rewrite <- length_Object_keys.
  apply (sumValues_tallyOver (Round._votes r)).
  apply Forall_forall. intros k. apply elem_of_Object_keys.
Qed.

Lemma getResults_acroVotes (r : Round.t) :
  Round.acroVotes (Round._getResults r) = (Round.tally r).1.
Proof. unfold Round._getResults. by destruct (Round.tally r). Qed.

Lemma submitVote_frame (r : Round.t) (userId : nat) (voteStr : string) :
  let r' := (Round.submitVote r userId voteStr).1 in
  Round._phase r' = Round._phase r
  ∧ Round._userOrder r' = Round._userOrder r
  ∧ Round._phrases r' = Round._phrases r
  ∧ Round._submitTimes r' = Round._submitTimes r.
Proof.
  unfold Round.submitVote. repeat case_match; done.
Qed.

Lemma submitVote_votes (r : Round.t) (userId : nat) (voteStr : string) :
  Round._phase r = Round.PHASE_VOTE →
  Round._votes (Round.submitVote r userId voteStr).1 =
    match votedIndex (Round._userOrder r) voteStr with
    | Some votedFor =>
        if decide (votedFor = userId) then Round._votes r
        else <[userId := votedFor]> (Round._votes r)
    | None => Round._votes r
    end.
Proof.
  intros Hphase. unfold Round.submitVote, votedIndex. rewrite Hphase.
  destruct (JS.parseInt voteStr) as [n|]; simpl; [|done].
  case_decide as Hn.
  - assert ((0 <=? n - 1)%Z = true) as -> by lia.
    assert ((n - 1 <? Z.of_nat (length (Round._userOrder r)))%Z = true)
      as -> by lia.
    simpl. destruct (at_index_in_range r n Hn) as [t ->].
    destruct (decide (userId = t)) as [->|Hne].
    + by rewrite decide_True.
    + by rewrite decide_False by congruence.
  - destruct (0 <=? n - 1)%Z eqn:H0; simpl; [|done].
    destruct (n - 1 <? Z.of_nat (length (Round._userOrder r)))%Z eqn:H1;
      [lia|done].
Qed.

Lemma castVotes_frame (inputs : list (nat * string)) (r0 : Round.t) :
  Round._phase (castVotes r0 inputs) = Round._phase r0
  ∧ Round._userOrder (castVotes r0 inputs) = Round._userOrder r0.
Proof.
  unfold castVotes.
  induction inputs as [|[v s] inputs IH] using rev_ind; [done|].
  rewrite foldl_snoc. simpl.
  destruct (submitVote_frame (foldl (λ r i, (Round.submitVote r i.1 i.2).1)
                                    r0 inputs) v s) as (Hp & Ho & _).
  rewrite Hp, Ho. exact IH.
Qed.

(** In the voting phase, starting without votes, a voter holds a vote
    exactly when one of the voter's inputs was a valid index to someone
    else's phrase. *)
Lemma castVotes_voters (inputs : list (nat * string)) (r0 : Round.t)
    (voter : nat) :
  Round._phase r0 = Round.PHASE_VOTE →
  Round._votes r0 = ∅ →
  is_Some (Round._votes (castVotes r0 inputs) !! voter)
  ↔ ∃ s t, (voter, s) ∈ inputs
           ∧ votedIndex (Round._userOrder r0) s = Some t ∧ t ≠ voter.
Proof.
  intros Hphase Hempty.
  induction inputs as [|[v s] inputs IH] using rev_ind.
  - simpl. rewrite Hempty, lookup_empty. split.
    + by intros [? ?].
    + intros (s & t & Hin & _). by apply elem_of_nil in Hin.
  - destruct (castVotes_frame inputs r0) as [Hp Ho].
    unfold castVotes in *. rewrite foldl_snoc. simpl.
    rewrite submitVote_votes by congruence. rewrite Ho.
    set (r := foldl _ r0 inputs) in *.
    split.
    + intros Hsome.
      destruct (votedIndex (Round._userOrder r0) s) as [t|] eqn:Hidx.
      * destruct (decide (t = v)) as [->|Hne].
        -- apply IH in Hsome as (s' & t' & Hin & Hv).
           exists s', t'. split; [|done]. apply elem_of_app. by left.
        -- destruct (decide (voter = v)) as [->|Hvoter].
           ++ exists s, t. split; [|done]. apply elem_of_app. right. left.
           ++ rewrite lookup_insert_ne in Hsome by done.
              apply IH in Hsome as (s' & t' & Hin & Hv).
              exists s', t'. split; [|done]. apply elem_of_app. by left.
      * apply IH in Hsome as (s' & t' & Hin & Hv).
        exists s', t'. split; [|done]. apply elem_of_app. by left.
    + intros (s' & t' & Hin & Hidx' & Hne').
      apply elem_of_app in Hin as [Hin|Hin].
      * assert (is_Some (Round._votes r !! voter)) as Hold
          by (apply IH; eauto).
        destruct (votedIndex (Round._userOrder r0) s) as [t|]; [|done].
        case_decide; [done|].
        destruct (decide (voter = v)) as [->|Hvoter].
        -- rewrite lookup_insert_eq. eauto.
        -- by rewrite lookup_insert_ne.
      * apply list_elem_of_singleton in Hin as [= -> ->].
        rewrite Hidx'. rewrite decide_False by done.
        rewrite lookup_insert_eq. eauto.
Qed.

(** C8. Whatever votes a run of [submitVote] calls leaves in the round,
    the values of [acroVotes] add up to the number of voters holding a
    vote, [acroVotes] has an entry exactly for the users who received a
    vote, and the entry is the number of votes received; in a voting
    phase started without votes, a voter holds a vote exactly when one of
    the voter's inputs was a valid index to someone else's phrase, so
    that 'self' and 'invalid' attempts count for nothing. *)
Theorem acroVotes_count_each_vote_once (r0 : Round.t)
    (inputs : list (nat * string)) :
  let r := castVotes r0 inputs in
  let acroVotes := Round.acroVotes (Round._getResults r) in
  sumValues acroVotes = Z.of_nat (size (Round._votes r))
  ∧ (∀ x, is_Some (acroVotes !! x)
          ↔ ∃ voter, Round._votes r !! voter = Some x)
  ∧ (∀ x c, acroVotes !! x = Some c
            → c = Z.of_nat (received (Round._votes r) x))
  ∧ (Round._phase r0 = Round.PHASE_VOTE → Round._votes r0 = ∅ →
     ∀ voter, is_Some (Round._votes r !! voter)
              ↔ ∃ s t, (voter, s) ∈ inputs
                       ∧ votedIndex (Round._userOrder r0) s = Some t
                       ∧ t ≠ voter).
Proof.
  intros r acroVotes. unfold acroVotes. rewrite getResults_acroVotes.
  split; [apply sumValues_tally|].
  split; [apply tally_count_is_Some|].
  split.
  - intros x c Hc. by apply tally_count_Some in Hc as [-> _].
  - intros Hphase Hempty voter. by apply castVotes_voters.
Qed.

Lemma acroVotes_count_each_vote_once_witness :
  let inputs := [(0, "1"); (1, "3"); (2, "1"); (0, "2"); (1, "9");
                 (2, "two"); (0, "3"); (1, " 2")] in
  let r := castVotes votingRound inputs in
  let acroVotes := Round.acroVotes (Round._getResults r) in
  sumValues acroVotes = 2%Z ∧ size (Round._votes r) = 2
  ∧ (is_Some (Round._votes r !! 1) ↔
       ∃ s t, (1, s) ∈ inputs
              ∧ votedIndex (Round._userOrder votingRound) s = Some t ∧ t ≠ 1).
Proof.
  intros inputs r acroVotes.
  destruct (acroVotes_count_each_vote_once votingRound inputs)
    as (Hsum & _ & _ & Hvoters).
  split; [|split].
  - etransitivity; [exact Hsum|]. vm_compute. reflexivity.
  - vm_compute. reflexivity.
  - apply (Hvoters eq_refl eq_refl 1).
Defined.

(* ===================================================================== *)
(** * Array.prototype.sort and the vote order *)
(* ===================================================================== *)

Section Sort.

Context {A : Type}.
Variable cmp : A → A → JS.num.

Lemma insert_back_perm (x : A) (l : list A) :
  JS.insert_back cmp x l ≡ₚ x :: l.
Proof.
  induction l as [|tmp rest IH]; simpl; [done|].
  destruct (JS.gt0 (cmp tmp x)); [|done].
  rewrite IH. apply Permutation_swap.
Qed.

Lemma foldl_insert_back_perm (l acc : list A) :
  foldl (λ acc x, JS.insert_back cmp x acc) acc l ≡ₚ acc ++ l.
Proof.
  revert acc. induction l as [|x l IH]; intros acc; simpl.
  - by rewrite app_nil_r.
  - rewrite IH, insert_back_perm. simpl. apply Permutation_middle.
Qed.

(** The sort permutes its argument, whatever the comparator. *)
Lemma sort_perm (l : list A) : JS.sort cmp l ≡ₚ l.
Proof.
  unfold JS.sort. rewrite <- Permutation_rev.
  apply (foldl_insert_back_perm l []).
Qed.

(** When the comparator agrees with a numeric key on the elements
    satisfying [P], the result is in descending order of the key. *)
Variable key : A → Z.
Variable P : A → Prop.
Hypothesis cmp_gt :
  ∀ a b, P a → P b → JS.gt0 (cmp a b) = true → (key a ≤ key b)%Z.
Hypothesis cmp_le :
  ∀ a b, P a → P b → JS.gt0 (cmp a b) = false → (key b ≤ key a)%Z.

Let asc (a b : A) : Prop := (key a ≤ key b)%Z.
Let desc (a b : A) : Prop := (key b ≤ key a)%Z.

Lemma insert_back_sorted (x : A) (l : list A) :
  P x → Forall P l → StronglySorted asc l →
  StronglySorted asc (JS.insert_back cmp x l).
Proof.
  intros Hx. induction l as [|tmp rest IH]; intros HP Hs; simpl.
  - repeat constructor.
  - apply Forall_cons in HP as [Htmp Hrest].
    apply StronglySorted_inv in Hs as [Hs Hall].
    destruct (JS.gt0 (cmp tmp x)) eqn:Hc.
    + constructor; [by apply IH|].
      rewrite insert_back_perm. constructor; [|done].
      by apply cmp_gt.
    + assert (key x ≤ key tmp)%Z as Hle by by apply cmp_le.
      constructor; [by constructor|].
      constructor; [done|].
      eapply Forall_impl; [exact Hall|]. unfold asc. simpl. intros y Hy. lia.
Qed.

Lemma foldl_insert_back_sorted (l acc : list A) :
  Forall P l → Forall P acc → StronglySorted asc acc →
  StronglySorted asc (foldl (λ acc x, JS.insert_back cmp x acc) acc l).
Proof.
  revert acc. induction l as [|x l IH]; intros acc Hl Hacc Hs; simpl; [done|].
  apply Forall_cons in Hl as [Hx Hl].
  apply IH; [done| |by apply insert_back_sorted].
  rewrite insert_back_perm. by constructor.
Qed.

Lemma StronglySorted_rev_desc (l : list A) :
  StronglySorted asc l → StronglySorted desc (rev l).
Proof.
  induction 1 as [|x l Hs IH Hall]; simpl; [constructor|].
  apply StronglySorted_app_2; [|done|repeat constructor].
  intros x1 x2 Hx1 Hx2. apply list_elem_of_singleton in Hx2 as ->.
  rewrite Forall_forall in Hall. apply Hall.
  by rewrite <- Permutation_rev in Hx1.
Qed.

Lemma sort_sorted (l : list A) :
  Forall P l → StronglySorted desc (JS.sort cmp l).
Proof.
  intros Hl. apply StronglySorted_rev_desc.
  apply foldl_insert_back_sorted; [done|constructor|constructor].
Qed.

End Sort.

Section VoteOrder.

Variable r : Round.t.
Variable cnt : gmap nat Z.

Let key (u : nat) : Z := default 0%Z (cnt !! u).

Lemma voteCmp_gt (a b : nat) :
  is_Some (cnt !! a) → is_Some (cnt !! b) →
  JS.gt0 (Round.voteCmp r cnt a b) = true → (key a ≤ key b)%Z.
Proof.
  intros [ca Ha] [cb Hb]. unfold Round.voteCmp, key. rewrite Ha, Hb.
  case_decide as Heq; simpl.
  - injection Heq as ->. lia.
  - lia.
Qed.

Lemma voteCmp_le (a b : nat) :
  is_Some (cnt !! a) → is_Some (cnt !! b) →
  JS.gt0 (Round.voteCmp r cnt a b) = false → (key b ≤ key a)%Z.
Proof.
  intros [ca Ha] [cb Hb]. unfold Round.voteCmp, key. rewrite Ha, Hb.
  case_decide as Heq; simpl.
  - injection Heq as ->. lia.
  - lia.
Qed.

Lemma voteOrder_perm : Round.voteOrder r cnt ≡ₚ JS.Object_keys cnt.
Proof. apply sort_perm. Qed.

Lemma elem_of_voteOrder (u : nat) : u ∈ Round.voteOrder r cnt ↔ is_Some (cnt !! u).
Proof. rewrite voteOrder_perm. apply elem_of_Object_keys. Qed.

Lemma NoDup_voteOrder : NoDup (Round.voteOrder r cnt).
Proof. rewrite voteOrder_perm. apply NoDup_Object_keys. Qed.

(** The vote order is in descending order of the counts. *)
Lemma voteOrder_sorted :
  StronglySorted (λ a b, key b ≤ key a)%Z (Round.voteOrder r cnt).
Proof.
  apply (sort_sorted (Round.voteCmp r cnt) key (λ u, is_Some (cnt !! u))).
  - apply voteCmp_gt.
  - apply voteCmp_le.
  - apply Forall_forall. intros u. apply elem_of_Object_keys.
Qed.

Lemma filter_none {B : Type} (Q : B → Prop) `{∀ x, Decision (Q x)}
    (l : list B) :
  Forall (λ x, ¬ Q x) l → filter Q l = [].
Proof.
  induction 1 as [|x l Hx _ IH]; [done|].
  rewrite filter_cons. by rewrite decide_False.
Qed.

(** On a list in descending order of the counts, none above [c], the
    loop collects every user whose count is [c]. *)
Lemma tieLoop_filter (c : Z) (l : list nat) :
  StronglySorted (λ a b, key b ≤ key a)%Z l →
  Forall (λ u, is_Some (cnt !! u) ∧ (key u ≤ c)%Z) l →
  Round.tieLoop cnt (Some c) l = filter (λ u, cnt !! u = Some c) l.
Proof.
  induction 1 as [|u l Hs IH Hall]; intros Hbound; simpl; [done|].
  apply Forall_cons in Hbound as [[[cu Hu] Hle] Hbound].
  rewrite filter_cons. case_decide as Heq.
  - by rewrite IH.
  - symmetry. apply filter_none.
    rewrite Forall_forall in Hall, Hbound. apply Forall_forall.
    intros y Hy Hc. specialize (Hall y Hy). simpl in Hall.
    unfold key in Hall, Hle. rewrite Hc, Hu in Hall. rewrite Hu in Hle.
    simpl in Hall, Hle. apply Heq. rewrite Hu. f_equal. lia.
Qed.

(** The head of the vote order holds the highest count. *)
Lemma voteOrder_head_max (w : nat) (rest : list nat) :
  Round.voteOrder r cnt = w :: rest →
  ∃ cw, cnt !! w = Some cw
        ∧ Forall (λ u, is_Some (cnt !! u) ∧ (key u ≤ cw)%Z) (w :: rest).
Proof.
  intros Hvo.
  assert (is_Some (cnt !! w)) as [cw Hw].
  { apply elem_of_voteOrder. rewrite Hvo. left. }
  exists cw. split; [done|].
  pose proof voteOrder_sorted as Hs. rewrite Hvo in Hs.
  apply StronglySorted_inv in Hs as [_ Hall].
  assert (key w = cw) as Hkw by (unfold key; by rewrite Hw).
  constructor.
  - split; [eauto|lia].
  - rewrite Forall_forall in Hall. apply Forall_forall. intros u Hu. split.
    + apply elem_of_voteOrder. rewrite Hvo. by right.
    + specialize (Hall u Hu). simpl in Hall. lia.
Qed.

End VoteOrder.

(* ===================================================================== *)
(** * Round._getResults: winner and tie *)
(* ===================================================================== *)

Section Results.

Variable r : Round.t.

Let cnt : gmap nat Z := (Round.tally r).1.
Let order : list nat := Round.voteOrder r cnt.

Lemma getResults_winner : Round.winner (Round._getResults r) = head order.
Proof.
  unfold Round._getResults, order, cnt. by destruct (Round.tally r).
Qed.

Lemma getResults_tie :
  Round.tie (Round._getResults r) =
    let tie := Round.tieLoop cnt (head order ≫= (cnt !!.)) order in
    if decide (1 < length tie) then Some tie else None.
Proof.
  unfold Round._getResults, order, cnt. by destruct (Round.tally r).
Qed.

(** The users collected by the loop are those who hold the maximum
    number of received votes. *)
Lemma tieLoop_topScorers (x : nat) :
  x ∈ Round.tieLoop cnt (head order ≫= (cnt !!.)) order
  ↔ topScorer (Round._votes r) x.
Proof.
  destruct order as [|w rest] eqn:Horder.
  - simpl. split; [by intros ?%elem_of_nil|].
    intros [Hpos _]. apply received_pos, tally_count_is_Some in Hpos.
    apply (elem_of_voteOrder r) in Hpos. fold cnt order in Hpos.
    by rewrite Horder in Hpos.
  - destruct (voteOrder_head_max r cnt w rest Horder) as (cw & Hw & Hbound).
    simpl head. simpl mbind. rewrite Hw.
    rewrite (tieLoop_filter cnt cw (w :: rest)); [|by rewrite <- Horder; apply voteOrder_sorted|done].
    rewrite list_elem_of_filter, <- Horder.
    unfold order. rewrite elem_of_voteOrder.
    apply tally_count_Some in Hw as Hcw. destruct Hcw as [Hcw Hpos].
    rewrite Forall_forall in Hbound.
    split.
    + intros [Hx _]. apply tally_count_Some in Hx as [Hx _]. split; [lia|].
      intros y. destruct (decide (received (Round._votes r) y = 0)) as [->|Hy];
        [lia|].
      assert (is_Some (cnt !! y)) as Hsome.
      { unfold cnt. rewrite tally_count. by rewrite decide_False. }
      assert (y ∈ w :: rest) as Hin.
      { rewrite <- Horder. unfold order. by apply elem_of_voteOrder. }
      destruct (Hbound y Hin) as [_ Hle]. destruct Hsome as [cy Hcy].
      rewrite Hcy in Hle. simpl in Hle.
      apply tally_count_Some in Hcy as [-> _]. lia.
    + intros [Hpos' Hmax].
      assert (cnt !! x = Some (Z.of_nat (received (Round._votes r) x))) as Hx.
      { unfold cnt. rewrite tally_count. rewrite decide_False by lia. done. }
      split; [|eauto].
      rewrite Hx. f_equal.
      assert (x ∈ w :: rest) as Hin.
      { rewrite <- Horder. unfold order. apply elem_of_voteOrder. eauto. }
      destruct (Hbound x Hin) as [_ Hle]. rewrite Hx in Hle. simpl in Hle.
      specialize (Hmax w). lia.
Qed.

Lemma NoDup_tieLoop :
  NoDup (Round.tieLoop cnt (head order ≫= (cnt !!.)) order).
Proof.
  destruct order as [|w rest] eqn:Horder; [constructor|].
  destruct (voteOrder_head_max r cnt w rest Horder) as (cw & Hw & Hbound).
  simpl head. simpl mbind. rewrite Hw.
  rewrite (tieLoop_filter cnt cw (w :: rest));
    [|by rewrite <- Horder; apply voteOrder_sorted|done].
  apply NoDup_filter. rewrite <- Horder. apply NoDup_voteOrder.
Qed.

End Results.

(** The top voters are the voters of the winner, in the order of their
    ids. *)
Lemma getResults_topVoters (r : Round.t) (w : nat) :
  Round.winner (Round._getResults r) = Some w →
  Round.topVoters (Round._getResults r)
  = filter (λ k, Round._votes r !! k = Some w) (JS.Object_keys (Round._votes r)).
Proof.
  intros Hw. pose proof Hw as Hin.
  rewrite getResults_winner in Hin. apply head_Some_elem_of in Hin.
  apply elem_of_voteOrder in Hin.
  revert Hw Hin. unfold Round._getResults.
  pose proof (tallyOver_voters (Round._votes r)
                (JS.Object_keys (Round._votes r)) w) as Hv.
  pose proof (tallyOver_count (Round._votes r)
                (JS.Object_keys (Round._votes r)) w) as Hc.
  change (tallyOver (Round._votes r) (JS.Object_keys (Round._votes r)))
    with (Round.tally r) in Hv, Hc.
  destruct (Round.tally r) as [cnt vtrs]. simpl in *.
  intros -> [c Hsome]. rewrite Hsome in Hc.
  case_decide; [done|]. by rewrite Hv.
Qed.

Lemma two_distinct {A : Type} (l : list A) :
  NoDup l → (1 < length l ↔ ∃ a b, a ≠ b ∧ a ∈ l ∧ b ∈ l).
Proof.
  intros Hnd. split.
  - destruct l as [|a [|b l]]; simpl; [lia|lia|]. intros _.
    exists a, b. apply NoDup_cons in Hnd as [Ha _].
    split; [|split; [left|right; left]].
    intros ->. apply Ha. left.
  - intros (a & b & Hne & Ha & Hb).
    destruct l as [|x [|y l]]; simpl; [|exfalso|lia].
    + by apply elem_of_nil in Ha.
    + apply list_elem_of_singleton in Ha, Hb. congruence.
Qed.

(** C2. For every state of the phrases, submission times and votes of a
    round: the winner is null exactly when there is no vote; [tie] is
    non-null exactly when two different users hold the maximum number of
    received votes; and a non-null [tie] contains the winner. *)
Theorem getResults_winner_and_tie (r : Round.t) :
  let res := Round._getResults r in
  (Round.winner res = None ↔ Round._votes r = ∅)
  ∧ (Round.tie res ≠ None
     ↔ ∃ a b, a ≠ b ∧ topScorer (Round._votes r) a
              ∧ topScorer (Round._votes r) b)
  ∧ (∀ l, Round.tie res = Some l → ∃ w, Round.winner res = Some w ∧ w ∈ l).
Proof.
  intros res. unfold res. rewrite getResults_winner, getResults_tie.
  set (cnt := (Round.tally r).1). set (order := Round.voteOrder r cnt).
  split; [|split].
  - rewrite head_None. unfold order.
    rewrite <- (Permutation_nil_r (Round.voteOrder r cnt)), voteOrder_perm.
    rewrite Permutation_nil_r, Object_keys_nil.
    split.
    + intros Hcnt. apply map_empty. intros voter.
      destruct (Round._votes r !! voter) as [x|] eqn:Hv; [|done].
      assert (is_Some (cnt !! x)) as [c Hc]
        by (apply tally_count_is_Some; eauto).
      by rewrite Hcnt in Hc.
    + intros Hvotes. apply map_empty. intros x.
      apply eq_None_not_Some. intros [voter Hv]%tally_count_is_Some.
      by rewrite Hvotes in Hv.
  - simpl. pose proof (NoDup_tieLoop r) as Hnd. fold cnt order in Hnd.
    case_decide as Hlen.
    + split; [intros _|done].
      apply (two_distinct _ Hnd) in Hlen as (a & b & Hne & Ha & Hb).
      exists a, b. split; [done|]. split; by apply tieLoop_topScorers.
    + split; [done|]. intros (a & b & Hne & Ha & Hb). exfalso. apply Hlen.
      apply (two_distinct _ Hnd). exists a, b.
      split; [done|]. split; by apply tieLoop_topScorers.
  - simpl. intros l. case_decide as Hlen; [|done]. intros [= <-].
    destruct order as [|w rest] eqn:Horder; [simpl in Hlen; lia|].
    exists w. split; [done|].
    assert (is_Some (cnt !! w)) as [cw Hw].
    { apply (elem_of_voteOrder r). fold order. rewrite Horder. left. }
    simpl. rewrite Hw. rewrite decide_True by done. left.
Qed.

Lemma getResults_winner_and_tie_witness :
  let res := Round._getResults testRound in
  Round.winner res = Some 3
  ∧ Round.tie res = Some [3; 4]
  ∧ (∃ a b, a ≠ b ∧ topScorer (Round._votes testRound) a
            ∧ topScorer (Round._votes testRound) b)
  ∧ ∃ w, Round.winner res = Some w ∧ w ∈ [3; 4].
Proof.
  intros res.
  destruct (getResults_winner_and_tie testRound) as (_ & Htie & Hmem).
  split; [reflexivity|]. split; [reflexivity|]. split.
  - apply Htie. discriminate.
  - apply Hmem. reflexivity.
Defined.

(* ===================================================================== *)
(** * NormalRound._getPoints *)
(* ===================================================================== *)

Section Scan.

Variable r : Round.t.
Variable cnt : gmap nat Z.

Lemma scanPhrase_fastestWithVote (s : Round.scan) (userId f : nat) :
  Round.s_fastestWithVote (Round.scanPhrase r cnt s userId) = Some f →
  Round.s_fastestWithVote s = Some f ∨ is_Some (cnt !! f).
Proof.
  unfold Round.scanPhrase.
  repeat case_match; simpl; intros Hf; simplify_eq; auto.
  all: right.
  all: match goal with
       | Hb : _ && _ = true |- _ => apply andb_true_iff in Hb as [_ Hb]
       end.
  all: destruct (cnt !! f); [eauto|done].
Qed.

Lemma scan_fastestWithVote (ks : list nat) (s : Round.scan) (f : nat) :
  Round.s_fastestWithVote (foldl (Round.scanPhrase r cnt) s ks) = Some f →
  Round.s_fastestWithVote s = Some f ∨ is_Some (cnt !! f).
Proof.
  revert s. induction ks as [|k ks IH]; intros s; simpl; [auto|].
  intros Hf. apply IH in Hf as [Hf|Hf]; [|auto].
  by apply scanPhrase_fastestWithVote in Hf.
Qed.

End Scan.

Lemma getResults_fastestWithVote (r : Round.t) (f : nat) :
  Round.fastestWithVote (Round._getResults r) = Some f →
  is_Some (Round.acroVotes (Round._getResults r) !! f).
Proof.
  unfold Round._getResults. destruct (Round.tally r) as [cnt vtrs]. simpl.
  intros Hf. by apply scan_fastestWithVote in Hf as [Hf|Hf].
Qed.

Lemma getResults_winner_counted (r : Round.t) (w : nat) :
  Round.winner (Round._getResults r) = Some w →
  is_Some (Round.acroVotes (Round._getResults r) !! w).
Proof.
  rewrite getResults_winner, getResults_acroVotes. intros Hw.
  apply (elem_of_voteOrder r). by apply head_Some_elem_of.
Qed.

Section Points.

Variable o : NormalRound.opts.

Implicit Types points : gmap (option nat) JS.num.

Lemma numeric_insert points (n : nat) (z : Z) :
  numeric points → numeric (<[Some n := JS.Num z]> points).
Proof.
  intros Hnum m v. destruct (decide (n = m)) as [->|Hne].
  - rewrite lookup_insert_eq. intros [= <-]. eauto.
  - rewrite lookup_insert_ne by congruence. apply Hnum.
Qed.

(** The points copied from [acroVotes]. *)
Lemma votes_copied (cnt : gmap nat Z) :
  let points :=
    oUtil.forEach cnt
      (λ points userId votes, <[Some userId := JS.Num votes]> points) ∅ in
  numeric points
  ∧ ∀ u c, cnt !! u = Some c → points !! Some u = Some (JS.Num c).
Proof.
  unfold oUtil.forEach.
  assert (∀ ks,
    let points := foldl (λ acc key,
                           match cnt !! key with
                           | Some val => <[Some key := JS.Num val]> acc
                           | None => acc
                           end) (∅ : gmap (option nat) JS.num) ks in
    numeric points
    ∧ ∀ u c, u ∈ ks → cnt !! u = Some c → points !! Some u = Some (JS.Num c))
    as Hgen.
  { induction ks as [|k ks [IHn IHl]] using rev_ind; simpl.
    - split; [intros n v; by rewrite lookup_empty|].
      intros u c Hin. by apply elem_of_nil in Hin.
    - rewrite foldl_snoc. destruct (cnt !! k) as [v|] eqn:Hk.
      + split; [by apply numeric_insert|].
        intros u c Hin Hu. destruct (decide (k = u)) as [->|Hne].
        * rewrite lookup_insert_eq. congruence.
        * rewrite lookup_insert_ne by congruence. apply IHl; [|done].
          apply elem_of_app in Hin as [Hin|Hin]; [done|].
          apply list_elem_of_singleton in Hin. congruence.
      + split; [done|]. intros u c Hin Hu.
        apply elem_of_app in Hin as [Hin|Hin]; [by apply IHl|].
        apply list_elem_of_singleton in Hin. congruence. }
  destruct (Hgen (JS.Object_keys cnt)) as [Hn Hl]. split; [done|].
  intros u c Hu. apply Hl; [|done]. apply elem_of_Object_keys. eauto.
Qed.

(** Adding to the entry of a tally field keeps the ids numeric, as long
    as an id that is added to has an entry. *)
Lemma numeric_addTo points (k : option nat) (n : Z) :
  numeric points →
  (∀ u, k = Some u → is_Some (points !! Some u)) →
  numeric (NormalRound.addTo k n points)
  ∧ ∀ u, is_Some (points !! Some u) →
         is_Some (NormalRound.addTo k n points !! Some u).
Proof.
  intros Hnum Hk. unfold NormalRound.addTo. split.
  - intros m v. destruct k as [u|].
    + destruct (decide (u = m)) as [->|Hne].
      * rewrite lookup_insert_eq. destruct (Hk m eq_refl) as [x Hx].
        rewrite Hx. destruct (Hnum m x Hx) as [z ->]. simpl.
        intros [= <-]. eauto.
      * rewrite lookup_insert_ne by congruence. apply Hnum.
    + rewrite lookup_insert_ne by done. apply Hnum.
  - intros u Hu. destruct (decide (k = Some u)) as [->|Hne].
    + rewrite lookup_insert_eq. eauto.
    + by rewrite lookup_insert_ne.
Qed.

Lemma numeric_topVoters (voters : list nat) points :
  numeric points →
  let points' :=
    foldl (λ points voter,
             <[Some voter := JS.add (JS.or0 (points !! Some voter))
                               (JS.Num (NormalRound.pointsVoteForWinner o))]>
               points) points voters in
  numeric points'
  ∧ ∀ u, is_Some (points !! Some u) → is_Some (points' !! Some u).
Proof.
  revert points. induction voters as [|v voters IH]; intros points Hnum; simpl.
  - done.
  - set (p1 := <[Some v := _]> points).
    assert (numeric p1) as Hnum1.
    { unfold p1. unfold JS.or0.
      destruct (points !! Some v) as [x|] eqn:Hx; simpl.
      - destruct (Hnum v x Hx) as [z ->]. simpl.
        destruct (negb (z =? 0)%Z); simpl; by apply numeric_insert.
      - by apply numeric_insert. }
    destruct (IH p1 Hnum1) as [Hn Hd]. split; [done|].
    intros u Hu. apply Hd. unfold p1.
    destruct (decide (v = u)) as [->|Hne].
    + rewrite lookup_insert_eq. eauto.
    + rewrite lookup_insert_ne by congruence. done.
Qed.

(** Before forfeiture, for the tally of a round: the ids hold numbers,
    and the fastest answer with a vote has an entry. *)
Lemma accumulated_numeric (r : Round.t) :
  let res := Round._getResults r in
  numeric (NormalRound.accumulated o res)
  ∧ ∀ f, Round.fastestWithVote res = Some f →
         is_Some (NormalRound.accumulated o res !! Some f).
Proof.
  intros res. unfold NormalRound.accumulated.
  destruct (votes_copied (Round.acroVotes res)) as [Hn0 Hl0].
  set (p0 := oUtil.forEach _ _ _) in *.
  assert (∀ u, is_Some (Round.acroVotes res !! u) → is_Some (p0 !! Some u))
    as Hd0.
  { intros u [c Hc]. rewrite (Hl0 u c Hc). eauto. }
  destruct (numeric_addTo p0 (Round.fastestWithVote res)
              (NormalRound.pointsFastestWithVote o) Hn0) as [Hn1 Hd1].
  { intros u Hu. apply Hd0. by apply getResults_fastestWithVote. }
  set (p1 := NormalRound.addTo (Round.fastestWithVote res) _ p0) in *.
  destruct (numeric_addTo p1 (Round.winner res)
              (NormalRound.numLetters o) Hn1) as [Hn2 Hd2].
  { intros u Hu. apply Hd1, Hd0. by apply getResults_winner_counted. }
  set (p2 := NormalRound.addTo (Round.winner res) _ p1) in *.
  destruct (numeric_topVoters (Round.topVoters res) p2 Hn2) as [Hn3 Hd3].
  split; [done|].
  intros f Hf. apply Hd3, Hd2, Hd1, Hd0. by apply getResults_fastestWithVote.
Qed.

(** The loop over the non-voters zeroes the truthy entries of the users
    it meets and touches nothing else. *)
Lemma forfeit_lookup (nonVoters : list nat) points (k : option nat) :
  NormalRound.forfeit points nonVoters !! k =
    if decide (k ∈ Some <$> nonVoters) then zeroed (points !! k)
    else points !! k.
Proof.
  unfold NormalRound.forfeit. revert points.
  induction nonVoters as [|a nvs IH]; intros points.
  - rewrite decide_False; [done|]. by intros ?%elem_of_nil.
  - cbn [foldl]. rewrite IH. clear IH. rewrite fmap_cons.
    set (points' := if JS.truthy_read (points !! Some a)
                    then <[Some a := JS.Num 0]> points else points).
    destruct (decide (k = Some a)) as [->|Hne].
    + rewrite (decide_True (P := Some a ∈ Some a :: _)) by left.
      assert (points' !! Some a = zeroed (points !! Some a)) as Hz.
      { unfold points', zeroed.
        destruct (JS.truthy_read (points !! Some a));
          [by rewrite lookup_insert_eq|done]. }
      assert (zeroed (points' !! Some a) = zeroed (points !! Some a)) as Hzz.
      { rewrite Hz. unfold zeroed.
        by destruct (JS.truthy_read (points !! Some a)) eqn:Ht; rewrite ?Ht. }
      case_decide; congruence.
    + assert (points' !! k = points !! k) as Hsame.
      { unfold points'. destruct (JS.truthy_read (points !! Some a));
          [by rewrite lookup_insert_ne|done]. }
      rewrite Hsame.
      destruct (decide (k ∈ Some <$> nvs)) as [Hin|Hnin].
      * rewrite decide_True; [done|]. by right.
      * rewrite decide_False; [done|].
        intros [?|?]%elem_of_cons; done.
Qed.

End Points.

(** C3. For the tally of any round with a winner, [_getPoints] is the
    forfeiture loop applied to the points accumulated from votes and
    bonuses, and for every user listed in [nonVoters]: an accumulated
    entry other than 0 ends as exactly 0; if the user is also
    [fastestWithVote] the entry ends as 0, bonus included; and a user
    without accumulated entry has none in the result. *)
Theorem getPoints_forfeiture_dominates (o : NormalRound.opts) (r : Round.t)
    (n : nat) :
  let res := Round._getResults r in
  Round.winner res ≠ None →
  n ∈ Round.nonVoters res →
  NormalRound._getPoints o res
    = NormalRound.forfeit (NormalRound.accumulated o res) (Round.nonVoters res)
  ∧ (∀ v, NormalRound.accumulated o res !! Some n = Some v → v ≠ JS.Num 0 →
          NormalRound._getPoints o res !! Some n = Some (JS.Num 0))
  ∧ (Round.fastestWithVote res = Some n →
     NormalRound._getPoints o res !! Some n = Some (JS.Num 0))
  ∧ (NormalRound.accumulated o res !! Some n = None →
     NormalRound._getPoints o res !! Some n = None).
Proof.
  intros res _ Hn. unfold NormalRound._getPoints.
  destruct (accumulated_numeric o r) as [Hnum Hfast]. fold res in Hnum, Hfast.
  assert (Some n ∈ Some <$> Round.nonVoters res) as Hin
    by (apply list_elem_of_fmap; eauto).
  split; [done|].
  rewrite forfeit_lookup, decide_True by done.
  split; [|split].
  - intros v Hv Hnz. destruct (Hnum n v Hv) as [z ->].
    rewrite Hv. unfold zeroed. simpl.
    destruct (z =? 0)%Z eqn:Hz; [|done].
    exfalso. apply Hnz. f_equal. lia.
  - intros Hf. destruct (Hfast n Hf) as [v Hv].
    destruct (Hnum n v Hv) as [z ->]. rewrite Hv. unfold zeroed. simpl.
    destruct (z =? 0)%Z eqn:Hz; [|done]. simpl. do 2 f_equal. lia.
  - by intros ->.
Qed.

Lemma getPoints_forfeiture_dominates_witness :
  let res := Round._getResults forfeitRound in
  Round.winner res = Some 0
  ∧ Round.fastestWithVote res = Some 0
  ∧ Round.nonVoters res = [0]
  ∧ NormalRound.accumulated defaultOpts res !! Some 0 = Some (JS.Num 7)
  ∧ NormalRound._getPoints defaultOpts res !! Some 0 = Some (JS.Num 0).
Proof.
  intros res.
  assert (Round.winner res ≠ None) as Hw by (vm_compute; discriminate).
  assert (0 ∈ Round.nonVoters res) as Hn.
  { replace (Round.nonVoters res) with [0] by (vm_compute; reflexivity).
    left. }
  destruct (getPoints_forfeiture_dominates defaultOpts forfeitRound 0 Hw Hn)
    as (_ & _ & Hfast & _).
  do 4 (split; [vm_compute; reflexivity|]).
  apply Hfast. vm_compute. reflexivity.
Defined.

(* ===================================================================== *)
(** * Round._countdown *)
(* ===================================================================== *)

Section Countdown.

(** The delays asked for telescope: whatever the milestones, they add
    up to the starting value (in milliseconds). *)
Lemma emitFrom_delays_sum (stack : list Z) :
  ∀ last, sumZ (Round.delays (Round.emitFrom last stack)) = (last * 1000)%Z.
Proof.
  induction stack as [|cur rest IH]; intros last; simpl.
  - lia.
  - unfold Round.delays in IH. rewrite IH. lia.
Qed.

Lemma countdown_delays_sum (secs : Z) :
  sumZ (Round.delays (Round._countdown secs)) = (secs * 1000)%Z.
Proof. apply emitFrom_delays_sum. Qed.

(** The milestones are announced in the order of the array read from
    its end. *)
Lemma emitFrom_announced (stack : list Z) :
  ∀ last, Round.announced (Round.emitFrom last stack) = stack.
Proof.
  induction stack as [|cur rest IH]; intros last; simpl; [done|].
  unfold Round.announced in *. simpl. by rewrite IH.
Qed.

Lemma countdown_announced (secs : Z) :
  Round.announced (Round._countdown secs) =
    (secs / 2)%Z :: (if (15 <? secs / 2)%Z then [10%Z] else []) ++ [3; 2; 1]%Z.
Proof.
  unfold Round._countdown, Round._emitMilestones.
  rewrite emitFrom_announced.
  destruct (15 <? secs / 2)%Z; reflexivity.
Qed.

(** From 8 seconds on the half-way mark lies above 3: the
    announcements strictly decrease and every delay is positive. *)
Lemma countdown_long_duration (secs : Z) :
  (8 ≤ secs)%Z →
  StronglySorted Z.gt (Round.announced (Round._countdown secs))
  ∧ Forall (λ d, 0 < d)%Z (Round.delays (Round._countdown secs)).
Proof.
  intros Hsecs.
  assert (4 ≤ secs / 2)%Z as Hhalf by (apply Z.div_le_lower_bound; lia).
  assert (secs / 2 < secs)%Z as Hlt by (apply Z.div_lt; lia).
  split.
  - rewrite countdown_announced.
    destruct (15 <? secs / 2)%Z eqn:Hbig; simpl;
      repeat (constructor; [|repeat (constructor; try lia)]);
      repeat constructor.
  - unfold Round._countdown, Round._emitMilestones, Round.delays.
    destruct (15 <? secs / 2)%Z eqn:Hbig; simpl;
      repeat (constructor; [simpl; lia|]); constructor.
Qed.

(** Below 8 seconds the half-way mark is at most 3 and the milestone
    array is not ascending: the announcements do not strictly
    decrease. *)
Lemma countdown_short_duration (secs : Z) :
  (1 ≤ secs ≤ 7)%Z →
  ¬ StronglySorted Z.gt (Round.announced (Round._countdown secs)).
Proof.
  intros Hsecs Hs. rewrite countdown_announced in Hs.
  assert (secs / 2 ≤ 3)%Z as Hhalf
    by (apply Z.lt_succ_r, Z.div_lt_upper_bound; lia).
  assert ((15 <? secs / 2)%Z = false) as Hsmall by lia.
  rewrite Hsmall in Hs. simpl in Hs.
  apply StronglySorted_inv in Hs as [_ Hall].
  apply Forall_cons in Hall as [Hgt _]. lia.
Qed.

End Countdown.

(** C4. A countdown of 4 seconds: the milestone array is [1, 2, 3, 2],
    not in ascending order as [_emitMilestones] requires; the
    announcements come as 2, 3, 2, 1 and the second timer is asked for
    a delay of -1 second. *)
Theorem countdown_four_seconds :
  Round.announced (Round._countdown 4) = [2; 3; 2; 1]%Z
  ∧ Round.delays (Round._countdown 4) = [2000; -1000; 1000; 1000; 1000]%Z
  ∧ ¬ StronglySorted Z.gt (Round.announced (Round._countdown 4)).
Proof.
  split; [reflexivity|]. split; [reflexivity|].
  change (Round.announced (Round._countdown 4)) with [2; 3; 2; 1]%Z.
  intros Hs. apply StronglySorted_inv in Hs as [_ Hall].
  apply Forall_cons in Hall as [Hgt _]. unfold Z.gt in Hgt. done.
Qed.

(* ===================================================================== *)
(** * Round.submitPhrase *)
(* ===================================================================== *)

(** Outside the submission phase the input is ignored. *)
Lemma submitPhrase_other_phase (now : Z) (r : Round.t) (userId : nat)
    (phrase : string) :
  Round._phase r ≠ Round.PHASE_ACRO →
  Round.submitPhrase now r userId phrase = (r, []).
Proof. unfold Round.submitPhrase. by destruct (Round._phase r). Qed.

(** In the submission phase the phrase is accepted exactly when the
    acronym computed by the code equals the round's; the trimmed phrase
    and the time are stored under the user; otherwise the round is left
    as it was and the computed acronym is signalled. *)
Lemma submitPhrase_decides (now : Z) (r : Round.t) (userId : nat)
    (phrase : string) :
  Round._phase r = Round.PHASE_ACRO →
  let '(r', events) := Round.submitPhrase now r userId phrase in
  if decide (Round.acroOf phrase = Round._acro r)
  then Round._phrases r' = <[userId := JS.strip_ends phrase]> (Round._phrases r)
       ∧ Round._submitTimes r' = <[userId := now]> (Round._submitTimes r)
       ∧ Round._votes r' = Round._votes r
       ∧ Round._userOrder r' = Round._userOrder r
       ∧ events = [Round.phraseAccepted userId
                     (negb (JS.truthy_str (Round._phrases r !! userId)))]
  else r' = r ∧ events = [Round.phraseRejected userId (Round.acroOf phrase)].
Proof.
  intros Hphase. unfold Round.submitPhrase. rewrite Hphase.
  by case_decide.
Qed.

Section Strings.

Implicit Types s t : string.
Implicit Types c : ascii.

Lemma append_nil s : EmptyString +:+ s = s.
Proof. reflexivity. Qed.

Lemma append_cons c s t : String c s +:+ t = String c (s +:+ t).
Proof. reflexivity. Qed.

Lemma append_empty_r s : s +:+ EmptyString = s.
Proof.
  induction s as [|c s IH]; [done|]. by rewrite append_cons, IH.
Qed.

Lemma append_assoc s t u : (s +:+ t) +:+ u = s +:+ (t +:+ u).
Proof.
  induction s as [|c s IH]; [done|]. by rewrite !append_cons, IH.
Qed.

Lemma string_of_snoc (l : list ascii) c :
  Stdlib.Strings.String.string_of_list_ascii (l ++ [c])
  = Stdlib.Strings.String.string_of_list_ascii l +:+ String c EmptyString.
Proof.
  induction l as [|a l IH]; [done|]. simpl. by rewrite IH, append_cons.
Qed.

Lemma space_code c : (JS.code c =? 32)%nat = true → JS.is_space c = true.
Proof. unfold JS.is_space. intros ->. by rewrite orb_true_r. Qed.

Lemma split_space_cons s : ∃ w ws, JS.split_space s = w :: ws.
Proof.
  induction s as [|c s (w & ws & IH)]; simpl; [by eauto|].
  destruct (JS.code c =? 32)%nat; [by eauto|]. rewrite IH. eauto.
Qed.

(** ** The normaliser produces words separated by single spaces *)

Lemma collapsedAfter_word p c s :
  JS.is_space c = false →
  collapsedAfter p (String c s) = collapsedAfter false s.
Proof. intros Hc. simpl. by rewrite Hc. Qed.

Lemma wordsAfter_word p c s :
  JS.is_space c = false →
  wordsAfter p (String c s) = wordsAfter false s.
Proof. intros Hc. simpl. by rewrite Hc. Qed.

Lemma collapse_spaces_collapsed s :
  collapsedAfter false (JS.collapse_spaces s) = true.
Proof.
  induction s as [|c s IH]; [done|]. simpl.
  destruct (JS.is_space c) eqn:Hc.
  - destruct s as [|c' s']; [done|].
    destruct (JS.is_space c') eqn:Hc'; [exact IH|].
    simpl in IH. rewrite Hc' in IH.
    rewrite collapsedAfter_word in IH by done.
    assert (JS.collapse_spaces (String c' s')
            = String c' (JS.collapse_spaces s')) as ->
      by (simpl; by rewrite Hc').
    change (collapsedAfter true (String c' (JS.collapse_spaces s')) = true).
    by rewrite collapsedAfter_word.
  - by rewrite collapsedAfter_word.
Qed.

Lemma strip_first_collapsed s :
  collapsedAfter false s = true → collapsedAfter true (JS.strip_first s) = true.
Proof.
  destruct s as [|c s]; [done|]. simpl.
  destruct (JS.is_space c) eqn:Hc.
  - by intros [_ ?]%andb_true_iff.
  - simpl. by rewrite Hc.
Qed.

Lemma strip_last_words s :
  ∀ p, collapsedAfter p s = true →
       s ≠ EmptyString →
       (∀ c, s = String c EmptyString → JS.is_space c = false) →
       wordsAfter p (JS.strip_last s) = true.
Proof.
  induction s as [|c s IH]; intros p Hcol Hne Hsingle; [done|].
  destruct s as [|c' s'].
  - simpl. rewrite (Hsingle c eq_refl). simpl. by rewrite (Hsingle c eq_refl).
  - change (JS.strip_last (String c (String c' s')))
      with (String c (JS.strip_last (String c' s'))).
    simpl in Hcol. simpl wordsAfter at 1.
    destruct (JS.is_space c) eqn:Hc.
    + apply andb_true_iff in Hcol as [Hpc Hcol]. rewrite Hpc. simpl.
      apply IH; [done|done|].
      intros c0 [= -> ->]. simpl in Hcol.
      destruct (JS.is_space c0); [done|done].
    + destruct s' as [|c'' s''].
      * simpl. destruct (JS.is_space c') eqn:Hc'; simpl; [done|].
        by rewrite Hc'.
      * apply IH; [done|done|]. intros c0 [=].
Qed.

Lemma normalise_words (phrase : string) :
  PhraseSpec.normalise phrase = EmptyString
  ∨ wordsAfter true (PhraseSpec.normalise phrase) = true.
Proof.
  unfold PhraseSpec.normalise, JS.strip_ends.
  set (s0 := JS.collapse_spaces _).
  pose proof (strip_first_collapsed s0 (collapse_spaces_collapsed _)) as Hcol.
  destruct (JS.strip_first s0) as [|c s] eqn:Hs; [by left|].
  right. apply strip_last_words; [done|done|].
  intros c0 [= -> ->]. simpl in Hcol.
  destruct (JS.is_space c0); [done|done].
Qed.

(** ** On such a text [split] yields the tokens *)

Lemma tokensFrom_split s :
  ∀ p (cur : list ascii),
    wordsAfter p s = true →
    (p = true ↔ cur = []) →
    PhraseSpec.tokensFrom cur s
    = prepend (Stdlib.Strings.String.string_of_list_ascii (rev cur))
              (JS.split_space s).
Proof.
  induction s as [|c s IH]; intros p cur Hw Hp.
  - simpl in *. destruct cur as [|a cur].
    + destruct p; [done|]. destruct Hp as [_ Hp]. by specialize (Hp eq_refl).
    + by rewrite append_empty_r.
  - simpl in Hw. simpl PhraseSpec.tokensFrom. simpl JS.split_space.
    destruct (JS.is_space c) eqn:Hc.
    + apply andb_true_iff in Hw as [[Hpf H32]%andb_true_iff Hw].
      rewrite H32. simpl. rewrite append_empty_r.
      rewrite (IH true []); [|done|done]. simpl.
      destruct (split_space_cons s) as (w & ws & ->). simpl.
      destruct cur as [|a cur]; [|done].
      destruct p; [done|]. destruct Hp as [_ Hp]. by specialize (Hp eq_refl).
    + assert ((JS.code c =? 32)%nat = false) as ->.
      { destruct (JS.code c =? 32)%nat eqn:H32; [|done].
        apply space_code in H32. congruence. }
      rewrite (IH false (c :: cur)); [|done|done].
      destruct (split_space_cons s) as (w & ws & ->). simpl.
      by rewrite string_of_snoc, append_assoc.
Qed.

Lemma tokensFrom_nonempty s :
  ∀ cur, Forall (λ w, w ≠ EmptyString) (PhraseSpec.tokensFrom cur s).
Proof.
  assert (∀ cur : list ascii, cur ≠ [] →
            Stdlib.Strings.String.string_of_list_ascii (rev cur) ≠ EmptyString)
    as Hflush.
  { intros [|a cur] Hne; [done|]. simpl. rewrite string_of_snoc.
    by destruct (Stdlib.Strings.String.string_of_list_ascii (rev cur)). }
  induction s as [|c s IH]; intros cur; simpl.
  - destruct cur; [constructor|]. repeat constructor. by apply Hflush.
  - destruct (JS.is_space c); [|apply IH].
    apply Forall_app. split; [|apply IH].
    destruct cur; [constructor|]. repeat constructor. by apply Hflush.
Qed.

(** ** The acronym loop on non-empty words *)

Lemma acro_loop (ws : list string) :
  Forall (λ w, w ≠ EmptyString) ws →
  ∀ acro, foldl JS.append_first acro ws = acro +:+ firsts ws.
Proof.
  induction 1 as [|w ws Hw _ IH]; intros acro; simpl.
  - by rewrite append_empty_r.
  - rewrite IH. destruct w as [|c w]; [done|]. simpl.
    by rewrite append_assoc.
Qed.

End Strings.

(** The acronym computed by [submitPhrase] is the one of the
    specification, unless the normalised text is empty: then it is the
    text "undefined". *)
Lemma acroOf_spec (phrase : string) :
  Round.acroOf phrase =
    if decide (PhraseSpec.normalise phrase = EmptyString) then "undefined"
    else PhraseSpec.acronym phrase.
Proof.
  unfold Round.acroOf, Round.words. fold (PhraseSpec.normalise phrase).
  destruct (normalise_words phrase) as [Hempty|Hwords].
  - rewrite Hempty. by rewrite decide_True.
  - rewrite decide_False by (intros Heq; by rewrite Heq in Hwords).
    unfold PhraseSpec.acronym, PhraseSpec.tokens.
    pose proof (tokensFrom_split _ true [] Hwords (conj (λ _, eq_refl) (λ _, eq_refl)))
      as Hsplit.
    pose proof (tokensFrom_nonempty (PhraseSpec.normalise phrase) []) as Hne.
    destruct (split_space_cons (PhraseSpec.normalise phrase)) as (w & ws & Hs).
    rewrite Hs in Hsplit |- *. simpl in Hsplit. rewrite Hsplit in Hne |- *.
    by rewrite acro_loop.
Qed.

(** C6. A phrase without any letter or digit ("!!!") in the submission
    phase: the normalised text is empty, [split] yields one empty word
    whose first character is [undefined], and the acronym signalled with
    the rejection is the text "undefined", where the concatenation of the
    first characters of the tokens is the empty string. *)
Theorem submitPhrase_without_token :
  Round.words "!!!" = [EmptyString]
  ∧ Round.submitPhrase 5 acroRound 0 "!!!"
    = (acroRound, [Round.phraseRejected 0 "undefined"])
  ∧ PhraseSpec.acronym "!!!" = EmptyString.
Proof. repeat split; vm_compute; reflexivity. Qed.

(* ===================================================================== *)
(** * FaceOffRound.startVote *)
(* ===================================================================== *)

(** With exactly one submitter the callback gets no error, the
    acronym-length bonus for that player, and that player as fastest. *)
Lemma startVote_one_submitter (n : Z) (u : nat) :
  let args := [FaceOffRound.null; FaceOffRound.object {[ u := n ]};
               FaceOffRound.user u] in
  FaceOffRound.startVote (FaceOffRound.mk n [u]) = FaceOffRound.cbCalled args
  ∧ FaceOffRound.param 1 args = FaceOffRound.object {[ u := n ]}
  ∧ FaceOffRound.param 2 args = FaceOffRound.user u.
Proof. done. Qed.

(** C7. With no submitter the callback is bound to the two arguments
    [{}] and [null]: they land in [err] and [points], and [fastest] is
    [undefined], not [null].  No score changes, but the coordinator,
    which tests [fastest !== null], records [undefined] as the fastest
    of the round and counts it under the property "undefined". *)
Theorem startVote_no_submitter (n : Z) :
  ∃ args,
    FaceOffRound.startVote (FaceOffRound.mk n []) = FaceOffRound.cbCalled args
    ∧ FaceOffRound.param 0 args = FaceOffRound.object ∅
    ∧ FaceOffRound.param 1 args = FaceOffRound.null
    ∧ FaceOffRound.param 2 args = FaceOffRound.undefined
    ∧ FaceOffRound.param 2 args ≠ FaceOffRound.null
    ∧ let fo := FaceOff.voteDone (FaceOff.new [0; 1]) args in
      FaceOff._scores fo = FaceOff._scores (FaceOff.new [0; 1])
      ∧ FaceOff._fastestRounds fo = [FaceOffRound.undefined]
      ∧ FaceOff._fastest fo !! None = Some JS.NaN.
Proof.
  exists [FaceOffRound.object ∅; FaceOffRound.null].
  repeat split; try done.
Qed.

(* ===================================================================== *)
(** * FaceOff: the final resolution *)
(* ===================================================================== *)

Section TwoKeys.

Context {V : Type}.

Lemma sorted_pair (a b : nat) (l : list nat) :
  a < b → l ≡ₚ [a; b] → Sorted Nat.le l → l = [a; b].
Proof.
  intros Hab Hperm Hs. symmetry in Hperm.
  apply Permutation_length_2_inv in Hperm as [->| ->]; [done|].
  apply Sorted_inv in Hs as [_ Hhd]. apply HdRel_inv in Hhd. lia.
Qed.

Lemma Object_keys_pair (a b : nat) (x y : V) :
  a < b → JS.Object_keys (<[a := x]> {[b := y]} : gmap nat V) = [a; b].
Proof.
  intros Hab. apply sorted_pair; [done| |].
  - rewrite Object_keys_perm.
    rewrite map_to_list_insert by (apply lookup_singleton_ne; lia).
    by rewrite map_to_list_singleton.
  - apply Sorted_merge_sort. intros m n. unfold Nat.le. lia.
Qed.

Lemma Object_keys_x_pair (a b : nat) (x y : V) :
  a < b →
  JS.Object_keys_x (<[Some a := x]> {[Some b := y]} : gmap (option nat) V)
  = [Some a; Some b].
Proof.
  intros Hab. unfold JS.Object_keys_x.
  rewrite lookup_insert_ne by done. rewrite lookup_singleton_ne by done.
  rewrite app_nil_r. change [Some a; Some b] with (Some <$> [a; b]).
  f_equal. apply sorted_pair; [done| |].
  - rewrite merge_sort_Permutation.
    rewrite map_to_list_insert
      by (apply lookup_singleton_ne; intros [=]; lia).
    by rewrite map_to_list_singleton.
  - apply Sorted_merge_sort. intros m n. unfold Nat.le. lia.
Qed.

End TwoKeys.

Lemma sort_pair {A : Type} (cmp : A → A → JS.num) (a b : A) :
  JS.sort cmp [a; b] = if JS.gt0 (cmp a b) then [b; a] else [a; b].
Proof. unfold JS.sort. simpl. by destruct (JS.gt0 (cmp a b)). Qed.

Section TwoPlayers.

Variables a b : nat.
Hypothesis Hab : a < b.
Variables sa sb fa fb : Z.
Variable rounds : list FaceOffRound.value.

Let fo : FaceOff.t :=
  FaceOff.mk (<[a := JS.Num sa]> {[b := JS.Num sb]})
             (<[Some a := JS.Num fa]> {[Some b := JS.Num fb]})
             rounds.

(** Whatever the two counters, [_getFastestPlayer] names a player: the
    one with more fastest answers, or the lower id when they are level. *)
Lemma getFastestPlayer_two_players :
  FaceOff._getFastestPlayer fo = Some (Some (if (fa <? fb)%Z then b else a)).
Proof.
  unfold FaceOff._getFastestPlayer, fo. simpl.
  rewrite Object_keys_x_pair by done. rewrite sort_pair.
  rewrite lookup_insert_eq, lookup_insert_ne by (intros [=]; lia).
  rewrite lookup_singleton_eq. simpl.
  assert ((0 <? fb - fa)%Z = (fa <? fb)%Z) as -> by lia.
  destruct (fa <? fb)%Z; simpl;
    (rewrite decide_False by (intros [=]; lia)); done.
Qed.

(** Different scores: the higher one wins. *)
Lemma announceWinner_scores_differ :
  sa ≠ sb →
  FaceOff._announceWinner fo = Some (Some (if (sa <? sb)%Z then b else a)).
Proof.
  intros Hne. unfold FaceOff._announceWinner, fo. simpl.
  rewrite Object_keys_pair by done. rewrite sort_pair.
  rewrite lookup_insert_eq, lookup_insert_ne by lia.
  rewrite lookup_singleton_eq. simpl.
  assert ((0 <? sb - sa)%Z = (sa <? sb)%Z) as -> by lia.
  destruct (sa <? sb)%Z; simpl.
  - rewrite lookup_insert_eq, lookup_insert_ne by lia.
    rewrite lookup_singleton_eq. simpl.
    by assert ((sb =? sa)%Z = false) as -> by lia.
  - rewrite lookup_insert_eq, lookup_insert_ne by lia.
    rewrite lookup_singleton_eq. simpl.
    by assert ((sa =? sb)%Z = false) as -> by lia.
Qed.

(** Equal scores: the decision is left to [_getFastestPlayer]. *)
Lemma announceWinner_scores_equal :
  sa = sb →
  FaceOff._announceWinner fo = Some (Some (if (fa <? fb)%Z then b else a)).
Proof.
  intros Heq. rewrite <- getFastestPlayer_two_players.
  unfold FaceOff._announceWinner, fo. simpl.
  rewrite Object_keys_pair by done. rewrite sort_pair.
  rewrite lookup_insert_eq, lookup_insert_ne by lia.
  rewrite lookup_singleton_eq. simpl.
  assert ((0 <? sb - sa)%Z = false) as -> by lia. simpl.
  rewrite lookup_insert_eq, lookup_insert_ne by lia.
  rewrite lookup_singleton_eq. simpl.
  by assert ((sa =? sb)%Z = true) as -> by lia.
Qed.

End TwoPlayers.

(** C1. Two rounds leave the players 0 and 1 at 5 points each and at one
    fastest answer each; [_getFastestPlayer] compares the two property
    names instead of the two counters, finds them different, and player
    0 is announced as the winner where an unbreakable tie (null) is
    due.  The same happens after a third round without any answer. *)
Theorem announceWinner_all_tied :
  FaceOff._scores tiedFaceOff !! 0 = Some (JS.Num 5)
  ∧ FaceOff._scores tiedFaceOff !! 1 = Some (JS.Num 5)
  ∧ FaceOff._fastest tiedFaceOff !! Some 0 = Some (JS.Num 1)
  ∧ FaceOff._fastest tiedFaceOff !! Some 1 = Some (JS.Num 1)
  ∧ FaceOff._getFastestPlayer tiedFaceOff = Some (Some 0)
  ∧ FaceOff._announceWinner tiedFaceOff = Some (Some 0)
  ∧ FaceOff._scores tiedFaceOff3 = FaceOff._scores tiedFaceOff
  ∧ FaceOff._fastest tiedFaceOff3 !! Some 0 = Some (JS.Num 1)
  ∧ FaceOff._fastest tiedFaceOff3 !! Some 1 = Some (JS.Num 1)
  ∧ FaceOff._announceWinner tiedFaceOff3 = Some (Some 0).
Proof. repeat split; vm_compute; reflexivity. Qed.

(* ===================================================================== *)
(** * AcroGame: renaming, stopping *)
(* ===================================================================== *)

Section Rename.

Context {H : Type}.
Implicit Types g : AcroGame.t H.

Lemma hasOwnProperty_present (userIds : gmap string nat) (key : string)
    (id : nat) :
  AcroGame.hasOwnProperty userIds key = AcroGame.present id
  ↔ userIds !! "hasOwnProperty" = None
    ∧ key ≠ "__proto__" ∧ userIds !! key = Some id.
Proof.
  unfold AcroGame.hasOwnProperty, AcroGame.own.
  destruct (userIds !! "hasOwnProperty"); [by split; [|intros [? _]]|].
  case_decide as Hk.
  - split; [done|]. by intros (_ & ? & _).
  - destruct (userIds !! key) as [i|]; split; try done.
    + by intros [= ->].
    + by intros (_ & _ & [= ->]).
    + by intros (_ & _ & ?).
Qed.

Lemma hasOwnProperty_absent (userIds : gmap string nat) (key : string) :
  AcroGame.hasOwnProperty userIds key = AcroGame.absent
  ↔ userIds !! "hasOwnProperty" = None
    ∧ (key = "__proto__" ∨ userIds !! key = None).
Proof.
  unfold AcroGame.hasOwnProperty, AcroGame.own.
  destruct (userIds !! "hasOwnProperty"); [by split; [|intros [? _]]|].
  case_decide as Hk.
  - split; [|done]. intros _. split; [done|by left].
  - destruct (userIds !! key) as [i|]; split; try done.
    + by intros (_ & [?|?]).
    + intros _. split; [done|by right].
Qed.


(** An unknown name: nothing changes. *)
Lemma changeUser_unknown g (oldUser newUser : string) :
  AcroGame.hasOwnProperty (AcroGame._userIds g) oldUser = AcroGame.absent →
  AcroGame.changeUser g oldUser newUser = Some g.
Proof. intros Hnone. unfold AcroGame.changeUser. by rewrite Hnone. Qed.

(** A registered name changed to a different one: the new name takes
    the id, the old one loses it, the table of names is updated at that
    id, and nothing else moves. *)
Lemma changeUser_rename g (oldUser newUser : string) (id : nat) :
  AcroGame.hasOwnProperty (AcroGame._userIds g) oldUser
  = AcroGame.present id →
  oldUser ≠ newUser →
  newUser ≠ "__proto__" →
  ∃ g',
    AcroGame.changeUser g oldUser newUser = Some g'
    ∧ AcroGame._userIds g' !! newUser = Some id
    ∧ AcroGame._userIds g' !! oldUser = None
    ∧ (∀ other, other ≠ oldUser → other ≠ newUser →
                AcroGame._userIds g' !! other = AcroGame._userIds g !! other)
    ∧ JS.array_get (AcroGame._userNames g') id = Some newUser
    ∧ AcroGame._scores g' = AcroGame._scores g
    ∧ AcroGame._ended g' = AcroGame._ended g
    ∧ AcroGame._running g' = AcroGame._running g
    ∧ AcroGame._handlerState g' = AcroGame._handlerState g
    ∧ AcroGame._handleInput g' = AcroGame._handleInput g.
Proof.
  intros Hid Hne Hproto. unfold AcroGame.changeUser. rewrite Hid.
  unfold AcroGame.assign, AcroGame.read.
  rewrite !decide_False by done. cbv zeta.
  rewrite lookup_delete_ne by done. rewrite lookup_insert_eq. simpl.
  eexists. split; [reflexivity|]. simpl.
  rewrite lookup_delete_ne by done. rewrite lookup_insert_eq.
  repeat split; try done.
  - apply lookup_delete_eq.
  - intros other Ho Hn. rewrite lookup_delete_ne by done.
    by rewrite lookup_insert_ne.
  - unfold JS.array_get, JS.array_set. case_decide as Hlt.
    + by rewrite list_lookup_insert_eq.
    + rewrite lookup_app_r by lia.
      rewrite lookup_app_r; rewrite length_replicate; [|lia].
      by replace (id - length (AcroGame._userNames g)
                  - (id - length (AcroGame._userNames g))) with 0 by lia.
Qed.

End Rename.

(** C10. Renaming the registered participant "bob" to "bob": the binding
    written for the new name is the one deleted for the old name, and
    the participant is left without any id; his next input registers him
    anew under id 1, away from the score kept under id 0. *)
Theorem changeUser_same_name :
  AcroGame._userIds bobGame !! "bob" = Some 0
  ∧ AcroGame._userNames bobGame = [Some "bob"]
  ∧ match AcroGame.changeUser bobGame "bob" "bob" with
    | Some renamed =>
        AcroGame._userIds renamed !! "bob" = None
        ∧ AcroGame._userIds renamed = ∅
        ∧ match AcroGame.userInput renamed "bob" "1" with
          | Some (again, _) => AcroGame._userIds again !! "bob" = Some 1
          | None => False
          end
    | None => False
    end.
Proof. vm_compute. repeat split; reflexivity. Qed.

Section Stop.

Context {H : Type}.
Variable runGame : AcroGame.t H → AcroGame.t H * list AcroGame.delivery.
Implicit Types g : AcroGame.t H.

Lemma perform_ended g (s : AcroGame.say) :
  AcroGame._ended g = true → AcroGame.perform g s = [].
Proof.
  intros He. destruct s; simpl.
  - unfold AcroGame._sayPublic. by rewrite He.
  - unfold AcroGame._sayPrivate. by rewrite He.
Qed.

Lemma flat_map_perform_ended g (says : list AcroGame.say) :
  AcroGame._ended g = true → flat_map (AcroGame.perform g) says = [].
Proof.
  intros He. induction says as [|s says IH]; simpl; [done|].
  by rewrite perform_ended, IH.
Qed.

(** The handler is called whether the game has ended or not; what it
    asks to be said is not. *)
Lemma handInput_ended g (userIds : gmap string nat)
    (userNames : list (option string)) (id : AcroGame.userKey)
    (input : string) :
  AcroGame._ended g = true →
  AcroGame.handInput g userIds userNames id input
  = (AcroGame.mk (AcroGame._handleInput g)
       (AcroGame._handleInput g (AcroGame._handlerState g) id input).1
       (AcroGame._running g) true (AcroGame._scores g) userIds userNames
       (AcroGame._userNamesObject g),
     []).
Proof.
  intros He. unfold AcroGame.handInput.
  destruct (AcroGame._handleInput g _ id input) as [h says]. simpl.
  rewrite flat_map_perform_ended by exact He. by rewrite He.
Qed.

(** A second [stop] returns false, emits nothing, changes nothing. *)
Lemma stop_ended g :
  AcroGame._ended g = true → AcroGame.stop g = (g, false, []).
Proof. intros He. unfold AcroGame.stop. by rewrite He. Qed.

(** Once ended, a game stays ended, delivers nothing, emits nothing. *)
Lemma step_ended g (o : AcroGame.op) :
  AcroGame._ended g = true →
  match AcroGame.step runGame g o with
  | Some (g', out, ev) => out = [] ∧ ev = [] ∧ AcroGame._ended g' = true
  | None => True
  end.
Proof.
  intros He. destruct o as [| |user input|oldUser newUser|userName|s]; simpl.
  - unfold AcroGame.start. by rewrite He, andb_false_r.
  - by rewrite (stop_ended g He).
  - unfold AcroGame.userInput.
    destruct (AcroGame.hasOwnProperty _ user) as [| |id]; [done| |].
    + by case_decide; rewrite handInput_ended by exact He.
    + by rewrite handInput_ended by exact He.
  - unfold AcroGame.changeUser.
    destruct (AcroGame.hasOwnProperty _ oldUser) as [| |id]; [done|done|].
    by destruct (AcroGame.read _ newUser) as [[i|]|].
  - unfold AcroGame.deleteUser.
    by destruct (AcroGame.hasOwnProperty _ userName) as [| |id].
  - by rewrite (perform_ended g s He).
Qed.



End Stop.




(* ===================================================================== *)
(** * Round: rand, shuffle, _makeAcro *)
(* ===================================================================== *)

Section Random.

Implicit Types x : JS.random.

Lemma floor_times_range x (n : Z) :
  (0 < n)%Z → (0 ≤ JS.floor_times x n < n)%Z.
Proof.
  intros Hn. unfold JS.floor_times.
  set (p := Z.of_nat (JS.rnd_p x)).
  set (q := Z.of_nat (JS.rnd_p x + JS.rnd_d x + 1)).
  assert (0 ≤ p < q)%Z as Hpq by (unfold p, q; lia).
  split.
  - apply Z.div_pos; nia.
  - apply Z.div_lt_upper_bound; nia.
Qed.

End Random.

(** X1. [rand(min, max)] returns an integer between [min] and [max],
    both included, whatever value [Math.random()] gives, as long as
    [min] does not exceed [max]. *)
Theorem rand_range (x : JS.random) (min max : Z) :
  (min ≤ max)%Z → (min ≤ Round.rand x min max ≤ max)%Z.
Proof.
  intros Hle. unfold Round.rand.
  pose proof (floor_times_range x (max - min + 1)). lia.
Qed.

Lemma rand_range_witness :
  (1 ≤ 6)%Z ∧ (1 ≤ Round.rand (JS.mkRandom 5 1) 1 6 ≤ 6)%Z.
Proof. split; [lia|]. apply rand_range. lia. Defined.

Section Shuffle.

Context {A : Type}.
Implicit Types ary : list A.

Lemma swap_perm (i j : nat) ary : JS.swap i j ary ≡ₚ ary.
Proof.
  unfold JS.swap.
  destruct (ary !! i) as [x|] eqn:Hi; [|done].
  destruct (ary !! j) as [y|] eqn:Hj; [|done].
  by apply Permutation_insert_swap.
Qed.

Lemma shuffleWhile_step (draws : nat → JS.random) (calls i : nat) ary :
  Round.shuffleWhile draws calls (S (S i)) ary =
    Round.shuffleWhile draws (S calls) (S i)
      (JS.swap (S i)
         (Z.to_nat (JS.floor_times (draws calls) (Z.of_nat (S i) + 1))) ary).
Proof. reflexivity. Qed.

Lemma shuffleWhile_perm (draws : nat → JS.random) (i : nat) :
  ∀ calls ary, Round.shuffleWhile draws calls i ary ≡ₚ ary.
Proof.
  induction i as [|i IH]; intros calls ary; [done|].
  destruct i as [|i]; [done|].
  rewrite shuffleWhile_step, IH. apply swap_perm.
Qed.

Lemma shuffle_perm (draws : nat → JS.random) ary :
  Round.shuffle draws ary ≡ₚ ary.
Proof.
  unfold Round.shuffle. case_decide; [|done]. apply shuffleWhile_perm.
Qed.

End Shuffle.

(** X2. [shuffle] returns a permutation of the array it is given,
    whatever values [Math.random()] gives: no element is lost, added or
    doubled; an array of fewer than two elements comes back as it is. *)
Theorem shuffle_permutes {A : Type} (draws : nat → JS.random) (ary : list A) :
  Round.shuffle draws ary ≡ₚ ary
  ∧ length (Round.shuffle draws ary) = length ary
  ∧ (length ary ≤ 1 → Round.shuffle draws ary = ary).
Proof.
  split; [apply shuffle_perm|]. split.
  - by rewrite shuffle_perm.
  - intros Hlen. unfold Round.shuffle. case_decide; [lia|done].
Qed.

Section MakeAcro.

Implicit Types s t : string.

Lemma length_append s t :
  String.length (s +:+ t) = String.length s + String.length t.
Proof.
  induction s as [|c s IH]; [done|].
  rewrite append_cons. simpl. by rewrite IH.
Qed.

Lemma chars_append s t : chars (s +:+ t) = chars s ++ chars t.
Proof.
  induction s as [|c s IH]; [done|].
  rewrite append_cons. simpl. by rewrite IH.
Qed.

Lemma char_at_inside s (i : Z) :
  (0 ≤ i < Z.of_nat (String.length s))%Z →
  ∃ c, JS.char_at s i = Some c ∧ c ∈ chars s.
Proof.
  intros Hi. unfold JS.char_at.
  assert ((0 <=? i)%Z = true) as -> by lia.
  assert (Z.to_nat i < String.length s) as Hn by lia.
  clear Hi. revert Hn. generalize (Z.to_nat i) as n.
  induction s as [|c s IH]; intros n Hn; simpl in *; [lia|].
  destruct n as [|n].
  - exists c. split; [done|left].
  - destruct (IH n) as (c' & Hget & Hin); [lia|].
    exists c'. split; [done|by right].
Qed.

Variable o : Round.opts.
Variable draws : nat → JS.random.
Hypothesis pool_nonempty : Round.charPool o ≠ EmptyString.

(** One turn of the loop appends one character of the pool. *)
Lemma makeAcro_turn (calls : nat) (str : string) :
  ∃ c, JS.append_read str
         (JS.char_at (Round.charPool o)
            (Round.rand (draws calls) 0
               (Z.of_nat (String.length (Round.charPool o)) - 1)))
       = str +:+ String c EmptyString
       ∧ c ∈ chars (Round.charPool o).
Proof.
  assert (0 < String.length (Round.charPool o)) as Hlen.
  { destruct (Round.charPool o); [done|simpl; lia]. }
  destruct (char_at_inside (Round.charPool o)
              (Round.rand (draws calls) 0
                 (Z.of_nat (String.length (Round.charPool o)) - 1)))
    as (c & Hc & Hin).
  { unfold Round.rand.
    pose proof (floor_times_range (draws calls)
                  (Z.of_nat (String.length (Round.charPool o)) - 1 - 0 + 1)).
    lia. }
  exists c. by rewrite Hc.
Qed.

Lemma makeAcroWhile_done (turns : nat) :
  ∀ calls str,
    (Round.numLetters o ≤ Z.of_nat (String.length str) + Z.of_nat turns)%Z →
    (Z.of_nat (String.length str) ≤ Z.max 0 (Round.numLetters o))%Z →
    (∀ c, c ∈ chars str → c ∈ chars (Round.charPool o)) →
    ∃ acro,
      Round.makeAcroWhile turns o draws calls str = Some acro
      ∧ Z.of_nat (String.length acro) = Z.max 0 (Round.numLetters o)
      ∧ ∀ c, c ∈ chars acro → c ∈ chars (Round.charPool o).
Proof.
  induction turns as [|turns IH]; intros calls str Hturns Hlen Hchars.
  - simpl. destruct (Z.of_nat (String.length str) <? Round.numLetters o)%Z
      eqn:Hlt; [lia|].
    exists str. split; [done|]. split; [lia|done].
  - simpl. destruct (Z.of_nat (String.length str) <? Round.numLetters o)%Z
      eqn:Hlt.
    + destruct (makeAcro_turn calls str) as (c & -> & Hc).
      apply IH.
      * rewrite length_append. simpl. lia.
      * rewrite length_append. simpl. lia.
      * intros c'. rewrite chars_append. simpl.
        intros [?|Hin]%elem_of_app; [by apply Hchars|].
        by apply list_elem_of_singleton in Hin as ->.
    + exists str. split; [done|]. split; [lia|done].
Qed.

End MakeAcro.

(** X3. With a non-empty [charPool], [_makeAcro] returns a string of
    exactly [numLetters] characters (none when [numLetters] is negative),
    each of them taken from the pool, whatever values [Math.random()]
    gives. *)
Theorem makeAcro_letters (o : Round.opts) (draws : nat → JS.random) :
  Round.charPool o ≠ EmptyString →
  ∃ acro,
    Round._makeAcro o draws = Some acro
    ∧ Z.of_nat (String.length acro) = Z.max 0 (Round.numLetters o)
    ∧ ∀ c, c ∈ chars acro → c ∈ chars (Round.charPool o).
Proof.
  intros Hpool. apply (makeAcroWhile_done o draws Hpool).
  - simpl. lia.
  - simpl. lia.
  - by intros c ?%elem_of_nil.
Qed.

Lemma makeAcro_letters_witness :
  ∃ acro,
    Round._makeAcro (Round.mkOpts 3 "ABCD") (λ n, JS.mkRandom n 2)
    = Some acro
    ∧ Z.of_nat (String.length acro) = Z.max 0 3
    ∧ ∀ c, c ∈ chars acro → c ∈ chars "ABCD".
Proof.
  apply (makeAcro_letters (Round.mkOpts 3 "ABCD") (λ n, JS.mkRandom n 2)).
  simpl. discriminate.
Defined.

(* ===================================================================== *)
(** * Round: the phases and their countdowns *)
(* ===================================================================== *)

Section Lifecycle.

Lemma emitFrom_endsInCallback (stack : list Z) :
  ∀ last, endsInCallback (Round.emitFrom last stack) = true.
Proof. induction stack as [|cur rest IH]; intros last; simpl; [done|apply IH]. Qed.

Lemma countdown_endsInCallback (secs : Z) :
  endsInCallback (Round._countdown secs) = true.
Proof. apply emitFrom_endsInCallback. Qed.

Lemma submitPhrase_phase (now : Z) (r : Round.t) (userId : nat)
    (phrase : string) :
  Round._phase (Round.submitPhrase now r userId phrase).1 = Round._phase r.
Proof. unfold Round.submitPhrase. repeat case_match; done. Qed.

Lemma step_phaseMatches (s : Round.live) (o : Round.op) :
  phaseMatches s → phaseMatches (Round.step s o).1.1.
Proof.
  destruct s as [r pending]. unfold phaseMatches. simpl.
  destruct o as [timeLimit|timeLimit|now userId phrase|userId voteStr|draws k];
    simpl.
  - destruct (Round._phase r) eqn:Hp; simpl; rewrite ?Hp; try done.
    intros ->. eexists. split; [done|apply countdown_endsInCallback].
  - destruct (Round._phase r) eqn:Hp; simpl; rewrite ?Hp; try done.
    intros ->. right. eexists. split; [done|apply countdown_endsInCallback].
  - pose proof (submitPhrase_phase now r userId phrase) as Hp.
    destruct (Round.submitPhrase now r userId phrase) as [r' ev]. simpl in *.
    by rewrite Hp.
  - destruct (submitVote_frame r userId voteStr) as (Hp & _).
    destruct (Round.submitVote r userId voteStr) as [r' ev]. simpl in *.
    by rewrite Hp.
  - unfold Round.fire. simpl.
    destruct (Round._phase r) eqn:Hp.
    + intros ->. rewrite lookup_nil. simpl. by rewrite Hp.
    + intros (ts & -> & Hts). destruct k as [|k]; simpl.
      * destruct ts as [|[d secs|d] rest]; [done| |].
        -- simpl. rewrite Hp. eauto.
        -- simpl. done.
      * rewrite Hp. eauto.
    + intros [->|(ts & -> & Hts)].
      * rewrite lookup_nil. simpl. rewrite Hp. by left.
      * destruct k as [|k]; simpl.
        -- destruct ts as [|[d secs|d] rest]; [done| |].
           ++ simpl. rewrite Hp. right. eauto.
           ++ simpl. rewrite Hp. by left.
        -- rewrite Hp. right. eauto.
Qed.

Lemma run_snoc (s : Round.live) (ops : list Round.op) (o : Round.op) :
  Round.run s (ops ++ [o]) =
    let '(s1, out, ev) := Round.run s ops in
    let '(s2, out', ev') := Round.step s1 o in
    (s2, out ++ out', ev ++ ev').
Proof. unfold Round.run. by rewrite foldl_snoc. Qed.

Lemma run_phaseMatches (acro : string) (ops : list Round.op) :
  phaseMatches (Round.run (Round.new acro, []) ops).1.1.
Proof.
  induction ops as [|o ops IH] using rev_ind; [done|].
  rewrite run_snoc.
  destruct (Round.run _ ops) as [[s1 out] ev]. simpl in IH.
  pose proof (step_phaseMatches s1 o IH) as Hs.
  by destruct (Round.step s1 o) as [[s2 out'] ev'].
Qed.

(** A step taken in the voting phase leaves the round in it. *)
Lemma step_vote_phase (s : Round.live) (o : Round.op) :
  phaseMatches s →
  Round._phase s.1 = Round.PHASE_VOTE →
  Round._phase (Round.step s o).1.1.1 = Round.PHASE_VOTE.
Proof.
  destruct s as [r pending]. unfold phaseMatches. simpl. intros Hm Hp.
  rewrite Hp in Hm.
  destruct o as [timeLimit|timeLimit|now userId phrase|userId voteStr|draws k];
    simpl.
  - by rewrite Hp.
  - by rewrite Hp.
  - pose proof (submitPhrase_phase now r userId phrase) as Hp'.
    destruct (Round.submitPhrase now r userId phrase) as [r' ev]. simpl in *.
    congruence.
  - destruct (submitVote_frame r userId voteStr) as (Hp' & _).
    destruct (Round.submitVote r userId voteStr) as [r' ev]. simpl in *.
    congruence.
  - unfold Round.fire. simpl. destruct Hm as [->|(ts & -> & Hts)].
    + by rewrite lookup_nil.
    + destruct k as [|k]; simpl; [|done].
      by destruct ts as [|[d secs|d] rest].
Qed.

End Lifecycle.

Section Lifecycle2.

Lemma voteEnds_app (out1 out2 : list Round.signal) :
  voteEnds (out1 ++ out2) = voteEnds out1 + voteEnds out2.
Proof. unfold voteEnds. by rewrite filter_app, length_app. Qed.

Lemma step_lifecycle (s : Round.live) (n : nat) (o : Round.op) :
  lifecycle s n →
  lifecycle (Round.step s o).1.1 (n + voteEnds (Round.step s o).1.2).
Proof.
  destruct s as [r pending]. unfold lifecycle. simpl. intros Hl.
  destruct o as [timeLimit|timeLimit|now userId phrase|userId voteStr|draws k];
    simpl.
  - destruct (Round._phase r) eqn:Hp; simpl; rewrite ?Hp, ?Nat.add_0_r;
      try done.
    destruct Hl as [-> ->]. split; [|done].
    eexists. split; [done|apply countdown_endsInCallback].
  - destruct (Round._phase r) eqn:Hp; simpl; rewrite ?Hp, ?Nat.add_0_r;
      try done.
    destruct Hl as [-> ->]. right. split; [|done].
    eexists. split; [done|apply countdown_endsInCallback].
  - pose proof (submitPhrase_phase now r userId phrase) as Hp.
    destruct (Round.submitPhrase now r userId phrase) as [r' ev]. simpl in *.
    by rewrite Hp, Nat.add_0_r.
  - destruct (submitVote_frame r userId voteStr) as (Hp & _).
    destruct (Round.submitVote r userId voteStr) as [r' ev]. simpl in *.
    by rewrite Hp, Nat.add_0_r.
  - unfold Round.fire. simpl.
    destruct (Round._phase r) eqn:Hp.
    + destruct Hl as [-> ->]. destruct k; simpl; by rewrite Hp.
    + destruct Hl as [(ts & -> & Hts) ->].
      destruct k as [|k]; simpl; [|rewrite Hp; eauto].
      destruct ts as [|[d secs|d] rest]; [done| |]; simpl.
      * rewrite Hp. eauto.
      * done.
    + destruct Hl as [[-> ->]|[(ts & -> & Hts) ->]].
      * destruct k; simpl; rewrite Hp; by left.
      * destruct k as [|k]; simpl; [|rewrite Hp; right; eauto].
        destruct ts as [|[d secs|d] rest]; [done| |]; simpl.
        -- rewrite Hp. right. eauto.
        -- rewrite Hp. by left.
Qed.

Lemma run_lifecycle (acro : string) (ops : list Round.op) :
  lifecycle (Round.run (Round.new acro, []) ops).1.1
            (voteEnds (Round.run (Round.new acro, []) ops).1.2).
Proof.
  induction ops as [|o ops IH] using rev_ind; [done|].
  rewrite run_snoc.
  destruct (Round.run _ ops) as [[s1 out] ev]. simpl in IH.
  pose proof (step_lifecycle s1 _ o IH) as Hs.
  destruct (Round.step s1 o) as [[s2 out'] ev']. simpl in *.
  by rewrite voteEnds_app.
Qed.

Lemma run_app (s : Round.live) (ops1 ops2 : list Round.op) :
  (Round.run s (ops1 ++ ops2)).1.1
  = (Round.run (Round.run s ops1).1.1 ops2).1.1.
Proof.
  induction ops2 as [|o ops2 IH] using rev_ind.
  - by rewrite app_nil_r.
  - rewrite app_assoc, !run_snoc.
    destruct (Round.run s (ops1 ++ ops2)) as [[sa outa] eva].
    destruct (Round.run (Round.run s ops1).1.1 ops2) as [[sb outb] evb].
    simpl in IH. subst sb.
    by destruct (Round.step sa o) as [[s2 out'] ev'].
Qed.

Lemma run_vote_phase (s : Round.live) (ops : list Round.op) :
  phaseMatches s →
  Round._phase s.1 = Round.PHASE_VOTE →
  phaseMatches (Round.run s ops).1.1
  ∧ Round._phase (Round.run s ops).1.1.1 = Round.PHASE_VOTE.
Proof.
  intros Hm Hp. induction ops as [|o ops [IHm IHp]] using rev_ind; [done|].
  rewrite run_snoc.
  destruct (Round.run s ops) as [[s1 out] ev]. simpl in IHm, IHp.
  pose proof (step_phaseMatches s1 o IHm) as Hs.
  pose proof (step_vote_phase s1 o IHm IHp) as Hv.
  by destruct (Round.step s1 o) as [[s2 out'] ev'].
Qed.

End Lifecycle2.

(** X4. A round driven from its constructor by any sequence of calls of
    [startAcro], [startVote], [submitPhrase], [submitVote] and of
    timeouts firing has at most one countdown under way, the one of its
    phase; it emits 'voteEnd' at most once, namely when the countdown of
    the voting phase is over; and once in the voting phase it stays
    there, also after 'voteEnd', the callback of [startVote] setting
    [_phase] on the timer and not on the round. *)
Theorem round_votes_once (acro : string) (ops more : list Round.op) :
  let '(s, out, _) := Round.run (Round.new acro, []) ops in
  lifecycle s (voteEnds out)
  ∧ length s.2 ≤ 1
  ∧ voteEnds out ≤ 1
  ∧ (Round._phase s.1 = Round.PHASE_VOTE →
     Round._phase (Round.run (Round.new acro, []) (ops ++ more)).1.1.1
     = Round.PHASE_VOTE).
Proof.
  pose proof (run_phaseMatches acro ops) as Hm.
  pose proof (run_lifecycle acro ops) as Hl.
  pose proof (run_app (Round.new acro, []) ops more) as Happ.
  pose proof (run_vote_phase (Round.run (Round.new acro, []) ops).1.1 more Hm)
    as Hkeep.
  destruct (Round.run (Round.new acro, []) ops) as [[s out] ev].
  simpl in *. split; [done|].
  unfold lifecycle in Hl.
  split; [|split].
  - destruct (Round._phase s.1).
    + destruct Hl as [-> _]. simpl. lia.
    + destruct Hl as [(ts & -> & _) _]. simpl. lia.
    + destruct Hl as [[-> _]|[(ts & -> & _) _]]; simpl; lia.
  - destruct (Round._phase s.1).
    + destruct Hl as [_ ->]. lia.
    + destruct Hl as [_ ->]. lia.
    + destruct Hl as [[_ ->]|[_ ->]]; lia.
  - intros Hp. rewrite Happ. by apply Hkeep.
Qed.

(* ===================================================================== *)
(** * Round: the data of a round in play *)
(* ===================================================================== *)

Section Consistent.

Lemma new_consistent (acro : string) : consistent (Round.new acro).
Proof.
  unfold consistent. simpl. split_and!; try done.
  - intros u. by rewrite !lookup_empty.
  - constructor.
  - by intros u ?%elem_of_nil.
Qed.

Lemma submitPhrase_consistent (now : Z) (r : Round.t) (userId : nat)
    (phrase : string) :
  consistent r → consistent (Round.submitPhrase now r userId phrase).1.
Proof.
  intros Hc. unfold Round.submitPhrase.
  destruct (Round._phase r) eqn:Hp; try done.
  case_decide; [|done]. simpl.
  destruct Hc as (Ht & Hnd & Ho & Hperm & Hv & Hnv).
  unfold consistent. simpl. rewrite ?Hp.
  assert (Round._votes r = ∅) as Hvotes by (apply Hnv; by rewrite Hp).
  split_and!; try done.
  - intros u. destruct (decide (u = userId)) as [->|Hne].
    + by rewrite !lookup_insert_eq.
    + rewrite !lookup_insert_ne by done. apply Ht.
  - intros u Hu. destruct (decide (u = userId)) as [->|Hne].
    + by rewrite lookup_insert_eq.
    + rewrite lookup_insert_ne by done. by apply Ho.
  - intros v t. by rewrite Hvotes, lookup_empty.
Qed.

Lemma submitVote_consistent (r : Round.t) (userId : nat) (voteStr : string) :
  consistent r → consistent (Round.submitVote r userId voteStr).1.
Proof.
  intros Hc.
  destruct (submitVote_frame r userId voteStr) as (Hp & Ho & Hph & Hti).
  destruct (Round._phase r) eqn:Hphase.
  1,2: unfold Round.submitVote; by rewrite Hphase.
  pose proof (submitVote_votes r userId voteStr Hphase) as Hvotes.
  destruct Hc as (Ht & Hnd & Hord & Hperm & Hv & Hnv).
  unfold consistent. simpl in *. rewrite ?Hp, ?Ho, ?Hph, ?Hti, ?Hvotes, ?Hphase.
  split_and!; try done.
  { intros _. apply Hperm. by rewrite Hphase. }
  intros v t.
  destruct (votedIndex (Round._userOrder r) voteStr) as [votedFor|] eqn:Hvi;
    [|apply Hv].
  case_decide as Hself; [apply Hv|].
  destruct (decide (v = userId)) as [->|Hne].
  - rewrite lookup_insert_eq. intros [= <-]. split; [|done].
    apply votedIndex_Some in Hvi as (n & _ & _ & Hl).
    apply Hord. by eapply list_elem_of_lookup_2.
  - rewrite lookup_insert_ne by done. apply Hv.
Qed.

Lemma acroTimeUp_consistent (draws : nat → JS.random) (r : Round.t) :
  Round._phase r = Round.PHASE_ACRO →
  consistent r → consistent (Round.acroTimeUp draws r).1.
Proof.
  intros Hp (Ht & Hnd & Hord & Hperm & Hv & Hnv).
  unfold consistent. simpl.
  split_and!; try done.
  - rewrite shuffle_perm. apply NoDup_Object_keys.
  - intros u. rewrite shuffle_perm. apply elem_of_Object_keys.
  - intros _. apply shuffle_perm.
  - intros _. apply Hnv. by rewrite Hp.
Qed.

Lemma step_consistent (s : Round.live) (o : Round.op) :
  phaseMatches s → consistent s.1 → consistent (Round.step s o).1.1.1.
Proof.
  destruct s as [r pending]. simpl. intros Hm Hc.
  destruct o as [timeLimit|timeLimit|now userId phrase|userId voteStr|draws k];
    simpl.
  - destruct (Round._phase r) eqn:Hp; simpl; try done.
    destruct Hc as (Ht & Hnd & Hord & Hperm & Hv & Hnv).
    unfold consistent. simpl. split_and!; try done.
    intros _. apply Hnv. by rewrite Hp.
  - destruct (Round._phase r) eqn:Hp; simpl; try done.
    destruct Hc as (Ht & Hnd & Hord & Hperm & Hv & Hnv).
    unfold consistent. simpl. split_and!; try done.
    intros _. apply Hperm. by rewrite Hp.
  - pose proof (submitPhrase_consistent now r userId phrase Hc) as Hs.
    by destruct (Round.submitPhrase now r userId phrase).
  - pose proof (submitVote_consistent r userId voteStr Hc) as Hs.
    by destruct (Round.submitVote r userId voteStr).
  - unfold Round.fire. simpl.
    destruct (_ !! k) as [[isAcro [|[d secs|d] rest]]|] eqn:Hk;
      simpl; try done.
    destruct isAcro; unfold Round.timeUp, Round.voteTimeUp; simpl; [|done].
    apply (acroTimeUp_consistent draws r); [|done].
    unfold phaseMatches in Hm. simpl in Hm.
    destruct (Round._phase r); [|done|].
    + by rewrite Hm in Hk.
    + destruct Hm as [->|(ts & -> & _)]; [done|].
      destruct k; simpl in Hk; [congruence|done].
Qed.

Lemma run_consistent (acro : string) (ops : list Round.op) :
  consistent (Round.run (Round.new acro, []) ops).1.1.1.
Proof.
  induction ops as [|o ops IH] using rev_ind; [apply new_consistent|].
  pose proof (run_phaseMatches acro ops) as Hm.
  rewrite run_snoc.
  destruct (Round.run _ ops) as [[s1 out] ev]. simpl in IH, Hm.
  pose proof (step_consistent s1 o Hm IH) as Hs.
  by destruct (Round.step s1 o) as [[s2 out'] ev'].
Qed.

End Consistent.

(** X5. In a round driven from its constructor by any sequence of calls
    and timeouts: the users with a submit time are those with a phrase;
    the voting order lists submitters, none twice, and outside the
    submission phase it lists every submitter; every vote is for a
    submitter other than the voter; there are no votes before the
    voting phase. *)
Theorem round_data_consistent (acro : string) (ops : list Round.op) :
  let r := (Round.run (Round.new acro, []) ops).1.1.1 in
  (∀ u, is_Some (Round._submitTimes r !! u) ↔ is_Some (Round._phrases r !! u))
  ∧ NoDup (Round._userOrder r)
  ∧ (∀ u, u ∈ Round._userOrder r → is_Some (Round._phrases r !! u))
  ∧ (Round._phase r ≠ Round.PHASE_ACRO →
     Round._userOrder r ≡ₚ JS.Object_keys (Round._phrases r))
  ∧ (∀ v t, Round._votes r !! v = Some t →
            is_Some (Round._phrases r !! t) ∧ t ≠ v)
  ∧ (Round._phase r ≠ Round.PHASE_VOTE → Round._votes r = ∅).
Proof. apply run_consistent. Qed.

(* ===================================================================== *)
(** * Round._getResults: nonVoters, fastest, fastestWithVote *)
(* ===================================================================== *)

Section Fastest.

Variable r : Round.t.
Variable cnt : gmap nat Z.

Lemma StronglySorted_Object_keys {V} (o : gmap nat V) :
  StronglySorted Nat.le (JS.Object_keys o).
Proof.
  apply StronglySorted_merge_sort.
  - intros a b c. unfold Nat.le. lia.
  - intros a b. unfold Nat.le. lia.
Qed.

Lemma StronglySorted_snoc_inv (l : list nat) (k : nat) :
  StronglySorted Nat.le (l ++ [k]) →
  StronglySorted Nat.le l ∧ Forall (λ u, u ≤ k) l.
Proof.
  induction l as [|x l IH]; simpl; intros Hs.
  - split; constructor.
  - apply StronglySorted_inv in Hs as [Hs Hall].
    destruct (IH Hs) as [Hl Hk]. split.
    + constructor; [done|].
      apply Forall_app in Hall as [Hall _]. done.
    + constructor; [|done].
      rewrite Forall_app, Forall_singleton in Hall. by destruct Hall.
Qed.

Lemma tracks_step (ok : nat → Prop) (okb : bool) (ks : list nat)
    (b : Round.bound) (f : option nat) (k : nat) :
  (okb = true ↔ ok k) →
  Forall (λ u, u ≤ k) ks →
  tracks (Round._submitTimes r) ok ks b f →
  let bf :=
    match Round._submitTimes r !! k with
    | Some x =>
        if Round.before (Round._submitTimes r !! k) b && okb
        then (Round.Finite x, Some k) else (b, f)
    | None => (b, f)
    end in
  tracks (Round._submitTimes r) ok (ks ++ [k]) bf.1 bf.2.
Proof.
  intros Hok Hle Ht. simpl.
  rewrite Forall_forall in Hle.
  destruct (Round._submitTimes r !! k) as [x|] eqn:Hk.
  - destruct b as [|tf], f as [f|]; simpl in *; try done.
    + destruct okb; simpl.
      * split; [apply elem_of_app; right; by apply list_elem_of_singleton|]. split; [by apply Hok|]. split; [done|].
        intros u tu [Hu|Hu]%elem_of_app Hoku Htu.
        -- rewrite Ht in Htu by done. done.
        -- apply list_elem_of_singleton in Hu as ->. right.
           split; [congruence|done].
      * intros u [Hu|Hu]%elem_of_app Hoku; [by apply Ht|].
        apply list_elem_of_singleton in Hu as ->.
        apply Hok in Hoku. done.
    + destruct Ht as (Hf & Hokf & Htf & Hmin).
      destruct (x <? tf)%Z eqn:Hlt; simpl; [destruct okb; simpl|].
      * split; [apply elem_of_app; right; by apply list_elem_of_singleton|]. split; [by apply Hok|]. split; [done|].
        intros u tu [Hu|Hu]%elem_of_app Hoku Htu.
        -- destruct (Hmin u tu Hu Hoku Htu) as [?|[? ?]]; left; lia.
        -- apply list_elem_of_singleton in Hu as ->. right.
           split; [congruence|done].
      * split; [apply elem_of_app; by left|]. split; [done|]. split; [done|].
        intros u tu [Hu|Hu]%elem_of_app Hoku Htu; [by apply Hmin|].
        apply list_elem_of_singleton in Hu as ->.
        apply Hok in Hoku. done.
      * split; [apply elem_of_app; by left|]. split; [done|]. split; [done|].
        intros u tu [Hu|Hu]%elem_of_app Hoku Htu; [by apply Hmin|].
        apply list_elem_of_singleton in Hu as ->.
        assert (tu = x) as -> by congruence.
        destruct (decide (tf = x)) as [->|Hne]; [|left; lia].
        right. split; [done|]. by apply Hle.
  - simpl. destruct b as [|tf], f as [f|]; simpl in *; try done.
    + intros u [Hu|Hu]%elem_of_app Hoku; [by apply Ht|].
      by apply list_elem_of_singleton in Hu as ->.
    + destruct Ht as (Hf & Hokf & Htf & Hmin).
      split; [apply elem_of_app; by left|]. split; [done|]. split; [done|].
      intros u tu [Hu|Hu]%elem_of_app Hoku Htu; [by apply Hmin|].
      apply list_elem_of_singleton in Hu as ->. congruence.
Qed.

Let voted (u : nat) : Prop := JS.truthy (JS.of_read (cnt !! u)) = true.

Lemma scan_tracks (ks : list nat) :
  StronglySorted Nat.le ks →
  let s := foldl (Round.scanPhrase r cnt)
                 (Round.mkScan [] Round.Infinity None Round.Infinity None)
                 ks in
  Round.s_nonVoters s = filter (λ u, Round._votes r !! u = None) ks
  ∧ tracks (Round._submitTimes r) (λ _, True) ks
           (Round.s_firstSubmitTime s) (Round.s_fastest s)
  ∧ tracks (Round._submitTimes r) voted ks
           (Round.s_firstSubmitTimeWithVote s) (Round.s_fastestWithVote s).
Proof.
  induction ks as [|k ks IH] using rev_ind; intros Hs.
  - simpl. split; [done|]. split; by intros u ?%elem_of_nil.
  - apply StronglySorted_snoc_inv in Hs as [Hs Hle].
    destruct (IH Hs) as (Hnv & Hf & Hfv). clear IH.
    rewrite foldl_snoc. simpl.
    set (s := foldl (Round.scanPhrase r cnt) _ ks) in *.
    unfold Round.scanPhrase.
    pose proof (tracks_step (λ _, True) true ks _ _ k
                  (conj (λ _, I) (λ _, eq_refl)) Hle Hf) as Hf'.
    pose proof (tracks_step voted (JS.truthy (JS.of_read (cnt !! k))) ks
                  _ _ k (reflexivity _) Hle Hfv) as Hfv'.
    simpl in Hf', Hfv'. rewrite andb_true_r in Hf'.
    destruct (Round._submitTimes r !! k) as [x|] eqn:Hk.
    + destruct (Round.before (Some x) (Round.s_firstSubmitTime s));
        destruct (Round.before (Some x) (Round.s_firstSubmitTimeWithVote s)
                  && JS.truthy (JS.of_read (cnt !! k)));
        simpl in *; (split; [|done]); rewrite filter_app, Hnv;
        destruct (Round._votes r !! k) eqn:Hv; simpl;
        rewrite ?filter_cons_True, ?filter_cons_False, ?filter_nil,
          ?app_nil_r by (rewrite ?Hv; done); done.
    + simpl in *. (split; [|done]); rewrite filter_app, Hnv;
        destruct (Round._votes r !! k) eqn:Hv; simpl;
        rewrite ?filter_cons_True, ?filter_cons_False, ?filter_nil,
          ?app_nil_r by (rewrite ?Hv; done); done.
Qed.

End Fastest.

Section ResultsScan.

Variable r : Round.t.

Lemma truthy_count (u : nat) :
  JS.truthy (JS.of_read ((Round.tally r).1 !! u)) = true ↔ votedFor r u.
Proof.
  unfold votedFor. rewrite <- tally_count_is_Some. split.
  - destruct ((Round.tally r).1 !! u); [by eexists|done].
  - intros [c Hc]. rewrite Hc. simpl.
    apply tally_count_Some in Hc as [_ Hc].
    apply negb_true_iff, Z.eqb_neq. lia.
Qed.

Lemma tracks_ext (times : gmap nat Z) (ok ok' : nat → Prop) (ks : list nat)
    (b : Round.bound) (f : option nat) :
  (∀ u, ok u ↔ ok' u) → tracks times ok ks b f → tracks times ok' ks b f.
Proof.
  intros Hiff. unfold tracks. destruct b as [|tf], f as [f|]; try done.
  - intros Hnone u Hu Hoku. apply Hnone; [done|by apply Hiff].
  - intros (Hf & Hok & Htf & Hmin). split; [done|].
    split; [by apply Hiff|]. split; [done|].
    intros u tu Hu Hoku. apply Hmin; [done|by apply Hiff].
Qed.

Lemma getResults_scan :
  let res := Round._getResults r in
  let ks := JS.Object_keys (Round._phrases r) in
  Round.nonVoters res = filter (λ u, Round._votes r !! u = None) ks
  ∧ (∃ b, tracks (Round._submitTimes r) (λ _, True) ks b (Round.fastest res))
  ∧ (∃ b, tracks (Round._submitTimes r) (votedFor r) ks b
            (Round.fastestWithVote res)).
Proof.
  pose proof (scan_tracks r (Round.tally r).1
                (JS.Object_keys (Round._phrases r))
                (StronglySorted_Object_keys _)) as (Hnv & Hf & Hfv).
  apply (tracks_ext _ _ (votedFor r)) in Hfv; [|apply truthy_count].
  unfold Round._getResults. destruct (Round.tally r) as [cnt vtrs].
  simpl in *. split; [done|]. split; eauto.
Qed.

End ResultsScan.

(** X6. The [nonVoters] of [_getResults] are the users with a phrase
    and without a vote of their own, in ascending order of their ids,
    each listed once. *)
Theorem getResults_nonVoters (r : Round.t) :
  let res := Round._getResults r in
  Round.nonVoters res
  = filter (λ u, Round._votes r !! u = None)
           (JS.Object_keys (Round._phrases r))
  ∧ NoDup (Round.nonVoters res)
  ∧ ∀ u, u ∈ Round.nonVoters res
         ↔ is_Some (Round._phrases r !! u) ∧ Round._votes r !! u = None.
Proof.
  destruct (getResults_scan r) as (Hnv & _). simpl in *.
  rewrite Hnv. split; [done|]. split.
  - apply NoDup_filter, NoDup_Object_keys.
  - intros u. rewrite list_elem_of_filter, elem_of_Object_keys. tauto.
Qed.

(** X7. The [fastest] of [_getResults] is a submitter whose submit time
    no other submitter's is below, the one of lowest id when several
    hold that time; it is null only when no submitter has a submit
    time. *)
Theorem getResults_fastest (r : Round.t) :
  match Round.fastest (Round._getResults r) with
  | Some f =>
      is_Some (Round._phrases r !! f)
      ∧ ∃ tf, Round._submitTimes r !! f = Some tf
              ∧ ∀ u tu, is_Some (Round._phrases r !! u) →
                        Round._submitTimes r !! u = Some tu →
                        (tf < tu)%Z ∨ (tf = tu ∧ f ≤ u)
  | None =>
      ∀ u, is_Some (Round._phrases r !! u) → Round._submitTimes r !! u = None
  end.
Proof.
  destruct (getResults_scan r) as (_ & [b Hf] & _). simpl in *.
  unfold tracks in Hf.
  destruct b as [|tf], (Round.fastest (Round._getResults r)) as [f|];
    try done.
  - intros u Hu. apply Hf; [by apply elem_of_Object_keys|done].
  - destruct Hf as (Hf & _ & Htf & Hmin).
    split; [by apply elem_of_Object_keys|].
    exists tf. split; [done|].
    intros u tu Hu Htu. apply Hmin; [by apply elem_of_Object_keys|done..].
Qed.

(** X8. The [fastestWithVote] of [_getResults] is, among the submitters
    somebody voted for, one whose submit time no other's is below, the
    one of lowest id when several hold that time; it is null only when
    no submitter with a submit time received a vote. *)
Theorem getResults_fastestWithVote_earliest (r : Round.t) :
  match Round.fastestWithVote (Round._getResults r) with
  | Some f =>
      is_Some (Round._phrases r !! f) ∧ votedFor r f
      ∧ ∃ tf, Round._submitTimes r !! f = Some tf
              ∧ ∀ u tu, is_Some (Round._phrases r !! u) → votedFor r u →
                        Round._submitTimes r !! u = Some tu →
                        (tf < tu)%Z ∨ (tf = tu ∧ f ≤ u)
  | None =>
      ∀ u, is_Some (Round._phrases r !! u) → votedFor r u →
           Round._submitTimes r !! u = None
  end.
Proof.
  destruct (getResults_scan r) as (_ & _ & [b Hf]). simpl in *.
  unfold tracks in Hf.
  destruct b as [|tf],
    (Round.fastestWithVote (Round._getResults r)) as [f|]; try done.
  - intros u Hu. apply Hf. by apply elem_of_Object_keys.
  - destruct Hf as (Hf & Hv & Htf & Hmin).
    split; [by apply elem_of_Object_keys|]. split; [done|].
    exists tf. split; [done|].
    intros u tu Hu Hvu Htu. apply Hmin; [by apply elem_of_Object_keys|done..].
Qed.

(* ===================================================================== *)
(** * Round._getResults: the winner among equals *)
(* ===================================================================== *)

Section SortBy.

Context {A : Type}.
Variable cmp : A → A → JS.num.

(** [R a b]: [a] may stand before [b] in the result; [before a b]: [a]
    stands before [b] in the array to sort. *)
Variable R : A → A → Prop.
Variable before : A → A → Prop.
Variable P : A → Prop.
Hypothesis R_trans : ∀ a b c, R a b → R b c → R a c.
Hypothesis cmp_gt :
  ∀ a b, P a → P b → JS.gt0 (cmp a b) = true → R b a.
Hypothesis cmp_le :
  ∀ a b, P a → P b → before a b → JS.gt0 (cmp a b) = false → R a b.

Lemma insert_back_sorted_by (x : A) (l : list A) :
  P x → Forall P l → Forall (λ y, before y x) l →
  StronglySorted (flip R) l →
  StronglySorted (flip R) (JS.insert_back cmp x l).
Proof.
  intros Hx. induction l as [|tmp rest IH]; intros HP Hb Hs; simpl.
  - repeat constructor.
  - apply Forall_cons in HP as [Htmp Hrest].
    apply Forall_cons in Hb as [Hbtmp Hbrest].
    apply StronglySorted_inv in Hs as [Hs Hall].
    destruct (JS.gt0 (cmp tmp x)) eqn:Hc.
    + constructor; [by apply IH|].
      rewrite insert_back_perm. constructor; [|done].
      by apply cmp_gt.
    + assert (R tmp x) as Hle by by apply cmp_le.
      constructor; [by constructor|].
      constructor; [done|].
      eapply Forall_impl; [exact Hall|]. unfold flip. simpl. intros y Hy.
      by eapply R_trans.
Qed.

Lemma foldl_insert_back_sorted_by (l : list A) :
  ∀ acc, Forall P l → Forall P acc →
         Forall (λ y, Forall (before y) l) acc →
         StronglySorted before l →
         StronglySorted (flip R) acc →
         StronglySorted (flip R)
           (foldl (λ acc x, JS.insert_back cmp x acc) acc l).
Proof.
  induction l as [|x l IH]; intros acc Hl Hacc Hb Hsl Hs; simpl; [done|].
  apply Forall_cons in Hl as [Hx Hl].
  apply StronglySorted_inv in Hsl as [Hsl Hxl].
  apply IH; [done| | |done|].
  - rewrite insert_back_perm. by constructor.
  - rewrite insert_back_perm. constructor; [done|].
    eapply Forall_impl; [exact Hb|]. simpl. intros y Hy.
    by apply Forall_cons in Hy as [_ Hy].
  - apply insert_back_sorted_by; [done..| |done].
    eapply Forall_impl; [exact Hb|]. simpl. intros y Hy.
    by apply Forall_cons in Hy as [Hy _].
Qed.

Lemma StronglySorted_rev_flip (l : list A) :
  StronglySorted (flip R) l → StronglySorted R (rev l).
Proof.
  induction 1 as [|x l Hs IH Hall]; simpl; [constructor|].
  apply StronglySorted_app_2; [|done|repeat constructor].
  intros x1 x2 Hx1 Hx2. apply list_elem_of_singleton in Hx2 as ->.
  rewrite Forall_forall in Hall. apply Hall.
  by rewrite <- Permutation_rev in Hx1.
Qed.

Lemma sort_sorted_by (l : list A) :
  Forall P l → StronglySorted before l → StronglySorted R (JS.sort cmp l).
Proof.
  intros Hl Hs. apply StronglySorted_rev_flip.
  apply foldl_insert_back_sorted_by; [done|constructor|constructor|done|].
  constructor.
Qed.

End SortBy.

Section VoteOrderBy.

Variable r : Round.t.
Variable cnt : gmap nat Z.

Let timed (u : nat) : Prop :=
  is_Some (cnt !! u) ∧ is_Some (Round._submitTimes r !! u).

Lemma ahead_trans (a b c : nat) :
  ahead cnt (Round._submitTimes r) a b →
  ahead cnt (Round._submitTimes r) b c →
  ahead cnt (Round._submitTimes r) a c.
Proof. unfold ahead. simpl. lia. Qed.

Lemma voteCmp_gt_ahead (a b : nat) :
  timed a → timed b →
  JS.gt0 (Round.voteCmp r cnt a b) = true →
  ahead cnt (Round._submitTimes r) b a.
Proof.
  intros [[ca Ha] [ta Hta]] [[cb Hb] [tb Htb]].
  unfold Round.voteCmp, ahead. rewrite Ha, Hb, Hta, Htb.
  case_decide as Heq; simpl.
  - injection Heq as ->. lia.
  - lia.
Qed.

Lemma voteCmp_le_ahead (a b : nat) :
  timed a → timed b → a ≤ b →
  JS.gt0 (Round.voteCmp r cnt a b) = false →
  ahead cnt (Round._submitTimes r) a b.
Proof.
  intros [[ca Ha] [ta Hta]] [[cb Hb] [tb Htb]] Hab.
  unfold Round.voteCmp, ahead. rewrite Ha, Hb, Hta, Htb.
  case_decide as Heq; simpl.
  - injection Heq as ->. lia.
  - assert (ca ≠ cb) by congruence. lia.
Qed.

Lemma voteOrder_sorted_by :
  (∀ u, is_Some (cnt !! u) → is_Some (Round._submitTimes r !! u)) →
  StronglySorted (ahead cnt (Round._submitTimes r)) (Round.voteOrder r cnt).
Proof.
  intros Htimes.
  apply (sort_sorted_by (Round.voteCmp r cnt)
           (ahead cnt (Round._submitTimes r)) Nat.le timed).
  - apply ahead_trans.
  - apply voteCmp_gt_ahead.
  - apply voteCmp_le_ahead.
  - apply Forall_forall. intros u Hu%elem_of_Object_keys.
    split; [done|by apply Htimes].
  - apply StronglySorted_Object_keys.
Qed.

End VoteOrderBy.

(** X9. When every user voted for has a submit time, the winner of
    [_getResults] received a vote, nobody received more, and among the
    users with as many votes none submitted earlier; of those who
    submitted at the same time the winner has the lowest id. *)
Theorem getResults_winner_earliest (r : Round.t) (w : nat) :
  (∀ u, votedFor r u → is_Some (Round._submitTimes r !! u)) →
  Round.winner (Round._getResults r) = Some w →
  votedFor r w
  ∧ ∀ u, votedFor r u →
         received (Round._votes r) u < received (Round._votes r) w
         ∨ (received (Round._votes r) u = received (Round._votes r) w
            ∧ ∃ tw tu, Round._submitTimes r !! w = Some tw
                       ∧ Round._submitTimes r !! u = Some tu
                       ∧ ((tw < tu)%Z ∨ (tw = tu ∧ w ≤ u))).
Proof.
  intros Htimes Hw. rewrite getResults_winner in Hw.
  set (cnt := (Round.tally r).1) in *.
  assert (∀ u, is_Some (cnt !! u) ↔ votedFor r u) as Hvoted.
  { intros u. apply tally_count_is_Some. }
  pose proof (voteOrder_sorted_by r cnt) as Hs.
  destruct (Round.voteOrder r cnt) as [|w' rest] eqn:Hvo; [done|].
  injection Hw as ->.
  assert (votedFor r w) as Hvw.
  { apply Hvoted. apply (elem_of_voteOrder r cnt w). rewrite Hvo. left. }
  split; [done|]. intros u Hvu.
  destruct (Htimes w Hvw) as [tw Htw]. destruct (Htimes u Hvu) as [tu Htu].
  assert (∀ x, votedFor r x →
               default 0%Z (cnt !! x) = Z.of_nat (received (Round._votes r) x))
    as Hcount.
  { intros x [c Hc]%Hvoted. rewrite Hc. simpl.
    by apply tally_count_Some in Hc as [-> _]. }
  assert (ahead cnt (Round._submitTimes r) w u) as Ha.
  { assert (u ∈ w :: rest) as Hin.
    { rewrite <- Hvo. apply elem_of_voteOrder. by apply Hvoted. }
    apply elem_of_cons in Hin as [->|Hin].
    - unfold ahead. simpl. right. split; [done|]. right. done.
    - apply StronglySorted_inv in Hs as [_ Hall].
      + rewrite Forall_forall in Hall. by apply Hall.
      + intros x Hx. apply Htimes. by apply Hvoted. }
  unfold ahead in Ha. rewrite !Hcount, Htw, Htu in Ha by done. simpl in Ha.
  destruct Ha as [Hlt|[Heq Ht]]; [left; lia|].
  right. split; [lia|]. by exists tw, tu.
Qed.

Lemma testRound_answered : answered testRound.
Proof.
  intros u [voter Hv].
  assert (u = 3 ∨ u = 4) as [-> | ->]; [|by vm_compute; eauto..].
  apply (elem_of_list_to_map_2 (M := gmap nat)) in Hv.
  repeat (apply elem_of_cons in Hv as [[= -> ->]|Hv]; [eauto|]).
  by apply elem_of_nil in Hv.
Qed.

Lemma getResults_winner_earliest_witness :
  votedFor testRound 3
  ∧ ∀ u, votedFor testRound u →
         received (Round._votes testRound) u
         < received (Round._votes testRound) 3
         ∨ (received (Round._votes testRound) u
            = received (Round._votes testRound) 3
            ∧ ∃ tw tu, Round._submitTimes testRound !! 3 = Some tw
                       ∧ Round._submitTimes testRound !! u = Some tu
                       ∧ ((tw < tu)%Z ∨ (tw = tu ∧ 3 ≤ u))).
Proof.
  apply (getResults_winner_earliest testRound 3).
  - intros u Hu. by apply testRound_answered.
  - vm_compute. reflexivity.
Defined.

(* ===================================================================== *)
(** * NormalRound._getPoints: the scoring rule *)
(* ===================================================================== *)

Section Scoring.

Variable o : NormalRound.opts.

Implicit Types points : gmap (option nat) JS.num.

Lemma votes_copied_lookup (cnt : gmap nat Z) (k : option nat) :
  oUtil.forEach cnt
    (λ points userId votes, <[Some userId := JS.Num votes]> points) ∅ !! k
  = k ≫= λ u, JS.Num <$> cnt !! u.
Proof.
  unfold oUtil.forEach.
  assert (∀ ks,
    foldl (λ acc key,
             match cnt !! key with
             | Some val => <[Some key := JS.Num val]> acc
             | None => acc
             end) (∅ : gmap (option nat) JS.num) ks !! k
    = k ≫= λ u, if decide (u ∈ ks) then JS.Num <$> cnt !! u else None)
    as Hgen.
  { induction ks as [|x ks IH] using rev_ind; simpl.
    - rewrite lookup_empty. by destruct k.
    - rewrite foldl_snoc. destruct k as [u|]; simpl in *.
      + destruct (decide (x = u)) as [->|Hne].
        * rewrite (decide_True (P := u ∈ ks ++ [u]))
            by (apply elem_of_app; right; by apply list_elem_of_singleton).
          destruct (cnt !! u) as [c|] eqn:Hu.
          -- by rewrite lookup_insert_eq.
          -- rewrite IH. by case_decide.
        * assert (u ∈ ks ++ [x] ↔ u ∈ ks) as Hiff.
          { rewrite elem_of_app, list_elem_of_singleton.
            split; [intros [?|?]; [done|congruence]|by left]. }
          destruct (cnt !! x) as [c|] eqn:Hx.
          -- rewrite lookup_insert_ne by congruence. rewrite IH.
             destruct (decide (u ∈ ks)), (decide (u ∈ ks ++ [x])); tauto.
          -- rewrite IH. destruct (decide (u ∈ ks)), (decide (u ∈ ks ++ [x])); tauto.
      + destruct (cnt !! x); [by rewrite lookup_insert_ne|done]. }
  rewrite Hgen. destruct k as [u|]; [simpl|done].
  case_decide as Hin; [done|].
  destruct (cnt !! u) eqn:Hu; [|done].
  exfalso. apply Hin, elem_of_Object_keys. eauto.
Qed.

Lemma topVoters_lookup (voters : list nat) points (k : option nat) :
  NoDup voters →
  foldl (λ points voter,
           <[Some voter := JS.add (JS.or0 (points !! Some voter))
                             (JS.Num (NormalRound.pointsVoteForWinner o))]>
             points) points voters !! k
  = if decide (k ∈ Some <$> voters)
    then Some (JS.add (JS.or0 (points !! k))
                      (JS.Num (NormalRound.pointsVoteForWinner o)))
    else points !! k.
Proof.
  revert points. induction voters as [|v voters IH]; intros points Hnd.
  - rewrite decide_False; [done|]. by intros ?%elem_of_nil.
  - apply NoDup_cons in Hnd as [Hv Hnd]. cbn [foldl]. rewrite IH by done.
    rewrite fmap_cons. destruct (decide (k = Some v)) as [->|Hne].
    + rewrite (decide_True (P := Some v ∈ Some v :: _)) by left.
      rewrite decide_False.
      * by rewrite lookup_insert_eq.
      * intros (x & [= <-] & Hx)%list_elem_of_fmap. done.
    + rewrite lookup_insert_ne by done.
      destruct (decide (k ∈ Some <$> voters)) as [Hin|Hnin].
      * rewrite decide_True; [done|]. by right.
      * rewrite decide_False; [done|]. intros [?|?]%elem_of_cons; done.
Qed.

Lemma or0_num (z : Z) : JS.or0 (Some (JS.Num z)) = JS.Num z.
Proof.
  unfold JS.or0. simpl. destruct (z =? 0)%Z eqn:Hz; simpl; [|done].
  f_equal. lia.
Qed.


Lemma fastestWithVote_exists (r : Round.t) (w : nat) :
  answered r →
  Round.winner (Round._getResults r) = Some w →
  ∃ f, Round.fastestWithVote (Round._getResults r) = Some f
       ∧ votedFor r f.
Proof.
  intros Hwf Hw.
  assert (votedFor r w) as Hvw.
  { apply tally_count_is_Some. rewrite <- getResults_acroVotes.
    by apply getResults_winner_counted. }
  destruct (Hwf w Hvw) as [Hpw [tw Htw]].
  destruct (getResults_scan r) as (_ & _ & [b Hf]). simpl in Hf.
  unfold tracks in Hf.
  destruct b as [|tf],
    (Round.fastestWithVote (Round._getResults r)) as [f|]; try done.
  - rewrite Hf in Htw; [done| |done]. by apply elem_of_Object_keys.
  - exists f. split; [done|]. by destruct Hf as (_ & ? & _).
Qed.

Lemma accumulated_lookup (r : Round.t) (w f u : nat) :
  let res := Round._getResults r in
  let votes := Round._votes r in
  Round.winner res = Some w →
  Round.fastestWithVote res = Some f →
  votedFor r f →
  NormalRound.accumulated o res !! None = None
  ∧ NormalRound.accumulated o res !! Some u
    = if decide (received votes u = 0 ∧ votes !! u ≠ Some w) then None
      else Some (JS.Num (Z.of_nat (received votes u)
                         + bonus (u = f) (NormalRound.pointsFastestWithVote o)
                         + bonus (u = w) (NormalRound.numLetters o)
                         + bonus (votes !! u = Some w)
                                 (NormalRound.pointsVoteForWinner o))).
Proof.
  intros res votes Hw Hf Hvf. subst res votes.
  assert (votedFor r w) as Hvw.
  { apply tally_count_is_Some. rewrite <- getResults_acroVotes.
    by apply getResults_winner_counted. }
  apply received_pos in Hvf, Hvw.
  unfold NormalRound.accumulated.
  rewrite (getResults_topVoters r w Hw), Hw, Hf, getResults_acroVotes.
  set (p0 := oUtil.forEach _ _ _).
  assert (∀ k, p0 !! k = k ≫= λ u, JS.Num <$> (Round.tally r).1 !! u) as Hp0
    by apply votes_copied_lookup.
  assert (∀ x, p0 !! Some x
               = if decide (received (Round._votes r) x = 0) then None
                 else Some (JS.Num (Z.of_nat (received (Round._votes r) x)))) as Hp0'.
  { intros x. rewrite Hp0. simpl. rewrite tally_count.
    by case_decide. }
  set (p1 := NormalRound.addTo (Some f) _ p0).
  set (p2 := NormalRound.addTo (Some w) _ p1).
  assert (∀ x, p2 !! Some x
               = if decide (received (Round._votes r) x = 0) then None
                 else Some (JS.Num
                        (Z.of_nat (received (Round._votes r) x)
                         + bonus (x = f) (NormalRound.pointsFastestWithVote o)
                         + bonus (x = w) (NormalRound.numLetters o)))) as Hp2.
  { intros x. unfold p2, p1, NormalRound.addTo, bonus.
    destruct (decide (x = w)) as [->|Hxw].
    - rewrite lookup_insert_eq. rewrite decide_False by lia.
      destruct (decide (w = f)) as [->|Hwf].
      + rewrite lookup_insert_eq, Hp0', decide_False by lia. simpl.
        do 2 f_equal.
      + rewrite lookup_insert_ne, Hp0', decide_False by (congruence || lia).
        simpl. do 2 f_equal. lia.
    - rewrite lookup_insert_ne by congruence.
      destruct (decide (x = f)) as [->|Hxf].
      + rewrite lookup_insert_eq, Hp0', !decide_False by lia. simpl.
        do 2 f_equal. lia.
      + rewrite lookup_insert_ne, Hp0' by congruence.
        case_decide; [done|]. do 2 f_equal. lia. }
  assert (p2 !! None = None) as Hp2n.
  { unfold p2, p1, NormalRound.addTo.
    rewrite !lookup_insert_ne by done. by rewrite Hp0. }
  assert (∀ x, Some x ∈ Some <$> filter (λ k, Round._votes r !! k = Some w)
                                   (JS.Object_keys (Round._votes r))
               ↔ Round._votes r !! x = Some w) as Hin.
  { intros x. rewrite list_elem_of_fmap. split.
    - intros (y & [= <-] & Hy). by apply list_elem_of_filter in Hy as [? _].
    - intros Hx. exists x. split; [done|]. apply list_elem_of_filter.
      split; [done|]. apply elem_of_Object_keys. eauto. }
  rewrite !topVoters_lookup by apply NoDup_filter, NoDup_Object_keys.
  split.
  - rewrite decide_False; [done|].
    by intros (y & ? & _)%list_elem_of_fmap.
  - rewrite Hp2.
    destruct (decide (Round._votes r !! u = Some w)) as [Hvu|Hvu].
    + rewrite (decide_True (P := Some u ∈ _)) by by apply Hin.
      rewrite (decide_False (P := _ ∧ _)) by tauto.
      destruct (decide (received (Round._votes r) u = 0)) as [Hz|Hnz].
      * assert (u ≠ f) by (intros ->; lia).
        assert (u ≠ w) by (intros ->; lia).
        unfold bonus. rewrite !decide_False by done. rewrite Hz. simpl.
        unfold JS.or0. simpl. do 2 f_equal.
        case_decide; [lia|done].
      * rewrite or0_num. unfold bonus. simpl. do 2 f_equal.
        repeat case_decide; try done; lia.
    + rewrite (decide_False (P := Some u ∈ _)) by by rewrite Hin.
      destruct (decide (received (Round._votes r) u = 0)) as [Hz|Hnz].
      * by rewrite decide_True.
      * rewrite (decide_False (P := _ ∧ _)) by tauto.
        unfold bonus. simpl. do 2 f_equal.
        repeat case_decide; try done; lia.
Qed.

End Scoring.

(** X10. The scoring rule.  For a round with a winner in which every
    user voted for has a phrase and a submit time, [_getPoints] holds no
    entry under "null", and for each user: no entry when the user
    received no vote and did not vote for the winner; 0 when the user
    received votes and did not vote; else the number of votes received,
    plus [pointsFastestWithVote] for the fastest answer with a vote,
    plus [numLetters] for the winner, plus [pointsVoteForWinner] for a
    vote for the winner. *)
Theorem getPoints_scoring_rule (o : NormalRound.opts) (r : Round.t) (w : nat) :
  let res := Round._getResults r in
  answered r →
  Round.winner res = Some w →
  ∃ f, Round.fastestWithVote res = Some f
       ∧ NormalRound._getPoints o res !! None = None
       ∧ ∀ u, NormalRound._getPoints o res !! Some u = pointsOf o r w f u.
Proof.
  intros res Hwf Hw. subst res.
  destruct (fastestWithVote_exists r w Hwf Hw) as (f & Hf & Hvf).
  exists f. split; [done|].
  destruct (getResults_scan r) as (Hnv & _). simpl in Hnv.
  unfold NormalRound._getPoints. rewrite Hnv. split.
  - rewrite forfeit_lookup, decide_False.
    + by destruct (accumulated_lookup o r w f 0 Hw Hf Hvf) as [-> _].
    + by intros (y & ? & _)%list_elem_of_fmap.
  - intros u. rewrite forfeit_lookup.
    destruct (accumulated_lookup o r w f u Hw Hf Hvf) as [_ ->].
    unfold pointsOf.
    destruct (decide (received (Round._votes r) u = 0
                      ∧ Round._votes r !! u ≠ Some w)) as [Ha|Ha].
    { unfold zeroed. simpl. by case_decide. }
    destruct (decide (Round._votes r !! u = None)) as [Hnone|Hsome].
    + assert (0 < received (Round._votes r) u) as Hpos.
      { destruct (decide (received (Round._votes r) u = 0)); [|lia].
        exfalso. apply Ha. split; [done|]. by rewrite Hnone. }
      rewrite decide_True.
      * unfold zeroed. simpl.
        destruct (_ =? 0)%Z eqn:Hz; simpl; [|done].
        do 2 f_equal. lia.
      * apply list_elem_of_fmap. exists u. split; [done|].
        apply list_elem_of_filter. split; [done|].
        apply elem_of_Object_keys. apply Hwf. by apply received_pos.
    + rewrite decide_False; [done|].
      intros (y & [= <-] & Hy)%list_elem_of_fmap.
      by apply list_elem_of_filter in Hy as [? _].
Qed.

Lemma getPoints_scoring_rule_witness :
  ∃ f, Round.fastestWithVote (Round._getResults testRound) = Some f
       ∧ NormalRound._getPoints defaultOpts (Round._getResults testRound)
           !! None = None
       ∧ ∀ u, NormalRound._getPoints defaultOpts (Round._getResults testRound)
                !! Some u
              = pointsOf defaultOpts testRound 3 f u.
Proof.
  apply (getPoints_scoring_rule defaultOpts testRound 3).
  - apply testRound_answered.
  - vm_compute. reflexivity.
Defined.

(* ===================================================================== *)
(** * Round._countdown on time, Round.submitPhrase by the words *)
(* ===================================================================== *)

Section OnTime.

Lemma emitFrom_due (stack : list Z) :
  ∀ start last,
    Forall (due start last) (firings start (Round.emitFrom last stack)).
Proof.
  induction stack as [|cur rest IH]; intros start last; simpl.
  - constructor; [|constructor]. unfold due. simpl. lia.
  - constructor.
    + unfold due. simpl. lia.
    + eapply Forall_impl; [apply IH|].
      intros [at_ t]. unfold due. simpl. destruct t; lia.
Qed.

End OnTime.

(** X11. A countdown of 8 seconds or more: every delay asked of
    [setTimeout] is positive; the half-way mark, 10 (when the half-way
    mark is above 15), 3, 2 and 1 are announced, in this order, each
    when that many seconds are left; and the callback is called when
    the time limit is over. *)
Theorem countdown_on_time (secs : Z) :
  (8 ≤ secs)%Z →
  Forall (λ d, 0 < d)%Z (Round.delays (Round._countdown secs))
  ∧ Forall (due 0 secs) (firings 0 (Round._countdown secs))
  ∧ Round.announced (Round._countdown secs)
    = (secs / 2)%Z :: (if (15 <? secs / 2)%Z then [10%Z] else [])
      ++ [3; 2; 1]%Z
  ∧ StronglySorted Z.gt (Round.announced (Round._countdown secs)).
Proof.
  intros Hsecs.
  destruct (countdown_long_duration secs Hsecs) as [Hsorted Hpos].
  split; [done|]. split; [apply emitFrom_due|].
  split; [apply countdown_announced|done].
Qed.

Lemma countdown_on_time_witness :
  Forall (λ d, 0 < d)%Z (Round.delays (Round._countdown 60))
  ∧ Forall (due 0 60) (firings 0 (Round._countdown 60))
  ∧ Round.announced (Round._countdown 60) = [30; 10; 3; 2; 1]%Z
  ∧ StronglySorted Z.gt (Round.announced (Round._countdown 60)).
Proof. apply (countdown_on_time 60). lia. Defined.

(** X12. In the submission phase a phrase with at least one word (its
    normalised text is not empty) is accepted exactly when the first
    characters of its words (upper-cased, any character other than a
    letter, a digit, an apostrophe or a hyphen counting as a separator)
    spell the round's acronym.  An accepted phrase is
    stored under the user with the time of the call, replacing an
    earlier phrase of the same user; a rejected one changes nothing and
    the acronym it spells is signalled. *)
Theorem submitPhrase_accepts_matching (now : Z) (r : Round.t) (userId : nat)
    (phrase : string) :
  Round._phase r = Round.PHASE_ACRO →
  PhraseSpec.normalise phrase ≠ EmptyString →
  let '(r', events) := Round.submitPhrase now r userId phrase in
  if decide (PhraseSpec.acronym phrase = Round._acro r)
  then Round._phrases r' = <[userId := JS.strip_ends phrase]> (Round._phrases r)
       ∧ Round._submitTimes r' = <[userId := now]> (Round._submitTimes r)
       ∧ Round._votes r' = Round._votes r
       ∧ Round._userOrder r' = Round._userOrder r
       ∧ Round._phase r' = Round.PHASE_ACRO
       ∧ events = [Round.phraseAccepted userId
                     (negb (JS.truthy_str (Round._phrases r !! userId)))]
  else r' = r
       ∧ events = [Round.phraseRejected userId (PhraseSpec.acronym phrase)].
Proof.
  intros Hphase Hne.
  pose proof (submitPhrase_decides now r userId phrase Hphase) as Hd.
  pose proof (submitPhrase_phase now r userId phrase) as Hp.
  destruct (Round.submitPhrase now r userId phrase) as [r' events].
  rewrite acroOf_spec, (decide_False (P := _ = EmptyString)) in Hd by done.
  simpl in Hp. case_decide; [|done].
  destruct Hd as (? & ? & ? & ? & ?). by rewrite Hp.
Qed.

Lemma submitPhrase_accepts_matching_witness :
  let '(r', events) :=
    Round.submitPhrase 7 acroRound 0 " a big, cat!" in
  Round._phrases r' = <[0 := "a big, cat!"]> (Round._phrases acroRound)
  ∧ Round._submitTimes r' = <[0 := 7%Z]> (Round._submitTimes acroRound)
  ∧ events = [Round.phraseAccepted 0 true].
Proof.
  pose proof (submitPhrase_accepts_matching 7 acroRound 0
                " a big, cat!" eq_refl) as H.
  destruct (Round.submitPhrase 7 acroRound 0 " a big, cat!")
    as [r' events].
  assert (PhraseSpec.normalise " a big, cat!" ≠ EmptyString) as Hne
    by (vm_compute; discriminate).
  specialize (H Hne).
  rewrite decide_True in H by (vm_compute; reflexivity).
  destruct H as (Hp & Ht & _ & _ & _ & He). done.
Defined.

(* ===================================================================== *)
(** * FaceOff: the vote queue *)
(* ===================================================================== *)

Section VoteQueue.

Context {R : Type}.
Variable faceOffRounds : Z.
Implicit Types q : FaceOff.queue R.

Lemma completions_app (out1 out2 : list (FaceOff.did R)) :
  completions (out1 ++ out2) = completions out1 + completions out2.
Proof. unfold completions. by rewrite filter_app, length_app. Qed.

Lemma startedRounds_app (out1 out2 : list (FaceOff.did R)) :
  startedRounds (out1 ++ out2) = startedRounds out1 ++ startedRounds out2.
Proof. apply omap_app. Qed.

Lemma snoc_not_nil {A} (l : list A) (x : A) : l ++ [x] ≠ [].
Proof. by destruct l. Qed.

Lemma queueStep_inTurn q (o : FaceOff.queueOp R) (added started : list R)
    (c : nat) :
  inTurn faceOffRounds q added started c →
  ∃ q' out,
    FaceOff.queueStep faceOffRounds q o = Some (q', out)
    ∧ inTurn faceOffRounds q' (added ++ addedRounds [o])
             (started ++ startedRounds out) (c + completions out).
Proof.
  destruct q as [tables cur queue completed running votingStarted].
  unfold inTurn. simpl.
  intros (Hadded & Hcur & Hlen & Hidle & Hc & Hvs & Hpos).
  subst added c.
  assert (∀ x : R, bool_decide (started ++ [x] ≠ []) = true) as Hsn.
  { intros x. apply bool_decide_eq_true. apply snoc_not_nil. }
  assert (∀ n, completions [FaceOff.voteComplete n : FaceOff.did R] = 1)
    as Hone by done.
  destruct o as [round|args]; simpl;
    [unfold FaceOff._addVoteRound|unfold FaceOff.voteCallback];
    simpl; destruct running; simpl;
    try destruct (completed + 1 =? faceOffRounds)%Z eqn:Hn;
    unfold FaceOff._startVoteRound; simpl;
    try destruct queue as [|head rest]; simpl;
    (eexists _, _; split; [done|]); simpl;
    rewrite ?app_nil_r, ?Nat.add_0_r, ?last_snoc, ?length_app, ?Hsn, ?Hone;
    simpl; rewrite <- ?app_assoc; simpl;
    split_and!; try done; try lia;
    try (intros _; (by left) || (right; lia));
    repeat case_decide; lia.
Qed.

Lemma queueRun_inTurn (ops : list (FaceOff.queueOp R)) :
  ∀ q added started c,
    inTurn faceOffRounds q added started c →
    ∃ q' out,
      FaceOff.queueRun faceOffRounds q ops = Some (q', out)
      ∧ inTurn faceOffRounds q' (added ++ addedRounds ops)
               (started ++ startedRounds out) (c + completions out).
Proof.
  induction ops as [|o ops IH]; intros q added started c Hin; simpl.
  - eexists _, _. split; [done|]. simpl.
    by rewrite !app_nil_r, Nat.add_0_r.
  - destruct (queueStep_inTurn q o added started c Hin)
      as (q1 & out1 & -> & Hin1).
    destruct (IH q1 _ _ _ Hin1) as (q2 & out2 & -> & Hin2).
    eexists _, _. split; [done|].
    rewrite startedRounds_app, completions_app.
    rewrite <- !app_assoc, <- Nat.add_assoc in Hin2.
    destruct o; exact Hin2.
Qed.

End VoteQueue.

(** X13. The vote queue of the face-off, whatever the order in which
    rounds close their submissions and votes end: [startVote] is never
    called on an empty queue; the votes are started in the order in
    which the rounds were added, none skipped or repeated, one at a
    time: a vote is started only after the vote before it has called
    back; and 'voteComplete' is emitted once, when as many votes as
    [faceOffRounds] have called back, if that number is at least 1,
    else never. *)
Theorem faceOff_votes_in_turn {R : Type} (faceOffRounds : Z)
    (players : list nat) (ops : list (FaceOff.queueOp R)) :
  ∃ q out,
    FaceOff.queueRun faceOffRounds (FaceOff.newQueue players) ops
    = Some (q, out)
    ∧ addedRounds ops = startedRounds out ++ FaceOff._voteQueue q
    ∧ FaceOff._curVoteRound q = last (startedRounds out)
    ∧ Z.of_nat (length (startedRounds out))
      = (FaceOff._completedVotes q
         + (if FaceOff._voteRunning q then 1 else 0))%Z
    ∧ completions out
      = (if decide (1 ≤ faceOffRounds ≤ FaceOff._completedVotes q)%Z
         then 1 else 0).
Proof.
  destruct (queueRun_inTurn faceOffRounds ops (FaceOff.newQueue players)
              [] [] 0) as (q & out & Hrun & Hin).
  { unfold inTurn. simpl. split_and!; try done.
    - intros _. by left.
    - case_decide; [lia|done]. }
  exists q, out. split; [done|].
  by destruct Hin as (? & ? & ? & _ & ? & _).
Qed.

(* ===================================================================== *)
(** * FaceOff: two players, always a winner *)
(* ===================================================================== *)

Section AlwaysAWinner.

Variables lo hi : nat.
Hypothesis Hlohi : lo < hi.

Lemma scores_add (o : gmap nat Z) (ks : list nat) (x y : Z) :
  NoDup ks →
  (∀ k, k ∈ ks → k = lo ∨ k = hi) →
  foldl (λ (acc : gmap nat JS.num) key,
           match o !! key with
           | Some val =>
               <[key := JS.add (JS.to_num (acc !! key)) (JS.Num val)]> acc
           | None => acc
           end) (<[lo := JS.Num x]> {[hi := JS.Num y]}) ks
  = <[lo := JS.Num (x + if decide (lo ∈ ks) then default 0%Z (o !! lo)
                        else 0)]>
      {[hi := JS.Num (y + if decide (hi ∈ ks) then default 0%Z (o !! hi)
                          else 0)]}.
Proof.
  intros Hnd Hks. induction ks as [|k ks IH] using rev_ind.
  - cbn [foldl]. rewrite !decide_False by (by intros ?%elem_of_nil).
    by rewrite !Z.add_0_r.
  - apply NoDup_app in Hnd as (Hnd & Hk & _).
    rewrite foldl_snoc, IH; [|done|intros k' ?; apply Hks, elem_of_app; by left].
    clear IH.
    assert (k ∉ ks) as Hnin.
    { intros Hin. apply (Hk k Hin). by apply list_elem_of_singleton. }
    assert (∀ u, u ∈ ks ++ [k] ↔ u ∈ ks ∨ u = k) as Hin.
    { intros u. by rewrite elem_of_app, list_elem_of_singleton. }
    destruct (Hks k) as [-> | ->]; [apply Hin; by right| |].
    + rewrite (decide_False (P := lo ∈ ks)) by done.
      rewrite (decide_True (P := lo ∈ ks ++ [lo])) by (apply Hin; by right).
      assert (hi ∈ ks ++ [lo] ↔ hi ∈ ks) as Hhi.
      { rewrite Hin. split; [intros [?|?]; [done|lia]|by left]. }
      destruct (o !! lo) as [v|]; simpl.
      * rewrite lookup_insert_eq. simpl. rewrite insert_insert_eq.
        rewrite Z.add_0_r. do 2 f_equal.
        destruct (decide (hi ∈ ks)), (decide (hi ∈ ks ++ [lo])); tauto || done.
      * rewrite !Z.add_0_r. do 2 f_equal.
        destruct (decide (hi ∈ ks)), (decide (hi ∈ ks ++ [lo])); tauto || done.
    + rewrite (decide_False (P := hi ∈ ks)) by done.
      rewrite (decide_True (P := hi ∈ ks ++ [hi])) by (apply Hin; by right).
      assert (lo ∈ ks ++ [hi] ↔ lo ∈ ks) as Hlo.
      { rewrite Hin. split; [intros [?|?]; [done|lia]|by left]. }
      assert ((if decide (lo ∈ ks ++ [hi]) then default 0%Z (o !! lo) else 0%Z)
              = if decide (lo ∈ ks) then default 0%Z (o !! lo) else 0%Z) as ->.
      { destruct (decide (lo ∈ ks)), (decide (lo ∈ ks ++ [hi])); tauto || done. }
      destruct (o !! hi) as [v|]; simpl.
      * rewrite lookup_insert_ne by lia. rewrite lookup_singleton_eq. simpl.
        rewrite insert_insert_ne by lia. rewrite insert_singleton_eq.
        by rewrite Z.add_0_r.
      * by rewrite !Z.add_0_r.
Qed.


Lemma forEach_scores (o : gmap nat Z) (x y : Z) :
  (∀ k, is_Some (o !! k) → k = lo ∨ k = hi) →
  oUtil.forEach o
    (λ (scores : gmap nat JS.num) userId score,
       <[userId := JS.add (JS.to_num (scores !! userId)) (JS.Num score)]>
         scores)
    (<[lo := JS.Num x]> {[hi := JS.Num y]})
  = <[lo := JS.Num (x + default 0%Z (o !! lo))]>
      {[hi := JS.Num (y + default 0%Z (o !! hi))]}.
Proof.
  intros Hkeys. unfold oUtil.forEach.
  rewrite scores_add.
  - assert (∀ u, (if decide (u ∈ JS.Object_keys o) then default 0%Z (o !! u)
                  else 0%Z) = default 0%Z (o !! u)) as Hin.
    { intros u. case_decide as Hu; [done|].
      destruct (o !! u) eqn:Hou; [|done].
      exfalso. apply Hu, elem_of_Object_keys. eauto. }
    by rewrite !Hin.
  - apply NoDup_Object_keys.
  - intros k Hk. by apply Hkeys, elem_of_Object_keys.
Qed.

Lemma bump_player (u : nat) (flo fhi : Z) :
  u = lo ∨ u = hi →
  let tbl : gmap (option nat) JS.num :=
    <[Some lo := JS.Num flo]> {[Some hi := JS.Num fhi]} in
  ∃ flo' fhi',
    <[Some u := JS.add (JS.to_num (tbl !! Some u)) (JS.Num 1)]> tbl
    = <[Some lo := JS.Num flo']> {[Some hi := JS.Num fhi']}.
Proof.
  intros [-> | ->]; simpl.
  - rewrite lookup_insert_eq. simpl. rewrite insert_insert_eq. eauto.
  - rewrite lookup_insert_ne by (intros [=]; lia).
    rewrite lookup_singleton_eq. simpl.
    rewrite insert_insert_ne by (intros [=]; lia).
    rewrite insert_singleton_eq. eauto.
Qed.

Lemma bump_player_x (u : nat) (T : gmap (option nat) JS.num) :
  <[Some u := JS.add (JS.to_num (<[None := JS.NaN]> T !! Some u)) (JS.Num 1)]>
    (<[None := JS.NaN]> T)
  = <[None := JS.NaN]>
      (<[Some u := JS.add (JS.to_num (T !! Some u)) (JS.Num 1)]> T).
Proof.
  rewrite lookup_insert_ne by done. by rewrite insert_insert_ne.
Qed.

Lemma new_twoPlayerTables :
  twoPlayerTables lo hi (FaceOff.new [lo; hi])
  ∧ twoPlayerTables lo hi (FaceOff.new [hi; lo]).
Proof.
  split; exists 0%Z, 0%Z, 0%Z, 0%Z; simpl.
  - split; [|left]; rewrite insert_insert_ne by (try intros [=]; lia);
      by rewrite insert_empty.
  - split; [|left]; by rewrite insert_empty.
Qed.

Lemma voteDone_twoPlayerTables (fo : FaceOff.t) (args : list FaceOffRound.value) :
  (roundOutcome lo hi args ∨ roundOutcome hi lo args) →
  twoPlayerTables lo hi fo →
  twoPlayerTables lo hi (FaceOff.voteDone fo args).
Proof.
  intros Hout (slo & shi & flo & fhi & Hs & Hf).
  assert (roundOutcome lo hi args) as Hargs.
  { destruct Hout as [?|Hout]; [done|].
    destruct Hout as [|u n Hu|votes f Hk Hfa]; constructor; try tauto.
    intros k Hkv. destruct (Hk k Hkv); tauto. }
  clear Hout. unfold twoPlayerTables, FaceOff.voteDone.
  destruct Hargs as [|u n Hu|votes f Hkeys Hfast]; simpl; rewrite ?Hs.
  - exists slo, shi, flo, fhi. split; [done|]. right.
    destruct Hf as [-> | ->].
    + rewrite lookup_insert_ne by done. by rewrite lookup_singleton_ne.
    + rewrite lookup_insert_eq. simpl. by rewrite insert_insert_eq.
  - rewrite forEach_scores.
    2:{ intros k [v Hk]. apply lookup_singleton_Some in Hk as [<- _]. done. }
    destruct (bump_player u flo fhi Hu) as (flo' & fhi' & Hb).
    eexists _, _, flo', fhi'. split; [done|].
    destruct Hf as [-> | ->]; [left; exact Hb|right].
    rewrite bump_player_x. by rewrite Hb.
  - rewrite forEach_scores by done.
    destruct (bump_player f flo fhi Hfast) as (flo' & fhi' & Hb).
    eexists _, _, flo', fhi'. split; [done|].
    destruct Hf as [-> | ->]; [left; exact Hb|right].
    rewrite bump_player_x. by rewrite Hb.
Qed.

Lemma Object_keys_x_pair_x (flo fhi : Z) :
  JS.Object_keys_x
    (<[None := JS.NaN]>
       (<[Some lo := JS.Num flo]> {[Some hi := JS.Num fhi]})
     : gmap (option nat) JS.num)
  = [Some lo; Some hi; None].
Proof.
  unfold JS.Object_keys_x. rewrite lookup_insert_eq.
  change [Some lo; Some hi; None] with ((Some <$> [lo; hi]) ++ [None]).
  f_equal. f_equal. apply sorted_pair; [done| |].
  - rewrite merge_sort_Permutation.
    rewrite map_to_list_insert.
    2:{ rewrite lookup_insert_ne by done. by rewrite lookup_singleton_ne. }
    simpl.
    rewrite map_to_list_insert
      by (apply lookup_singleton_ne; intros [=]; lia).
    by rewrite map_to_list_singleton.
  - apply Sorted_merge_sort. intros m n. unfold Nat.le. lia.
Qed.

Lemma getFastestPlayer_twoPlayerTables (fo : FaceOff.t) :
  twoPlayerTables lo hi fo →
  ∃ p, FaceOff._getFastestPlayer fo = Some (Some p) ∧ (p = lo ∨ p = hi).
Proof.
  intros (slo & shi & flo & fhi & _ & Hf).
  exists (if (flo <? fhi)%Z then hi else lo).
  split; [|destruct (flo <? fhi)%Z; tauto].
  unfold FaceOff._getFastestPlayer. destruct Hf as [-> | ->].
  - apply (getFastestPlayer_two_players lo hi Hlohi 0 0 flo fhi []).
  - rewrite Object_keys_x_pair_x.
    set (T := <[None := JS.NaN]> _).
    assert (T !! None = Some JS.NaN) as HN by apply lookup_insert_eq.
    assert (T !! Some lo = Some (JS.Num flo)) as Hlo.
    { unfold T. rewrite lookup_insert_ne by done. apply lookup_insert_eq. }
    assert (T !! Some hi = Some (JS.Num fhi)) as Hhi.
    { unfold T. rewrite !lookup_insert_ne by (try intros [=]; done || lia).
      apply lookup_singleton_eq. }
    unfold JS.sort. cbn [foldl JS.insert_back]. rewrite Hlo, Hhi. simpl.
    assert ((0 <? fhi - flo)%Z = (flo <? fhi)%Z) as -> by lia.
    destruct (flo <? fhi)%Z; cbn [JS.insert_back];
      rewrite ?HN, ?Hlo, ?Hhi; simpl;
      (rewrite decide_False by (intros [=]; lia)); done.
Qed.

Lemma announceWinner_twoPlayerTables (fo : FaceOff.t) :
  twoPlayerTables lo hi fo →
  ∃ p q cp cq,
    FaceOff._announceWinner fo = Some (Some p)
    ∧ (p = lo ∧ q = hi ∨ p = hi ∧ q = lo)
    ∧ FaceOff._scores fo !! p = Some (JS.Num cp)
    ∧ FaceOff._scores fo !! q = Some (JS.Num cq)
    ∧ (cq ≤ cp)%Z.
Proof.
  intros Htbl.
  destruct (getFastestPlayer_twoPlayerTables fo Htbl) as (pf & Hpf & Hpfin).
  destruct Htbl as (slo & shi & flo & fhi & Hs & _).
  assert (FaceOff._scores fo !! lo = Some (JS.Num slo)) as Hlo
    by (rewrite Hs; by rewrite lookup_insert_eq).
  assert (FaceOff._scores fo !! hi = Some (JS.Num shi)) as Hhi.
  { rewrite Hs, lookup_insert_ne by lia. by rewrite lookup_singleton_eq. }
  assert (FaceOff._announceWinner fo
          = if decide (slo = shi) then FaceOff._getFastestPlayer fo
            else Some (Some (if (slo <? shi)%Z then hi else lo))) as Hw.
  { unfold FaceOff._announceWinner. rewrite Hs.
    rewrite Object_keys_pair by done. rewrite sort_pair.
    rewrite <- Hs, Hlo, Hhi. simpl.
    assert ((0 <? shi - slo)%Z = (slo <? shi)%Z) as -> by lia.
    destruct (slo <? shi)%Z eqn:Hlt; simpl; rewrite ?Hlo, ?Hhi; simpl.
    - assert ((shi =? slo)%Z = false) as -> by lia. simpl.
      by rewrite decide_False by lia.
    - destruct (decide (slo = shi)) as [->|Hne].
      + by rewrite Z.eqb_refl.
      + by assert ((slo =? shi)%Z = false) as -> by lia. }
  rewrite Hw. destruct (decide (slo = shi)) as [->|Hne].
  - destruct Hpfin as [-> | ->].
    + exists lo, hi, shi, shi. split_and!; try done; try tauto; lia.
    + exists hi, lo, shi, shi. split_and!; try done; try tauto; lia.
  - destruct (slo <? shi)%Z eqn:Hlt.
    + exists hi, lo, shi, slo. split_and!; try done; try tauto; lia.
    + exists lo, hi, slo, shi. split_and!; try done; try tauto; lia.
Qed.

End AlwaysAWinner.

(** X14. A face-off between two players always names one of them the
    winner, however its rounds went (nobody answering, one player
    answering, or a vote between the two): a score not below the
    other's wins, and with level scores [_getFastestPlayer] still names
    a player.  The unbreakable tie (null) provided for by
    [_announceWinner] is never reported. *)
Theorem faceOff_always_a_winner (a b : nat)
    (outcomes : list (list FaceOffRound.value)) :
  a ≠ b →
  Forall (roundOutcome a b) outcomes →
  let fo := foldl FaceOff.voteDone (FaceOff.new [a; b]) outcomes in
  ∃ p q cp cq,
    FaceOff._announceWinner fo = Some (Some p)
    ∧ (p = a ∧ q = b ∨ p = b ∧ q = a)
    ∧ FaceOff._scores fo !! p = Some (JS.Num cp)
    ∧ FaceOff._scores fo !! q = Some (JS.Num cq)
    ∧ (cq ≤ cp)%Z.
Proof.
  intros Hab Hout fo.
  assert (∃ lo hi, lo < hi ∧ (a = lo ∧ b = hi ∨ a = hi ∧ b = lo))
    as (lo & hi & Hlt & Hcase).
  { destruct (decide (a < b)); [exists a, b|exists b, a]; split; lia || tauto. }
  assert (twoPlayerTables lo hi fo) as Htbl.
  { unfold fo. clear fo.
    assert (twoPlayerTables lo hi (FaceOff.new [a; b])) as Hnew.
    { destruct (new_twoPlayerTables lo hi Hlt) as [H1 H2].
      by destruct Hcase as [[-> ->]|[-> ->]]. }
    revert Hnew. generalize (FaceOff.new [a; b]).
    induction Hout as [|args outcomes Hargs _ IH]; intros fo0 Hfo0; [done|].
    simpl. apply IH. apply voteDone_twoPlayerTables; [done| |done].
    destruct Hcase as [[-> ->]|[-> ->]]; tauto. }
  destruct (announceWinner_twoPlayerTables lo hi Hlt fo Htbl)
    as (p & q & cp & cq & Hw & Hpq & Hp & Hq & Hle).
  exists p, q, cp, cq. split_and!; try done.
  destruct Hcase as [[-> ->]|[-> ->]]; tauto.
Qed.

Lemma votes_of_two (x y : Z) (k : nat) :
  is_Some ((list_to_map [(0, x); (1, y)] : gmap nat Z) !! k) → k = 0 ∨ k = 1.
Proof.
  intros [v Hk]. apply (elem_of_list_to_map_2 (M := gmap nat)) in Hk.
  apply elem_of_cons in Hk as [[= -> ->]|Hk]; [tauto|].
  apply elem_of_cons in Hk as [[= -> ->]|Hk]; [tauto|].
  by apply elem_of_nil in Hk.
Qed.

Lemma faceOff_always_a_winner_witness :
  ∃ p q cp cq,
    FaceOff._announceWinner tiedFaceOff3 = Some (Some p)
    ∧ (p = 0 ∧ q = 1 ∨ p = 1 ∧ q = 0)
    ∧ FaceOff._scores tiedFaceOff3 !! p = Some (JS.Num cp)
    ∧ FaceOff._scores tiedFaceOff3 !! q = Some (JS.Num cq)
    ∧ (cq ≤ cp)%Z.
Proof.
  apply (faceOff_always_a_winner 0 1
           [ [FaceOffRound.null;
              FaceOffRound.object (list_to_map [(0, 2%Z); (1, 3%Z)]);
              FaceOffRound.user 0];
             [FaceOffRound.null;
              FaceOffRound.object (list_to_map [(0, 3%Z); (1, 2%Z)]);
              FaceOffRound.user 1];
             [FaceOffRound.object ∅; FaceOffRound.null] ]).
  - lia.
  - apply Forall_cons. split.
    { apply bothAnswered; [apply votes_of_two|tauto]. }
    apply Forall_cons. split.
    { apply bothAnswered; [apply votes_of_two|tauto]. }
    apply Forall_cons. split; [apply nobodyAnswered|apply Forall_nil_2].
Defined.

(* ===================================================================== *)
(** * AcroGame: names and ids *)
(* ===================================================================== *)

Section Names.

Context {H : Type}.
Variable runGame : AcroGame.t H → AcroGame.t H * list AcroGame.delivery.
Hypothesis runGame_names :
  ∀ g, AcroGame._userIds (runGame g).1 = AcroGame._userIds g
       ∧ AcroGame._userNames (runGame g).1 = AcroGame._userNames g.
Implicit Types g : AcroGame.t H.

Lemma changeUser_namesInStep g (oldUser newUser : string) :
  namesInStep g →
  match AcroGame.changeUser g oldUser newUser with
  | Some g' => namesInStep g'
  | None => True
  end.
Proof.
  intros [Hin Hnp]. unfold AcroGame.changeUser.
  destruct (AcroGame.hasOwnProperty _ oldUser) as [| |id] eqn:Hown;
    [done|done|].
  apply hasOwnProperty_present in Hown as (_ & Hop & Hold).
  unfold AcroGame.assign, AcroGame.read.
  destruct (decide (newUser = "__proto__")) as [->|Hproto]; cbv zeta.
  - split; simpl.
    + intros user i Hu. apply lookup_delete_Some in Hu as [_ Hu].
      by apply Hin.
    + by rewrite lookup_delete_ne.
  - destruct (decide (oldUser = newUser)) as [->|Hne].
    + rewrite lookup_delete_eq. simpl. split; simpl.
      * intros user i Hu. apply lookup_delete_Some in Hu as [Hu1 Hu2].
        rewrite lookup_insert_ne in Hu2 by done. by apply Hin.
      * rewrite lookup_delete_ne by done. by rewrite lookup_insert_ne.
    + rewrite lookup_delete_ne, lookup_insert_eq by done. simpl.
      split; simpl;
        [|rewrite lookup_delete_ne by done; by rewrite lookup_insert_ne].
      intros user i Hu.
      apply lookup_delete_Some in Hu as [Hu1 Hu2].
      pose proof (Hin oldUser id Hold) as Hnold.
      assert (id < length (AcroGame._userNames g)) as Hlt.
      { unfold JS.array_get in Hnold.
        destruct (AcroGame._userNames g !! id) eqn:Hl; [|done].
        by eapply lookup_lt_Some. }
      unfold JS.array_set. rewrite decide_True by done.
      unfold JS.array_get.
      destruct (decide (user = newUser)) as [->|Hun].
      * rewrite lookup_insert_eq in Hu2. injection Hu2 as <-.
        by rewrite list_lookup_insert_eq.
      * rewrite lookup_insert_ne in Hu2 by done.
        pose proof (Hin user i Hu2) as Hni.
        destruct (decide (i = id)) as [->|Hi].
        -- rewrite Hnold in Hni. congruence.
        -- by rewrite list_lookup_insert_ne.
Qed.

Lemma handInput_tables g (userIds : gmap string nat)
    (userNames : list (option string)) (id : AcroGame.userKey)
    (input : string) :
  AcroGame._userIds (AcroGame.handInput g userIds userNames id input).1
  = userIds
  ∧ AcroGame._userNames (AcroGame.handInput g userIds userNames id input).1
    = userNames.
Proof.
  unfold AcroGame.handInput.
  by destruct (AcroGame._handleInput g _ id input) as [h says].
Qed.

Lemma pushed_namesInStep g (user : string) :
  namesInStep g →
  ∀ u i, AcroGame._userIds g !! u = Some i →
         JS.array_get (AcroGame._userNames g ++ [Some user]) i = Some u.
Proof.
  intros [Hin _] u i Hui.
  pose proof (Hin u i Hui) as Hni. unfold JS.array_get in *.
  destruct (AcroGame._userNames g !! i) eqn:Hl; [|done].
  by rewrite (lookup_app_l_Some _ _ _ _ Hl).
Qed.

Lemma userInput_namesInStep g (user input : string) :
  namesInStep g →
  match AcroGame.userInput g user input with
  | Some (g', _) => namesInStep g'
  | None => True
  end.
Proof.
  intros Hin. unfold AcroGame.userInput.
  destruct (AcroGame.hasOwnProperty _ user) as [| |id] eqn:Hown; [done| |].
  - case_decide as Hproto.
    + destruct (handInput_tables g (AcroGame._userIds g)
                  (AcroGame._userNames g ++ [Some user]) AcroGame.idProto
                  input) as [Hids Hnames].
      destruct (AcroGame.handInput g _ _ _ input) as [g' out].
      simpl in *. unfold namesInStep. rewrite Hids, Hnames.
      split; [by apply pushed_namesInStep|apply Hin].
    + destruct (handInput_tables g
                  (<[user := length (AcroGame._userNames g)]>
                     (AcroGame._userIds g))
                  (AcroGame._userNames g ++ [Some user])
                  (AcroGame.idNum (length (AcroGame._userNames g)))
                  input) as [Hids Hnames].
      destruct (AcroGame.handInput g _ _ _ input) as [g' out].
      simpl in *. unfold namesInStep. rewrite Hids, Hnames. split.
      * intros u i Hui.
        destruct (decide (u = user)) as [->|Hne].
        -- rewrite lookup_insert_eq in Hui. injection Hui as <-.
           unfold JS.array_get. by rewrite lookup_app_r, Nat.sub_diag.
        -- rewrite lookup_insert_ne in Hui by done.
           by apply pushed_namesInStep.
      * rewrite lookup_insert_ne by done. apply Hin.
  - destruct (handInput_tables g (AcroGame._userIds g)
                (AcroGame._userNames g) (AcroGame.idNum id) input)
      as [Hids Hnames].
    destruct (AcroGame.handInput g _ _ _ input) as [g' out].
    simpl in *. unfold namesInStep. by rewrite Hids, Hnames.
Qed.

Lemma step_namesInStep g (o : AcroGame.op) :
  namesInStep g →
  match AcroGame.step runGame g o with
  | Some (g', _, _) => namesInStep g'
  | None => True
  end.
Proof.
  intros Hin. destruct o as [| |user input|oldUser newUser|userName|s]; simpl.
  - unfold AcroGame.start.
    destruct (negb (AcroGame._running g) && negb (AcroGame._ended g));
      [|done].
    set (g1 := AcroGame.mk _ _ _ _ _ _ _ _).
    destruct (runGame_names g1) as [Hids Hnames].
    destruct (runGame g1) as [g2 out]. simpl in *.
    unfold namesInStep. rewrite Hids, Hnames. apply Hin.
  - unfold AcroGame.stop. by destruct (negb (AcroGame._ended g)).
  - pose proof (userInput_namesInStep g user input Hin) as Hs.
    by destruct (AcroGame.userInput g user input) as [[g' out]|].
  - pose proof (changeUser_namesInStep g oldUser newUser Hin) as Hs.
    by destruct (AcroGame.changeUser g oldUser newUser).
  - unfold AcroGame.deleteUser.
    by destruct (AcroGame.hasOwnProperty _ userName) as [| |id].
  - done.
Qed.

Lemma run_namesInStep g (ops : list AcroGame.op) :
  namesInStep g → namesInStep (AcroGame.run runGame g ops).1.1.
Proof.
  intros Hin. unfold AcroGame.run.
  induction ops as [|o ops IH] using rev_ind; [done|].
  rewrite foldl_snoc.
  destruct (foldl _ _ ops) as [[g1 out] ev]. simpl in IH.
  pose proof (step_namesInStep g1 o IH) as Hs.
  by destruct (AcroGame.step runGame g1 o) as [[[g2 out'] ev']|].
Qed.

End Names.

(** X15. In a game driven from its constructor by any sequence of
    [start], [stop], inputs, renames, removals and messages, whichever
    of these calls throw, every name that is a property of [_userIds]
    stands in the table of names at its id, no two names share an id,
    "__proto__" is none of them, and a private message for the id of a
    registered (non-empty) name is delivered, as long as the game has
    not ended, to that name: a message follows the player through
    renames. *)
Theorem messages_follow_renames {H : Type}
    (runGame : AcroGame.t H → AcroGame.t H * list AcroGame.delivery)
    (h : H) (ops : list AcroGame.op) (user : string) (id : nat) :
  (∀ g, AcroGame._userIds (runGame g).1 = AcroGame._userIds g
        ∧ AcroGame._userNames (runGame g).1 = AcroGame._userNames g) →
  let g := (AcroGame.run runGame (AcroGame.new h) ops).1.1 in
  AcroGame._userIds g !! user = Some id →
  user ≠ "__proto__"
  ∧ JS.array_get (AcroGame._userNames g) id = Some user
  ∧ (∀ other, AcroGame._userIds g !! other = Some id → other = user)
  ∧ (AcroGame._ended g = false → user ≠ EmptyString →
     ∀ message, AcroGame._sayPrivate g (AcroGame.idNum id) message
                = [AcroGame.rawSayPrivate user message]).
Proof.
  intros Hrun g Hid.
  assert (namesInStep g) as [Hin Hnp].
  { apply run_namesInStep; [done|]. split; [|done]. intros u i. simpl.
    by rewrite lookup_empty. }
  pose proof (Hin user id Hid) as Hname.
  split; [congruence|]. split; [done|]. split.
  - intros other Ho. apply Hin in Ho. congruence.
  - intros He Hne message. unfold AcroGame._sayPrivate. simpl.
    rewrite He, Hname. simpl. by destruct user.
Qed.

Lemma messages_follow_renames_witness :
  let g := (AcroGame.run (λ g, (g, [])) (AcroGame.new tt)
              [AcroGame.opUserInput "bob" "hello";
               AcroGame.opUserInput "amy" "hi";
               AcroGame.opUserInput "__proto__" "1";
               AcroGame.opChangeUser "bob" "rob"]).1.1 in
  "rob" ≠ "__proto__"
  ∧ JS.array_get (AcroGame._userNames g) 0 = Some "rob"
  ∧ (∀ other, AcroGame._userIds g !! other = Some 0 → other = "rob")
  ∧ (AcroGame._ended g = false → "rob" ≠ EmptyString →
     ∀ message, AcroGame._sayPrivate g (AcroGame.idNum 0) message
                = [AcroGame.rawSayPrivate "rob" message]).
Proof.
  apply (messages_follow_renames (λ g, (g, [])) tt
           [AcroGame.opUserInput "bob" "hello";
            AcroGame.opUserInput "amy" "hi";
            AcroGame.opUserInput "__proto__" "1";
            AcroGame.opChangeUser "bob" "rob"] "rob" 0).
  - intros g. split; reflexivity.
  - vm_compute. reflexivity.
Defined.

(* ===================================================================== *)
(** * AcroGame: the scoreboard *)
(* ===================================================================== *)

Section Scoreboard.

Context {H : Type}.
Implicit Types g : AcroGame.t H.

Lemma topScore_fold (scores : gmap nat Z) (ks : list nat) (m0 : Z) :
  let m := foldl (λ maxScore key,
                    match scores !! key with
                    | Some score =>
                        if (maxScore <? score)%Z then score else maxScore
                    | None => maxScore
                    end) m0 ks in
  (m0 ≤ m)%Z
  ∧ (∀ u s, u ∈ ks → scores !! u = Some s → (s ≤ m)%Z)
  ∧ (m = m0 ∨ ∃ u, u ∈ ks ∧ scores !! u = Some m).
Proof.
  induction ks as [|k ks IH] using rev_ind; simpl.
  - split; [lia|]. split; [by intros u s ?%elem_of_nil|by left].
  - rewrite foldl_snoc. simpl in IH. destruct IH as (Hle & Hall & Hatt).
    set (m := foldl _ m0 ks) in *.
    assert (∀ A (P : nat → A → Prop),
              (∃ u, u ∈ ks ∧ ∃ x, P u x) → ∃ u, u ∈ ks ++ [k] ∧ ∃ x, P u x)
      as _ by (intros A P (u & Hu & Hx); exists u; split;
               [apply elem_of_app; by left|done]).
    destruct (scores !! k) as [sk|] eqn:Hk.
    + destruct (m <? sk)%Z eqn:Hlt.
      * split; [lia|]. split.
        -- intros u s [Hu|Hu]%elem_of_app Hs.
           ++ specialize (Hall u s Hu Hs). lia.
           ++ apply list_elem_of_singleton in Hu as ->.
              assert (s = sk) as -> by congruence. lia.
        -- right. exists k. split; [|done].
           apply elem_of_app. right. by apply list_elem_of_singleton.
      * split; [done|]. split.
        -- intros u s [Hu|Hu]%elem_of_app Hs; [by apply (Hall u)|].
           apply list_elem_of_singleton in Hu as ->.
           assert (s = sk) as -> by congruence. lia.
        -- destruct Hatt as [?|(u & Hu & Hs)]; [by left|right].
           exists u. split; [|done]. apply elem_of_app. by left.
    + split; [done|]. split.
      * intros u s [Hu|Hu]%elem_of_app Hs; [by apply (Hall u)|].
        apply list_elem_of_singleton in Hu as ->. congruence.
      * destruct Hatt as [?|(u & Hu & Hs)]; [by left|right].
        exists u. split; [|done]. apply elem_of_app. by left.
Qed.

Lemma topScore_max g :
  (0 ≤ AcroGame._getTopScore g)%Z
  ∧ (∀ u s, AcroGame._scores g !! u = Some s → (s ≤ AcroGame._getTopScore g)%Z)
  ∧ (AcroGame._getTopScore g = 0%Z
     ∨ ∃ u, AcroGame._scores g !! u = Some (AcroGame._getTopScore g)).
Proof.
  unfold AcroGame._getTopScore, oUtil.forEach.
  destruct (topScore_fold (AcroGame._scores g)
              (JS.Object_keys (AcroGame._scores g)) 0) as (Hle & Hall & Hatt).
  split; [done|]. split.
  - intros u s Hs. apply (Hall u); [|done]. apply elem_of_Object_keys. eauto.
  - destruct Hatt as [?|(u & _ & Hu)]; [by left|right; eauto].
Qed.

Variable scores : gmap nat Z.

Let cmp (a b : nat) : JS.num :=
  JS.sub (JS.of_read (scores !! b)) (JS.of_read (scores !! a)).

Lemma outranks_trans (a b c : nat) :
  outranks scores a b → outranks scores b c → outranks scores a c.
Proof. unfold outranks. simpl. lia. Qed.

Lemma scoreboard_sorted :
  StronglySorted (outranks scores) (JS.sort cmp (JS.Object_keys scores)).
Proof.
  apply (sort_sorted_by cmp (outranks scores) Nat.le
           (λ u, is_Some (scores !! u))).
  - apply outranks_trans.
  - intros a b [sa Ha] [sb Hb]. unfold cmp, outranks.
    rewrite Ha, Hb. simpl. lia.
  - intros a b [sa Ha] [sb Hb] Hab. unfold cmp, outranks.
    rewrite Ha, Hb. simpl. lia.
  - apply Forall_forall. intros u. apply elem_of_Object_keys.
  - apply StronglySorted_Object_keys.
Qed.

Lemma scoreboard_perm : JS.sort cmp (JS.Object_keys scores) ≡ₚ JS.Object_keys scores.
Proof. apply sort_perm. Qed.

End Scoreboard.

(** X16. [_getTopScore] returns the highest score of the scoreboard, or
    0 when the scoreboard is empty or holds no positive score. *)
Theorem getTopScore_highest {H : Type} (g : AcroGame.t H) :
  let top := AcroGame._getTopScore g in
  (0 ≤ top)%Z
  ∧ (∀ u s, AcroGame._scores g !! u = Some s → (s ≤ top)%Z)
  ∧ (top = 0%Z ∨ ∃ u, AcroGame._scores g !! u = Some top).
Proof. apply topScore_max. Qed.

(** X17. The two users sent to the face-off by [getTopTwo]: the first
    holds the highest score of the scoreboard, the second the highest
    among the others, the lower id going first when scores are level;
    the first is missing only on an empty scoreboard, the second only
    when fewer than two users have a score.  When [nextRound] has found
    the point cap (a positive number) reached, the first has reached
    it. *)
Theorem getTopTwo_highest {H : Type} (g : AcroGame.t H)
    (pointCap minLetters maxLetters numLetters : Z) :
  let scores := AcroGame._scores g in
  match (AcroGame.getTopTwo g).1 with
  | Some a =>
      ∃ sa, scores !! a = Some sa
            ∧ (∀ u, is_Some (scores !! u) → u = a ∨ outranks scores a u)
            ∧ ((0 < pointCap)%Z →
               AcroGame.nextRound pointCap minLetters maxLetters g numLetters
               = AcroGame.capReached →
               (pointCap ≤ sa)%Z)
  | None => scores = ∅
  end
  ∧ match (AcroGame.getTopTwo g).2 with
    | Some b =>
        (AcroGame.getTopTwo g).1 ≠ Some b
        ∧ is_Some (scores !! b)
        ∧ ∀ u, is_Some (scores !! u) →
               (AcroGame.getTopTwo g).1 = Some u ∨ u = b
               ∨ outranks scores b u
    | None => size scores ≤ 1
    end.
Proof.
  intros scores. unfold AcroGame.getTopTwo. fold scores. simpl.
  pose proof (scoreboard_sorted scores) as Hs.
  pose proof (scoreboard_perm scores) as Hp.
  assert (NoDup (JS.sort
                   (λ a b, JS.sub (JS.of_read (scores !! b))
                                  (JS.of_read (scores !! a)))
                   (JS.Object_keys scores))) as Hnd
    by (rewrite Hp; apply NoDup_Object_keys).
  assert (∀ u, u ∈ JS.sort
                     (λ a b, JS.sub (JS.of_read (scores !! b))
                                    (JS.of_read (scores !! a)))
                     (JS.Object_keys scores) ↔ is_Some (scores !! u)) as Hin
    by (intros u; rewrite Hp; apply elem_of_Object_keys).
  assert (length (JS.sort
                    (λ a b, JS.sub (JS.of_read (scores !! b))
                                   (JS.of_read (scores !! a)))
                    (JS.Object_keys scores)) = size scores) as Hlen
    by (rewrite Hp; apply length_Object_keys).
  destruct (JS.sort _ (JS.Object_keys scores)) as [|a [|b rest]] eqn:Hsort;
    simpl.
  - split; [|simpl in Hlen; lia]. apply map_size_empty_iff. by rewrite <- Hlen.
  - split; [|simpl in Hlen; lia].
    assert (is_Some (scores !! a)) as [sa Ha] by (apply Hin; left).
    exists sa. split; [done|]. split.
    + intros u Hu. apply Hin in Hu. apply list_elem_of_singleton in Hu. by left.
    + intros Hcap Hnext. unfold AcroGame.nextRound in Hnext.
      destruct (pointCap <=? AcroGame._getTopScore g)%Z eqn:Hle; [|done].
      destruct (topScore_max g) as (_ & _ & [Hz|(u & Hu)]); [lia|].
      fold scores in Hu.
      assert (u = a) as ->.
      { assert (is_Some (scores !! u)) as Hsu by eauto.
        apply Hin in Hsu. by apply list_elem_of_singleton in Hsu. }
      assert (sa = AcroGame._getTopScore g) by congruence. lia.
  - apply StronglySorted_inv in Hs as [Hs Ha].
    apply StronglySorted_inv in Hs as [_ Hb].
    rewrite Forall_forall in Ha, Hb.
    apply NoDup_cons in Hnd as [Hab _].
    assert (is_Some (scores !! a)) as [sa Hsa] by (apply Hin; left).
    assert (is_Some (scores !! b)) as Hsb by (apply Hin; right; left).
    split.
    + exists sa. split; [done|]. split.
      * intros u Hu. apply Hin in Hu.
        apply elem_of_cons in Hu as [->|Hu]; [by left|right]. by apply Ha.
      * intros Hcap Hnext. unfold AcroGame.nextRound in Hnext.
        destruct (pointCap <=? AcroGame._getTopScore g)%Z eqn:Hle; [|done].
        destruct (topScore_max g) as (_ & _ & [Hz|(u & Hu)]); [lia|].
        fold scores in Hu.
        assert (is_Some (scores !! u)) as Hsu by eauto.
        apply Hin in Hsu. apply elem_of_cons in Hsu as [->|Hsu].
        -- assert (sa = AcroGame._getTopScore g) by congruence. lia.
        -- specialize (Ha u Hsu). unfold outranks in Ha.
           rewrite Hsa, Hu in Ha. simpl in Ha.
           destruct (topScore_max g) as (_ & Hall & _).
           specialize (Hall a sa Hsa). lia.
    + split; [|split; [done|]].
      * intros [= ->]. apply Hab. left.
      * intros u Hu. apply Hin in Hu.
        apply elem_of_cons in Hu as [->|Hu]; [by left|].
        apply elem_of_cons in Hu as [->|Hu]; [right; by left|].
        right. right. by apply Hb.
Qed.

(* ===================================================================== *)
(** * AcroGame._playToCap: the numbers of letters *)
(* ===================================================================== *)

Section Letters.

Context {H : Type}.
Variables pointCap minLetters maxLetters : Z.
Hypothesis Hminmax : (minLetters ≤ maxLetters)%Z.

Let span : Z := (maxLetters - minLetters + 1)%Z.

Lemma succ_mod (k : Z) :
  (0 ≤ k)%Z →
  ((k + 1) mod span
   = if (maxLetters <? minLetters + k mod span + 1) then 0
     else k mod span + 1)%Z.
Proof.
  intros Hk.
  assert (0 < span)%Z as Hspan by (unfold span; lia).
  pose proof (Z.mod_pos_bound k span Hspan) as Hr.
  pose proof (Z.div_mod k span ltac:(lia)) as Hdm.
  destruct (maxLetters <? minLetters + k mod span + 1)%Z eqn:Hlt.
  - symmetry. apply (Z.mod_unique _ _ (k / span + 1)); [lia|].
    assert (k mod span = span - 1)%Z as Hlast by (unfold span in *; lia).
    lia.
  - symmetry. apply (Z.mod_unique _ _ (k / span)); [|lia].
    unfold span in *. lia.
Qed.

Lemma lettersPlayed_cycle (gs : list (AcroGame.t H)) :
  ∀ (k : Z) (i : nat) (n : Z),
    (0 ≤ k)%Z →
    lettersPlayed pointCap minLetters maxLetters
      (minLetters + k mod span) gs !! i = Some n →
    n = (minLetters + (k + Z.of_nat i) mod span)%Z.
Proof.
  induction gs as [|g gs IH]; intros k i n Hk; simpl.
  - destruct i as [|i]; simpl; [|done]. intros [= <-].
    by rewrite Z.add_0_r.
  - destruct i as [|i]; simpl.
    { intros [= <-]. by rewrite Z.add_0_r. }
    unfold AcroGame.nextRound.
    destruct (pointCap <=? AcroGame._getTopScore g)%Z; [done|].
    pose proof (succ_mod k Hk) as Hsucc.
    destruct (maxLetters <? minLetters + k mod span + 1)%Z eqn:Hlt.
    + intros Hl.
      assert (n = (minLetters + (k + 1 + Z.of_nat i) mod span)%Z) as ->.
      { apply IH; [lia|]. rewrite Hsucc, Z.add_0_r. exact Hl. }
      do 2 f_equal. lia.
    + intros Hl.
      assert (n = (minLetters + (k + 1 + Z.of_nat i) mod span)%Z) as ->.
      { apply IH; [lia|]. rewrite Hsucc, Z.add_assoc. exact Hl. }
      do 2 f_equal. lia.
Qed.

End Letters.

(** X18. The normal rounds started with [minLetters] letters cycle
    through the numbers of letters from [minLetters] to [maxLetters]:
    the round of index [i] (counted from 0) is played with
    [minLetters + i mod (maxLetters - minLetters + 1)] letters, whatever
    the scores, until the point cap is reached. *)
Theorem playToCap_letters_cycle {H : Type}
    (pointCap minLetters maxLetters : Z) (gs : list (AcroGame.t H))
    (i : nat) (n : Z) :
  (minLetters ≤ maxLetters)%Z →
  lettersPlayed pointCap minLetters maxLetters minLetters gs !! i = Some n →
  n = (minLetters + Z.of_nat i mod (maxLetters - minLetters + 1))%Z
  ∧ (minLetters ≤ n ≤ maxLetters)%Z.
Proof.
  intros Hmm Hl.
  assert (n = (minLetters
               + Z.of_nat i mod (maxLetters - minLetters + 1))%Z) as Hn.
  { apply (lettersPlayed_cycle pointCap minLetters maxLetters Hmm gs 0 i n);
      [lia|].
    rewrite Z.mod_0_l by lia. by rewrite Z.add_0_r. }
  split; [done|].
  pose proof (Z.mod_pos_bound (Z.of_nat i) (maxLetters - minLetters + 1)).
  lia.
Qed.

Lemma playToCap_letters_cycle_witness :
  7%Z = (3 + Z.of_nat 4 mod (7 - 3 + 1))%Z ∧ (3 ≤ 7 ≤ 7)%Z.
Proof.
  apply (playToCap_letters_cycle 30 3 7
           (replicate 6 (AcroGame.new tt)) 4 7).
  - lia.
  - vm_compute. reflexivity.
Defined.

(* ===================================================================== *)
(** * oUtil.merge *)
(* ===================================================================== *)

Section Merge.

Context {V : Type}.
Implicit Types obj e : gmap string V.
Implicit Types args : list (option (gmap string V)).

Lemma copy_union obj e :
  map_fold (λ i x (obj : gmap string V), <[i := x]> obj) obj e = e ∪ obj.
Proof.
  apply (map_fold_weak_ind (λ r m, r = m ∪ obj)).
  - by rewrite (left_id_L ∅ (∪)).
  - intros i x m r _ ->. by rewrite insert_union_l.
Qed.

Lemma merge_snoc args (elem : option (gmap string V)) :
  oUtil.merge (args ++ [elem])
  = match elem with
    | Some e => e ∪ oUtil.merge args
    | None => oUtil.merge args
    end.
Proof.
  unfold oUtil.merge. rewrite foldl_snoc.
  destruct elem as [e|]; [apply copy_union|done].
Qed.


End Merge.


(* ===================================================================== *)
(** * NormalRound: the course of a round *)
(* ===================================================================== *)

Section Stages.

Variable userNames : list (option string).
Implicit Types s : NormalRound.t.

Lemma withRound_same s : NormalRound.withRound s (NormalRound._round s) = s.
Proof. by destruct s. Qed.

Lemma dispatch_nil names s : NormalRound.dispatch names s [] = (s, []).
Proof. done. Qed.

Lemma dispatch_one names s (sig : Round.signal) :
  NormalRound.dispatch names s [sig] = NormalRound.onSignal names s sig.
Proof.
  unfold NormalRound.dispatch. simpl.
  by destruct (NormalRound.onSignal names s sig).
Qed.

Lemma endsInCallback_cases (ts : list Round.timeout) :
  endsInCallback ts = true →
  (∃ d, ts = [Round.callback d])
  ∨ ∃ d secs rest, ts = Round.emitMilestone d secs :: rest
                   ∧ endsInCallback rest = true.
Proof.
  destruct ts as [|[d secs|d] rest]; simpl; [done| |].
  - intros Hrest. right. eauto.
  - destruct rest; [|done]. intros _. left. eauto.
Qed.

Lemma winner_None_votes (r : Round.t) :
  Round.winner (Round._getResults r) = None ↔ Round._votes r = ∅.
Proof.
  rewrite getResults_winner.
  set (cnt := (Round.tally r).1).
  rewrite head_None.
  rewrite <- (Permutation_nil_r (Round.voteOrder r cnt)), voteOrder_perm.
  rewrite Permutation_nil_r, Object_keys_nil.
  split.
  - intros Hcnt. apply map_empty. intros voter.
    destruct (Round._votes r !! voter) as [x|] eqn:Hv; [|done].
    assert (is_Some (cnt !! x)) as [c Hc]
      by (apply tally_count_is_Some; eauto).
    by rewrite Hcnt in Hc.
  - intros Hvotes. apply map_empty. intros x.
    apply eq_None_not_Some. intros [voter Hv]%tally_count_is_Some.
    by rewrite Hvotes in Hv.
Qed.

Lemma start_staged (o : NormalRound.opts) (st : NormalRound.settings)
    (acro : string) :
  staged o (NormalRound.start userNames (NormalRound.new o st acro)).1.
Proof.
  unfold NormalRound.start, NormalRound.new. simpl.
  split; [done|]. split.
  - apply (step_consistent (Round.new acro, [])
             (Round.opStartAcro (NormalRound.secsPerAcroRound st)));
      [done|apply new_consistent].
  - exists submitting. simpl. split_and!; try done.
    eexists. split; [done|apply countdown_endsInCallback].
Qed.


Lemma fire_empty (draws : nat → JS.random) (k : nat) (r : Round.t) :
  Round.fire draws k (r, []) = ((r, []), []).
Proof. done. Qed.

Lemma fire_past (draws : nat → JS.random) (k : nat) (r : Round.t)
    (c : Round.countdown) :
  Round.fire draws (S k) (r, [c]) = ((r, [c]), []).
Proof. done. Qed.

Lemma fire_milestone (draws : nat → JS.random) (r : Round.t) (isAcro : bool)
    (d secs : Z) (rest : list Round.timeout) :
  Round.fire draws 0 (r, [(isAcro, Round.emitMilestone d secs :: rest)])
  = ((r, [(isAcro, rest)]), [Round.emitTick isAcro secs]).
Proof. done. Qed.

Lemma fire_acro_callback (draws : nat → JS.random) (r : Round.t) (d : Z) :
  Round.fire draws 0 (r, [(true, [Round.callback d])])
  = (((Round.acroTimeUp draws r).1, []), (Round.acroTimeUp draws r).2).
Proof. done. Qed.

Lemma fire_vote_callback (draws : nat → JS.random) (r : Round.t) (d : Z) :
  Round.fire draws 0 (r, [(false, [Round.callback d])])
  = ((r, []), [Round.voteEnd (Round._getResults r)]).
Proof. done. Qed.

Lemma showPoints_state (names : list (option string))
    (types : list NormalRound.resType) (res : Round.results) s :
  let s' := (NormalRound._showPoints names types res s).1 in
  NormalRound._opts s' = NormalRound._opts s
  ∧ NormalRound._inputMode s' = NormalRound._inputMode s
  ∧ NormalRound._round s' = NormalRound._round s
  ∧ ((NormalRound._timers s' = NormalRound._timers s
      ∧ NormalRound._called s'
        = NormalRound._called s
          ++ [NormalRound.scored
                (NormalRound._getPoints (NormalRound._opts s) res)])
     ∨ (∃ d types',
          NormalRound._timers s'
          = NormalRound._timers s ++ [NormalRound.morePoints d types' res])
       ∧ NormalRound._called s' = NormalRound._called s).
Proof.
  unfold NormalRound._showPoints.
  destruct (JS.pop types) as [[type types']|]; simpl.
  - split_and!; try done. right. split; [|done]. eauto.
  - split_and!; try done. by left.
Qed.

Lemma step_staged (o : NormalRound.opts) (names : list (option string)) s
    (op : NormalRound.op) :
  staged o s → staged o (NormalRound.step names s op).1.
Proof.
  intros (Ho & Hc & n & Hn). unfold staged.
  destruct s as [o' st mode [r pending] acro set timers called].
  simpl in Ho, Hc. subst o'.
  destruct n; simpl in Hn.
  - (* submitting *)
    destruct Hn as (-> & Hp & (ts & -> & Hts) & -> & ->).
    destruct op as [now userId msg|draws k|k];
      unfold NormalRound.step, NormalRound.userInput, NormalRound.withRound;
      simpl.
    + pose proof (submitPhrase_phase now r userId msg) as Hp'.
      pose proof (submitPhrase_consistent now r userId msg Hc) as Hc'.
      destruct (Round.submitPhrase now r userId msg) as [r' ev].
      simpl in *. split; [done|]. split; [done|].
      exists submitting. simpl. split_and!; try done; [congruence|eauto].
    + destruct k as [|k]; [|rewrite ?fire_past; simpl;
        split; [done|]; split; [done|]; exists submitting; simpl;
        split_and!; eauto].
      destruct (endsInCallback_cases ts Hts)
        as [[d ->]|(d & secs & rest & -> & Hrest)].
      * rewrite ?fire_acro_callback.
        pose proof (acroTimeUp_consistent draws r Hp Hc) as Hc'.
        unfold NormalRound.withRound, NormalRound.dispatch. simpl.
        case_decide as Hlen; simpl.
        -- split; [done|]. split; [done|]. exists awaitingVote. simpl.
           split_and!; eauto.
        -- split; [done|]. split; [done|]. exists tooFew. simpl.
           split_and!; try done. lia.
      * rewrite ?fire_milestone. simpl.
        split; [done|]. split; [done|]. exists submitting. simpl.
        split_and!; eauto.
    + split; [done|]. split; [done|]. exists submitting. simpl.
      split_and!; eauto.
  - (* awaitingVote *)
    destruct Hn as (-> & Hp & -> & (d & ->) & -> & Hlen).
    destruct op as [now userId msg|draws k|k];
      unfold NormalRound.step, NormalRound.userInput, NormalRound.withRound;
      simpl.
    + split; [done|]. split; [done|]. exists awaitingVote. simpl.
      split_and!; eauto.
    + rewrite ?fire_empty. simpl.
      split; [done|]. split; [done|]. exists awaitingVote. simpl.
      split_and!; eauto.
    + destruct k as [|k]; simpl.
      * unfold NormalRound.fireOpenVote. simpl. rewrite Hp. simpl.
        split; [done|]. split.
        -- pose proof (step_consistent (r, [])
                         (Round.opStartVote (NormalRound.secsPerVoteRound st)))
             as Hs.
           simpl in Hs. rewrite Hp in Hs. apply Hs; [|done].
           unfold phaseMatches. simpl. by rewrite Hp.
        -- exists voting. simpl. split_and!; try done.
           eexists. split; [done|apply countdown_endsInCallback].
      * split; [done|]. split; [done|]. exists awaitingVote. simpl.
        split_and!; eauto.
  - (* tooFew *)
    destruct Hn as (-> & Hp & -> & -> & -> & Hlen).
    destruct op as [now userId msg|draws k|k];
      unfold NormalRound.step, NormalRound.userInput, NormalRound.withRound;
      simpl;
      rewrite ?fire_empty; simpl;
      (split; [done|]); (split; [done|]); exists tooFew; simpl;
      split_and!; eauto.
  - (* voting *)
    destruct Hn as (-> & Hp & (ts & -> & Hts) & -> & -> & Hlen).
    destruct op as [now userId msg|draws k|k];
      unfold NormalRound.step, NormalRound.userInput, NormalRound.withRound;
      simpl.
    + destruct (submitVote_frame r userId msg) as (Hp' & Ho' & _).
      pose proof (submitVote_consistent r userId msg Hc) as Hc'.
      destruct (Round.submitVote r userId msg) as [r' ev].
      simpl in *. split; [done|]. split; [done|].
      exists voting. simpl. split_and!; try done; [congruence|eauto|congruence].
    + destruct k as [|k]; [|rewrite ?fire_past; simpl;
        split; [done|]; split; [done|]; exists voting; simpl;
        split_and!; eauto].
      destruct (endsInCallback_cases ts Hts)
        as [[d ->]|(d & secs & rest & -> & Hrest)].
      * rewrite ?fire_vote_callback.
        unfold NormalRound.withRound, NormalRound.dispatch. simpl.
        destruct (Round.winner (Round._getResults r)) as [w|] eqn:Hw; simpl.
        -- split; [done|]. split; [done|]. exists showing. simpl.
           split_and!; try done; [eauto|by rewrite Hw].
        -- split; [done|]. split; [done|]. exists noVotes. simpl.
           split_and!; done.
      * rewrite ?fire_milestone. simpl.
        split; [done|]. split; [done|]. exists voting. simpl.
        split_and!; eauto.
    + split; [done|]. split; [done|]. exists voting. simpl.
      split_and!; eauto.
  - (* showing *)
    destruct Hn as (-> & Hp & -> & (d & types & Htm) & -> & Hlen & Hw).
    destruct op as [now userId msg|draws k|k];
      unfold NormalRound.step, NormalRound.userInput, NormalRound.withRound;
      simpl.
    + split; [done|]. split; [done|]. exists showing. simpl.
      split_and!; eauto.
    + rewrite ?fire_empty. simpl.
      split; [done|]. split; [done|]. exists showing. simpl.
      split_and!; eauto.
    + assert (∀ s0,
                NormalRound._opts s0 = o →
                NormalRound._inputMode s0 = NormalRound.INPUTMODE_OFF →
                NormalRound._round s0 = (r, []) →
                NormalRound._timers s0 = [] →
                NormalRound._called s0 = [] →
                let s' := (NormalRound._showPoints names types
                             (Round._getResults r) s0).1 in
                NormalRound._opts s' = o
                ∧ consistent (NormalRound._round s').1
                ∧ ∃ n, inStage n s') as Hshow.
      { intros s0 Ho0 Hm0 Hr0 Ht0 Hc0.
        destruct (showPoints_state names types (Round._getResults r) s0)
          as (Ho' & Hm' & Hr' & Hcases).
        destruct (NormalRound._showPoints names types (Round._getResults r) s0)
          as [s' out]. simpl in *.
        rewrite Ho', Hr', Hr0. simpl. split; [done|]. split; [done|].
        destruct Hcases as [[Ht' Hcalled]|[(d' & types' & Ht') Hcalled]].
        - exists finished. simpl. rewrite Hr', Hr0, Ho', Ho0. simpl.
          rewrite Hm', Hm0, Ht', Ht0, Hcalled, Hc0, Ho0. split_and!; done.
        - exists showing. simpl. rewrite Hr', Hr0. simpl.
          rewrite Hm', Hm0, Ht', Ht0, Hcalled, Hc0.
          split_and!; try done. exists d', types'. by right. }
      destruct Htm as [-> | ->]; destruct k as [|k]; simpl;
        try (by apply Hshow);
        (split; [done|]); (split; [done|]); exists showing; simpl;
        split_and!; eauto.
  - (* noVotes *)
    destruct Hn as (-> & Hp & -> & -> & -> & Hlen & Hw).
    destruct op as [now userId msg|draws k|k];
      unfold NormalRound.step, NormalRound.userInput, NormalRound.withRound;
      simpl;
      rewrite ?fire_empty; simpl;
      (split; [done|]); (split; [done|]); exists noVotes; simpl;
      split_and!; eauto.
  - (* finished *)
    destruct Hn as (-> & Hp & -> & -> & -> & Hlen & Hw).
    destruct op as [now userId msg|draws k|k];
      unfold NormalRound.step, NormalRound.userInput, NormalRound.withRound;
      simpl;
      rewrite ?fire_empty; simpl;
      (split; [done|]); (split; [done|]); exists finished; simpl;
      split_and!; eauto.
Qed.

End Stages.

Section Play.

Variable o : NormalRound.opts.
Variable st : NormalRound.settings.
Variable acro : string.
Variable userNames : list (option string).

Lemma play_snoc (ops : list (list (option string) * NormalRound.op))
    (op : list (option string) * NormalRound.op) :
  NormalRound.play (NormalRound.new o st acro) userNames (ops ++ [op])
  = let '(s, out) :=
      NormalRound.play (NormalRound.new o st acro) userNames ops in
    let '(s', out') := NormalRound.step op.1 s op.2 in
    (s', out ++ out').
Proof. unfold NormalRound.play. by rewrite foldl_snoc. Qed.

Lemma play_staged (ops : list (list (option string) * NormalRound.op)) :
  staged o (NormalRound.play (NormalRound.new o st acro) userNames ops).1.
Proof.
  induction ops as [|op ops IH] using rev_ind; [apply start_staged|].
  rewrite play_snoc.
  destruct (NormalRound.play _ userNames ops) as [s out]. simpl in IH.
  pose proof (step_staged o op.1 s op.2 IH) as Hs.
  by destruct (NormalRound.step op.1 s op.2) as [s' out'].
Qed.

(** After the callback, nothing moves. *)
Lemma step_over (names : list (option string)) (s : NormalRound.t)
    (op : NormalRound.op) :
  (∃ n, inStage n s) →
  NormalRound._called s ≠ [] →
  NormalRound.step names s op = (s, []).
Proof.
  intros [n Hn] Hcalled.
  destruct s as [o' st' mode [r pending] acro' set timers called].
  destruct n; simpl in Hn;
    try (by destruct Hn as (_ & _ & _ & _ & Hc & _); simpl in Hcalled);
    try (by destruct Hn as (_ & _ & _ & _ & Hc); simpl in Hcalled).
  all: destruct Hn as (-> & _ & -> & -> & _).
  all: by destruct op as [now userId msg|draws k|k].
Qed.

End Play.

(** X20. A normal round, from [start] on, through any inputs and
    timeouts: the callback is called at most once; with the error
    "Not enough players!" when fewer than two users have a phrase at
    the end of the submissions; with the error "No one voted!" when two
    or more have one and nobody has a vote at the end of the voting;
    else with the points [_getPoints] gives for the results of the
    round.  By then the input mode is off and no timer is left.  Inputs
    are taken as phrases only while the submission countdown runs, and
    as votes only while the voting countdown runs. *)
Theorem normalRound_outcome (o : NormalRound.opts) (st : NormalRound.settings)
    (acro : string) (userNames : list (option string))
    (ops : list (list (option string) * NormalRound.op)) :
  let s := (NormalRound.play (NormalRound.new o st acro) userNames ops).1 in
  let r := (NormalRound._round s).1 in
  let pending := (NormalRound._round s).2 in
  match NormalRound._called s with
  | [] => True
  | [NormalRound.failed message code] =>
      (message = "Not enough players!"
       ∧ code = NormalRound.ERR_NUM_SUBMISSIONS
       ∧ size (Round._phrases r) ≤ 1
       ∧ Round._votes r = ∅)
      ∨ (message = "No one voted!"
         ∧ code = NormalRound.ERR_NO_VOTES
         ∧ 1 < size (Round._phrases r)
         ∧ Round._votes r = ∅)
  | [NormalRound.scored points] =>
      1 < size (Round._phrases r)
      ∧ Round._votes r ≠ ∅
      ∧ points = NormalRound._getPoints o (Round._getResults r)
  | _ => False
  end
  ∧ (NormalRound._called s ≠ [] →
     NormalRound._inputMode s = NormalRound.INPUTMODE_OFF
     ∧ NormalRound._timers s = [] ∧ pending = [])
  ∧ (NormalRound._inputMode s = NormalRound.INPUTMODE_ACRO →
     Round._phase r = Round.PHASE_ACRO ∧ pending ≠ [])
  ∧ (NormalRound._inputMode s = NormalRound.INPUTMODE_VOTE →
     Round._phase r = Round.PHASE_VOTE ∧ pending ≠ []).
Proof.
  intros s r pending.
  destruct (play_staged o st acro userNames ops) as (Ho & Hc & n & Hn).
  fold s in Ho, Hc, Hn. fold r in Hc.
  destruct Hc as (_ & _ & _ & Hperm & _ & Hnv).
  assert (Round._phase r ≠ Round.PHASE_ACRO →
          length (Round._userOrder r) = size (Round._phrases r)) as Hsize.
  { intros Hp. rewrite (Hperm Hp). apply length_Object_keys. }
  destruct n; simpl in Hn; fold r pending in Hn.
  - destruct Hn as (Hm & Hp & (ts & Hpend & _) & Ht & Hcalled).
    rewrite Hcalled, Hm, Hpend. split_and!; done.
  - destruct Hn as (Hm & Hp & Hpend & _ & Hcalled & _).
    rewrite Hcalled, Hm. split_and!; done.
  - destruct Hn as (Hm & Hp & Hpend & Ht & Hcalled & Hlen).
    rewrite Hcalled, Hm. split_and!; try done.
    left. rewrite <- Hsize by (by rewrite Hp).
    split_and!; try done. apply Hnv. by rewrite Hp.
  - destruct Hn as (Hm & Hp & (ts & Hpend & _) & Ht & Hcalled & _).
    rewrite Hcalled, Hm, Hpend. split_and!; done.
  - destruct Hn as (Hm & Hp & Hpend & _ & Hcalled & _).
    rewrite Hcalled, Hm. split_and!; done.
  - destruct Hn as (Hm & Hp & Hpend & Ht & Hcalled & Hlen & Hw).
    rewrite Hcalled, Hm. split_and!; try done.
    right. rewrite <- Hsize by (by rewrite Hp).
    split_and!; try done. by apply winner_None_votes.
  - destruct Hn as (Hm & Hp & Hpend & Ht & Hcalled & Hlen & Hw).
    rewrite Hcalled, Hm. split_and!; try done.
    + by rewrite <- Hsize by (by rewrite Hp).
    + by rewrite <- winner_None_votes.
    + by rewrite Ho.
Qed.

(** X21. Once the callback of [start] has been called the round is
    over: whatever comes after (inputs, timeouts), its state stays as
    it is and no message is sent. *)
Theorem normalRound_over (o : NormalRound.opts) (st : NormalRound.settings)
    (acro : string) (userNames : list (option string))
    (ops more : list (list (option string) * NormalRound.op)) :
  NormalRound._called
    (NormalRound.play (NormalRound.new o st acro) userNames ops).1 ≠ [] →
  NormalRound.play (NormalRound.new o st acro) userNames (ops ++ more)
  = NormalRound.play (NormalRound.new o st acro) userNames ops.
Proof.
  intros Hcalled.
  induction more as [|op more IH] using rev_ind; [by rewrite app_nil_r|].
  rewrite app_assoc, play_snoc, IH.
  destruct (play_staged o st acro userNames ops) as (_ & _ & Hn).
  destruct (NormalRound.play _ userNames ops) as [s out]. simpl in *.
  rewrite (step_over op.1 s op.2 Hn Hcalled). by rewrite app_nil_r.
Qed.

Lemma normalRound_over_witness :
  let round := NormalRound.new defaultOpts
                 (NormalRound.mkSettings 60 30 5 7 "/msg bot acro #chan ")
                 "ABC" in
  let timeout := ([Some "amy"], NormalRound.opRoundTimeout
                                  (λ _, JS.mkRandom 0 0) 0) in
  NormalRound.play round [] (replicate 6 timeout
                             ++ [([Some "amy"],
                                  NormalRound.opUserInput 9 0 "a b c")])
  = NormalRound.play round [] (replicate 6 timeout).
Proof.
  apply normalRound_over. vm_compute. discriminate.
Defined.

(* ===================================================================== *)
(** * AcroGame: start and end *)
(* ===================================================================== *)

Section Course.

Context {H : Type}.
Variable runGame : AcroGame.t H → AcroGame.t H * list AcroGame.delivery.
Hypothesis runGame_flags :
  ∀ g, AcroGame._ended (runGame g).1 = AcroGame._ended g
       ∧ AcroGame._running (runGame g).1 = AcroGame._running g.
Implicit Types g : AcroGame.t H.

Lemma ends_app (ev1 ev2 : list AcroGame.emitted) :
  ends (ev1 ++ ev2) = ends ev1 + ends ev2.
Proof. unfold ends. by rewrite filter_app, length_app. Qed.

Lemma starts_app (ev1 ev2 : list AcroGame.emitted) :
  starts (ev1 ++ ev2) = starts ev1 + starts ev2.
Proof. unfold starts. by rewrite filter_app, length_app. Qed.

Lemma handInput_flags g (userIds : gmap string nat)
    (userNames : list (option string)) (id : AcroGame.userKey)
    (input : string) :
  AcroGame._ended (AcroGame.handInput g userIds userNames id input).1
  = AcroGame._ended g
  ∧ AcroGame._running (AcroGame.handInput g userIds userNames id input).1
    = AcroGame._running g.
Proof.
  unfold AcroGame.handInput.
  by destruct (AcroGame._handleInput g _ id input) as [h says].
Qed.

(** The flags count the events. *)
Lemma courseStep_flags g (c : AcroGame.course) g'
    (out : list AcroGame.delivery) (ev : list AcroGame.emitted) :
  AcroGame.courseStep runGame g c = Some (g', out, ev) →
  (if AcroGame._ended g then 1 else 0) + ends ev
  = (if AcroGame._ended g' then 1 else 0)
  ∧ (if AcroGame._running g then 1 else 0) + starts ev
    = (if AcroGame._running g' then 1 else 0).
Proof.
  destruct c as [o|winner| |message]; simpl.
  - destruct o as [| |user input|oldUser newUser|userName|s]; simpl.
    + unfold AcroGame.start.
      destruct (AcroGame._running g) eqn:Hr, (AcroGame._ended g) eqn:He;
        simpl; try (intros [= <- <- <-]; by rewrite ?Hr, ?He).
      set (g1 := AcroGame.mk _ _ _ _ _ _ _ _).
      destruct (runGame_flags g1) as [He1 Hr1].
      destruct (runGame g1) as [g2 out2]. simpl in *.
      intros [= <- <- <-]. by rewrite ?He1, ?Hr1, ?He.
    + unfold AcroGame.stop.
      destruct (AcroGame._ended g) eqn:He; simpl; intros [= <- <- <-];
        simpl; rewrite ?He; by destruct (AcroGame._running g).
    + unfold AcroGame.userInput.
      destruct (AcroGame.hasOwnProperty _ user) as [| |id]; [done| |].
      * case_decide.
        -- destruct (handInput_flags g (AcroGame._userIds g)
                       (AcroGame._userNames g ++ [Some user])
                       AcroGame.idProto input) as [He Hr].
           destruct (AcroGame.handInput g _ _ _ input) as [g1 out1].
           simpl in *. intros [= <- <- <-]. rewrite He, Hr.
           by destruct (AcroGame._ended g), (AcroGame._running g).
        -- destruct (handInput_flags g
                       (<[user := length (AcroGame._userNames g)]>
                          (AcroGame._userIds g))
                       (AcroGame._userNames g ++ [Some user])
                       (AcroGame.idNum (length (AcroGame._userNames g)))
                       input) as [He Hr].
           destruct (AcroGame.handInput g _ _ _ input) as [g1 out1].
           simpl in *. intros [= <- <- <-]. rewrite He, Hr.
           by destruct (AcroGame._ended g), (AcroGame._running g).
      * destruct (handInput_flags g (AcroGame._userIds g)
                    (AcroGame._userNames g) (AcroGame.idNum id) input)
          as [He Hr].
        destruct (AcroGame.handInput g _ _ _ input) as [g1 out1].
        simpl in *. intros [= <- <- <-]. rewrite He, Hr.
        by destruct (AcroGame._ended g), (AcroGame._running g).
    + unfold AcroGame.changeUser.
      destruct (AcroGame.hasOwnProperty _ oldUser) as [| |id]; [done| |].
      * intros [= <- <- <-].
        by destruct (AcroGame._ended g), (AcroGame._running g).
      * destruct (AcroGame.read _ newUser) as [[i|]|]; intros [= <- <- <-];
          simpl; by destruct (AcroGame._ended g), (AcroGame._running g).
    + unfold AcroGame.deleteUser.
      destruct (AcroGame.hasOwnProperty _ userName) as [| |id]; [done| |];
        intros [= <- <- <-]; simpl;
        by destruct (AcroGame._ended g), (AcroGame._running g).
    + intros [= <- <- <-].
      by destruct (AcroGame._ended g), (AcroGame._running g).
  - unfold AcroGame.complete, AcroGame.endGame.
    destruct winner as [w|].
    + intros [= <- <- <-].
      by destruct (AcroGame._ended g), (AcroGame._running g).
    + destruct (AcroGame._ended g) eqn:He; simpl; intros [= <- <- <-];
        simpl; rewrite ?He; by destruct (AcroGame._running g).
  - unfold AcroGame.endGame.
    destruct (AcroGame._ended g) eqn:He; simpl; intros [= <- <- <-];
      simpl; rewrite ?He; by destruct (AcroGame._running g).
  - unfold AcroGame.catch.
    destruct (AcroGame._ended g) eqn:He; simpl; intros [= <- <- <-];
      simpl; rewrite ?He; by destruct (AcroGame._running g).
Qed.

Lemma courseRun_snoc g (cs : list AcroGame.course) (c : AcroGame.course) :
  AcroGame.courseRun runGame g (cs ++ [c])
  = let '(g1, out, ev) := AcroGame.courseRun runGame g cs in
    match AcroGame.courseStep runGame g1 c with
    | Some (g2, out', ev') => (g2, out ++ out', ev ++ ev')
    | None => (g1, out, ev)
    end.
Proof. unfold AcroGame.courseRun. by rewrite foldl_snoc. Qed.

Lemma courseRun_flags (h : H) (cs : list AcroGame.course) :
  let '(g, _, ev) := AcroGame.courseRun runGame (AcroGame.new h) cs in
  ends ev = (if AcroGame._ended g then 1 else 0)
  ∧ starts ev = (if AcroGame._running g then 1 else 0).
Proof.
  induction cs as [|c cs IH] using rev_ind; [done|].
  rewrite courseRun_snoc.
  destruct (AcroGame.courseRun runGame (AcroGame.new h) cs) as [[g1 out] ev].
  pose proof (courseStep_flags g1 c) as Hs.
  destruct (AcroGame.courseStep runGame g1 c) as [[[g2 out'] ev']|];
    [|done].
  specialize (Hs g2 out' ev' eq_refl).
  rewrite ends_app, starts_app. destruct IH as [-> ->]. done.
Qed.

Lemma winsOf_app (cs more : list AcroGame.course) :
  winsOf (cs ++ more) = winsOf cs ++ winsOf more.
Proof. apply omap_app. Qed.

(** Once ended, a game stays ended and delivers nothing; of the events
    only 'win' is still emitted, by [complete]. *)
Lemma courseStep_ended g (c : AcroGame.course) :
  AcroGame._ended g = true →
  match AcroGame.courseStep runGame g c with
  | Some (g', out, ev) =>
      out = [] ∧ ev = winsOf [c] ∧ AcroGame._ended g' = true
  | None => winsOf [c] = []
  end.
Proof.
  intros He. destruct c as [o|winner| |message]; simpl.
  - pose proof (step_ended runGame g o He) as Hs.
    by destruct (AcroGame.step runGame g o) as [[[g' out] ev]|].
  - unfold AcroGame.complete, AcroGame.endGame, AcroGame._sayPublic.
    rewrite He. by destruct winner.
  - unfold AcroGame.endGame, AcroGame._sayPublic. by rewrite He.
  - unfold AcroGame.catch. by rewrite He.
Qed.

Lemma courseRun_ended g (out : list AcroGame.delivery)
    (ev : list AcroGame.emitted) (cs more : list AcroGame.course) g0 :
  AcroGame.courseRun runGame g0 cs = (g, out, ev) →
  AcroGame._ended g = true →
  ∃ g', AcroGame.courseRun runGame g0 (cs ++ more)
        = (g', out, ev ++ winsOf more)
        ∧ AcroGame._ended g' = true.
Proof.
  intros Hrun He. induction more as [|c more IH] using rev_ind.
  - rewrite !app_nil_r. by exists g.
  - destruct IH as (g1 & Hrun1 & He1).
    rewrite app_assoc, courseRun_snoc, Hrun1, winsOf_app.
    pose proof (courseStep_ended g1 c He1) as Hs.
    destruct (AcroGame.courseStep runGame g1 c) as [[[g2 out'] ev']|].
    + destruct Hs as (-> & -> & He2). exists g2.
      by rewrite app_nil_r, app_assoc.
    + exists g1. by rewrite Hs, app_nil_r.
Qed.

End Course.

(** X22. A game, through whatever happens to it (the public methods,
    whichever of them throw, messages asked for by its rounds, the end
    of the face-off, the error of a round): 'start' is emitted at most
    once and 'end' at most once, 'end' exactly when the game has ended,
    be it by [stop], by [endGame] or by an error; from then on nothing
    is delivered, and no 'start' and no 'end' is emitted; but 'win' is,
    by every step [complete] that is handed a winner, and by nothing
    else. *)
Theorem game_ends_once {H : Type}
    (runGame : AcroGame.t H → AcroGame.t H * list AcroGame.delivery)
    (h : H) (cs more : list AcroGame.course) :
  (∀ g, AcroGame._ended (runGame g).1 = AcroGame._ended g
        ∧ AcroGame._running (runGame g).1 = AcroGame._running g) →
  let '(g, out, ev) := AcroGame.courseRun runGame (AcroGame.new h) cs in
  ends ev = (if AcroGame._ended g then 1 else 0)
  ∧ starts ev = (if AcroGame._running g then 1 else 0)
  ∧ (AcroGame._ended g = true →
     ∃ g', AcroGame.courseRun runGame (AcroGame.new h) (cs ++ more)
           = (g', out, ev ++ winsOf more)).
Proof.
  intros Hflags.
  pose proof (courseRun_flags runGame Hflags h cs) as Hf.
  pose proof (courseRun_ended runGame) as He.
  destruct (AcroGame.courseRun runGame (AcroGame.new h) cs)
    as [[g out] ev] eqn:Hrun.
  destruct Hf as [Hends Hstarts]. split; [done|]. split; [done|].
  intros Hended.
  destruct (He g out ev cs more (AcroGame.new h) Hrun Hended) as (g' & ? & _).
  by exists g'.
Qed.

Lemma game_ends_once_witness :
  let '(g, out, ev) :=
    AcroGame.courseRun (λ g, (g, [])) (AcroGame.new tt)
      [AcroGame.fromOutside AcroGame.opStart;
       AcroGame.fromOutside AcroGame.opStop] in
  ends ev = (if AcroGame._ended g then 1 else 0)
  ∧ starts ev = (if AcroGame._running g then 1 else 0)
  ∧ (AcroGame._ended g = true →
     ∃ g', AcroGame.courseRun (λ g, (g, [])) (AcroGame.new tt)
             ([AcroGame.fromOutside AcroGame.opStart;
               AcroGame.fromOutside AcroGame.opStop]
              ++ [AcroGame.opComplete (Some (AcroGame.idNum 0));
                  AcroGame.opEndGame;
                  AcroGame.fromOutside AcroGame.opStop])
           = (g', out, ev ++ [AcroGame.ev_win (AcroGame.idNum 0)])).
Proof.
  apply (game_ends_once (λ g, (g, [])) tt
           [AcroGame.fromOutside AcroGame.opStart;
            AcroGame.fromOutside AcroGame.opStop]
           [AcroGame.opComplete (Some (AcroGame.idNum 0));
            AcroGame.opEndGame; AcroGame.fromOutside AcroGame.opStop]).
  intros g. split; reflexivity.
Defined.

(* ===================================================================== *)
(** * FaceOffRound: the course of a round *)
(* ===================================================================== *)

Lemma faceOff_dispatch_nil s : FaceOffRoundFull.dispatch s [] = (s, []).
Proof. done. Qed.

Lemma faceOff_dispatch_one s (sig : Round.signal) :
  FaceOffRoundFull.dispatch s [sig] = FaceOffRoundFull.onSignal s sig.
Proof.
  unfold FaceOffRoundFull.dispatch. simpl.
  by destruct (FaceOffRoundFull.onSignal s sig).
Qed.

Lemma submitPhrase_players (P : nat → Prop) (now : Z) (r : Round.t)
    (userId : nat) (phrase : string) :
  P userId →
  (∀ u, is_Some (Round._phrases r !! u) → P u) →
  ∀ u, is_Some (Round._phrases (Round.submitPhrase now r userId phrase).1
                !! u) →
       P u.
Proof.
  intros Hu Hall u. unfold Round.submitPhrase.
  destruct (Round._phase r); try apply Hall.
  case_decide; [|apply Hall]. simpl.
  destruct (decide (u = userId)) as [->|Hne]; [done|].
  rewrite lookup_insert_ne by done. apply Hall.
Qed.

Lemma faceOff_startAcro_staged (P : nat → Prop) (o : FaceOffRoundFull.opts)
    (acro : string) :
  faceOffStaged P o false
    (FaceOffRoundFull.startAcro (FaceOffRoundFull.new o acro)).1.
Proof.
  unfold FaceOffRoundFull.startAcro, FaceOffRoundFull.new. simpl.
  split; [done|]. split; [|split].
  - apply (step_consistent (Round.new acro, [])
             (Round.opStartAcro (FaceOffRoundFull.secsPerFaceOffRound o)));
      [done|apply new_consistent].
  - simpl. intros u [x Hx]. by rewrite lookup_empty in Hx.
  - exists foSubmitting. split; [done|]. simpl. split_and!; try done.
    eexists. split; [done|apply countdown_endsInCallback].
Qed.

Ltac fo_stay n :=
  (split; [done|]); (split; [done|]); (split; [done|]);
  exists n; (split; [done|]); simpl; split_and!; eauto.

Lemma faceOff_step_staged (P : nat → Prop) (o : FaceOffRoundFull.opts)
    (started : bool) (names : list (option string)) s
    (op : FaceOffRoundFull.op) :
  (started = false → fromPlayers P op) →
  faceOffStaged P o started s →
  faceOffStaged P o started (FaceOffRoundFull.step names s op).1.
Proof.
  intros Hfrom (Ho & Hc & Hpl & n & Hst & Hn). unfold faceOffStaged.
  destruct s as [o' mode [r pending] acro set order handlers timers acalls
                 vcalls].
  simpl in Ho, Hc, Hpl. subst o'.
  destruct n; simpl in Hn, Hst; subst started.
  - (* submitting *)
    destruct Hn as (-> & Hp & (ts & -> & Hts) & -> & -> & -> & -> & ->).
    destruct op as [now userId phrase|userId voteStr|draws k|k];
      unfold FaceOffRoundFull.step, FaceOffRoundFull.submitPhrase,
        FaceOffRoundFull.submitVote, FaceOffRoundFull.withRound; simpl.
    + pose proof (submitPhrase_phase now r userId phrase) as Hp'.
      pose proof (submitPhrase_consistent now r userId phrase Hc) as Hc'.
      pose proof (submitPhrase_players P now r userId phrase
                    (Hfrom eq_refl) Hpl) as Hpl'.
      destruct (Round.submitPhrase now r userId phrase) as [r' ev].
      simpl in *. split; [done|]. split; [done|]. split; [done|].
      exists foSubmitting. split; [done|]. simpl.
      split_and!; try done; [congruence|eauto].
    + fo_stay foSubmitting.
    + destruct k as [|k]; [|rewrite ?fire_past; simpl;
                            fo_stay foSubmitting].
      destruct (endsInCallback_cases ts Hts)
        as [[d ->]|(d & secs & rest & -> & Hrest)].
      * rewrite ?fire_acro_callback.
        pose proof (acroTimeUp_consistent draws r Hp Hc) as Hc'.
        unfold FaceOffRoundFull.withRound, FaceOffRoundFull.dispatch. simpl.
        split; [done|]. split; [done|]. split; [done|].
        exists foClosed. split; [done|]. simpl. split_and!; done.
      * rewrite ?fire_milestone. simpl. fo_stay foSubmitting.
    + fo_stay foSubmitting.
  - (* closed *)
    destruct Hn as (-> & Hp & -> & -> & -> & -> & -> & ->).
    destruct op as [now userId phrase|userId voteStr|draws k|k];
      unfold FaceOffRoundFull.step, FaceOffRoundFull.submitPhrase,
        FaceOffRoundFull.submitVote, FaceOffRoundFull.withRound; simpl;
      rewrite ?fire_empty; simpl; fo_stay foClosed.
  - (* noAnswer *)
    destruct Hn as (-> & Hp & -> & (d & ->) & -> & -> & Hord).
    destruct op as [now userId phrase|userId voteStr|draws k|k];
      unfold FaceOffRoundFull.step, FaceOffRoundFull.submitPhrase,
        FaceOffRoundFull.submitVote, FaceOffRoundFull.withRound; simpl;
      rewrite ?fire_empty; simpl; try (fo_stay foNoAnswer).
    destruct k as [|k]; simpl; [|fo_stay foNoAnswer].
    split; [done|]. split; [done|]. split; [done|].
    exists foOver. split; [done|]. simpl. unfold voteArgs. rewrite Hord.
    split_and!; done.
  - (* single *)
    destruct Hn as (-> & Hp & -> & (d & name & u & -> & Hord) & -> & ->).
    destruct op as [now userId phrase|userId voteStr|draws k|k];
      unfold FaceOffRoundFull.step, FaceOffRoundFull.submitPhrase,
        FaceOffRoundFull.submitVote, FaceOffRoundFull.withRound; simpl;
      rewrite ?fire_empty; simpl; try (fo_stay foSingle).
    destruct k as [|k]; simpl; [|fo_stay foSingle].
    split; [done|]. split; [done|]. split; [done|].
    exists foOver. split; [done|]. simpl. unfold voteArgs. rewrite Hord.
    split_and!; done.
  - (* voting *)
    destruct Hn as (-> & Hp & (ts & -> & Hts) & -> & -> & -> & -> & Hlen).
    destruct op as [now userId phrase|userId voteStr|draws k|k];
      unfold FaceOffRoundFull.step, FaceOffRoundFull.submitPhrase,
        FaceOffRoundFull.submitVote, FaceOffRoundFull.withRound; simpl.
    + fo_stay foVoting.
    + destruct (submitVote_frame r userId voteStr) as (Hp' & Ho' & Hph' & _).
      pose proof (submitVote_consistent r userId voteStr Hc) as Hc'.
      destruct (Round.submitVote r userId voteStr) as [r' ev].
      simpl in *. split; [done|]. split; [done|].
      split; [by rewrite Hph'|].
      exists foVoting. split; [done|]. simpl.
      split_and!; try done; [congruence|eauto|congruence].
    + destruct k as [|k]; [|rewrite ?fire_past; simpl; fo_stay foVoting].
      destruct (endsInCallback_cases ts Hts)
        as [[d ->]|(d & secs & rest & -> & Hrest)].
      * rewrite ?fire_vote_callback.
        unfold FaceOffRoundFull.withRound, FaceOffRoundFull.dispatch. simpl.
        split; [done|]. split; [done|]. split; [done|].
        exists foShowing. split; [done|]. simpl. split_and!; eauto.
      * rewrite ?fire_milestone. simpl. fo_stay foVoting.
    + fo_stay foVoting.
  - (* showing *)
    destruct Hn as (-> & Hp & -> & (d & phraseOrder & ->) & -> & -> & Hlen).
    destruct op as [now userId phrase|userId voteStr|draws k|k];
      unfold FaceOffRoundFull.step, FaceOffRoundFull.submitPhrase,
        FaceOffRoundFull.submitVote, FaceOffRoundFull.withRound; simpl;
      rewrite ?fire_empty; simpl; try (fo_stay foShowing).
    destruct k as [|k]; simpl; [|fo_stay foShowing].
    split; [done|]. split; [done|]. split; [done|].
    exists foPausing. split; [done|]. simpl. split_and!; eauto.
  - (* pausing *)
    destruct Hn as (-> & Hp & -> & (d & ->) & -> & -> & Hlen).
    destruct op as [now userId phrase|userId voteStr|draws k|k];
      unfold FaceOffRoundFull.step, FaceOffRoundFull.submitPhrase,
        FaceOffRoundFull.submitVote, FaceOffRoundFull.withRound; simpl;
      rewrite ?fire_empty; simpl; try (fo_stay foPausing).
    destruct k as [|k]; simpl; [|fo_stay foPausing].
    split; [done|]. split; [done|]. split; [done|].
    exists foOver. split; [done|]. simpl. unfold voteArgs.
    destruct (Round._userOrder r) as [|u1 [|u2 rest]]; simpl in Hlen;
      try lia.
    split_and!; done.
  - (* over *)
    destruct Hn as (-> & -> & -> & -> & ->).
    destruct op as [now userId phrase|userId voteStr|draws k|k];
      unfold FaceOffRoundFull.step, FaceOffRoundFull.submitPhrase,
        FaceOffRoundFull.submitVote, FaceOffRoundFull.withRound; simpl;
      rewrite ?fire_empty; simpl; fo_stay foOver.
Qed.

Lemma faceOff_startVote_staged (P : nat → Prop) (o : FaceOffRoundFull.opts)
    (names : list (option string)) s :
  faceOffStaged P o false s →
  match FaceOffRoundFull.startVote names s with
  | None => FaceOffRoundFull._userOrder s = None
  | Some (s', _) => faceOffStaged P o true s'
  end.
Proof.
  intros (Ho & Hc & Hpl & n & Hst & Hn).
  destruct s as [o' mode [r pending] acro set order handlers timers acalls
                 vcalls].
  simpl in Ho, Hc, Hpl. subst o'.
  destruct n; simpl in Hn, Hst; try done.
  - destruct Hn as (-> & Hp & (ts & -> & Hts) & -> & -> & -> & -> & ->).
    done.
  - destruct Hn as (-> & Hp & -> & -> & -> & -> & -> & ->).
    unfold FaceOffRoundFull.startVote. simpl.
    destruct (Round._userOrder r) as [|u1 [|u2 rest]] eqn:Hord.
    + split; [done|]. split; [done|]. split; [done|].
      exists foNoAnswer. split; [done|]. simpl. split_and!; eauto.
    + split; [done|]. split; [done|]. split; [done|].
      exists foSingle. split; [done|]. simpl. split_and!; eauto.
    + unfold FaceOffRoundFull._runVote. simpl. rewrite Hp. simpl.
      split; [done|]. split; [|split; [done|]].
      * pose proof (step_consistent (r, [])
                      (Round.opStartVote
                         (FaceOffRoundFull.secsPerFaceOffRound o))) as Hs.
        simpl in Hs. rewrite Hp in Hs. apply Hs; [|done].
        unfold phaseMatches. simpl. by rewrite Hp.
      * exists foVoting. split; [done|]. simpl. rewrite Hord.
        split_and!; try done; [|simpl; lia].
        eexists. split; [done|apply countdown_endsInCallback].
Qed.

Lemma faceOff_run_snoc s (ops : list (list (option string)
                                      * FaceOffRoundFull.op))
    (op : list (option string) * FaceOffRoundFull.op) :
  FaceOffRoundFull.run s (ops ++ [op])
  = let '(s1, out) := FaceOffRoundFull.run s ops in
    let '(s', out') := FaceOffRoundFull.step op.1 s1 op.2 in
    (s', out ++ out').
Proof. unfold FaceOffRoundFull.run. by rewrite foldl_snoc. Qed.

Lemma faceOff_run_staged (P : nat → Prop) (o : FaceOffRoundFull.opts)
    (started : bool) s
    (ops : list (list (option string) * FaceOffRoundFull.op)) :
  (started = false → ∀ op, op ∈ ops → fromPlayers P op.2) →
  faceOffStaged P o started s →
  faceOffStaged P o started (FaceOffRoundFull.run s ops).1.
Proof.
  intros Hfrom Hs.
  induction ops as [|op ops IH] using rev_ind; [done|].
  rewrite faceOff_run_snoc.
  assert (faceOffStaged P o started (FaceOffRoundFull.run s ops).1) as IH'.
  { apply IH. intros Hst x Hx. apply Hfrom; [done|].
    apply elem_of_app. by left. }
  destruct (FaceOffRoundFull.run s ops) as [s1 out]. simpl in IH'.
  assert (started = false → fromPlayers P op.2) as Hop.
  { intros Hst. apply Hfrom; [done|]. apply elem_of_app. right.
    by apply list_elem_of_singleton. }
  pose proof (faceOff_step_staged P o started op.1 s1 op.2 Hop IH') as Hs'.
  by destruct (FaceOffRoundFull.step op.1 s1 op.2) as [s' out'].
Qed.

Lemma voteArgs_roundOutcome (a b : nat) (o : FaceOffRoundFull.opts)
    (r : Round.t) :
  consistent r →
  (∀ u, is_Some (Round._phrases r !! u) → oneOf a b u) →
  roundOutcome a b (voteArgs o r).
Proof.
  intros (Ht & Hnd & Hord & Hperm & Hv & Hnv) Hpl. unfold voteArgs.
  destruct (Round._userOrder r) as [|u1 [|u2 rest]] eqn:Ho.
  - constructor.
  - constructor. apply Hpl, Hord. by apply list_elem_of_singleton.
  - destruct (getResults_scan r) as (_ & [bound Hf] & _). simpl in Hf.
    unfold tracks in Hf.
    destruct bound as [|tf], (Round.fastest (Round._getResults r)) as [f|];
      try done.
    + assert (is_Some (Round._phrases r !! u1)) as Hu1.
      { apply Hord. by left. }
      pose proof (Hf u1 (proj2 (elem_of_Object_keys _ _) Hu1) I) as Hnone.
      apply Ht in Hu1 as [x Hx]. congruence.
    + constructor.
      * intros k Hk. rewrite getResults_acroVotes in Hk.
        apply tally_count_is_Some in Hk as [voter Hvoter].
        apply Hpl. by apply (Hv voter k).
      * apply Hpl. apply elem_of_Object_keys. apply Hf.
Qed.

(** X23. A face-off round played as the face-off plays it
    ([startAcro], what happens up to [startVote], [startVote], what
    happens after), the phrases before [startVote] coming from the two
    players [a] and [b] only.  If [startVote] throws, the submissions had
    not been closed.  Otherwise the callback of [startAcro] has been
    called exactly once and the callback of [startVote] at most once;
    when it has been called, its arguments are those of [voteArgs]:
    [({}, null)] when nobody answered, [(null, {u: numLetters}, u)] when
    [u] alone answered, [(null, acroVotes, fastest)] after a vote, the
    users named being [a] or [b]; and then no timer and no countdown is
    left. *)
Theorem faceOffRound_outcome (a b : nat) (o : FaceOffRoundFull.opts)
    (acro : string) (userNames : list (option string))
    (before after : list (list (option string) * FaceOffRoundFull.op)) :
  (∀ op, op ∈ before → fromPlayers (oneOf a b) op.2) →
  match FaceOffRoundFull.play (FaceOffRoundFull.new o acro) userNames
          before after with
  | None =>
      FaceOffRoundFull._userOrder
        (FaceOffRoundFull.run
           (FaceOffRoundFull.startAcro (FaceOffRoundFull.new o acro)).1
           before).1 = None
  | Some (s, _) =>
      FaceOffRoundFull._acroCalls s = 1
      ∧ match FaceOffRoundFull._voteCalls s with
        | [] => True
        | args :: more =>
            more = []
            ∧ args = voteArgs o (FaceOffRoundFull._round s).1
            ∧ roundOutcome a b args
            ∧ FaceOffRoundFull._timers s = []
            ∧ (FaceOffRoundFull._round s).2 = []
        end
  end.
Proof.
  intros Hfrom. unfold FaceOffRoundFull.play.
  pose proof (faceOff_startAcro_staged (oneOf a b) o acro) as H1.
  destruct (FaceOffRoundFull.startAcro (FaceOffRoundFull.new o acro))
    as [s1 out1]. simpl in *.
  pose proof (faceOff_run_staged (oneOf a b) o false s1 before
                (λ _, Hfrom) H1) as H2.
  destruct (FaceOffRoundFull.run s1 before) as [s2 out2]. simpl in *.
  pose proof (faceOff_startVote_staged (oneOf a b) o userNames s2 H2) as H3.
  destruct (FaceOffRoundFull.startVote userNames s2) as [[s3 out3]|];
    [|done].
  pose proof (faceOff_run_staged (oneOf a b) o true s3 after
                (λ Hst, False_ind _ (diff_true_false Hst)) H3) as H4.
  destruct (FaceOffRoundFull.run s3 after) as [s4 out4]. simpl in *.
  destruct H4 as (Ho & Hc & Hpl & n & Hst & Hn).
  destruct n; simpl in Hst; try done; simpl in Hn.
  - by destruct Hn as (_ & _ & _ & _ & -> & -> & _).
  - by destruct Hn as (_ & _ & _ & _ & -> & ->).
  - by destruct Hn as (_ & _ & _ & _ & _ & -> & -> & _).
  - by destruct Hn as (_ & _ & _ & _ & -> & -> & _).
  - by destruct Hn as (_ & _ & _ & _ & -> & -> & _).
  - destruct Hn as (_ & Hp & Ht & -> & ->). rewrite Ho.
    split_and!; try done. by apply voteArgs_roundOutcome.
Qed.

Lemma faceOff_run_state s (out : list NormalRound.said)
    (ops : list (list (option string) * FaceOffRoundFull.op)) :
  (foldl (λ acc o,
            let '(s, out) := acc in
            let '(s', out') := FaceOffRoundFull.step o.1 s o.2 in
            (s', out ++ out'))
         (s, out) ops).1
  = (FaceOffRoundFull.run s ops).1.
Proof.
  unfold FaceOffRoundFull.run. revert s out.
  induction ops as [|op ops IH]; intros s out; [done|]. simpl.
  destruct (FaceOffRoundFull.step op.1 s op.2) as [s' out'].
  by rewrite (IH s' (out ++ out')), (IH s' out').
Qed.

Lemma faceOff_run_cons s (op : list (option string) * FaceOffRoundFull.op)
    (ops : list (list (option string) * FaceOffRoundFull.op)) :
  (FaceOffRoundFull.run s (op :: ops)).1
  = (FaceOffRoundFull.run (FaceOffRoundFull.step op.1 s op.2).1 ops).1.
Proof.
  unfold FaceOffRoundFull.run at 1. simpl.
  destruct (FaceOffRoundFull.step op.1 s op.2) as [s' out'].
  apply faceOff_run_state.
Qed.

Lemma faceOff_run_app s
    (ops more : list (list (option string) * FaceOffRoundFull.op)) :
  (FaceOffRoundFull.run s (ops ++ more)).1
  = (FaceOffRoundFull.run (FaceOffRoundFull.run s ops).1 more).1.
Proof.
  revert s. induction ops as [|op ops IH]; intros s; [done|].
  rewrite <- app_comm_cons, !faceOff_run_cons. apply IH.
Qed.

(** The countdown of the vote runs out: the results are shown. *)
Lemma faceOff_countdown_runs (names : list (option string))
    (draws : nat → JS.random) (o : FaceOffRoundFull.opts) (r : Round.t)
    (acro : string) (set : bool) (order : option (list nat))
    (ts : list Round.timeout) (pending : list Round.countdown) :
  pending = [(false, ts)] →
  endsInCallback ts = true →
  ∃ d phraseOrder,
    (FaceOffRoundFull.run
       (FaceOffRoundFull.mk o FaceOffRoundFull.INPUTMODE_VOTE
          (r, pending) acro set order true [] 1 [])
       (replicate (length ts)
          (names, FaceOffRoundFull.opRoundTimeout draws 0))).1
    = FaceOffRoundFull.mk o FaceOffRoundFull.INPUTMODE_OFF (r, []) acro set
        order true
        [FaceOffRoundFull.voteResults d (Round._getResults r) phraseOrder]
        1 [].
Proof.
  intros ->. induction ts as [|t ts IH]; [done|]. intros Hts.
  simpl. rewrite faceOff_run_cons.
  destruct (endsInCallback_cases _ Hts)
    as [[d Heq]|(d & secs & rest & Heq & Hrest)].
  - injection Heq as -> ->. simpl.
    unfold FaceOffRoundFull.step, FaceOffRoundFull.withRound. simpl.
    rewrite ?fire_vote_callback. simpl. eauto.
  - injection Heq as -> ->.
    unfold FaceOffRoundFull.step, FaceOffRoundFull.withRound. simpl.
    rewrite ?fire_milestone. simpl. by apply IH.
Qed.

(** The countdown of the submissions runs out: they are closed. *)
Lemma faceOff_acro_countdown_runs (names : list (option string))
    (draws : nat → JS.random) (o : FaceOffRoundFull.opts) (r : Round.t)
    (acro : string) (set : bool) (ts : list Round.timeout)
    (pending : list Round.countdown) :
  pending = [(true, ts)] →
  endsInCallback ts = true →
  ∃ s,
    (FaceOffRoundFull.run
       (FaceOffRoundFull.mk o FaceOffRoundFull.INPUTMODE_ACRO
          (r, pending) acro set None false [] 0 [])
       (replicate (length ts)
          (names, FaceOffRoundFull.opRoundTimeout draws 0))).1 = s
    ∧ FaceOffRoundFull._acroCalls s = 1
    ∧ is_Some (FaceOffRoundFull._userOrder s).
Proof.
  intros ->. induction ts as [|t ts IH]; [done|]. intros Hts.
  simpl. rewrite faceOff_run_cons.
  destruct (endsInCallback_cases _ Hts)
    as [[d Heq]|(d & secs & rest & Heq & Hrest)].
  - injection Heq as -> ->. simpl.
    unfold FaceOffRoundFull.step, FaceOffRoundFull.withRound. simpl.
    rewrite ?fire_acro_callback. simpl. eauto.
  - injection Heq as -> ->.
    unfold FaceOffRoundFull.step, FaceOffRoundFull.withRound. simpl.
    rewrite ?fire_milestone. simpl. by apply IH.
Qed.

(** X24. A face-off round calls back.  Whatever has happened since
    [startAcro], some number of timeouts of the inner round later the
    callback of [startAcro] has been called once and [startVote] does
    not throw; and whatever has happened since [startVote], some number
    of timeouts of the inner round and at most two timers of the round
    later its callback has been called, exactly once. *)
Theorem faceOffRound_calls_back (o : FaceOffRoundFull.opts) (acro : string)
    (userNames : list (option string))
    (before after : list (list (option string) * FaceOffRoundFull.op))
    (draws : nat → JS.random) :
  (∃ n,
     let s := (FaceOffRoundFull.run
                 (FaceOffRoundFull.startAcro
                    (FaceOffRoundFull.new o acro)).1
                 (before
                  ++ replicate n
                       (userNames,
                        FaceOffRoundFull.opRoundTimeout draws 0))).1 in
     FaceOffRoundFull._acroCalls s = 1
     ∧ is_Some (FaceOffRoundFull.startVote userNames s))
  ∧
  match FaceOffRoundFull.play (FaceOffRoundFull.new o acro) userNames
          before after with
  | None => True
  | Some _ =>
      ∃ n m,
        m ≤ 2
        ∧ match FaceOffRoundFull.play (FaceOffRoundFull.new o acro)
                  userNames before
                  (after
                   ++ replicate n
                        (userNames, FaceOffRoundFull.opRoundTimeout draws 0)
                   ++ replicate m (userNames, FaceOffRoundFull.opTimer 0))
          with
          | None => False
          | Some (s, _) =>
              FaceOffRoundFull._voteCalls s
              = [voteArgs o (FaceOffRoundFull._round s).1]
          end
  end.
Proof.
  unfold FaceOffRoundFull.play.
  pose proof (faceOff_startAcro_staged (λ _, True) o acro) as H1.
  destruct (FaceOffRoundFull.startAcro (FaceOffRoundFull.new o acro))
    as [s1 out1]. simpl in *.
  pose proof (faceOff_run_staged (λ _, True) o false s1 before) as H2.
  split.
  { assert (faceOffStaged (λ _, True) o false
              (FaceOffRoundFull.run s1 before).1)
      as (Ho & Hc & _ & st & Hst & Hn).
    { apply H2; [|done]. intros _ op _. by destruct op.2. }
    assert (∀ s, is_Some (FaceOffRoundFull._userOrder s) →
                 is_Some (FaceOffRoundFull.startVote userNames s)) as Hsv.
    { intros s [order Horder]. unfold FaceOffRoundFull.startVote.
      rewrite Horder. by destruct order as [|u1 [|u2 rest]]. }
    destruct (FaceOffRoundFull.run s1 before) as [s2 out2] eqn:Hrun.
    simpl in *.
    destruct s2 as [o' mode [r pending] acro' set order handlers timers
                    acalls vcalls].
    simpl in Ho, Hc. subst o'.
    destruct st; simpl in Hst, Hn; try done.
    - destruct Hn as (-> & Hp & (ts & Hpend & Hts) & -> & -> & -> & -> & ->).
      exists (length ts). rewrite faceOff_run_app, Hrun. simpl.
      destruct (faceOff_acro_countdown_runs userNames draws o r acro' set
                  ts pending Hpend Hts) as (s & -> & Hcalls & Horder).
      split; [done|]. by apply Hsv.
    - destruct Hn as (-> & Hp & -> & -> & -> & -> & -> & ->).
      exists 0. simpl. rewrite app_nil_r, Hrun. simpl.
      split; [done|]. by apply Hsv. }
  destruct (FaceOffRoundFull.run s1 before) as [s2 out2]. simpl in *.
  pose proof (faceOff_startVote_staged (λ _, True) o userNames s2) as H3.
  destruct (FaceOffRoundFull.startVote userNames s2) as [[s3 out3]|];
    [|done].
  pose proof (faceOff_run_staged (λ _, True) o true s3 after
                (λ Hst, False_ind _ (diff_true_false Hst))) as H4.
  destruct (FaceOffRoundFull.run s3 after) as [s4 out4] eqn:Hrun.
  assert (faceOffStaged (λ _, True) o true s4) as Hs4.
  { apply H4, H3, H2; [|done]. intros _ op _. by destruct op.2. }
  clear H1 H2 H3 H4.
  assert (∃ n m, m ≤ 2 ∧
            let s := (FaceOffRoundFull.run s4
                        (replicate n
                           (userNames,
                            FaceOffRoundFull.opRoundTimeout draws 0)
                         ++ replicate m
                              (userNames, FaceOffRoundFull.opTimer 0))).1 in
            FaceOffRoundFull._voteCalls s
            = [voteArgs o (FaceOffRoundFull._round s).1]) as (n & m & Hm & Hn).
  { destruct Hs4 as (Ho & Hc & _ & st & Hst & Hn).
    destruct s4 as [o' mode [r pending] acro' set order handlers timers
                    acalls vcalls].
    simpl in Ho, Hc. subst o'.
    destruct st; simpl in Hst, Hn; try done.
    - destruct Hn as (-> & Hp & -> & (d & ->) & -> & -> & Hord).
      exists 0, 1. split; [lia|]. simpl. unfold voteArgs. by rewrite Hord.
    - destruct Hn as (-> & Hp & -> & (d & name & u & -> & Hord) & -> & ->).
      exists 0, 1. split; [lia|]. simpl. unfold voteArgs. by rewrite Hord.
    - destruct Hn as (-> & Hp & (ts & Hpend & Hts) & -> & -> & -> & -> & Hlen).
      exists (length ts), 2. split; [lia|]. cbv zeta.
      rewrite faceOff_run_app.
      destruct (faceOff_countdown_runs userNames draws o r acro' set order
                  ts pending Hpend Hts) as (d & phraseOrder & ->).
      simpl. unfold voteArgs.
      by destruct (Round._userOrder r) as [|u1 [|u2 rest]]; simpl in Hlen;
        try lia.
    - destruct Hn as (-> & Hp & -> & (d & phraseOrder & ->) & -> & -> & Hlen).
      exists 0, 2. split; [lia|]. simpl. unfold voteArgs.
      by destruct (Round._userOrder r) as [|u1 [|u2 rest]]; simpl in Hlen;
        try lia.
    - destruct Hn as (-> & Hp & -> & (d & ->) & -> & -> & Hlen).
      exists 0, 1. split; [lia|]. simpl. unfold voteArgs.
      by destruct (Round._userOrder r) as [|u1 [|u2 rest]]; simpl in Hlen;
        try lia.
    - destruct Hn as (-> & -> & -> & -> & ->).
      exists 0, 0. split; [lia|]. done. }
  exists n, m. split; [done|].
  match goal with
  | |- context [FaceOffRoundFull.run s3 (after ++ ?more)] =>
      pose proof (faceOff_run_app s3 after more) as Happ
  end.
  rewrite Hrun in Happ. simpl in Happ, Hn.
  destruct (FaceOffRoundFull.run s3 (after ++ _)) as [s5 out5].
  simpl in Happ. by rewrite Happ.
Qed.

Lemma faceOffRound_outcome_witness :
  let o := FaceOffRoundFull.mkOpts 3 None 1 5 7 "!" [0; 1] in
  let names := [Some "ann"; Some "bob"; Some "cy"] in
  let timeout :=
    (names, FaceOffRoundFull.opRoundTimeout (λ _, JS.mkRandom 0 0) 0) in
  let before :=
    [(names, FaceOffRoundFull.opSubmitPhrase 10 1 "big cat");
     (names, FaceOffRoundFull.opSubmitPhrase 12 0 "bad cow");
     timeout; timeout; timeout; timeout; timeout] in
  let after :=
    [(names, FaceOffRoundFull.opSubmitVote 2 "1");
     timeout; timeout; timeout; timeout; timeout;
     (names, FaceOffRoundFull.opTimer 0);
     (names, FaceOffRoundFull.opTimer 0)] in
  match FaceOffRoundFull.play (FaceOffRoundFull.new o "BC") names
          before after with
  | None => False
  | Some (s, _) =>
      FaceOffRoundFull._voteCalls s
      = [[FaceOffRound.null; FaceOffRound.object {[ 1 := 1%Z ]};
          FaceOffRound.user 1]]
      ∧ roundOutcome 0 1 [FaceOffRound.null;
                          FaceOffRound.object {[ 1 := 1%Z ]};
                          FaceOffRound.user 1]
  end.
Proof.
  intros o names timeout before after.
  assert (∀ op, op ∈ before → fromPlayers (oneOf 0 1) op.2) as Hfrom.
  { intros op Hop. unfold before in Hop.
    repeat (apply elem_of_cons in Hop as [->|Hop]; [simpl|]);
      try done; try (by left); try (by right).
    by apply elem_of_nil in Hop. }
  pose proof (faceOffRound_outcome 0 1 o "BC" names before after Hfrom)
    as Hthm.
  destruct (FaceOffRoundFull.play (FaceOffRoundFull.new o "BC") names
              before after) as [[s out]|] eqn:Hplay.
  - assert (FaceOffRoundFull._voteCalls s
            = [[FaceOffRound.null; FaceOffRound.object {[ 1 := 1%Z ]};
                FaceOffRound.user 1]]) as Hcalls.
    { apply (f_equal (λ x, match x with
                           | Some (s, _) => FaceOffRoundFull._voteCalls s
                           | None => []
                           end)) in Hplay.
      cbv beta iota in Hplay. rewrite <- Hplay. vm_compute. reflexivity. }
    destruct Hthm as [_ Hthm]. rewrite Hcalls in Hthm.
    split; [done|]. by destruct Hthm as (_ & _ & Hout & _).
  - vm_compute in Hplay. discriminate.
Defined.

(* ===================================================================== *)
(** * NormalRound: the callback is reached *)
(* ===================================================================== *)

Section CallsBack.

Implicit Types s : NormalRound.t.

Lemma resume_state s (out : list NormalRound.said)
    (ops : list (list (option string) * NormalRound.op)) :
  (foldl (λ acc o,
            let '(s, out) := acc in
            let '(s', out') := NormalRound.step o.1 s o.2 in
            (s', out ++ out'))
         (s, out) ops).1
  = (NormalRound.resume s ops).1.
Proof.
  unfold NormalRound.resume. revert s out.
  induction ops as [|op ops IH]; intros s out; [done|]. simpl.
  destruct (NormalRound.step op.1 s op.2) as [s' out'].
  by rewrite (IH s' (out ++ out')), (IH s' out').
Qed.

Lemma resume_cons s (op : list (option string) * NormalRound.op)
    (ops : list (list (option string) * NormalRound.op)) :
  (NormalRound.resume s (op :: ops)).1
  = (NormalRound.resume (NormalRound.step op.1 s op.2).1 ops).1.
Proof.
  unfold NormalRound.resume at 1. simpl.
  destruct (NormalRound.step op.1 s op.2) as [s' out'].
  apply resume_state.
Qed.

Lemma play_resume s (names : list (option string))
    (ops more : list (list (option string) * NormalRound.op)) :
  (NormalRound.play s names (ops ++ more)).1
  = (NormalRound.resume (NormalRound.play s names ops).1 more).1.
Proof.
  unfold NormalRound.play. rewrite foldl_app.
  destruct (foldl _ (NormalRound.start names s) ops) as [s1 out1].
  apply resume_state.
Qed.

Lemma callsBack_called s : NormalRound._called s ≠ [] → callsBack s.
Proof. intros Hc. exists []. by split. Qed.

Lemma callsBack_step (names : list (option string)) s (op : NormalRound.op) :
  NormalRound.isFiring op = true →
  callsBack (NormalRound.step names s op).1 → callsBack s.
Proof.
  intros Hop (more & Hmore & Hc). exists ((names, op) :: more). split.
  - by constructor.
  - by rewrite resume_cons.
Qed.

Lemma pop_snoc {A} (l : list A) (x : A) : JS.pop (l ++ [x]) = Some (x, l).
Proof.
  unfold JS.pop. rewrite rev_app_distr. simpl. by rewrite rev_involutive.
Qed.

(** The points are shown, one kind after the other. *)
Lemma callsBack_showing (types : list NormalRound.resType) s (d : Z)
    (res : Round.results) :
  NormalRound._timers s = [NormalRound.pointResults d types res]
  ∨ NormalRound._timers s = [NormalRound.morePoints d types res] →
  callsBack s.
Proof.
  revert s d. induction types as [|type types IH] using rev_ind;
    intros s d Htm.
  - apply (callsBack_step [] s (NormalRound.opTimer 0)); [done|].
    apply callsBack_called.
    destruct s as [o st mode round acro set timers called]. simpl in *.
    destruct Htm as [-> | ->]; simpl; by destruct called.
  - apply (callsBack_step [] s (NormalRound.opTimer 0)); [done|].
    destruct s as [o st mode round acro set timers called]. simpl in *.
    destruct Htm as [-> | ->]; simpl; unfold NormalRound._showPoints;
      rewrite pop_snoc; simpl; eapply IH; simpl; eauto.
Qed.

(** The countdown of the vote runs out. *)
Lemma callsBack_voting (ts : list Round.timeout) s :
  NormalRound._round s = ((NormalRound._round s).1, [(false, ts)]) →
  endsInCallback ts = true →
  NormalRound._timers s = [] →
  callsBack s.
Proof.
  revert s. induction ts as [|t ts IH]; [done|]. intros s Hr Hts Htm.
  apply (callsBack_step [] s
           (NormalRound.opRoundTimeout (λ _, JS.mkRandom 0 0) 0)); [done|].
  destruct s as [o st mode [r pending] acro set timers called].
  simpl in Hr, Htm |- *. injection Hr as ->. subst timers.
  destruct (endsInCallback_cases _ Hts)
    as [[d Heq]|(d & secs & rest & Heq & Hrest)].
  - injection Heq as -> ->.
    rewrite ?fire_vote_callback.
    unfold NormalRound.withRound, NormalRound.dispatch. simpl.
    destruct (Round.winner (Round._getResults r)) as [w|] eqn:Hw; simpl.
    + eapply callsBack_showing. simpl. eauto.
    + apply callsBack_called. simpl. by destruct called.
  - injection Heq as -> ->.
    rewrite ?fire_milestone. simpl. by apply IH.
Qed.

(** The vote opens. *)
Lemma callsBack_awaitingVote s (d : Z) (userOrder : list nat) :
  Round._phase (NormalRound._round s).1 = Round.PHASE_STOPPED →
  (NormalRound._round s).2 = [] →
  NormalRound._timers s = [NormalRound.openVote d userOrder] →
  callsBack s.
Proof.
  intros Hp Hpend Htm.
  apply (callsBack_step [] s (NormalRound.opTimer 0)); [done|].
  destruct s as [o st mode [r pending] acro set timers called].
  simpl in *. subst pending timers. simpl.
  unfold NormalRound.fireOpenVote. simpl. rewrite Hp. simpl.
  eapply callsBack_voting; simpl; [done|apply countdown_endsInCallback|done].
Qed.

(** The countdown of the submissions runs out. *)
Lemma callsBack_submitting (ts : list Round.timeout) s :
  Round._phase (NormalRound._round s).1 = Round.PHASE_ACRO →
  NormalRound._round s = ((NormalRound._round s).1, [(true, ts)]) →
  endsInCallback ts = true →
  NormalRound._timers s = [] →
  callsBack s.
Proof.
  revert s. induction ts as [|t ts IH]; [done|]. intros s Hp Hr Hts Htm.
  apply (callsBack_step [] s
           (NormalRound.opRoundTimeout (λ _, JS.mkRandom 0 0) 0)); [done|].
  destruct s as [o st mode [r pending] acro set timers called].
  simpl in Hr, Htm |- *. injection Hr as ->. subst timers.
  destruct (endsInCallback_cases _ Hts)
    as [[d Heq]|(d & secs & rest & Heq & Hrest)].
  - injection Heq as -> ->.
    rewrite ?fire_acro_callback.
    unfold NormalRound.withRound, NormalRound.dispatch. simpl.
    case_decide as Hlen; simpl.
    + eapply callsBack_awaitingVote; simpl; eauto.
    + apply callsBack_called. simpl. by destruct called.
  - injection Heq as -> ->.
    rewrite ?fire_milestone. simpl. by apply IH.
Qed.

End CallsBack.

(** X25. A normal round calls back.  Whatever has happened since
    [start], there are firings of timeouts and timers after which the
    callback has been called, exactly once. *)
Theorem normalRound_calls_back (o : NormalRound.opts)
    (st : NormalRound.settings) (acro : string)
    (userNames : list (option string))
    (ops : list (list (option string) * NormalRound.op)) :
  ∃ more,
    Forall (λ o, NormalRound.isFiring o.2 = true) more
    ∧ ∃ result,
        NormalRound._called
          (NormalRound.play (NormalRound.new o st acro) userNames
             (ops ++ more)).1 = [result].
Proof.
  assert (callsBack
            (NormalRound.play (NormalRound.new o st acro) userNames ops).1)
    as (more & Hmore & Hcalled).
  { destruct (play_staged o st acro userNames ops) as (Ho & Hc & n & Hn).
    destruct (NormalRound.play _ userNames ops) as [s out]. simpl in *.
    destruct n; simpl in Hn.
    - destruct Hn as (Hm & Hp & (ts & Hpend & Hts) & Htm & Hcalled).
      apply (callsBack_submitting ts); try done.
      by destruct (NormalRound._round s) as [r pending]; simpl in *; subst.
    - destruct Hn as (Hm & Hp & Hpend & (d & Htm) & Hcalled & Hlen).
      by apply (callsBack_awaitingVote s d _ Hp Hpend Htm).
    - destruct Hn as (Hm & Hp & Hpend & Htm & Hcalled & Hlen).
      apply callsBack_called. by rewrite Hcalled.
    - destruct Hn as (Hm & Hp & (ts & Hpend & Hts) & Htm & Hcalled & Hlen).
      apply (callsBack_voting ts); try done.
      by destruct (NormalRound._round s) as [r pending]; simpl in *; subst.
    - destruct Hn as (Hm & Hp & Hpend & (d & types & Htm) & _).
      by apply (callsBack_showing types s d _ Htm).
    - destruct Hn as (Hm & Hp & Hpend & Htm & Hcalled & _).
      apply callsBack_called. by rewrite Hcalled.
    - destruct Hn as (Hm & Hp & Hpend & Htm & Hcalled & _).
      apply callsBack_called. by rewrite Hcalled. }
  exists more. split; [done|].
  rewrite <- play_resume in Hcalled.
  destruct (play_staged o st acro userNames (ops ++ more))
    as (Ho & Hc & n & Hn).
  destruct (NormalRound.play _ userNames (ops ++ more)) as [s out].
  simpl in *.
  destruct n; simpl in Hn.
  - by destruct Hn as (_ & _ & _ & _ & Hc').
  - by destruct Hn as (_ & _ & _ & _ & Hc' & _).
  - destruct Hn as (_ & _ & _ & _ & Hc' & _). eauto.
  - by destruct Hn as (_ & _ & _ & _ & Hc' & _).
  - by destruct Hn as (_ & _ & _ & _ & Hc' & _).
  - destruct Hn as (_ & _ & _ & _ & Hc' & _). eauto.
  - destruct Hn as (_ & _ & _ & _ & Hc' & _). eauto.
Qed.

(* ===================================================================== *)
(** * AcroGame._playToCap: the step addPoints *)
(* ===================================================================== *)

Section AddPoints.

Implicit Types points scores : gmap (option nat) JS.num.

Lemma elem_of_Object_keys_x {V} (o : gmap (option nat) V) (k : option nat) :
  k ∈ JS.Object_keys_x o ↔ is_Some (o !! k).
Proof.
  unfold JS.Object_keys_x. rewrite elem_of_app, list_elem_of_fmap.
  split.
  - intros [(u & -> & Hu)|Hnone].
    + rewrite merge_sort_Permutation in Hu.
      apply list_elem_of_omap in Hu as (x & Hx & Hid). simpl in Hid.
      subst x. apply list_elem_of_fmap in Hx as ([k v] & Heq & Hin).
      simpl in Heq. subst k. apply elem_of_map_to_list in Hin. eauto.
    + destruct (o !! None) eqn:Hn; [|by apply elem_of_nil in Hnone].
      apply list_elem_of_singleton in Hnone as ->. eauto.
  - intros [v Hv]. destruct k as [u|].
    + left. exists u. split; [done|].
      rewrite merge_sort_Permutation. apply list_elem_of_omap.
      exists (Some u). split; [|done].
      apply list_elem_of_fmap. exists (Some u, v). split; [done|].
      by apply elem_of_map_to_list.
    + right. rewrite Hv. by apply list_elem_of_singleton.
Qed.

Lemma NoDup_omap_id {A} (l : list (option A)) :
  NoDup l → NoDup (omap id l).
Proof.
  induction 1 as [|x l Hx Hnd IH]; [constructor|].
  destruct x as [a|]; simpl; [|done].
  constructor; [|done].
  intros (y & Hy & Hid)%list_elem_of_omap. simpl in Hid. by subst y.
Qed.

Lemma NoDup_Object_keys_x {V} (o : gmap (option nat) V) :
  NoDup (JS.Object_keys_x o).
Proof.
  unfold JS.Object_keys_x. apply NoDup_app. split_and!.
  - apply (NoDup_fmap_2 Some). rewrite merge_sort_Permutation.
    apply NoDup_omap_id, NoDup_fst_map_to_list.
  - intros k (u & -> & _)%list_elem_of_fmap Hin.
    destruct (o !! None); [|by apply elem_of_nil in Hin].
    by apply list_elem_of_singleton in Hin.
  - destruct (o !! None); constructor; [apply not_elem_of_nil|constructor].
Qed.

(** Each property of the points is added once, to its own score. *)
Lemma addPoints_lookup points scores (k : option nat) :
  AcroGame.addPoints points scores !! k
  = match points !! k with
    | Some val =>
        if JS.truthy val then Some (JS.add (JS.or0 (scores !! k)) val)
        else scores !! k
    | None => scores !! k
    end.
Proof.
  unfold AcroGame.addPoints.
  assert (∀ ks scores,
    NoDup ks →
    foldl (λ scores userId,
             match points !! userId with
             | Some val =>
                 if JS.truthy val
                 then <[userId := JS.add (JS.or0 (scores !! userId)) val]>
                        scores
                 else scores
             | None => scores
             end) scores ks !! k
    = if decide (k ∈ ks)
      then match points !! k with
           | Some val =>
               if JS.truthy val then Some (JS.add (JS.or0 (scores !! k)) val)
               else scores !! k
           | None => scores !! k
           end
      else scores !! k) as Hgen.
  { induction ks as [|x ks IH]; intros sc Hnd.
    - rewrite decide_False; [done|]. by intros ?%elem_of_nil.
    - apply NoDup_cons in Hnd as [Hx Hnd]. cbn [foldl].
      rewrite IH by done. clear IH.
      destruct (decide (k = x)) as [->|Hne].
      + rewrite (decide_False (P := x ∈ ks)) by done.
        rewrite (decide_True (P := x ∈ x :: ks)) by left.
        destruct (points !! x) as [val|]; [|done].
        destruct (JS.truthy val); [|done]. by rewrite lookup_insert_eq.
      + assert (∀ sc' : gmap (option nat) JS.num,
                  sc' = sc ∨ (∃ v, sc' = <[x := v]> sc) →
                  sc' !! k = sc !! k) as Hsame.
        { intros sc' [->|[v ->]]; [done|]. by rewrite lookup_insert_ne. }
        set (sc' := match points !! x with
                    | Some val => if JS.truthy val then _ else sc
                    | None => sc
                    end).
        assert (sc' !! k = sc !! k) as Hk.
        { apply Hsame. unfold sc'. destruct (points !! x) as [val|];
            [|by left]. destruct (JS.truthy val); [right; eauto|by left]. }
        rewrite Hk.
        destruct (decide (k ∈ ks)) as [Hin|Hnin].
        * rewrite decide_True by (by right). done.
        * rewrite decide_False; [done|]. by intros [?|?]%elem_of_cons. }
  rewrite Hgen by apply NoDup_Object_keys_x.
  case_decide as Hin; [done|].
  destruct (points !! k) as [val|] eqn:Hk; [|done].
  exfalso. apply Hin, elem_of_Object_keys_x. eauto.
Qed.

(** The property "null" of the points of a round, if there is one,
    holds NaN. *)
Lemma getPoints_null (o : NormalRound.opts) (res : Round.results) :
  NormalRound._getPoints o res !! None = None
  ∨ NormalRound._getPoints o res !! None = Some JS.NaN.
Proof.
  unfold NormalRound._getPoints. rewrite forfeit_lookup.
  rewrite decide_False by (by intros (y & ? & _)%list_elem_of_fmap).
  unfold NormalRound.accumulated.
  set (p0 := oUtil.forEach _ _ _).
  assert (p0 !! None = None) as H0 by apply votes_copied_lookup.
  set (p1 := NormalRound.addTo (Round.fastestWithVote res) _ p0).
  assert (p1 !! None = None ∨ p1 !! None = Some JS.NaN) as H1.
  { unfold p1, NormalRound.addTo.
    destruct (Round.fastestWithVote res) as [f|].
    - left. by rewrite lookup_insert_ne.
    - right. by rewrite lookup_insert_eq, H0. }
  set (p2 := NormalRound.addTo (Round.winner res) _ p1).
  assert (p2 !! None = None ∨ p2 !! None = Some JS.NaN) as H2.
  { unfold p2, NormalRound.addTo.
    destruct (Round.winner res) as [w|].
    - by rewrite lookup_insert_ne.
    - right. rewrite lookup_insert_eq. by destruct H1 as [-> | ->]. }
  clearbody p2. clear p1 H1 p0 H0.
  revert p2 H2. induction (Round.topVoters res) as [|v vs IH]; intros p2 H2;
    [done|].
  cbn [foldl]. apply IH. by rewrite lookup_insert_ne.
Qed.

End AddPoints.

(** X26. The step [addPoints] after a normal round.  Whatever the
    results, the scores stay an object of numbers under user ids: the
    property "null" that [_getPoints] may leave in the points (holding
    NaN) is not copied, nor is any NaN.  The score of a user goes up by
    the user's points when these are a number other than zero, starting
    from zero for a user without a score, and stays as it is
    otherwise. *)
Theorem addPoints_scoreboard (o : NormalRound.opts) (res : Round.results)
    (scores : gmap nat Z) :
  let points := NormalRound._getPoints o res in
  let scores' := AcroGame.addPoints points (AcroGame.scoresObject scores) in
  scores' !! None = None
  ∧ ∀ u,
      scores' !! Some u
      = JS.Num <$> match points !! Some u with
                   | Some (JS.Num val) =>
                       if (val =? 0)%Z then scores !! u
                       else Some (default 0 (scores !! u) + val)%Z
                   | _ => scores !! u
                   end.
Proof.
  intros points scores'. subst scores' points.
  assert (AcroGame.scoresObject scores !! None = None) as Hnone.
  { unfold AcroGame.scoresObject. apply lookup_kmap_None; [apply _|].
    intros i Hi. done. }
  assert (∀ u, AcroGame.scoresObject scores !! Some u
               = JS.Num <$> scores !! u) as Hsome.
  { intros u. unfold AcroGame.scoresObject.
    rewrite (lookup_kmap Some). apply lookup_fmap. }
  split.
  - rewrite addPoints_lookup.
    by destruct (getPoints_null o res) as [-> | ->].
  - intros u. rewrite addPoints_lookup, Hsome.
    destruct (NormalRound._getPoints o res !! Some u) as [[val|]|]; simpl;
      try done.
    destruct (val =? 0)%Z eqn:Hz; simpl; [done|].
    destruct (scores !! u) as [sc|]; simpl.
    + by rewrite or0_num.
    + done.
Qed.

(* ===================================================================== *)
(** * AcroGame: the options *)
(* ===================================================================== *)

Section Options.

Implicit Types opts : gmap string AcroGame.optVal.

Lemma DEFAULT_OPTS_NoDup : NoDup AcroGame.DEFAULT_OPTS.*1.
Proof. apply (bool_decide_unpack _). vm_compute. reflexivity. Qed.

(** The loop of the constructor: every default, unless the argument
    holds a truthy value under its name. *)
Lemma options_loop opts (defaults : list (string * AcroGame.optVal))
    (key : string) :
  NoDup defaults.*1 →
  foldl (λ (_opts : gmap string AcroGame.optVal) kv,
           <[kv.1 := AcroGame.orElse (opts !! kv.1) kv.2]> _opts)
        ∅ defaults !! key
  = AcroGame.orElse (opts !! key)
      <$> (list_to_map defaults : gmap string AcroGame.optVal) !! key.
Proof.
  induction defaults as [|[k d] l IH] using rev_ind; intros Hnd.
  - simpl. by rewrite !lookup_empty.
  - rewrite fmap_app in Hnd. apply NoDup_app in Hnd as (Hl & Hk & _).
    rewrite foldl_snoc. simpl.
    rewrite list_to_map_snoc by (intros Hin; by apply (Hk k Hin); left).
    destruct (decide (key = k)) as [->|Hne].
    + by rewrite !lookup_insert_eq.
    + rewrite !lookup_insert_ne by done. by apply IH.
Qed.

Lemma options_lookup opts (key : string) :
  AcroGame.options opts !! key
  = if decide (key = "userNames")
    then Some (AcroGame.optRef "this._userNames")
    else if decide (key = "sayPublic")
    then Some (AcroGame.optRef "this._sayPublic.bind(this)")
    else if decide (key = "sayPrivate")
    then Some (AcroGame.optRef "this._sayPrivate.bind(this)")
    else AcroGame.orElse (opts !! key)
           <$> (list_to_map AcroGame.DEFAULT_OPTS
                : gmap string AcroGame.optVal) !! key.
Proof.
  unfold AcroGame.options.
  case_decide as H1; [subst; by rewrite lookup_insert_eq|].
  rewrite lookup_insert_ne by done.
  case_decide as H2; [subst; by rewrite lookup_insert_eq|].
  rewrite lookup_insert_ne by done.
  case_decide as H3; [subst; by rewrite lookup_insert_eq|].
  rewrite lookup_insert_ne by done.
  apply options_loop, DEFAULT_OPTS_NoDup.
Qed.

Lemma orElse_truthy (x : option AcroGame.optVal) (d : AcroGame.optVal) :
  AcroGame.truthyVal d = true →
  AcroGame.truthyVal (AcroGame.orElse x d) = true.
Proof.
  intros Hd. unfold AcroGame.orElse. destruct x as [v|]; [|done].
  by destruct (AcroGame.truthyVal v) eqn:Hv.
Qed.

Lemma defaults_truthy (key : string) (d : AcroGame.optVal) :
  (key, d) ∈ AcroGame.DEFAULT_OPTS →
  key ≠ "inputPrefix" →
  AcroGame.truthyVal d = true.
Proof.
  intros Hin Hne. unfold AcroGame.DEFAULT_OPTS in Hin.
  repeat (apply elem_of_cons in Hin as [[= -> ->]|Hin]; [done|]).
  by apply elem_of_nil in Hin.
Qed.

Lemma merge_pair_lookup {V} (a b : gmap string V) (k : string) :
  oUtil.merge [Some a; Some b] !! k
  = match b !! k with
    | Some v => Some v
    | None => a !! k
    end.
Proof.
  change [Some a; Some b] with ([Some a] ++ [Some b]).
  rewrite merge_snoc.
  change [Some a] with ([] ++ [Some a]).
  rewrite merge_snoc. unfold oUtil.merge at 1. simpl.
  rewrite (right_id_L ∅ (∪)). rewrite lookup_union.
  by destruct (b !! k), (a !! k).
Qed.

End Options.

(** X27. The options of a game, whatever the constructor is given.
    They are the properties of [DEFAULT_OPTS] and [userNames], no other
    property of the argument being taken over.  Each holds the value
    given if that value is truthy and the default otherwise
    ([sayPrivate] and [sayPublic] apart, which hold the bound methods of
    the game); so every option but [inputPrefix] is truthy, and a
    number option given as 0 holds its default.  The options handed to
    the rounds hold no [acroSecs], which the face-off round reads for
    its opening message. *)
Theorem options_of_a_game (opts : gmap string AcroGame.optVal) :
  let _opts := AcroGame.options opts in
  (∀ key, is_Some (_opts !! key)
          ↔ key = "userNames" ∨ key ∈ AcroGame.DEFAULT_OPTS.*1)
  ∧ (∀ key d, (key, d) ∈ AcroGame.DEFAULT_OPTS →
              key ≠ "sayPrivate" → key ≠ "sayPublic" →
              _opts !! key = Some (AcroGame.orElse (opts !! key) d))
  ∧ (∀ key v, _opts !! key = Some v → key ≠ "inputPrefix" →
              AcroGame.truthyVal v = true)
  ∧ (∀ user1 user2 numLetters,
       AcroGame.faceOffRoundOptions
         (AcroGame.faceOffOptions _opts user1 user2) numLetters
       !! "acroSecs" = None)
  ∧ (∀ numLetters,
       AcroGame.normalRoundOptions _opts numLetters !! "acroSecs" = None).
Proof.
  intros _opts. subst _opts.
  assert (∀ key, is_Some ((list_to_map AcroGame.DEFAULT_OPTS
                           : gmap string AcroGame.optVal) !! key)
                 ↔ key ∈ AcroGame.DEFAULT_OPTS.*1) as Hdom.
  { intros key. split.
    - intros [d Hd]. apply elem_of_list_to_map_2 in Hd.
      apply list_elem_of_fmap. by exists (key, d).
    - intros ([k d] & -> & Hin)%list_elem_of_fmap. exists d.
      apply elem_of_list_to_map_1; [apply DEFAULT_OPTS_NoDup|done]. }
  assert ("acroSecs" ∉ AcroGame.DEFAULT_OPTS.*1) as Hacro.
  { apply (bool_decide_unpack _). vm_compute. reflexivity. }
  assert (AcroGame.options opts !! "acroSecs" = None) as Hnone.
  { rewrite options_lookup. repeat (case_decide; [done|]).
    destruct ((list_to_map AcroGame.DEFAULT_OPTS
               : gmap string AcroGame.optVal) !! "acroSecs") as [d|] eqn:Hd;
      [|done].
    exfalso. apply Hacro, Hdom. eauto. }
  split_and!.
  - intros key. rewrite options_lookup.
    case_decide as H1; [subst; split; [by left|eauto]|].
    case_decide as H2.
    { subst. split; [intros _; right|eauto].
      apply (bool_decide_unpack _). vm_compute. reflexivity. }
    case_decide as H3.
    { subst. split; [intros _; right|eauto].
      apply (bool_decide_unpack _). vm_compute. reflexivity. }
    rewrite fmap_is_Some, Hdom. split; [by right|by intros [?|?]].
  - intros key d Hin Hpriv Hpub. rewrite options_lookup.
    assert (key ≠ "userNames") as Hnames.
    { intros ->. revert Hin. unfold AcroGame.DEFAULT_OPTS.
      intros Hin.
      repeat (apply elem_of_cons in Hin as [[=]|Hin]).
      by apply elem_of_nil in Hin. }
    rewrite !decide_False by done.
    by rewrite (elem_of_list_to_map_1 _ _ _ DEFAULT_OPTS_NoDup Hin).
  - intros key v. rewrite options_lookup.
    case_decide; [by intros [= <-]|].
    case_decide; [by intros [= <-]|].
    case_decide; [by intros [= <-]|].
    destruct ((list_to_map AcroGame.DEFAULT_OPTS
               : gmap string AcroGame.optVal) !! key) as [d|] eqn:Hd;
      [|done]. simpl.
    intros [= <-] Hne. apply orElse_truthy.
    apply (defaults_truthy key); [|done].
    by apply elem_of_list_to_map_2.
  - intros user1 user2 numLetters.
    unfold AcroGame.faceOffRoundOptions, AcroGame.faceOffOptions.
    rewrite merge_pair_lookup, lookup_singleton_ne by done.
    by rewrite merge_pair_lookup, lookup_singleton_ne by done.
  - intros numLetters. unfold AcroGame.normalRoundOptions.
    by rewrite merge_pair_lookup, lookup_singleton_ne by done.
Qed.

(* ===================================================================== *)
(** * index.js: the games of the channels *)
(* ===================================================================== *)

Section Registry.

Context {H : Type}.
Variable nick : string.
Variable runGame : AcroGame.t H → AcroGame.t H * list AcroGame.delivery.
Variable h : H.
Hypothesis runGame_flags :
  ∀ g, AcroGame._ended (runGame g).1 = AcroGame._ended g
       ∧ AcroGame._running (runGame g).1 = AcroGame._running g.
Implicit Types s : Acrophobia.t H.
Implicit Types games : list (string * nat).

Lemma get_None (channel : string) games :
  Acrophobia.get channel games = None ↔ channel ∉ games.*1.
Proof.
  induction games as [|[c i] games IH]; simpl.
  - split; [intros _; apply not_elem_of_nil|done].
  - case_decide as Hc.
    + subst. split; [done|]. intros Hn. exfalso. apply Hn. by left.
    + rewrite IH, not_elem_of_cons. simpl. split; [done|by intros [_ ?]].
Qed.

Lemma get_Some (channel : string) (i : nat) games :
  NoDup games.*1 →
  Acrophobia.get channel games = Some i ↔ (channel, i) ∈ games.
Proof.
  induction games as [|[c j] games IH]; simpl; intros Hnd.
  - split; [done|by intros ?%elem_of_nil].
  - apply NoDup_cons in Hnd as [Hc Hnd]. case_decide as Heq.
    + subst c. split.
      * intros [= ->]. by left.
      * intros [[= ->]|Hin]%elem_of_cons; [done|].
        exfalso. apply Hc. apply list_elem_of_fmap. by exists (channel, i).
    + rewrite (IH Hnd). split; [by right|].
      intros [[= ? ?]|Hin]%elem_of_cons; [by subst|done].
Qed.

Lemma elem_of_remove (channel c : string) (i : nat) games :
  (c, i) ∈ Acrophobia.remove channel games ↔ (c, i) ∈ games ∧ c ≠ channel.
Proof.
  unfold Acrophobia.remove. rewrite list_elem_of_filter. simpl.
  split; by intros [? ?].
Qed.

Lemma NoDup_remove (channel : string) games :
  NoDup games.*1 → NoDup (Acrophobia.remove channel games).*1.
Proof.
  unfold Acrophobia.remove. induction games as [|[c i] games IH]; [done|].
  simpl. intros [Hc Hnd]%NoDup_cons. rewrite filter_cons. simpl.
  case_decide; [|by apply IH]. simpl. apply NoDup_cons. split; [|by apply IH].
  intros ([c' j] & Heq & Hin)%list_elem_of_fmap. simpl in Heq. subst c'.
  apply list_elem_of_filter in Hin as [_ Hin].
  apply Hc. apply list_elem_of_fmap. by exists (c, j).
Qed.

Lemma endEmitted_ends (ev : list AcroGame.emitted) :
  Acrophobia.endEmitted ev = true ↔ 0 < ends ev.
Proof.
  unfold Acrophobia.endEmitted, ends.
  induction ev as [|e ev IH]; [simpl; split; [done|lia]|].
  destruct e as [|w|natural].
  - by rewrite filter_cons_False.
  - by rewrite filter_cons_False.
  - rewrite filter_cons_True by done. simpl. split; [lia|done].
Qed.

(** Whatever happens to a game, the registry follows. *)
Lemma onGame_registered (i : nat) (c : AcroGame.course) s :
  registered s →
  match Acrophobia.onGame runGame i c s with
  | Some (s', _) => registered s'
  | None => True
  end.
Proof.
  intros [Hnd Hreg]. unfold Acrophobia.onGame.
  destruct (Acrophobia.created s !! i) as [[channel g]|] eqn:Hi; [|done].
  pose proof (courseStep_flags runGame runGame_flags g c) as Hflags.
  destruct (AcroGame.courseStep runGame g c) as [[[g' out] ev]|]; [|done].
  destruct (Hflags g' out ev eq_refl) as [Hends _]. clear Hflags.
  assert (i < length (Acrophobia.created s)) as Hlt
    by (apply lookup_lt_is_Some; eauto).
  destruct (Acrophobia.endEmitted ev) eqn:Hev.
  - apply endEmitted_ends in Hev.
    assert (AcroGame._ended g = false ∧ AcroGame._ended g' = true)
      as [Hg Hg'].
    { destruct (AcroGame._ended g), (AcroGame._ended g'); split; try done;
        lia. }
    assert ((channel, i) ∈ Acrophobia.games s) as Hin
      by (apply Hreg; eauto).
    split; [by apply NoDup_remove|]. simpl.
    intros c' j. rewrite elem_of_remove, Hreg.
    destruct (decide (j = i)) as [->|Hne].
    + rewrite list_lookup_insert_eq by done. split.
      * intros [(g0 & Hg0 & He0) Hc']. rewrite Hi in Hg0.
        injection Hg0 as -> ->. done.
      * intros (g0 & [= -> <-] & He0). congruence.
    + rewrite list_lookup_insert_ne by done. split.
      * by intros [? _].
      * intros (g0 & Hg0 & He0). split; [eauto|].
        intros ->.
        assert ((channel, j) ∈ Acrophobia.games s) as Hj
          by (apply Hreg; eauto).
        apply Hne.
        apply (get_Some channel j _ Hnd) in Hj.
        apply (get_Some channel i _ Hnd) in Hin. congruence.
  - assert (ends ev = 0) as Hz.
    { destruct (decide (0 < ends ev)) as [Hpos|]; [|lia].
      apply endEmitted_ends in Hpos. congruence. }
    assert (AcroGame._ended g' = AcroGame._ended g) as Hsame.
    { destruct (AcroGame._ended g), (AcroGame._ended g'); try done; lia. }
    split; [done|]. simpl. intros c' j. rewrite Hreg.
    destruct (decide (j = i)) as [->|Hne].
    + rewrite list_lookup_insert_eq by done. rewrite Hi. split.
      * intros (g0 & [= -> <-] & He0). exists g'. by rewrite Hsame.
      * intros (g0 & [= -> <-] & He0). exists g. by rewrite <- Hsame.
    + by rewrite list_lookup_insert_ne by done.
Qed.

Lemma startGame_registered (replyTo channel : string) s :
  registered s → registered (Acrophobia.startGame nick h replyTo channel s).1.
Proof.
  intros [Hnd Hreg]. unfold Acrophobia.startGame.
  destruct (Acrophobia.get channel (Acrophobia.games s)) eqn:Hget; [done|].
  apply get_None in Hget. unfold registered.
  cbn [fst Acrophobia.games Acrophobia.created]. split.
  - rewrite fmap_app. simpl. apply NoDup_app. split_and!; [done| |].
    + intros c Hc ->%list_elem_of_singleton. done.
    + apply NoDup_singleton.
  - intros c j. rewrite elem_of_app, list_elem_of_singleton, Hreg.
    split.
    + intros [(g & Hg & He)|[= -> ->]].
      * exists g. split; [|done]. by apply lookup_app_l_Some.
      * exists (AcroGame.new h). split; [|done].
        by rewrite lookup_app_r, Nat.sub_diag by lia.
    + intros (g & Hg & He).
      destruct (decide (j < length (Acrophobia.created s))) as [Hlt|Hge].
      * rewrite lookup_app_l in Hg by done. left. eauto.
      * rewrite lookup_app_r in Hg by lia.
        destruct (j - length (Acrophobia.created s)) as [|n] eqn:Hn;
          [|done].
        simpl in Hg. injection Hg as -> <-. right. f_equal. lia.
Qed.

Lemma remove_absent (channel : string) games :
  channel ∉ games.*1 → Acrophobia.remove channel games = games.
Proof.
  unfold Acrophobia.remove. induction games as [|[c i] games IH]; [done|].
  simpl. intros [Hc Hin]%not_elem_of_cons. rewrite filter_cons. simpl.
  rewrite decide_True by done. by rewrite IH.
Qed.

Lemma stopGame_registered (replyTo channel : string) s :
  registered s →
  match Acrophobia.stopGame runGame replyTo channel s with
  | Some (s', _) => registered s'
  | None => True
  end.
Proof.
  intros Hs. unfold Acrophobia.stopGame.
  destruct (Acrophobia.get channel (Acrophobia.games s)) as [i|] eqn:Hget;
    [|done].
  pose proof (onGame_registered i (AcroGame.fromOutside AcroGame.opStop) s Hs)
    as Hs'.
  destruct Hs as [Hnd Hreg].
  apply (get_Some channel i _ Hnd) in Hget.
  apply Hreg in Hget as (g & Hg & He).
  unfold Acrophobia.onGame in *. rewrite Hg in *. simpl in *.
  unfold AcroGame.stop in *. rewrite He in *. simpl in *.
  destruct Hs' as [Hnd' Hreg']. split; simpl.
  - rewrite remove_absent; [done|].
    intros ([c j] & Hc & Hin)%list_elem_of_fmap. simpl in Hc. subst c.
    by apply elem_of_remove in Hin as [_ ?].
  - rewrite remove_absent; [done|].
    intros ([c j] & Hc & Hin)%list_elem_of_fmap. simpl in Hc. subst c.
    by apply elem_of_remove in Hin as [_ ?].
Qed.

(** A loop keeps what each of its passes keeps. *)
Lemma eachChannel_registered (channels : list string)
    (pass : string → Acrophobia.t H
            → option (Acrophobia.t H * list Acrophobia.notice)) s :
  (∀ channel s, registered s →
                match pass channel s with
                | Some (s', _) => registered s'
                | None => True
                end) →
  registered s →
  match Acrophobia.eachChannel channels pass s with
  | Some (s', _) => registered s'
  | None => True
  end.
Proof.
  intros Hpass. unfold Acrophobia.eachChannel.
  generalize (@nil Acrophobia.notice). revert s.
  induction channels as [|c channels IH]; intros s out Hs; [done|].
  simpl. pose proof (Hpass c s Hs) as Hs'.
  destruct (pass c s) as [[s' out']|]; [by apply IH|].
  clear. by induction channels.
Qed.

Lemma stopAll_registered s :
  registered s →
  match Acrophobia.stopAll runGame s with
  | Some (s', _) => registered s'
  | None => True
  end.
Proof.
  intros Hs. apply eachChannel_registered; [|done].
  intros channel s'. apply stopGame_registered.
Qed.

Lemma partHandler_registered (channel nick' : string) s :
  registered s →
  match Acrophobia.partHandler runGame channel nick' s with
  | Some (s', _) => registered s'
  | None => True
  end.
Proof.
  intros Hs. unfold Acrophobia.partHandler.
  destruct (Acrophobia.get channel (Acrophobia.games s)) as [i|]; [|done].
  by apply onGame_registered.
Qed.

Lemma nickHandler_registered (oldNick newNick : string)
    (channels : list string) s :
  registered s →
  match Acrophobia.nickHandler runGame oldNick newNick channels s with
  | Some (s', _) => registered s'
  | None => True
  end.
Proof.
  intros Hs. apply eachChannel_registered; [|done].
  intros channel s' Hs'.
  destruct (Acrophobia.get channel (Acrophobia.games s')) as [i|]; [|done].
  by apply onGame_registered.
Qed.

Lemma quitHandler_registered (nick' : string) (channels : list string) s :
  registered s →
  match Acrophobia.quitHandler runGame nick' channels s with
  | Some (s', _) => registered s'
  | None => True
  end.
Proof.
  intros Hs. apply eachChannel_registered; [|done].
  intros channel s'. apply partHandler_registered.
Qed.

Lemma step_registered s (o : Acrophobia.op) :
  registered s →
  match Acrophobia.step nick runGame h s o with
  | Some (s', _) => registered s'
  | None => True
  end.
Proof.
  intros Hs.
  destruct o as [from to target input onChannel|from to target|from to target
                |oldNick newNick channels|channel nick'|nick' channels|
                |k|i e]; simpl.
  - case_decide; [done|]. unfold Acrophobia.acroInput.
    destruct (Acrophobia.get target (Acrophobia.games s)) as [i|]; [|done].
    destruct onChannel; [|done].
    by apply onGame_registered.
  - pose proof (startGame_registered (if Acrophobia.inChan to then to
                                      else from) target s Hs) as Hs'.
    by destruct (Acrophobia.startGame nick h _ target s).
  - by apply stopGame_registered.
  - destruct (Acrophobia.listening s); [|done].
    by apply nickHandler_registered.
  - destruct (Acrophobia.listening s); [|done].
    by apply partHandler_registered.
  - destruct (Acrophobia.listening s); [|done].
    by apply quitHandler_registered.
  - pose proof (stopAll_registered s Hs) as Hs'.
    by destruct (Acrophobia.stopAll runGame s) as [[s' out]|].
  - destruct (Acrophobia.timers s !! k) as [channel|]; [|done]. simpl.
    destruct (Acrophobia.get channel (Acrophobia.games s)) as [i|]; [|done].
    set (s1 := Acrophobia.mk _ _ _ _).
    assert (registered s1) as Hs1 by done.
    by apply onGame_registered.
  - by apply onGame_registered.
Qed.

Lemma run_registered (ops : list Acrophobia.op) s :
  registered s →
  match Acrophobia.run nick runGame h s ops with
  | Some (s', _) => registered s'
  | None => True
  end.
Proof.
  revert s. induction ops as [|o ops IH]; intros s Hs; [done|]. simpl.
  pose proof (step_registered s o Hs) as Hstep.
  destruct (Acrophobia.step nick runGame h s o) as [[s' out]|]; [|done].
  specialize (IH s' Hstep).
  by destruct (Acrophobia.run nick runGame h s' ops) as [[s'' out']|].
Qed.

End Registry.

(** X28. The games of the module, through whatever happens to it
    (commands, events of the client, [unload], start timers, the games
    going their course) as long as nothing throws: [games] holds, under
    each channel, the game created for that channel that has not ended,
    and nothing else; so no channel has two games that have not ended.
    A started game is assumed to keep its flags [_ended] and
    [_running] while [_runGame] sets it going. *)
Theorem one_game_per_channel {H : Type} (nick : string)
    (runGame : AcroGame.t H → AcroGame.t H * list AcroGame.delivery) (h : H)
    (ops : list Acrophobia.op) :
  (∀ g, AcroGame._ended (runGame g).1 = AcroGame._ended g
        ∧ AcroGame._running (runGame g).1 = AcroGame._running g) →
  match Acrophobia.run nick runGame h Acrophobia.init ops with
  | Some (s, _) =>
      (∀ channel i,
         Acrophobia.get channel (Acrophobia.games s) = Some i
         ↔ ∃ g, Acrophobia.created s !! i = Some (channel, g)
                ∧ AcroGame._ended g = false)
      ∧ ∀ channel i j g g',
          Acrophobia.created s !! i = Some (channel, g) →
          Acrophobia.created s !! j = Some (channel, g') →
          AcroGame._ended g = false → AcroGame._ended g' = false →
          i = j
  | None => True
  end.
Proof.
  intros Hflags.
  assert (registered (Acrophobia.init (H := H))) as Hinit.
  { split; [constructor|]. intros channel i. simpl. split.
    - by intros ?%elem_of_nil.
    - by intros (g & Hg & _). }
  pose proof (run_registered nick runGame h Hflags ops _ Hinit) as Hrun.
  destruct (Acrophobia.run nick runGame h Acrophobia.init ops)
    as [[s out]|]; [|done].
  destruct Hrun as [Hnd Hreg].
  assert (∀ channel i,
            Acrophobia.get channel (Acrophobia.games s) = Some i
            ↔ ∃ g, Acrophobia.created s !! i = Some (channel, g)
                   ∧ AcroGame._ended g = false) as Hget.
  { intros channel i. by rewrite (get_Some channel i _ Hnd). }
  split; [done|].
  intros channel i j g g' Hi Hj He He'.
  assert (Acrophobia.get channel (Acrophobia.games s) = Some i) as Gi
    by (apply Hget; eauto).
  assert (Acrophobia.get channel (Acrophobia.games s) = Some j) as Gj
    by (apply Hget; eauto).
  congruence.
Qed.

Lemma one_game_per_channel_witness :
  match Acrophobia.run "toady" (λ g : AcroGame.t unit, (g, [])) tt
          Acrophobia.init
          [Acrophobia.cmdAcrostart "amy" "#room" "#room";
           Acrophobia.cmdAcrostart "bob" "toady" "#room";
           Acrophobia.opStartTimer 0;
           Acrophobia.cmdAcrostop "amy" "#room" "#room";
           Acrophobia.cmdAcrostart "bob" "toady" "#room"] with
  | Some (s, _) =>
      (∀ channel i,
         Acrophobia.get channel (Acrophobia.games s) = Some i
         ↔ ∃ g, Acrophobia.created s !! i = Some (channel, g)
                ∧ AcroGame._ended g = false)
      ∧ ∀ channel i j g g',
          Acrophobia.created s !! i = Some (channel, g) →
          Acrophobia.created s !! j = Some (channel, g') →
          AcroGame._ended g = false → AcroGame._ended g' = false →
          i = j
  | None => True
  end.
Proof.
  apply (one_game_per_channel "toady" (λ g : AcroGame.t unit, (g, [])) tt).
  intros g. split; reflexivity.
Defined.

(* ===================================================================== *)
(** * FaceOff: the course of the face-off *)
(* ===================================================================== *)

Section FaceOffRounds.

Variable P : nat → Prop.
Implicit Types r : FaceOffRoundFull.t.

Lemma faceOffRound_idle_step (names : list (option string)) r
    (op : FaceOffRoundFull.op) :
  idle r → FaceOffRoundFull.step names r op = (r, []).
Proof.
  destruct r as [o' mode [rd pending] acro set order handlers timers acalls
                 vcalls].
  intros (Hm & Hp & Ht). simpl in *. subst.
  by destruct op as [now userId phrase|userId voteStr|draws k|k].
Qed.

Lemma faceOffRound_new_idle (ro : FaceOffRoundFull.opts) (acro : string) :
  idle (FaceOffRoundFull.new ro acro).
Proof. done. Qed.

(** Before [startVote]: no call of its callback, at most one of the
    callback of [startAcro]; the round is idle once that one is
    made. *)
Lemma staged_early (ro : FaceOffRoundFull.opts) r :
  faceOffStaged P ro false r →
  FaceOffRoundFull._voteCalls r = []
  ∧ (FaceOffRoundFull._acroCalls r = 0
     ∨ FaceOffRoundFull._acroCalls r = 1 ∧ idle r
       ∧ is_Some (FaceOffRoundFull._userOrder r)).
Proof.
  intros (_ & _ & _ & n & Hst & Hn).
  destruct n; simpl in Hst, Hn; try done.
  - destruct Hn as (_ & _ & _ & _ & _ & _ & -> & ->). split; [done|by left].
  - destruct Hn as (Hm & _ & Hp & -> & _ & Ht & -> & ->).
    split; [done|]. right. by repeat split.
Qed.

(** After [startVote]: the callback of [startAcro] has been called
    once; that of [startVote] not yet, or once with the arguments due,
    the round being idle from then on. *)
Lemma staged_late (ro : FaceOffRoundFull.opts) r :
  faceOffStaged P ro true r →
  FaceOffRoundFull._acroCalls r = 1
  ∧ (FaceOffRoundFull._voteCalls r = []
     ∨ FaceOffRoundFull._voteCalls r
       = [voteArgs ro (FaceOffRoundFull._round r).1] ∧ idle r).
Proof.
  intros (Ho & _ & _ & n & Hst & Hn).
  destruct n; simpl in Hst, Hn; try done.
  - destruct Hn as (_ & _ & _ & _ & -> & -> & _). split; [done|by left].
  - destruct Hn as (_ & _ & _ & _ & -> & ->). split; [done|by left].
  - destruct Hn as (_ & _ & _ & _ & _ & -> & -> & _). split; [done|by left].
  - destruct Hn as (_ & _ & _ & _ & -> & -> & _). split; [done|by left].
  - destruct Hn as (_ & _ & _ & _ & -> & -> & _). split; [done|by left].
  - destruct Hn as (Hm & Hp & Ht & -> & ->). split; [done|]. right.
    rewrite Ho. by repeat split.
Qed.

Lemma startVote_calls (names : list (option string)) r r'
    (out : list NormalRound.said) :
  FaceOffRoundFull.startVote names r = Some (r', out) →
  FaceOffRoundFull._voteCalls r' = FaceOffRoundFull._voteCalls r
  ∧ FaceOffRoundFull._acroCalls r' = FaceOffRoundFull._acroCalls r.
Proof.
  unfold FaceOffRoundFull.startVote.
  destruct (FaceOffRoundFull._userOrder r) as [[|u1 [|u2 rest]]|];
    try done; try (by intros [= <- <-]).
  all: unfold FaceOffRoundFull._runVote;
    destruct (Round.startVote _ _) as [round sigs]; by intros [= <- <-].
Qed.

End FaceOffRounds.

Section Filters.

Context {A : Type}.
Variable f : A → bool.
Implicit Types l : list A.

Lemma filter_true_snoc l (x : A) :
  filter (λ y, f y = true) (l ++ [x])
  = filter (λ y, f y = true) l ++ (if f x then [x] else []).
Proof.
  rewrite filter_app. f_equal.
  destruct (f x) eqn:Hx.
  - by rewrite filter_cons_True.
  - rewrite filter_cons_False; [done|]. by rewrite Hx.
Qed.

Lemma filter_true_delete_other l (k : nat) (x : A) :
  l !! k = Some x → f x = false →
  filter (λ y, f y = true) (delete k l) = filter (λ y, f y = true) l.
Proof.
  revert k. induction l as [|y l IH]; intros k Hk Hx; [done|].
  destruct k as [|k]; simpl in *.
  - injection Hk as ->. rewrite filter_cons_False; [done|]. by rewrite Hx.
  - rewrite !filter_cons. by rewrite (IH k Hk Hx).
Qed.

Lemma filter_true_delete_single l (k : nat) (x y : A) :
  l !! k = Some x → f x = true →
  filter (λ y, f y = true) l = [y] →
  x = y ∧ filter (λ y, f y = true) (delete k l) = [].
Proof.
  revert k. induction l as [|z l IH]; intros k Hk Hx Hf; [done|].
  destruct k as [|k]; simpl in *.
  - injection Hk as ->. rewrite filter_cons_True in Hf by done.
    by injection Hf as -> ->.
  - rewrite filter_cons in Hf. rewrite filter_cons.
    destruct (decide (f z = true)) as [Hz|Hz].
    + injection Hf as -> Hnil.
      assert (x ∈ filter (λ y, f y = true) l) as Hin.
      { apply list_elem_of_filter. split; [done|].
        by apply list_elem_of_lookup_2 in Hk. }
      rewrite Hnil in Hin. by apply elem_of_nil in Hin.
    + by apply IH.
Qed.

Lemma filter_true_nil_lookup l (k : nat) (x : A) :
  l !! k = Some x → filter (λ y, f y = true) l = [] → f x = false.
Proof.
  intros Hk Hnil. destruct (f x) eqn:Hx; [|done].
  assert (x ∈ filter (λ y, f y = true) l) as Hin.
  { apply list_elem_of_filter. split; [done|].
    by apply list_elem_of_lookup_2 in Hk. }
  rewrite Hnil in Hin. by apply elem_of_nil in Hin.
Qed.

End Filters.

Section FaceOffCourse.

Variables a b lo hi : nat.
Variable o : FaceOffFull.opts.
Variable acros : nat → string.
Hypothesis Hplayers : FaceOffFull.players o = [a; b].
Hypothesis Hlohi : lo < hi.
Hypothesis Hab : a = lo ∧ b = hi ∨ a = hi ∧ b = lo.
Implicit Types r : FaceOffRoundFull.t.
Implicit Types s : FaceOffFull.t.

Lemma isNew_idle (i : nat) r : isNew o acros i r → idle r.
Proof. by intros ->. Qed.

Lemma isQueued_idle (i : nat) r : isQueued a b o i r → idle r.
Proof.
  intros [Hs Hc]. destruct (staged_early _ _ _ Hs) as [_ [H0|(_ & Hi & _)]];
    [congruence|done].
Qed.

Lemma isDone_idle (i : nat) r : isDone a b o i r → idle r.
Proof.
  intros [Hs Hc]. by destruct (staged_late _ _ _ Hs) as [_ [H0|[_ Hi]]].
Qed.

Lemma new_startAcro (i : nat) r :
  isNew o acros i r → inAcro a b o i (FaceOffRoundFull.startAcro r).1.
Proof.
  intros ->. split; [apply faceOff_startAcro_staged|done].
Qed.

Lemma inAcro_step (names : list (option string)) (i : nat) r
    (op : FaceOffRoundFull.op) :
  inAcro a b o i r →
  fromPlayers (oneOf a b) op →
  let r' := (FaceOffRoundFull.step names r op).1 in
  FaceOffRoundFull._voteCalls r = []
  ∧ FaceOffRoundFull._voteCalls r' = []
  ∧ (inAcro a b o i r' ∨ isQueued a b o i r').
Proof.
  intros [Hs Hc] Hop r'.
  pose proof (faceOff_step_staged _ _ false names r op (λ _, Hop) Hs) as Hs'.
  fold r' in Hs'.
  destruct (staged_early _ _ _ Hs) as [Hv _].
  destruct (staged_early _ _ _ Hs') as [Hv' [H0|[H1 _]]].
  - split_and!; try done. by left.
  - split_and!; try done. by right.
Qed.

Lemma isQueued_startVote (names : list (option string)) (i : nat) r :
  isQueued a b o i r →
  ∃ r' out, FaceOffRoundFull.startVote names r = Some (r', out)
            ∧ inVote a b o i r'.
Proof.
  intros [Hs Hc].
  pose proof (faceOff_startVote_staged _ _ names r Hs) as Hsv.
  destruct (staged_early _ _ _ Hs) as [Hv [H0|(_ & _ & [order Horder])]];
    [congruence|].
  destruct (FaceOffRoundFull.startVote names r) as [[r' out]|] eqn:Hstart;
    [|congruence].
  exists r', out. split; [done|]. split; [done|].
  destruct (startVote_calls names r r' out Hstart) as [-> _]. done.
Qed.

Lemma inVote_step (names : list (option string)) (i : nat) r
    (op : FaceOffRoundFull.op) :
  inVote a b o i r →
  let r' := (FaceOffRoundFull.step names r op).1 in
  FaceOffRoundFull._acroCalls r' = FaceOffRoundFull._acroCalls r
  ∧ (inVote a b o i r'
     ∨ isDone a b o i r'
       ∧ ∃ args, FaceOffRoundFull._voteCalls r' = [args]
                 ∧ roundOutcome a b args).
Proof.
  intros [Hs Hc] r'.
  assert (faceOffStaged (oneOf a b) (FaceOffFull.roundOpts o i) true r')
    as Hs'.
  { apply faceOff_step_staged; [done|done]. }
  destruct (staged_late _ _ _ Hs) as [Ha _].
  destruct (staged_late _ _ _ Hs') as [Ha' [Hv'|[Hv' _]]].
  - split; [congruence|]. by left.
  - split; [congruence|]. right. split.
    + split; [done|]. by rewrite Hv'.
    + eexists. split; [done|].
      destruct Hs' as (_ & Hcons & Hpl & _).
      by apply voteArgs_roundOutcome.
Qed.

Lemma faceOff_withRound_same s (i : nat) r :
  FaceOffFull._rounds s !! i = Some r → FaceOffFull.withRound s i r = s.
Proof.
  intros Hi. unfold FaceOffFull.withRound. rewrite list_insert_id by done.
  by destruct s.
Qed.

(** Nothing happens to a round that does not react. *)
Lemma onRound_idle (names : list (option string)) (i : nat)
    (op : FaceOffRoundFull.op) s r :
  FaceOffFull._rounds s !! i = Some r → idle r →
  FaceOffFull.onRound names i op s = Some (s, []).
Proof.
  intros Hi Hidle. unfold FaceOffFull.onRound. rewrite Hi.
  rewrite (faceOffRound_idle_step names r op Hidle).
  rewrite decide_False by lia. rewrite drop_all. simpl.
  by rewrite (faceOff_withRound_same s i r Hi).
Qed.

(** The states of the rounds after one of them has moved on. *)
Lemma status_insert (d f d' f' : nat) (c c' : chain) (j : nat) r'
    (rounds : list FaceOffRoundFull.t) :
  j < length rounds →
  (∀ i r, rounds !! i = Some r → status a b o acros d f c i r) →
  status a b o acros d' f' c' j r' →
  (∀ i r, i ≠ j → status a b o acros d f c i r →
          status a b o acros d' f' c' i r) →
  ∀ i r, <[j := r']> rounds !! i = Some r → status a b o acros d' f' c' i r.
Proof.
  intros Hj Hall Hnew Hother i r Hi.
  destruct (decide (i = j)) as [->|Hne].
  - rewrite list_lookup_insert_eq in Hi by done. by injection Hi as <-.
  - rewrite list_lookup_insert_ne in Hi by done. apply Hother; [done|].
    by apply Hall.
Qed.

Lemma showScores_state (names : list (option string)) s :
  (FaceOffFull.showScores names s).1
  = FaceOffFull.addTimer s
      (FaceOffFull.scoresShown
         (FaceOffFull.secsBetweenMessages (FaceOffFull._opts s))
         (scoreWinner (FaceOff._tables (FaceOffFull._queue s)))).
Proof. done. Qed.

Local Arguments FaceOff.voteDone : simpl never.
Local Arguments FaceOffFull.showScores : simpl never.

Ltac status_solve :=
  unfold status; repeat case_decide; try done; try lia;
  try (exfalso; intuition (first [lia | congruence | discriminate])).

Ltac inv_split :=
  unfold faceOffInv, faceOffCore, chainClause, announceClause; simpl;
  split_and!; try done; try lia;
  rewrite ?length_insert; try done.

(** A round takes a step: the face-off keeps its course. *)
Lemma faceOff_onRound_inv (names : list (option string)) (i : nat)
    (op : FaceOffRoundFull.op) s (d f : nat) (c : chain) (an : announce) :
  faceOffInv a b o acros lo hi d f c an s →
  fromPlayers (oneOf a b) op →
  ∃ s' out d' f' c' an',
    FaceOffFull.onRound names i op s = Some (s', out)
    ∧ faceOffInv a b o acros lo hi d' f' c' an' s'.
Proof.
  intros Hinv Hop.
  destruct (FaceOffFull._rounds s !! i) as [r|] eqn:Hi.
  2:{ unfold FaceOffFull.onRound. rewrite Hi. eauto 10. }
  assert (idle r →
          ∃ s' out d' f' c' an',
            FaceOffFull.onRound names i op s = Some (s', out)
            ∧ faceOffInv a b o acros lo hi d' f' c' an' s') as Hidle.
  { intros Hidle. rewrite (onRound_idle names i op s r Hi Hidle). eauto 10. }
  pose proof Hinv as ((Ho & Hlen & Hdf & Hcv & Hrun & Hq & Hcur & Hrounds
                       & Htbl) & Hchain & Hann).
  unfold chainClause, announceClause in Hchain, Hann.
  assert (i < length (FaceOffFull._rounds s)) as Hilt
    by (apply lookup_lt_is_Some; eauto).
  pose proof (Hrounds i r Hi) as Hst. unfold status in Hst.
  destruct (decide (i < d)) as [Hid|Hid];
    [by apply Hidle, (isDone_idle i)|].
  destruct (decide (i < f)) as [Hif|Hif].
  - destruct (decide (i = d)) as [->|Hne];
      [|by apply Hidle, (isQueued_idle i)].
    (* the round in its vote *)
    unfold FaceOffFull.onRound. rewrite Hi.
    pose proof (inVote_step names d r op Hst) as (Hac & Hnext).
    destruct Hst as [Hstaged Hv].
    destruct (FaceOffRoundFull.step names r op) as [r' out] eqn:Hstep.
    simpl in Hac, Hnext. rewrite Hac, Hv. rewrite decide_False by lia.
    simpl.
    destruct Hnext as [[Hs' Hv']|[Hdone (args & Hv' & Hargs)]]; rewrite Hv'.
    + simpl.
      exists (FaceOffFull.withRound s d r'), out, d, f, c, an.
      split; [done|]. inv_split.
      apply (status_insert d f d f c c d r'); try done.
      unfold status. repeat case_decide; try done; lia.
    + cbn [foldl]. unfold FaceOffFull.voteCallback, FaceOff.voteCallback.
      cbn.
      rewrite Hcv, Ho, Hq.
      assert (twoPlayerTables lo hi
                (FaceOff.voteDone (FaceOff._tables (FaceOffFull._queue s))
                   args)) as Htbl'.
      { apply voteDone_twoPlayerTables; [done| |done].
        destruct Hab as [[-> ->]|[-> ->]]; [by left|by right]. }
      assert (an = anIdle) as ->.
      { destruct an; try done; destruct Hann as [Hdn _]; lia. }
      destruct Hann as (_ & Hat & Hcalled).
      destruct (Z.of_nat d + 1 =? Z.of_nat (FaceOffFull.faceOffRounds o))%Z
        eqn:Hlast.
      * (* the last vote: the winner is announced *)
        assert (S d = FaceOffFull.faceOffRounds o) as Hn by lia.
        assert (f = FaceOffFull.faceOffRounds o) as Hf by lia.
        unfold FaceOffFull.performAll. cbn.
        destruct (FaceOffFull.showScores names _) as [s1 out1] eqn:Hshow.
        apply (f_equal fst) in Hshow. rewrite showScores_state in Hshow.
        cbn in Hshow. subst s1.
        eexists _, _, (S d), f, c, anScores. split; [reflexivity|].
        unfold faceOffInv, faceOffCore, chainClause, announceClause.
        cbn. rewrite Ho.
        rewrite !filter_true_snoc. cbn. rewrite !app_nil_r, Hat.
        split_and!; try done; try lia.
        -- by rewrite length_insert.
        -- symmetry. apply bool_decide_eq_false. lia.
        -- replace (f - S d) with 0 by lia.
           by replace (f - S (S d)) with 0 by lia.
        -- rewrite Hcur. rewrite decide_True by lia.
           rewrite decide_False by lia. rewrite decide_False by lia.
           f_equal. lia.
        -- apply (status_insert d f (S d) f c c d r'); try done.
           ++ unfold status. rewrite decide_True by lia. done.
           ++ intros i0 r0 Hne0. unfold status.
              repeat case_decide; try done; try lia.
        -- by eexists.
      * assert (S d < FaceOffFull.faceOffRounds o) as Hn by lia.
        destruct (decide (f = S d)) as [->|Hfd].
        -- (* no round is waiting for its vote *)
           replace (S d - S d) with 0 by lia. cbn.
           eexists _, _, (S d), (S d), c, anIdle. split; [reflexivity|].
           unfold faceOffInv, faceOffCore, chainClause, announceClause.
           cbn. rewrite Ho.
           split_and!; try done; try lia.
           ++ by rewrite length_insert.
           ++ symmetry. apply bool_decide_eq_false. lia.
           ++ by replace (d - S d) with 0 by lia.
           ++ rewrite Hcur. rewrite decide_True by lia.
              rewrite decide_False by lia. rewrite decide_False by lia.
              f_equal. lia.
           ++ apply (status_insert d (S d) (S d) (S d) c c d r'); try done.
              ** unfold status. rewrite decide_True by lia. done.
              ** intros i0 r0 Hne0. unfold status.
                 repeat case_decide; try done; try lia.
        -- (* the vote of the next round starts *)
           assert (f - S d = S (f - S (S d))) as -> by lia. cbn.
           unfold FaceOff._startVoteRound. cbn.
           unfold FaceOffFull.performAll. cbn.
           assert (S d < length (FaceOffFull._rounds s)) as Hlt by lia.
           destruct (lookup_lt_is_Some_2 _ _ Hlt) as [r1 Hr1].
           rewrite list_lookup_insert_ne by lia. rewrite Hr1.
           pose proof (Hrounds (S d) r1 Hr1) as Hst1. unfold status in Hst1.
           rewrite decide_False in Hst1 by lia.
           rewrite decide_True in Hst1 by lia.
           rewrite decide_False in Hst1 by lia.
           destruct (isQueued_startVote names (S d) r1 Hst1)
             as (r2 & out2 & -> & Hvote2).
           eexists _, _, (S d), f, c, anIdle. split; [reflexivity|].
           unfold faceOffInv, faceOffCore, chainClause, announceClause.
           cbn. rewrite Ho.
           split_and!; try done; try lia.
           ++ by rewrite !length_insert.
           ++ symmetry. apply bool_decide_eq_true. lia.
           ++ by rewrite decide_True by lia.
           ++ intros i0 r0 Hlk.
              destruct (decide (i0 = S d)) as [->|H1].
              { rewrite list_lookup_insert_eq in Hlk
                  by (rewrite length_insert; lia).
                injection Hlk as <-. unfold status.
                rewrite decide_False by lia. rewrite decide_True by lia.
                by rewrite decide_True. }
              rewrite list_lookup_insert_ne in Hlk by done.
              destruct (decide (i0 = d)) as [->|H2].
              { rewrite list_lookup_insert_eq in Hlk by lia.
                injection Hlk as <-. unfold status.
                by rewrite decide_True by lia. }
              rewrite list_lookup_insert_ne in Hlk by done.
              apply Hrounds in Hlk. unfold status in *.
              repeat case_decide; try done; try lia.
  - destruct (decide (i = f ∧ c = chPlaying)) as [[-> ->]|Hne];
      [|by apply Hidle, (isNew_idle i)].
    (* the round taking phrases *)
    destruct Hchain as (Hfn & Hcura & Hct).
    unfold FaceOffFull.onRound. rewrite Hi.
    pose proof (inAcro_step names f r op Hst Hop) as (Hv & Hv' & Hnext).
    destruct Hst as [Hstaged Hac].
    destruct (FaceOffRoundFull.step names r op) as [r' out] eqn:Hstep.
    simpl in Hv', Hnext. rewrite Hv, Hv', Hac. simpl.
    destruct Hnext as [[Hs' Hac']|[Hs' Hac']]; rewrite Hac'.
    + rewrite decide_False by lia.
      exists (FaceOffFull.withRound s f r'), out, d, f, chPlaying, an.
      split; [done|]. inv_split.
      apply (status_insert d f d f chPlaying chPlaying f r'); try done.
      unfold status. repeat case_decide; try done; try lia;
        exfalso; tauto.
    + (* the submissions close: the callback of startAcro *)
      rewrite decide_True by lia.
      unfold FaceOffFull.acroCallback, FaceOff._addVoteRound. cbn.
      rewrite Hrun, Hq.
      destruct (decide (d < f)) as [Hlt|Hge].
      * rewrite bool_decide_eq_true_2 by done. cbn.
        eexists _, _, d, (S f), chBetween, an. split; [reflexivity|].
        unfold faceOffInv, faceOffCore, chainClause, announceClause. cbn.
        rewrite !filter_true_snoc. cbn. rewrite Hct, app_nil_r.
        split_and!; try done; try lia.
        -- by rewrite length_insert.
        -- symmetry. apply bool_decide_eq_true. lia.
        -- replace (f - d) with (S (f - S d)) by lia.
           rewrite seq_S. do 2 f_equal. lia.
        -- rewrite Hcur. by rewrite !decide_True by lia.
        -- apply (status_insert d f d (S f) chPlaying chBetween f r');
             try done.
           ++ unfold status. rewrite decide_False by lia.
              rewrite decide_True by lia. by rewrite decide_False by lia.
           ++ intros i0 r0 Hne0. status_solve.
        -- rewrite Hcura. f_equal. lia.
        -- rewrite Nat.sub_0_r. by eexists.
      * assert (f = d) as -> by lia.
        rewrite bool_decide_eq_false_2 by lia. cbn.
        replace (d - S d) with 0 by lia. cbn.
        unfold FaceOff._startVoteRound. cbn.
        unfold FaceOffFull.performAll. cbn.
        rewrite list_lookup_insert_eq by done.
        destruct (isQueued_startVote names d r' (conj Hs' Hac'))
          as (r2 & out2 & -> & Hvote2).
        cbn.
        eexists _, _, d, (S d), chBetween, an. split; [reflexivity|].
        unfold faceOffInv, faceOffCore, chainClause, announceClause. cbn.
        rewrite !filter_true_snoc. cbn. rewrite Hct, app_nil_r.
        split_and!; try done; try lia.
        -- by rewrite !length_insert.
        -- symmetry. apply bool_decide_eq_true. lia.
        -- by replace (d - d) with 0 by lia.
        -- by rewrite decide_True by lia.
        -- rewrite list_insert_insert_eq.
           apply (status_insert d d d (S d) chPlaying chBetween d r2);
             try done.
           ++ unfold status. rewrite decide_False by lia.
              rewrite decide_True by lia. by rewrite decide_True.
           ++ intros i0 r0 Hne0. status_solve.
        -- rewrite Hcura. f_equal. lia.
        -- rewrite Nat.sub_0_r. by eexists.
Qed.

Lemma faceOff_userInput_inv (names : list (option string)) (now : Z)
    (userId : nat)
    (msg : string) s (d f : nat) (c : chain) (an : announce) :
  faceOffInv a b o acros lo hi d f c an s →
  ∃ s' out d' f' c' an',
    FaceOffFull.userInput names now userId msg s = Some (s', out)
    ∧ faceOffInv a b o acros lo hi d' f' c' an' s'.
Proof.
  intros Hinv. unfold FaceOffFull.userInput.
  pose proof Hinv as ((Ho & _) & _). rewrite Ho, Hplayers.
  case_bool_decide as Hin.
  - destruct (FaceOffFull._curAcroRound s) as [i|]; [|eauto 10].
    apply (faceOff_onRound_inv _ _ _ _ d f c an); [done|]. simpl. unfold oneOf.
    apply elem_of_cons in Hin as [->|Hin]; [by left|].
    apply list_elem_of_singleton in Hin as ->. by right.
  - destruct (FaceOff._curVoteRound (FaceOffFull._queue s)) as [j|];
      [|eauto 10].
    by apply (faceOff_onRound_inv _ _ _ _ d f c an).
Qed.

Lemma announceWinner_scoreWinner (fo : FaceOff.t) :
  FaceOff._announceWinner fo
  = match scoreWinner fo with
    | Some w => Some (Some w)
    | None => FaceOff._getFastestPlayer fo
    end.
Proof. done. Qed.

Lemma isChain_not_announce (tm : FaceOffFull.timer) :
  isChain tm = true → isAnnounce tm = false.
Proof. by destruct tm. Qed.

Lemma isAnnounce_not_chain (tm : FaceOffFull.timer) :
  isAnnounce tm = true → isChain tm = false.
Proof. by destruct tm. Qed.

(** A round is started, or the rounds are through. *)
Lemma faceOff_playRound_inv s (d f : nat) (c : chain) :
  faceOffCore a b o acros lo hi d f c s →
  c ≠ chPlaying →
  filter (λ tm, isChain tm = true) (FaceOffFull._timers s) = [] →
  FaceOffFull._curAcroRound s
  = (if decide (f = 0) then None else Some (f - 1)) →
  ∃ c', faceOffCore a b o acros lo hi d f c' (FaceOffFull.playRound f s).1
        ∧ chainClause o f c' (FaceOffFull.playRound f s).1
        ∧ FaceOffFull._timers (FaceOffFull.playRound f s).1
          = FaceOffFull._timers s
        ∧ FaceOffFull._called (FaceOffFull.playRound f s).1
          = FaceOffFull._called s
        ∧ FaceOffFull._queue (FaceOffFull.playRound f s).1
          = FaceOffFull._queue s.
Proof.
  intros (Ho & Hlen & Hdf & Hcv & Hrun & Hq & Hcur & Hrounds & Htbl)
         Hc Hct Hcura.
  unfold FaceOffFull.playRound.
  destruct (FaceOffFull._rounds s !! f) as [r|] eqn:Hf.
  - assert (f < length (FaceOffFull._rounds s)) as Hlt
      by (apply lookup_lt_is_Some; eauto).
    pose proof (Hrounds f r Hf) as Hst. unfold status in Hst.
    rewrite decide_False in Hst by lia. rewrite decide_False in Hst by lia.
    rewrite decide_False in Hst by tauto.
    pose proof (new_startAcro f r Hst) as Hacro.
    destruct (FaceOffRoundFull.startAcro r) as [r' out]. simpl in Hacro.
    exists chPlaying. unfold faceOffCore, chainClause. cbn.
    split_and!; try done; try lia.
    + by rewrite length_insert.
    + apply (status_insert d f d f c chPlaying f r'); try done.
      * unfold status. rewrite decide_False by lia.
        rewrite decide_False by lia. by rewrite decide_True.
      * intros i0 r0 Hne0. status_solve.
  - apply lookup_ge_None in Hf.
    exists chFinished. unfold faceOffCore, chainClause. cbn.
    split_and!; try done; try lia.
    + intros i0 r0 Hi0. apply Hrounds in Hi0. revert Hi0. status_solve.
    + rewrite Hcura. assert (f = FaceOffFull.faceOffRounds o) as -> by lia.
      done.
Qed.

(** The clauses read the timers by their kind only. *)
Lemma chainClause_same (f : nat) (c : chain) s s' :
  filter (λ tm, isChain tm = true) (FaceOffFull._timers s')
  = filter (λ tm, isChain tm = true) (FaceOffFull._timers s) →
  FaceOffFull._curAcroRound s' = FaceOffFull._curAcroRound s →
  chainClause o f c s → chainClause o f c s'.
Proof. unfold chainClause. by intros -> ->. Qed.

Lemma announceClause_same (d : nat) (an : announce) s s' :
  filter (λ tm, isAnnounce tm = true) (FaceOffFull._timers s')
  = filter (λ tm, isAnnounce tm = true) (FaceOffFull._timers s) →
  FaceOffFull._called s' = FaceOffFull._called s →
  FaceOffFull._queue s' = FaceOffFull._queue s →
  announceClause o d an s → announceClause o d an s'.
Proof. unfold announceClause. by intros -> -> ->. Qed.

Lemma faceOffCore_same (d f : nat) (c : chain) s s' :
  FaceOffFull._opts s' = FaceOffFull._opts s →
  FaceOffFull._rounds s' = FaceOffFull._rounds s →
  FaceOffFull._queue s' = FaceOffFull._queue s →
  faceOffCore a b o acros lo hi d f c s →
  faceOffCore a b o acros lo hi d f c s'.
Proof. unfold faceOffCore. by intros -> -> ->. Qed.

(** The timer that fired was the one the course was waiting for. *)
Lemma chain_timer_fired (f : nat) (c : chain) s (k : nat)
    (tm : FaceOffFull.timer) :
  FaceOffFull._timers s !! k = Some tm →
  isChain tm = true →
  chainClause o f c s →
  filter (λ tm, isChain tm = true) (delete k (FaceOffFull._timers s)) = []
  ∧ FaceOffFull._curAcroRound s
    = (if decide (f = 0) then None else Some (f - 1))
  ∧ c ≠ chPlaying
  ∧ match tm with
    | FaceOffFull.introduced _ _ _ => c = chIntro ∧ f = 0
    | FaceOffFull.instructed _ => c = chInstructed ∧ f = 0
    | FaceOffFull.roundPlayed _ i => c = chBetween ∧ i + 1 = f
    | _ => False
    end.
Proof.
  intros Hk Htm Hc. unfold chainClause in Hc.
  destruct c.
  - destruct Hc as (-> & Hcur & delay & p1 & p2 & Hct).
    destruct (filter_true_delete_single _ _ _ _ _ Hk Htm Hct) as [-> Hnil].
    by rewrite Hcur.
  - destruct Hc as (-> & Hcur & delay & Hct).
    destruct (filter_true_delete_single _ _ _ _ _ Hk Htm Hct) as [-> Hnil].
    by rewrite Hcur.
  - destruct Hc as (_ & _ & Hct).
    pose proof (filter_true_nil_lookup _ _ _ _ Hk Hct). congruence.
  - destruct Hc as (Hf & Hcur & delay & Hct).
    destruct (filter_true_delete_single _ _ _ _ _ Hk Htm Hct) as [-> Hnil].
    rewrite Hcur. rewrite decide_False by lia. split_and!; try done. lia.
  - destruct Hc as (_ & Hct & _).
    pose proof (filter_true_nil_lookup _ _ _ _ Hk Hct). congruence.
Qed.

Lemma announce_timer_fired (d : nat) (an : announce) s (k : nat)
    (tm : FaceOffFull.timer) :
  FaceOffFull._timers s !! k = Some tm →
  isAnnounce tm = true →
  announceClause o d an s →
  filter (λ tm, isAnnounce tm = true) (delete k (FaceOffFull._timers s)) = []
  ∧ d = FaceOffFull.faceOffRounds o
  ∧ FaceOffFull._called s = []
  ∧ match tm with
    | FaceOffFull.scoresShown _ winner =>
        winner = scoreWinner (FaceOff._tables (FaceOffFull._queue s))
    | FaceOffFull.tieShown _ | FaceOffFull.fastestShown _ _ =>
        scoreWinner (FaceOff._tables (FaceOffFull._queue s)) = None
    | _ => False
    end.
Proof.
  intros Hk Htm Ha. unfold announceClause in Ha.
  destruct an.
  - destruct Ha as (_ & Hat & _).
    pose proof (filter_true_nil_lookup _ _ _ _ Hk Hat). congruence.
  - destruct Ha as (-> & Hcalled & delay & Hat).
    by destruct (filter_true_delete_single _ _ _ _ _ Hk Htm Hat)
      as [-> Hnil].
  - destruct Ha as (-> & Hcalled & Hsw & delay & Hat).
    by destruct (filter_true_delete_single _ _ _ _ _ Hk Htm Hat)
      as [-> Hnil].
  - destruct Ha as (-> & Hcalled & Hsw & delay & idx & Hat).
    by destruct (filter_true_delete_single _ _ _ _ _ Hk Htm Hat)
      as [-> Hnil].
  - destruct Ha as (_ & Hat & _).
    pose proof (filter_true_nil_lookup _ _ _ _ Hk Hat). congruence.
Qed.

Lemma faceOffCore_chain (d f : nat) (c c' : chain) s :
  c ≠ chPlaying → c' ≠ chPlaying →
  faceOffCore a b o acros lo hi d f c s →
  faceOffCore a b o acros lo hi d f c' s.
Proof.
  intros Hc Hc' (Ho & Hlen & Hdf & Hcv & Hrun & Hq & Hcur & Hrounds & Htbl).
  unfold faceOffCore. split_and!; try done; try lia.
  intros i r Hi. apply Hrounds in Hi. revert Hi. status_solve.
Qed.

(** The fastest of each round are shown, then the winner is known. *)
Lemma faceOff_showFastest_inv (names : list (option string)) (idx : nat) s
    (d f : nat) (c : chain) :
  faceOffCore a b o acros lo hi d f c s →
  chainClause o f c s →
  d = FaceOffFull.faceOffRounds o →
  FaceOffFull._called s = [] →
  filter (λ tm, isAnnounce tm = true) (FaceOffFull._timers s) = [] →
  scoreWinner (FaceOff._tables (FaceOffFull._queue s)) = None →
  ∃ an, faceOffInv a b o acros lo hi d f c an
          (FaceOffFull._showFastestRounds names idx s).1.
Proof.
  intros Hcore Hchain Hd Hcalled Hat Hsw.
  unfold FaceOffFull._showFastestRounds.
  destruct (FaceOff._fastestRounds _ !! idx) as [fastest|].
  - exists anFastest. split; [|split].
    + by apply (faceOffCore_same d f c s).
    + apply (chainClause_same f c s); [|done|done]. cbn.
      rewrite filter_true_snoc. cbn. by rewrite app_nil_r.
    + unfold announceClause. cbn. rewrite filter_true_snoc. cbn.
      rewrite Hat. split_and!; try done. by eexists _, _.
  - destruct Hcore as (Ho & Hlen & Hdf & Hcv & Hrun & Hq & Hcur & Hrounds
                       & Htbl).
    destruct (getFastestPlayer_twoPlayerTables lo hi Hlohi _ Htbl)
      as (p & Hp & _).
    rewrite Hp. exists anCalled. split; [|split].
    + by unfold faceOffCore.
    + by apply (chainClause_same f c s).
    + unfold announceClause. cbn. rewrite Hcalled.
      split_and!; try done.
      by rewrite announceWinner_scoreWinner, Hsw, Hp.
Qed.

(** A timer of the face-off fires: the face-off keeps its course. *)
Lemma faceOff_timer_inv (names : list (option string)) (k : nat) s (d f : nat)
    (c : chain) (an : announce) :
  faceOffInv a b o acros lo hi d f c an s →
  ∃ s' out d' f' c' an',
    FaceOffFull.step names s (FaceOffFull.opTimer k) = Some (s', out)
    ∧ faceOffInv a b o acros lo hi d' f' c' an' s'.
Proof.
  intros (Hcore & Hchain & Hann). cbn [FaceOffFull.step].
  destruct (FaceOffFull._timers s !! k) as [tm|] eqn:Hk;
    [|by exists s, [], d, f, c, an].
  set (s0 := FaceOffFull.mk _ _ _ _ _ _).
  assert (faceOffCore a b o acros lo hi d f c s0) as Hcore0
    by (by apply (faceOffCore_same d f c s)).
  assert (isChain tm = false →
          chainClause o f c s0) as Hchain0.
  { intros Htm. apply (chainClause_same f c s); [|done|done].
    by apply filter_true_delete_other with tm. }
  assert (isAnnounce tm = false →
          announceClause o d an s0) as Hann0.
  { intros Htm. apply (announceClause_same d an s); [|done|done|done].
    by apply filter_true_delete_other with tm. }
  destruct tm as [dl p1 p2|dl|dl msgs|dl i|dl w|dl|dl idx|dl];
    cbn [FaceOffFull.fireTimer].
  - (* introduce is over: instruct *)
    destruct (chain_timer_fired f c s k _ Hk eq_refl Hchain)
      as (Hct0 & Hcura & Hc & -> & ->).
    specialize (Hann0 eq_refl).
    unfold FaceOffFull.instruct, FaceOffFull._explainFaceOff,
      FaceOffFull._sayGapFiller.
    destruct (negb (FaceOff._votingStarted (FaceOffFull._queue s0))); cbn.
    + eexists _, _, d, 0, chInstructed, an. split; [reflexivity|].
      split; [|split].
      * apply (faceOffCore_chain d 0 chIntro); try done.
      * unfold chainClause. cbn. rewrite !filter_true_snoc. cbn.
        rewrite Hct0. split_and!; try done. by eexists.
      * apply (announceClause_same d an s0); try done. cbn.
        rewrite !filter_true_snoc. cbn. by rewrite !app_nil_r.
    + eexists _, _, d, 0, chInstructed, an. split; [reflexivity|].
      split; [|split].
      * apply (faceOffCore_chain d 0 chIntro); try done.
      * unfold chainClause. cbn. rewrite !filter_true_snoc. cbn.
        rewrite Hct0. split_and!; try done. by eexists.
      * apply (announceClause_same d an s0); try done. cbn.
        rewrite !filter_true_snoc. cbn. by rewrite !app_nil_r.
  - (* instruct is over: the first round *)
    destruct (chain_timer_fired f c s k _ Hk eq_refl Hchain)
      as (Hct0 & Hcura & Hc & -> & ->).
    specialize (Hann0 eq_refl).
    destruct (faceOff_playRound_inv s0 d 0 chInstructed Hcore0 Hc Hct0 Hcura)
      as (c' & Hcore' & Hchain' & Ht' & Hcalled' & Hq').
    destruct (FaceOffFull.playRound 0 s0) as [s1 out1]. simpl in *.
    exists s1, out1, d, 0, c', an. split; [done|]. split; [done|].
    split; [done|].
    apply (announceClause_same d an s0); try done. by rewrite Ht'.
  - (* the gap filler *)
    specialize (Hchain0 eq_refl). specialize (Hann0 eq_refl).
    unfold FaceOffFull._sayGapFiller.
    destruct msgs as [|msg rest];
      [by exists s0, [], d, f, c, an|].
    destruct (negb (FaceOff._votingStarted (FaceOffFull._queue s0)));
      [|by exists s0, [], d, f, c, an].
    eexists _, _, d, f, c, an. split; [reflexivity|].
    split; [done|]. split.
    + apply (chainClause_same f c s0); try done. cbn.
      rewrite filter_true_snoc. cbn. by rewrite app_nil_r.
    + apply (announceClause_same d an s0); try done. cbn.
      rewrite filter_true_snoc. cbn. by rewrite app_nil_r.
  - (* the pause after a round: the next round *)
    destruct (chain_timer_fired f c s k _ Hk eq_refl Hchain)
      as (Hct0 & Hcura & Hc & -> & Hif).
    specialize (Hann0 eq_refl). rewrite Hif.
    destruct (faceOff_playRound_inv s0 d f chBetween Hcore0 Hc Hct0 Hcura)
      as (c' & Hcore' & Hchain' & Ht' & Hcalled' & Hq').
    destruct (FaceOffFull.playRound f s0) as [s1 out1]. simpl in *.
    exists s1, out1, d, f, c', an. split; [done|]. split; [done|].
    split; [done|].
    apply (announceClause_same d an s0); try done. by rewrite Ht'.
  - (* the scores were shown *)
    destruct (announce_timer_fired d an s k _ Hk eq_refl Hann)
      as (Hat0 & Hd & Hcalled & Hw).
    specialize (Hchain0 eq_refl).
    destruct w as [w|].
    + exists (FaceOffFull.call s0 (Some (Some w))), [], d, f, c, anCalled.
      split; [done|]. split; [done|]. split; [done|].
      unfold announceClause. cbn. rewrite Hcalled.
      split_and!; try done.
      by rewrite announceWinner_scoreWinner, <- Hw.
    + eexists _, _, d, f, c, anTie. split; [reflexivity|].
      split; [done|]. split.
      * apply (chainClause_same f c s0); try done. cbn.
        rewrite filter_true_snoc. cbn. by rewrite app_nil_r.
      * unfold announceClause. cbn. rewrite filter_true_snoc. cbn.
        rewrite Hat0. split_and!; try done. by eexists.
  - (* the tie was told *)
    destruct (announce_timer_fired d an s k _ Hk eq_refl Hann)
      as (Hat0 & Hd & Hcalled & Hw).
    specialize (Hchain0 eq_refl).
    destruct (faceOff_showFastest_inv names 0 s0 d f c Hcore0 Hchain0 Hd Hcalled
                Hat0 Hw) as [an' Hinv'].
    destruct (FaceOffFull._showFastestRounds names 0 s0) as [s1 out1].
    by exists s1, out1, d, f, c, an'.
  - (* the fastest of a round was shown *)
    destruct (announce_timer_fired d an s k _ Hk eq_refl Hann)
      as (Hat0 & Hd & Hcalled & Hw).
    specialize (Hchain0 eq_refl).
    destruct (faceOff_showFastest_inv names idx s0 d f c Hcore0 Hchain0 Hd
                Hcalled
                Hat0 Hw) as [an' Hinv'].
    destruct (FaceOffFull._showFastestRounds names idx s0) as [s1 out1].
    by exists s1, out1, d, f, c, an'.
  - by destruct (announce_timer_fired d an s k _ Hk eq_refl Hann)
      as (_ & _ & _ & ?).
Qed.

Lemma faceOff_step_inv (names : list (option string)) (op : FaceOffFull.op) s
    (d f : nat) (c : chain) (an : announce) :
  faceOffInv a b o acros lo hi d f c an s →
  ∃ s' out d' f' c' an',
    FaceOffFull.step names s op = Some (s', out)
    ∧ faceOffInv a b o acros lo hi d' f' c' an' s'.
Proof.
  intros Hinv. destruct op as [now userId msg|i draws k|i k|k].
  - by apply (faceOff_userInput_inv _ _ _ _ _ d f c an).
  - by apply (faceOff_onRound_inv _ _ _ _ d f c an).
  - by apply (faceOff_onRound_inv _ _ _ _ d f c an).
  - by apply (faceOff_timer_inv _ _ _ d f c an).
Qed.

Lemma faceOff_run_inv (ops : list (list (option string) * FaceOffFull.op)) s
    (d f : nat) (c : chain) (an : announce) :
  faceOffInv a b o acros lo hi d f c an s →
  ∃ s' out d' f' c' an',
    FaceOffFull.run s ops = Some (s', out)
    ∧ faceOffInv a b o acros lo hi d' f' c' an' s'.
Proof.
  revert s d f c an.
  induction ops as [|[names op] ops IH]; intros s d f c an Hinv.
  - by exists s, [], d, f, c, an.
  - destruct (faceOff_step_inv names op s d f c an Hinv)
      as (s1 & out1 & d1 & f1 & c1 & an1 & Hstep & Hinv1).
    destruct (IH s1 d1 f1 c1 an1 Hinv1)
      as (s2 & out2 & d2 & f2 & c2 & an2 & Hrun & Hinv2).
    exists s2, (out1 ++ out2), d2, f2, c2, an2. split; [|done].
    cbn [FaceOffFull.run fst snd]. by rewrite Hstep, Hrun.
Qed.

Lemma faceOff_start_inv (names : list (option string)) :
  faceOffInv a b o acros lo hi 0 0 chIntro anIdle
    (FaceOffFull.start names (FaceOffFull.new o acros)).1.
Proof.
  split; [|split].
  - unfold faceOffCore. cbn. split_and!; try done; try lia.
    + by rewrite length_map, length_seq.
    + intros i r Hi. rewrite list_lookup_fmap in Hi.
      destruct (seq 0 (FaceOffFull.faceOffRounds o) !! i) as [j|] eqn:Hj;
        [|done].
      apply lookup_seq in Hj as [-> _]. simpl in Hi.
      injection Hi as <-. unfold status.
      rewrite decide_False by lia. rewrite decide_False by lia.
      rewrite decide_False by (by intros [_ ?]). done.
    + rewrite Hplayers.
      destruct (new_twoPlayerTables lo hi Hlohi) as [H1 H2].
      by destruct Hab as [[-> ->]|[-> ->]].
  - unfold chainClause. cbn. split_and!; try done. by eexists _, _, _.
  - unfold announceClause. cbn. split_and!; try done.
    destruct (FaceOffFull.faceOffRounds o); [by right|left; lia].
Qed.

(** Whatever happens to a started face-off, nothing throws, and the
    callback of [start] was called at most once, after the last vote,
    with the winner. *)
Lemma faceOff_play_inv (names : list (option string))
    (ops : list (list (option string) * FaceOffFull.op)) :
  ∃ s out,
    FaceOffFull.play o acros names ops = Some (s, out)
    ∧ twoPlayerTables lo hi (FaceOff._tables (FaceOffFull._queue s))
    ∧ (FaceOffFull._called s = []
       ∨ FaceOffFull._called s
         = [FaceOff._announceWinner (FaceOff._tables (FaceOffFull._queue s))]
         ∧ FaceOff._completedVotes (FaceOffFull._queue s)
           = Z.of_nat (FaceOffFull.faceOffRounds o)).
Proof.
  pose proof (faceOff_start_inv names) as Hinv. unfold FaceOffFull.play.
  destruct (FaceOffFull.start names (FaceOffFull.new o acros))
    as [s0 out0]. simpl in Hinv.
  destruct (faceOff_run_inv ops s0 _ _ _ _ Hinv)
    as (s & out & d & f & c & an & -> & Hcore & _ & Hann).
  exists s, (out0 ++ out). split; [done|].
  destruct Hcore as (_ & _ & _ & Hcv & _ & _ & _ & _ & Htbl).
  split; [done|].
  destruct an; simpl in Hann.
  - left. by destruct Hann as (_ & _ & ?).
  - left. by destruct Hann as (_ & ? & _).
  - left. by destruct Hann as (_ & ? & _).
  - left. by destruct Hann as (_ & ? & _).
  - right. destruct Hann as (-> & _ & ->). done.
Qed.

End FaceOffCourse.

(** X29. A face-off between two players never throws, whatever is
    typed by whom and in whatever order its timers and those of its
    rounds fire.  The callback given to [start] is called at most once,
    only when every round has been voted on, and with one of the two
    players: the one [_announceWinner] finds in the tables then. *)
Theorem faceOff_outcome (a b : nat) (o : FaceOffFull.opts)
    (acros : nat → string) (names : list (option string))
    (ops : list (list (option string) * FaceOffFull.op)) :
  FaceOffFull.players o = [a; b] →
  a ≠ b →
  ∃ s out,
    FaceOffFull.play o acros names ops = Some (s, out)
    ∧ (FaceOffFull._called s = []
       ∨ ∃ p,
           FaceOffFull._called s = [Some (Some p)]
           ∧ (p = a ∨ p = b)
           ∧ FaceOff._announceWinner
               (FaceOff._tables (FaceOffFull._queue s)) = Some (Some p)
           ∧ FaceOff._completedVotes (FaceOffFull._queue s)
             = Z.of_nat (FaceOffFull.faceOffRounds o)).
Proof.
  intros Hplayers Hne.
  assert (∃ lo hi, lo < hi ∧ (a = lo ∧ b = hi ∨ a = hi ∧ b = lo))
    as (lo & hi & Hlohi & Hab).
  { destruct (decide (a < b)); [exists a, b|exists b, a];
      (split; [lia|tauto]). }
  destruct (faceOff_play_inv a b lo hi o acros Hplayers Hlohi Hab names ops)
    as (s & out & Hplay & Htbl & Hcalled).
  exists s, out. split; [done|].
  destruct Hcalled as [Hnone|[Hone Hcv]]; [by left|right].
  destruct (announceWinner_twoPlayerTables lo hi Hlohi _ Htbl)
    as (p & q & cp & cq & Hw & Hpq & _).
  exists p. rewrite Hone, Hw. split_and!; try done.
  destruct Hab as [[-> ->]|[-> ->]]; destruct Hpq as [[-> _]|[-> _]]; tauto.
Qed.

Lemma faceOff_outcome_witness :
  let o := FaceOffFull.mkOpts [0; 1] 1 2 30 5 2 1 7 "!" None in
  let names := [Some "ann"; Some "bob"; Some "cy"] in
  let timer k := (names, FaceOffFull.opTimer k) in
  let timeout :=
    (names, FaceOffFull.opRoundTimeout 0 (λ _, JS.mkRandom 0 0) 0) in
  let ops :=
    [timer 0; timer 1;
     (names, FaceOffFull.opUserInput 5 0 "big cat");
     (names, FaceOffFull.opUserInput 6 1 "bad cow");
     timeout; timeout; timeout; timeout; timeout;
     (names, FaceOffFull.opUserInput 7 2 "2");
     timeout; timeout; timeout; timeout; timeout;
     (names, FaceOffFull.opRoundTimer 0 0);
     (names, FaceOffFull.opRoundTimer 0 0);
     timer 0; timer 0; timer 0] in
  FaceOffFull.players o = [0; 1]
  ∧ 0 ≠ 1
  ∧ ∃ s out,
      FaceOffFull.play o (λ _, "BC") names ops = Some (s, out)
      ∧ FaceOffFull._called s = [Some (Some 0)]
      ∧ FaceOff._completedVotes (FaceOffFull._queue s) = 1%Z.
Proof.
  intros o names timer timeout ops.
  split; [done|]. split; [done|].
  destruct (faceOff_outcome 0 1 o (λ _, "BC") names ops eq_refl
              (Nat.neq_0_succ 0))
    as (s & out & Hplay & Hcalled).
  exists s, out. split; [done|].
  assert (FaceOffFull._called s = [Some (Some 0)]) as Hs.
  { apply (f_equal (λ x, match x with
                         | Some (s, _) => FaceOffFull._called s
                         | None => []
                         end)) in Hplay.
    cbv beta iota in Hplay. rewrite <- Hplay. vm_compute. reflexivity. }
  split; [done|].
  destruct Hcalled as [Hnone|(p & _ & _ & _ & Hcv)]; [congruence|done].
Defined.
